(** * jslink: the module collection (src/collection.js) and its helpers (src/lib.js)

    A shallow embedding of [ModuleCollection], [ModuleCollection.Module] and
    [ModuleCollection.Dependency], followed by the properties of the
    dependency graph engine: edge validation, connectivity indexing,
    cycle-detecting topological sort, analysis and cloning.

    Conventions of the embedding.
    - A JavaScript string is a [string] of Latin-1 code units; a counter is a
      [nat].
    - A JavaScript object used as a dictionary is a [jsobj]: the list of its own
      enumerable properties in [for..in] order.  Properties inherited from
      [Object.prototype] are visible to reads ([js_get]) exactly as in the
      source, which never uses [hasOwnProperty]; the built-in objects
      themselves are taken as the engine provides them.
    - Module objects live in the heap of their collection: a reference to a
      module is the key under which [modules] stores it ([get] is the only
      place of the collection that allocates a module and it stores the
      object at once).
    - A [throw] is an outcome next to the state reached when it was raised:
      mutations made before the exception stay.
    - The two recursive traversals take a budget for their depth; [serialize]
      gives them one more than the number of modules, which is never used up
      ([serialize_not_stuck]). *)

From Stdlib Require Import String Ascii List Bool Arith Lia NArith Relations Permutation.
From Stdlib Require Import DecimalString.
Import ListNotations.
Local Open Scope string_scope.
Local Open Scope list_scope.
Local Open Scope nat_scope.

Set Implicit Arguments.

(** ** JavaScript values and objects *)

Module JS.

(** White space and line terminators removed by [String.prototype.trim],
    within Latin-1: TAB, LF, VT, FF, CR, SP and NBSP. *)
Definition is_ws (c : ascii) : bool :=
  let n := nat_of_ascii c in
  ((9 <=? n)%nat && (n <=? 13)%nat) || (n =? 32)%nat || (n =? 160)%nat.

Fixpoint trim_left (s : string) : string :=
  match s with
  | EmptyString => EmptyString
  | String c s' => if is_ws c then trim_left s' else s
  end.

Fixpoint trim_right (s : string) : string :=
  match s with
  | EmptyString => EmptyString
  | String c s' =>
      match trim_right s' with
      | EmptyString => if is_ws c then EmptyString else String c EmptyString
      | t => String c t
      end
  end.

Definition trim (s : string) : string := trim_right (trim_left s).

(** Built-in values reachable through [Object.prototype]: what [.name] and
    [String(..)] give for them. *)
Record builtin := {
  builtin_name : option string;
  builtin_string : string
}.

Definition native (n : string) : builtin :=
  {| builtin_name := Some n;
     builtin_string := String.append "function " (String.append n "() { [native code] }") |}.

(** The properties every plain object inherits (Node.js). The key
    [__proto__] is an accessor whose getter yields [Object.prototype]. *)
Definition Object_prototype : list (string * builtin) :=
  [ ("constructor", native "Object");
    ("__defineGetter__", native "__defineGetter__");
    ("__defineSetter__", native "__defineSetter__");
    ("hasOwnProperty", native "hasOwnProperty");
    ("__lookupGetter__", native "__lookupGetter__");
    ("__lookupSetter__", native "__lookupSetter__");
    ("isPrototypeOf", native "isPrototypeOf");
    ("propertyIsEnumerable", native "propertyIsEnumerable");
    ("toString", native "toString");
    ("valueOf", native "valueOf");
    ("toLocaleString", native "toLocaleString");
    ("__proto__", {| builtin_name := None; builtin_string := "[object Object]" |}) ].

(** Own enumerable properties, in enumeration order. *)
Definition jsobj (V : Type) := list (string * V).

Fixpoint own {V} (o : jsobj V) (k : string) : option V :=
  match o with
  | [] => None
  | (k', v) :: o' => if String.eqb k' k then Some v else own o' k
  end.

Definition inherited (k : string) : option builtin := own Object_prototype k.

Definition keys {V} (o : jsobj V) : list string := map fst o.
Definition values {V} (o : jsobj V) : list V := map snd o.

(** The result of reading [o[k]]. *)
Inductive slot (V : Type) :=
| Own (v : V)
| Proto (b : builtin)
| Missing.
Arguments Proto {V} b.
Arguments Missing {V}.

Definition js_get {V} (o : jsobj V) (k : string) : slot V :=
  match own o k with
  | Some v => Own v
  | None => match inherited k with
            | Some b => Proto b
            | None => Missing
            end
  end.

(** Every value the collection stores in a dictionary is an object, and so
    is every inherited member: a slot is truthy unless it is missing. *)
Definition truthy {V} (s : slot V) : bool :=
  match s with Missing => false | _ => true end.

(** An array index is a canonical decimal numeral below 2^32 - 1; such keys
    are enumerated first, in ascending numeric order. *)
Definition digit (c : ascii) : option N :=
  let n := N_of_ascii c in
  if ((48 <=? n) && (n <=? 57))%N then Some (n - 48)%N else None.

Fixpoint digits (s : string) (acc : N) : option N :=
  match s with
  | EmptyString => Some acc
  | String c s' =>
      match digit c with
      | Some d => digits s' (10 * acc + d)%N
      | None => None
      end
  end.

Definition array_index (k : string) : option N :=
  match k with
  | EmptyString => None
  | String "0" EmptyString => Some 0%N
  | String "0" _ => None
  | String _ _ =>
      match digits k 0 with
      | Some n => if (n <? 4294967295)%N then Some n else None
      | None => None
      end
  end.

(** Where a fresh key lands among the existing ones. *)
Fixpoint insert_index {V} (n : N) (k : string) (v : V) (o : jsobj V) : jsobj V :=
  match o with
  | [] => [(k, v)]
  | (k', v') :: o' =>
      match array_index k' with
      | Some n' => if (n' <? n)%N then (k', v') :: insert_index n k v o'
                   else (k, v) :: o
      | None => (k, v) :: o
      end
  end.

Definition update {V} (o : jsobj V) (k : string) (f : V -> V) : jsobj V :=
  map (fun e => if String.eqb (fst e) k then (fst e, f (snd e)) else e) o.

(** [o[k] = v] for an object value [v]: an existing own property is
    overwritten in place; [__proto__] runs the inherited setter and creates
    no own property; a fresh key is enumerated after the older ones, array
    indices apart. *)
Definition js_set {V} (k : string) (v : V) (o : jsobj V) : jsobj V :=
  match own o k with
  | Some _ => update o k (fun _ => v)
  | None =>
      if String.eqb k "__proto__" then o
      else match array_index k with
           | Some n => insert_index n k v o
           | None => o ++ [(k, v)]
           end
  end.

End JS.
Import JS.

(** ** Regular expressions *)

Module RegExp.

(** The patterns of the regular expression literals of lib.js and
    collection.js. A quantifier of these literals applies to a character
    atom ([\.+], [\d+], [[a-z]*], [\=?], [\.{1,2}], [\s*]) or, as [?], to a
    group; all are greedy. *)
Inductive pattern :=
| Empty
| Char (p : ascii -> bool)
| Seq (a b : pattern)
| Alt (a b : pattern)
| Many (min : nat) (max : option nat) (p : ascii -> bool)
| Opt (a : pattern)
| Group (n : nat) (a : pattern)
| Bol
| Eol.

(** A state of the matcher: the index reached, the input from there on, and
    the captures of the groups that took part. *)
Record state := {
  endIndex : nat;
  rest : string;
  captures : list (nat * string)
}.

(** The capture of group [n]; [None] is [undefined]. *)
Definition capture (n : nat) (x : state) : option string :=
  match find (fun e => Nat.eqb (fst e) n) (captures x) with
  | Some e => Some (snd e)
  | None => None
  end.

Fixpoint groups (a : pattern) : list nat :=
  match a with
  | Seq a b | Alt a b => groups a ++ groups b
  | Opt a => groups a
  | Group n a => n :: groups a
  | _ => []
  end.

Definition forget_groups (gs : list nat) (x : state) : state :=
  {| endIndex := endIndex x; rest := rest x;
     captures :=
       filter (fun e => negb (existsb (Nat.eqb (fst e)) gs)) (captures x) |}.

Definition leq_max (n : nat) (max : option nat) : bool :=
  match max with Some m => n <=? m | None => true end.

(** The quantified character atom: as many characters as allowed first,
    then fewer. [n] counts the characters taken, [s] is the input left. *)
Fixpoint many (min : nat) (max : option nat) (p : ascii -> bool)
    (k : state -> option state) (n : nat) (x : state) (s : string) {struct s}
  : option state :=
  let here := if min <=? n then k x else None in
  match s with
  | String c t =>
      if p c && leq_max (S n) max then
        match many min max p k (S n)
                {| endIndex := S (endIndex x); rest := t;
                   captures := captures x |} t with
        | Some z => Some z
        | None => here
        end
      else here
  | EmptyString => here
  end.

(** The matcher of a pattern, with the continuation [k] for what follows:
    the first success in backtracking order. An optional group that matches
    the empty string does not take part. *)
Fixpoint run (a : pattern) (x : state) (k : state -> option state)
  : option state :=
  match a with
  | Empty => k x
  | Char p =>
      match rest x with
      | String c t =>
          if p c
          then k {| endIndex := S (endIndex x); rest := t;
                    captures := captures x |}
          else None
      | EmptyString => None
      end
  | Seq a b => run a x (fun y => run b y k)
  | Alt a b =>
      match run a x k with
      | Some z => Some z
      | None => run b x k
      end
  | Many min max p => many min max p k 0 x (rest x)
  | Opt a =>
      match run a (forget_groups (groups a) x)
              (fun y => if endIndex y =? endIndex x then None else k y) with
      | Some z => Some z
      | None => k x
      end
  | Group n a =>
      run a x
        (fun y =>
           k {| endIndex := endIndex y; rest := rest y;
                captures :=
                  (n, substring 0 (endIndex y - endIndex x) (rest x))
                  :: captures y |})
  | Bol => if endIndex x =? 0 then k x else None
  | Eol => match rest x with EmptyString => k x | _ => None end
  end.

(** A match: where it starts and the state at its end. *)
Record result := {
  index : nat;
  final : state
}.

(** The first match at or after the index [i], [s] being the input from
    [i] on. *)
Fixpoint exec_from (a : pattern) (i : nat) (s : string) : option result :=
  match run a {| endIndex := i; rest := s; captures := [] |} Some with
  | Some y => Some {| index := i; final := y |}
  | None =>
      match s with
      | String _ t => exec_from a (S i) t
      | EmptyString => None
      end
  end.

(** [a.test(s)], from [lastIndex] 0. *)
Definition test (a : pattern) (s : string) : bool :=
  match exec_from a 0 s with Some _ => true | None => false end.

(** [s.replace(a, f)] for a pattern with the [g] flag, [s] being the input
    from [i] on: every match is replaced by what [f] makes of the matched
    text and the captures; after an empty match the search moves one
    character on. *)
Fixpoint replace_all_from (fuel : nat) (a : pattern)
    (f : string -> state -> string) (i : nat) (s : string) : string :=
  match fuel with
  | 0 => s
  | S fuel' =>
      match exec_from a i s with
      | Some r =>
          let len := endIndex (final r) - index r in
          let tail :=
            if len =? 0 then
              match rest (final r) with
              | String c t =>
                  String c
                    (replace_all_from fuel' a f (S (endIndex (final r))) t)
              | EmptyString => EmptyString
              end
            else replace_all_from fuel' a f (endIndex (final r))
                   (rest (final r)) in
          String.append (substring 0 (index r - i) s)
            (String.append (f (substring (index r - i) len s) (final r)) tail)
      | None => s
      end
  end.

Definition replace_all (a : pattern) (f : string -> state -> string)
    (s : string) : string :=
  replace_all_from (S (String.length s)) a f 0 s.

(** Character atoms and classes, within Latin-1. *)
Definition chr (c : ascii) : ascii -> bool := Ascii.eqb c.

(** [.]: any character but a line terminator. *)
Definition any_but_newline (c : ascii) : bool :=
  negb (Ascii.eqb c "010" || Ascii.eqb c "013").

(** [\d] *)
Definition is_digit (c : ascii) : bool :=
  match digit c with Some _ => true | None => false end.

(** [[a-z]] under the [i] flag *)
Definition is_letter (c : ascii) : bool :=
  let n := nat_of_ascii c in
  ((65 <=? n) && (n <=? 90)) || ((97 <=? n) && (n <=? 122)).

(** A letter of the pattern under the [i] flag. *)
Definition lower (c : ascii) : ascii :=
  let n := nat_of_ascii c in
  if (65 <=? n) && (n <=? 90) then ascii_of_nat (n + 32) else c.

Definition chr_i (c : ascii) (x : ascii) : bool :=
  Ascii.eqb (lower x) (lower c).

End RegExp.

(** ** Errors and outcomes *)

(** What the source throws. [TypeError] stands for the [TypeError] objects
    of lib.js and collection.js and for those the engine raises on a call or
    a property read through [undefined]; the other constructors stand for the
    thrown message strings and carry what the message is formatted with. *)
Inductive error :=
| TypeError
| DuplicateDefinition (name source previous : string)
| SelfDependency (name : string)
| DuplicateEdge (name requirement : string)
| CyclicDependency (name : string).

(** A call returns, throws, or is [Stuck]: a dangling reference or the end
    of the recursion budget, neither of which a collection built through its
    interface ever meets (see [connect_not_stuck], [serialize_not_stuck]). *)
Inductive outcome (A : Type) :=
| Return (a : A)
| Throw (e : error)
| Stuck.
Arguments Throw {A} e.
Arguments Stuck {A}.

(** ** Module objects *)

(** A reference to a module of the heap: the key that holds it. *)
Definition ref := string.

Record ModuleObj := {
  name : string;
  requires : jsobj ref;
  numberOfRequirements : nat;
  dependants : jsobj ref;
  numberOfDependants : nat;
  exports : list string;
  source : option string;
  (* transient traversal state *)
  topologicalMarker : bool;
  sorting : bool;
  indexing : bool;
  index : option nat
}.

(** The values that reach [lib.stringLike] and the constructors. *)
Inductive jsval :=
| JUndefined
| JString (s : string)
| JModule (m : ModuleObj).

(** ** lib.js *)

Module lib.

(** [stringLike]: a falsy argument throws, anything else is converted with
    [toString] ([ModuleObj.toString] gives the name) and trimmed. *)
Definition stringLike (str : jsval) : outcome string :=
  match str with
  | JUndefined => Throw TypeError
  | JString "" => Throw TypeError
  | JString s => Return (trim s)
  | JModule m => Return (trim (name m))
  end.

(** The values the functions of lib.js are given and return: [undefined],
    [null], booleans, natural numbers, strings, module objects and arrays
    of such values. *)
#[warnings="-register-all"]
Inductive any :=
| AUndefined
| ANull
| ABool (b : bool)
| ANumber (n : nat)
| AString (s : string)
| AModule (m : ModuleObj)
| AArray (l : list any).

Definition truthy (v : any) : bool :=
  match v with
  | AUndefined | ANull => false
  | ABool b => b
  | ANumber n => negb (n =? 0)
  | AString s => negb (String.eqb s "")
  | AModule _ | AArray _ => true
  end.

(** The conversion to a string: a module object gives its name
    ([Module.prototype.toString]), an array its elements joined by commas,
    [null] and [undefined] elements giving nothing. *)
Fixpoint to_string (v : any) : string :=
  match v with
  | AUndefined => "undefined"
  | ANull => "null"
  | ABool true => "true"
  | ABool false => "false"
  | ANumber n => NilZero.string_of_uint (Nat.to_uint n)
  | AString s => s
  | AModule m => name m
  | AArray l =>
      (fix join (l : list any) : string :=
         match l with
         | [] => ""
         | x :: l' =>
             let e := match x with
                      | AUndefined | ANull => ""
                      | _ => to_string x
                      end in
             match l' with
             | [] => e
             | _ => String.append e (String.append "," (join l'))
             end
         end) l
  end.

Definition E : string := "".
Definition SPC : string := " ".
Definition PLURAL_SUFFIX : string := "s".

(** [plural(num, word)] *)
Definition plural (num : nat) (word : string) : string :=
  String.append (to_string (ANumber num))
    (String.append SPC
       (if 1 <? num then String.append word PLURAL_SUFFIX else word)).

(** [/\{(\d+)\}/g] *)
Definition placeholder : RegExp.pattern :=
  RegExp.Seq (RegExp.Char (RegExp.chr "{"))
    (RegExp.Seq
       (RegExp.Group 1 (RegExp.Many 1 None RegExp.is_digit))
       (RegExp.Char (RegExp.chr "}"))).

(** What [arguments[i]] gives. *)
Definition argument (args : list any) (i : N) : any :=
  if (i <? N.of_nat (length args))%N then nth (N.to_nat i) args AUndefined
  else AUndefined.

(** [format(token, params...)], given its [arguments]: the parameters are
    the elements of the second argument when it is an array, the arguments
    after the token otherwise; without a parameter, or when the token is not
    a non-empty string, nothing is replaced. *)
Definition format (arguments : list any) : any :=
  let token := nth 0 arguments AUndefined in
  let args := match arguments with
              | _ :: AArray params :: _ => ANumber 0 :: params
              | _ => arguments
              end in
  let replacer (str : string) (y : RegExp.state) : string :=
    let i := match RegExp.capture 1 y with
             | Some i => digits i 0
             | None => None
             end in
    match i with
    | Some i =>
        match argument args (i + 1) with
        | ANull => E
        | v => to_string v
        end
    | None => to_string AUndefined
    end in
  match token with
  | AString t =>
      if negb (String.eqb t "") && negb (length args - 1 =? 0)
      then AString (RegExp.replace_all placeholder replacer t)
      else AString t
  | _ => if truthy token then token else AString E
  end.

(** [copy(sink, source)] *)
Definition copy {V} (sink source : jsobj V) : jsobj V :=
  fold_left (fun sink e => js_set (fst e) (snd e) sink) source sink.

(** [fill(sink, source)], on dictionaries of values: a value stored under
    [hasOwnProperty] shadows the method [fill] calls. *)
Fixpoint fill (sink source : jsobj any) : jsobj any * outcome unit :=
  match source with
  | [] => (sink, Return tt)
  | (prop, v) :: source' =>
      match own sink "hasOwnProperty" with
      | Some _ => (sink, Throw TypeError)
      | None =>
          match own sink prop with
          | Some _ => fill sink source'
          | None => fill (js_set prop v sink) source'
          end
      end
  end.

(** [/^\-\-(A)\=?(B)?$/i], where [A] is [[a-z]*] and [B] is [[\s\S]*] *)
Definition option_pattern : RegExp.pattern :=
  RegExp.Seq RegExp.Bol
    (RegExp.Seq (RegExp.Char (RegExp.chr "-"))
       (RegExp.Seq (RegExp.Char (RegExp.chr "-"))
          (RegExp.Seq (RegExp.Group 1 (RegExp.Many 0 None RegExp.is_letter))
             (RegExp.Seq (RegExp.Many 0 (Some 1) (RegExp.chr "="))
                (RegExp.Seq
                   (RegExp.Opt
                      (RegExp.Group 2 (RegExp.Many 0 None (fun _ => true))))
                   RegExp.Eol))))).

(** The replacer of [argsArray2Object], on the captures of a match: a
    missing value is [true]; an option met again collects its values in an
    array. *)
Definition replacer (y : RegExp.state) (out : jsobj any)
  : outcome (jsobj any) :=
  let name := match RegExp.capture 1 y with Some n => n | None => "undefined" end in
  let value := match RegExp.capture 2 y with
               | Some v => AString v
               | None => ABool true
               end in
  match own out "hasOwnProperty" with
  | Some _ => Throw TypeError
  | None =>
      match own out name with
      | Some (AArray l) => Return (update out name (fun _ => AArray (l ++ [value])))
      | Some v => Return (update out name (fun _ => AArray [v; value]))
      | None => Return (js_set name value out)
      end
  end.

(** [argsArray2Object(args)]: the arguments left in [args] and the object
    of options; the loop ends at the first empty argument. *)
Fixpoint argsArray2Object_from (args : list string) (out : jsobj any)
  : list string * outcome (jsobj any) :=
  match args with
  | [] => ([], Return out)
  | arg :: args' =>
      if String.eqb arg "" then (args', Return out)
      else
        match RegExp.exec_from option_pattern 0 arg with
        | Some r =>
            match replacer (RegExp.final r) out with
            | Return out' => argsArray2Object_from args' out'
            | other => (args', other)
            end
        | None => argsArray2Object_from args' out
        end
  end.

Definition argsArray2Object (args : list string)
  : list string * outcome (jsobj any) :=
  argsArray2Object_from args [].

(** [/(^|.\/)\.+[^\/\.]/g] *)
Definition hidden_pattern : RegExp.pattern :=
  RegExp.Seq
    (RegExp.Group 1
       (RegExp.Alt RegExp.Bol
          (RegExp.Seq (RegExp.Char RegExp.any_but_newline)
             (RegExp.Char (RegExp.chr "/")))))
    (RegExp.Seq (RegExp.Many 1 None (RegExp.chr "."))
       (RegExp.Char
          (fun c => negb (Ascii.eqb c "/" || Ascii.eqb c ".")))).

Definition isUnixHiddenPath (path : string) : bool :=
  RegExp.test hidden_pattern path.

(** [/(^\.{1,2}$)|(\/$)/] *)
Definition directory_pattern : RegExp.pattern :=
  RegExp.Alt
    (RegExp.Group 1
       (RegExp.Seq RegExp.Bol
          (RegExp.Seq (RegExp.Many 1 (Some 2) (RegExp.chr ".")) RegExp.Eol)))
    (RegExp.Group 2 (RegExp.Seq (RegExp.Char (RegExp.chr "/")) RegExp.Eol)).

Definition isUnixDirectory (path : string) : bool :=
  RegExp.test directory_pattern path.

(** [/\s*true\s*/ig] *)
Definition true_pattern : RegExp.pattern :=
  RegExp.Seq (RegExp.Many 0 None is_ws)
    (RegExp.Seq (RegExp.Char (RegExp.chr_i "t"))
       (RegExp.Seq (RegExp.Char (RegExp.chr_i "r"))
          (RegExp.Seq (RegExp.Char (RegExp.chr_i "u"))
             (RegExp.Seq (RegExp.Char (RegExp.chr_i "e"))
                (RegExp.Many 0 None is_ws))))).

(** [parseJSONBooleans(obj, booleans)], on an object of values and an
    array of property names. *)
Fixpoint parseJSONBooleans (obj : jsobj any) (booleans : list string)
  : jsobj any * outcome unit :=
  match booleans with
  | [] => (obj, Return tt)
  | prop :: booleans' =>
      match own obj "hasOwnProperty" with
      | Some _ => (obj, Throw TypeError)
      | None =>
          match own obj prop with
          | Some v =>
              parseJSONBooleans
                (update obj prop
                   (fun _ => ABool (RegExp.test true_pattern (to_string v))))
                booleans'
          | None => parseJSONBooleans obj booleans'
          end
      end
  end.

End lib.

Definition js_truthy (v : jsval) : bool :=
  match v with
  | JUndefined => false
  | JString s => negb (String.eqb s "")
  | JModule _ => true
  end.

(** ** ModuleCollection.Module *)

Module ModuleMethods.

Definition with_source (s : option string) (m : ModuleObj) : ModuleObj :=
  {| name := name m; requires := requires m;
     numberOfRequirements := numberOfRequirements m;
     dependants := dependants m; numberOfDependants := numberOfDependants m;
     exports := exports m; source := s;
     topologicalMarker := topologicalMarker m; sorting := sorting m;
     indexing := indexing m; index := index m |}.

Definition with_exports (e : list string) (m : ModuleObj) : ModuleObj :=
  {| name := name m; requires := requires m;
     numberOfRequirements := numberOfRequirements m;
     dependants := dependants m; numberOfDependants := numberOfDependants m;
     exports := e; source := source m;
     topologicalMarker := topologicalMarker m; sorting := sorting m;
     indexing := indexing m; index := index m |}.

(** [this.requires[key] = r; this.numberOfRequirements++] *)
Definition add_requirement (key : string) (r : ref) (m : ModuleObj) : ModuleObj :=
  {| name := name m; requires := js_set key r (requires m);
     numberOfRequirements := S (numberOfRequirements m);
     dependants := dependants m; numberOfDependants := numberOfDependants m;
     exports := exports m; source := source m;
     topologicalMarker := topologicalMarker m; sorting := sorting m;
     indexing := indexing m; index := index m |}.

(** [this.dependants[key] = r; this.numberOfDependants++] *)
Definition add_dependant (key : string) (r : ref) (m : ModuleObj) : ModuleObj :=
  {| name := name m; requires := requires m;
     numberOfRequirements := numberOfRequirements m;
     dependants := js_set key r (dependants m);
     numberOfDependants := S (numberOfDependants m);
     exports := exports m; source := source m;
     topologicalMarker := topologicalMarker m; sorting := sorting m;
     indexing := indexing m; index := index m |}.

Definition with_topologicalMarker (b : bool) (m : ModuleObj) : ModuleObj :=
  {| name := name m; requires := requires m;
     numberOfRequirements := numberOfRequirements m;
     dependants := dependants m; numberOfDependants := numberOfDependants m;
     exports := exports m; source := source m;
     topologicalMarker := b; sorting := sorting m;
     indexing := indexing m; index := index m |}.

Definition with_sorting (b : bool) (m : ModuleObj) : ModuleObj :=
  {| name := name m; requires := requires m;
     numberOfRequirements := numberOfRequirements m;
     dependants := dependants m; numberOfDependants := numberOfDependants m;
     exports := exports m; source := source m;
     topologicalMarker := topologicalMarker m; sorting := b;
     indexing := indexing m; index := index m |}.

Definition with_indexing (b : bool) (m : ModuleObj) : ModuleObj :=
  {| name := name m; requires := requires m;
     numberOfRequirements := numberOfRequirements m;
     dependants := dependants m; numberOfDependants := numberOfDependants m;
     exports := exports m; source := source m;
     topologicalMarker := topologicalMarker m; sorting := sorting m;
     indexing := b; index := index m |}.

Definition with_index (i : option nat) (m : ModuleObj) : ModuleObj :=
  {| name := name m; requires := requires m;
     numberOfRequirements := numberOfRequirements m;
     dependants := dependants m; numberOfDependants := numberOfDependants m;
     exports := exports m; source := source m;
     topologicalMarker := topologicalMarker m; sorting := sorting m;
     indexing := indexing m; index := i |}.

(** How [lib.format] prints an argument. *)
Definition display (v : jsval) : string :=
  match v with
  | JUndefined => "undefined"
  | JString s => s
  | JModule m => name m
  end.

Definition defined (this : ModuleObj) : bool :=
  match source this with Some _ => true | None => false end.

(** [define]: redefinition throws, otherwise the trimmed source is stored. *)
Definition define (src : jsval) (this : ModuleObj) : outcome ModuleObj :=
  match source this with
  | Some previous => Throw (DuplicateDefinition (name this) (display src) previous)
  | None =>
      match lib.stringLike src with
      | Return s => Return (with_source (Some s) this)
      | Throw e => Throw e
      | Stuck => Stuck
      end
  end.

(** [new ModuleCollection.Module(name, source)] *)
Definition new (nm src : jsval) : outcome ModuleObj :=
  match lib.stringLike nm with
  | Return n =>
      if String.eqb n "" then Throw TypeError
      else
        let this :=
          {| name := n; requires := []; numberOfRequirements := 0;
             dependants := []; numberOfDependants := 0;
             exports := []; source := None;
             topologicalMarker := false; sorting := false;
             indexing := false; index := None |} in
        if js_truthy src then define src this else Return this
  | Throw e => Throw e
  | Stuck => Stuck
  end.

Definition source_val (this : ModuleObj) : jsval :=
  match source this with Some s => JString s | None => JUndefined end.

(** [clone]: a fresh module of the same name and source. *)
Definition clone (this : ModuleObj) : outcome ModuleObj :=
  new (JString (name this)) (source_val this).

(** [addExport]: the tag defaults to the module's name; no duplicates. *)
Definition addExport (meta : jsval) (this : ModuleObj) : ModuleObj :=
  let tag := if js_truthy meta then display meta else name this in
  if existsb (String.eqb tag) (exports this) then this
  else with_exports (exports this ++ [tag]) this.

Definition toString (this : ModuleObj) : string := name this.

End ModuleMethods.

(** ** ModuleCollection *)

Record Dependency := {
  dep_module : ref;
  dep_require : ref
}.

Record ModuleCollection := {
  modules : jsobj ModuleObj;
  numberOfModules : nat;
  sources : jsobj (jsobj ref);
  dependencies : list Dependency;
  numberOfDependencies : nat;
  _recentModule : option ref;
  _recentDependency : option Dependency
}.

(** [new ModuleCollection()] *)
Definition empty : ModuleCollection :=
  {| modules := []; numberOfModules := 0; sources := [];
     dependencies := []; numberOfDependencies := 0;
     _recentModule := None; _recentDependency := None |}.

Definition with_modules (h : jsobj ModuleObj) (c : ModuleCollection) :=
  {| modules := h; numberOfModules := numberOfModules c; sources := sources c;
     dependencies := dependencies c;
     numberOfDependencies := numberOfDependencies c;
     _recentModule := _recentModule c;
     _recentDependency := _recentDependency c |}.

Definition with_numberOfModules (n : nat) (c : ModuleCollection) :=
  {| modules := modules c; numberOfModules := n; sources := sources c;
     dependencies := dependencies c;
     numberOfDependencies := numberOfDependencies c;
     _recentModule := _recentModule c;
     _recentDependency := _recentDependency c |}.

Definition with_sources (s : jsobj (jsobj ref)) (c : ModuleCollection) :=
  {| modules := modules c; numberOfModules := numberOfModules c; sources := s;
     dependencies := dependencies c;
     numberOfDependencies := numberOfDependencies c;
     _recentModule := _recentModule c;
     _recentDependency := _recentDependency c |}.

Definition with_recentModule (r : option ref) (c : ModuleCollection) :=
  {| modules := modules c; numberOfModules := numberOfModules c;
     sources := sources c; dependencies := dependencies c;
     numberOfDependencies := numberOfDependencies c;
     _recentModule := r;
     _recentDependency := _recentDependency c |}.

(** The value [get] hands back: a module of the heap, a member of
    [Object.prototype] found under the name, or the falsy [anyway]. *)
Inductive value :=
| VModule (r : ref)
| VBuiltin (b : builtin)
| VFalsy.

Definition heap := jsobj ModuleObj.

(** [Module.prototype.require], on the heap that holds both modules. The
    adjacency dictionaries are keyed by the string conversion of the module
    stored, its name. *)
Definition require (this : ref) (requirement : value) (h : heap)
  : heap * outcome unit :=
  match own h this with
  | None => (h, Stuck)
  | Some m =>
      match requirement with
      | VModule r =>
          match own h r with
          | None => (h, Stuck)
          | Some q =>
              if String.eqb (name m) (name q)
              then (h, Throw (SelfDependency (name m)))
              else if truthy (js_get (requires m) (name q))
                      || truthy (js_get (dependants q) (name m))
              then (h, Throw (DuplicateEdge (name m) (name q)))
              else
                let h1 := update h this (ModuleMethods.add_requirement (name q) r) in
                let h2 := update h1 r (ModuleMethods.add_dependant (name m) this) in
                (h2, Return tt)
          end
      | VBuiltin b =>
          match builtin_name b with
          | Some n =>
              if String.eqb (name m) n
              then (h, Throw (SelfDependency (name m)))
              else if truthy (js_get (requires m) (builtin_string b))
              then (h, Throw (DuplicateEdge (name m) n))
              else (h, Throw TypeError)
          | None =>
              if truthy (js_get (requires m) (builtin_string b))
              then (h, Throw (DuplicateEdge (name m) "undefined"))
              else (h, Throw TypeError)
          end
      | VFalsy => (h, Throw TypeError)
      end
  end.

(** [new ModuleCollection.Dependency(module, requirement)]: the edge is
    validated and stored by [module.require] before the record is filled. *)
Definition Dependency_new (module requirement : value) (h : heap)
  : heap * outcome Dependency :=
  match module with
  | VModule m =>
      match require m requirement h with
      | (h', Return _) =>
          match requirement with
          | VModule q => (h', Return {| dep_module := m; dep_require := q |})
          | _ => (h', Stuck)
          end
      | (h', Throw e) => (h', Throw e)
      | (h', Stuck) => (h', Stuck)
      end
  | _ => (h, Throw TypeError)
  end.

(** [get(name, anyway)]: the counter is incremented before the module is
    constructed, and the constructor may throw. *)
Definition get (nm : jsval) (anyway : bool) (this : ModuleCollection)
  : ModuleCollection * outcome value :=
  match lib.stringLike nm with
  | Return n =>
      match js_get (modules this) n with
      | Own _ => (this, Return (VModule n))
      | Proto b => (this, Return (VBuiltin b))
      | Missing =>
          if anyway then
            let this1 := with_numberOfModules (S (numberOfModules this)) this in
            match ModuleMethods.new (JString n) JUndefined with
            | Return m => (with_modules (js_set n m (modules this1)) this1,
                           Return (VModule n))
            | Throw e => (this1, Throw e)
            | Stuck => (this1, Stuck)
            end
          else (this, Return VFalsy)
      end
  | Throw e => (this, Throw e)
  | Stuck => (this, Stuck)
  end.

(** [getBySource(source)] reads [this.sources[source]]. *)
Definition getBySource (src : string) (this : ModuleCollection) : slot (jsobj ref) :=
  js_get (sources this) src.

(** The property key a source makes. *)
Definition source_key (s : option string) : string :=
  match s with Some s => s | None => "undefined" end.

(** [add(name, source)]: the registry is read under the module's source; when
    nothing is found there, a fresh dictionary is stored under the string
    conversion of the module, and the module is put in it under its source. *)
Definition add (nm src : jsval) (this : ModuleCollection)
  : ModuleCollection * outcome ref :=
  match get nm true this with
  | (this1, Return (VModule r)) =>
      match own (modules this1) r with
      | None => (this1, Stuck)
      | Some m =>
          match ModuleMethods.define src m with
          | Return m' =>
              let this2 :=
                with_recentModule (Some r)
                  (with_modules (update (modules this1) r (fun _ => m')) this1) in
              let k := source_key (source m') in
              match js_get (sources this2) k with
              | Own _ =>
                  (with_sources (update (sources this2) k (js_set k r)) this2,
                   Return r)
              | Proto _ =>
                  (* the property lands on the inherited built-in object,
                     outside the collection; Object.prototype refuses a new
                     prototype *)
                  if String.eqb k "__proto__" then (this2, Throw TypeError)
                  else (this2, Return r)
              | Missing =>
                  (with_sources
                     (js_set (ModuleMethods.toString m') (js_set k r [])
                        (sources this2)) this2,
                   Return r)
              end
          | Throw e => (this1, Throw e)
          | Stuck => (this1, Stuck)
          end
      end
  | (this1, Return _) => (this1, Throw TypeError)
  | (this1, Throw e) => (this1, Throw e)
  | (this1, Stuck) => (this1, Stuck)
  end.

(** [connect(module, dependency)]: both endpoints are looked up or created,
    then the edge is constructed, recorded and counted. *)
Definition connect (module dependency : jsval) (this : ModuleCollection)
  : ModuleCollection * outcome Dependency :=
  match get module true this with
  | (this1, Return m) =>
      match get dependency true this1 with
      | (this2, Return q) =>
          match Dependency_new m q (modules this2) with
          | (h, Return d) =>
              ({| modules := h; numberOfModules := numberOfModules this2;
                  sources := sources this2;
                  dependencies := dependencies this2 ++ [d];
                  numberOfDependencies := S (numberOfDependencies this2);
                  _recentModule := _recentModule this2;
                  _recentDependency := Some d |},
               Return d)
          | (h, Throw e) => (with_modules h this2, Throw e)
          | (h, Stuck) => (with_modules h this2, Stuck)
          end
      | (this2, Throw e) => (this2, Throw e)
      | (this2, Stuck) => (this2, Stuck)
      end
  | (this1, Throw e) => (this1, Throw e)
  | (this1, Stuck) => (this1, Stuck)
  end.

(** ** serialize: connectivity indexing and topological sort *)

(** A [for (item in object) f(object[item])] loop whose body may throw. *)
Fixpoint for_each {S A : Type} (f : A -> S -> S * outcome unit)
  (items : list A) (st : S) : S * outcome unit :=
  match items with
  | [] => (st, Return tt)
  | x :: items' =>
      match f x st with
      | (st', Return _) => for_each f items' st'
      | other => other
      end
  end.

(** The array of buckets the sort fills: its elements (a hole is [None])
    and the property a push through an [undefined] index would create. *)
Record SortStack := {
  elements : list (option (list ref));
  undefined_bucket : option (list ref)
}.

Definition array_get {A} (i : nat) (l : list (option A)) : option A :=
  match nth_error l i with
  | Some (Some v) => Some v
  | _ => None
  end.

(** [array[i] = v], the array growing with holes when [i] is past its end. *)
Fixpoint array_set {A} (i : nat) (v : A) (l : list (option A)) : list (option A) :=
  match i, l with
  | 0, [] => [Some v]
  | 0, _ :: l' => Some v :: l'
  | S i', [] => None :: array_set i' v []
  | S i', x :: l' => x :: array_set i' v l'
  end.

(** [(sortStack[index] || (sortStack[index] = [])).push(module)] *)
Definition push (i : option nat) (module : ref) (s : SortStack) : SortStack :=
  match i with
  | Some i =>
      let bucket := match array_get i (elements s) with
                    | Some b => b
                    | None => []
                    end in
      {| elements := array_set i (bucket ++ [module]) (elements s);
         undefined_bucket := undefined_bucket s |}
  | None =>
      let bucket := match undefined_bucket s with
                    | Some b => b
                    | None => []
                    end in
      {| elements := elements s; undefined_bucket := Some (bucket ++ [module]) |}
  end.

(** [collectionTopoSort(module, sortStack)]; [fuel] bounds the depth of the
    recursion. The bucket is chosen by the module's [index], which the sort
    never writes. *)
Fixpoint collectionTopoSort (fuel : nat) (module : ref) (st : heap * SortStack)
  : (heap * SortStack) * outcome unit :=
  match fuel with
  | 0 => (st, Stuck)
  | S fuel' =>
      match own (fst st) module with
      | None => (st, Stuck)
      | Some m =>
          if topologicalMarker m then
            ((update (fst st) module (ModuleMethods.with_topologicalMarker false),
              snd st),
             Throw (CyclicDependency (name m)))
          else if negb (sorting m) then
            let h1 := update (fst st) module (ModuleMethods.with_topologicalMarker true) in
            match for_each (collectionTopoSort fuel') (values (requires m))
                    (h1, snd st) with
            | ((h2, stack), Return _) =>
                let h3 := update h2 module
                            (fun x => ModuleMethods.with_sorting true
                                        (ModuleMethods.with_topologicalMarker false x)) in
                ((h3, push (index m) module stack), Return tt)
            | other => other
            end
          else (st, Return tt)
      end
  end.

(** [collectionAdjacencyIndex(module, index)] *)
Fixpoint collectionAdjacencyIndex (fuel : nat) (i : nat) (module : ref) (h : heap)
  : heap * outcome unit :=
  match fuel with
  | 0 => (h, Stuck)
  | S fuel' =>
      match own h module with
      | None => (h, Stuck)
      | Some m =>
          if negb (indexing m) then
            let h1 := update h module
                        (fun x => ModuleMethods.with_indexing true
                                    (ModuleMethods.with_index (Some i) x)) in
            match for_each (collectionAdjacencyIndex fuel' i)
                    (values (requires m)) h1 with
            | (h2, Return _) =>
                for_each (collectionAdjacencyIndex fuel' i)
                  (values (dependants m)) h2
            | other => other
            end
          else (h, Return tt)
      end
  end.

(** The state of the first loop of [serialize]. *)
Record SerializeState := {
  st_heap : heap;
  st_stack : SortStack;
  adjacencyPoint : nat
}.

(** One iteration of the first loop: index the module's component when the
    module is not indexed, then sort from the module when it is not sorted. *)
Definition serialize_step (fuel : nat) (key : string) (st : SerializeState)
  : SerializeState * outcome unit :=
  match own (st_heap st) key with
  | None => (st, Stuck)
  | Some module =>
      let '(h1, r1, ap1) :=
        if negb (indexing module)
        then (collectionAdjacencyIndex fuel (adjacencyPoint st) key (st_heap st),
              S (adjacencyPoint st))
        else ((st_heap st, Return tt), adjacencyPoint st) in
      match r1 with
      | Return _ =>
          match own h1 key with
          | None => ({| st_heap := h1; st_stack := st_stack st;
                        adjacencyPoint := ap1 |}, Stuck)
          | Some module' =>
              if negb (sorting module') then
                let '((h2, stack), r2) :=
                  collectionTopoSort fuel key (h1, st_stack st) in
                ({| st_heap := h2; st_stack := stack; adjacencyPoint := ap1 |}, r2)
              else ({| st_heap := h1; st_stack := st_stack st;
                       adjacencyPoint := ap1 |}, Return tt)
          end
      | other => ({| st_heap := h1; st_stack := st_stack st;
                     adjacencyPoint := ap1 |}, other)
      end
  end.

(** [delete modules[module].sorting; delete modules[module].indexing] *)
Definition clear_flags (m : ModuleObj) : ModuleObj :=
  ModuleMethods.with_indexing false (ModuleMethods.with_sorting false m).

(** [serialize()]: no module is deeper in a traversal than there are
    modules, which is the budget given to the two recursions. *)
Definition serialize (this : ModuleCollection)
  : ModuleCollection * outcome SortStack :=
  let fuel := S (length (modules this)) in
  let st0 := {| st_heap := modules this;
                st_stack := {| elements := []; undefined_bucket := None |};
                adjacencyPoint := 0 |} in
  match for_each (serialize_step fuel) (keys (modules this)) st0 with
  | (st, Return _) =>
      let h := fold_left (fun h k => update h k clear_flags)
                 (keys (st_heap st)) (st_heap st) in
      (with_modules h this, Return (st_stack st))
  | (st, Throw e) => (with_modules (st_heap st) this, Throw e)
  | (st, Stuck) => (with_modules (st_heap st) this, Stuck)
  end.

(** ** analyse *)

Record Stat := {
  orphanModules : list ref;
  definedModules : list ref;
  numberOfExports : nat
}.

(** The analyser collection.js registers. *)
Definition builtin_analyser (this : ModuleCollection) (stat : Stat) : Stat :=
  fold_left
    (fun stat prop =>
       match own (modules this) prop with
       | Some module =>
           {| orphanModules :=
                if ModuleMethods.defined module then orphanModules stat
                else orphanModules stat ++ [prop];
              definedModules :=
                if ModuleMethods.defined module then definedModules stat ++ [prop]
                else definedModules stat;
              numberOfExports := numberOfExports stat + length (exports module) |}
       | None => stat
       end)
    (keys (modules this))
    {| orphanModules := []; definedModules := []; numberOfExports := 0 |}.

Definition analysers : list (ModuleCollection -> Stat -> Stat) :=
  [builtin_analyser].

Definition analyse (this : ModuleCollection) : Stat :=
  fold_left (fun stat analyser => analyser this stat) analysers
    {| orphanModules := []; definedModules := []; numberOfExports := 0 |}.

(** ** clone *)

(** [clone()]: every module is added to a new collection under its name and
    source, then every dependency is connected again. *)
Definition clone (this : ModuleCollection) : outcome ModuleCollection :=
  let add_module (item : string) (c : ModuleCollection) :=
    match own (modules this) item with
    | None => (c, Stuck)
    | Some m =>
        match ModuleMethods.clone m with
        | Return m' =>
            match add (JModule m') (ModuleMethods.source_val m) c with
            | (c', Return _) => (c', Return tt)
            | (c', Throw e) => (c', Throw e)
            | (c', Stuck) => (c', Stuck)
            end
        | Throw e => (c, Throw e)
        | Stuck => (c, Stuck)
        end
    end in
  let add_edge (item : Dependency) (c : ModuleCollection) :=
    match own (modules this) (dep_module item),
          own (modules this) (dep_require item) with
    | Some m, Some q =>
        match connect (JModule m) (JModule q) c with
        | (c', Return _) => (c', Return tt)
        | (c', Throw e) => (c', Throw e)
        | (c', Stuck) => (c', Stuck)
        end
    | _, _ => (c, Stuck)
    end in
  match for_each add_module (keys (modules this)) empty with
  | (c, Return _) =>
      match for_each add_edge (dependencies this) c with
      | (c', Return _) => Return c'
      | (_, Throw e) => Throw e
      | (_, Stuck) => Stuck
      end
  | (_, Throw e) => Throw e
  | (_, Stuck) => Stuck
  end.

(** ** toString *)

(** The double quote and the line feed of the string literals. *)
Definition quote : string := String "034" EmptyString.
Definition newline : string := String "010" EmptyString.

(** [ModuleCollection.prototype.toString]: the graph in the DOT language,
    an edge for every dependant of a module, a node for a module without
    dependants. *)
Definition toString (this : ModuleCollection) : string :=
  let edge_token :=
    String.append quote (String.append "{0}" (String.append quote
      (String.append "->" (String.append quote (String.append "{1}"
        (String.append quote (String.append ";" newline))))))) in
  String.append
    (fold_left
       (fun out key =>
          match own (modules this) key with
          | Some module =>
              if negb (numberOfDependants module =? 0) then
                fold_left
                  (fun out dependant =>
                     String.append out
                       (lib.to_string
                          (lib.format [lib.AString edge_token;
                                       lib.AModule module;
                                       lib.AString dependant])))
                  (keys (dependants module)) out
              else
                String.append out
                  (String.append quote
                     (String.append (name module)
                        (String.append quote (String.append ";" newline))))
          | None => out
          end)
       (keys (modules this))
       (String.append "digraph jslink {" newline))
    "}".

(** [s.replace(/\"/g, "\\\"")] *)
Definition escape_quotes (s : string) : string :=
  RegExp.replace_all (RegExp.Char (RegExp.chr "034"))
    (fun _ _ => String "\" quote) s.

(** [ModuleCollection.Dependency.prototype.toString], the modules of the
    dependency being looked up in the heap. *)
Definition Dependency_toString (h : heap) (this : Dependency) : outcome string :=
  match own h (dep_module this), own h (dep_require this) with
  | Some module, Some requirement =>
      let token :=
        String.append quote (String.append "{0}" (String.append quote
          (String.append "->" (String.append quote (String.append "{1}"
            (String.append quote ";")))))) in
      Return
        (lib.to_string
           (lib.format
              [lib.AString token;
               lib.AString (escape_quotes (ModuleMethods.toString module));
               lib.AString (escape_quotes (ModuleMethods.toString requirement))]))
  | _, _ => Stuck
  end.

(** * Vocabulary of the properties *)

(** A string that is empty or begins with a character [trim] keeps. *)
Definition starts_black (s : string) : Prop :=
  match s with
  | EmptyString => True
  | String c _ => is_ws c = false
  end.

(** The module [get] allocates for a fresh name. *)
Definition fresh_module (n : string) : ModuleObj :=
  {| name := n; requires := []; numberOfRequirements := 0;
     dependants := []; numberOfDependants := 0;
     exports := []; source := None;
     topologicalMarker := false; sorting := false;
     indexing := false; index := None |}.


(** Whether the module stored under a key has a source. *)
Definition has_source (c : ModuleCollection) (k : string) : bool :=
  match own (modules c) k with
  | Some m => ModuleMethods.defined m
  | None => false
  end.

(** The number of export tags over all modules. *)
Definition exports_total (c : ModuleCollection) : nat :=
  list_sum (map (fun m => length (exports m)) (values (modules c))).

(** The number of export tags of the module under a key. *)
Definition exports_at (c : ModuleCollection) (k : string) : nat :=
  match own (modules c) k with
  | Some m => length (exports m)
  | None => 0
  end.

(** [get] and [connect] never give a module a source. *)
Definition source_kept (h h' : heap) : Prop :=
  forall k m', own h' k = Some m' ->
    match own h k with
    | Some m => source m' = source m
    | None => source m' = None
    end.


(** ** The graph held by a heap *)

(** A field of the module stored under a key, [d] when there is none. *)
Definition field {A} (f : ModuleObj -> A) (d : A) (h : heap) (k : ref) : A :=
  match own h k with
  | Some m => f m
  | None => d
  end.

Definition gray : heap -> ref -> bool := field topologicalMarker false.
Definition black : heap -> ref -> bool := field sorting false.
Definition indexed : heap -> ref -> bool := field indexing false.
Definition index_at : heap -> ref -> option nat := field index None.
Definition reqs : heap -> ref -> list ref :=
  field (fun m => values (requires m)) [].
Definition deps : heap -> ref -> list ref :=
  field (fun m => values (dependants m)) [].
Definition nbrs (h : heap) (k : ref) : list ref := reqs h k ++ deps h k.

(** [edge h a b]: the module [a] requires the module [b]. *)
Definition edge (h : heap) (a b : ref) : Prop := In b (reqs h a).

(** A directed path of at least one edge. *)
Definition path (h : heap) : ref -> ref -> Prop := clos_trans ref (edge h).

Definition acyclic (h : heap) : Prop := forall k, ~ path h k k.

(** Weak connectivity: edges followed in either direction. *)
Definition connected (h : heap) : ref -> ref -> Prop :=
  clos_refl_sym_trans ref (edge h).

(** Every module named in an adjacency dictionary is in the heap. *)
Definition refs_ok (h : heap) : Prop :=
  forall k r, In r (nbrs h k) -> In r (keys h).

(** The adjacency dictionaries mirror each other. *)
Definition mirrored (h : heap) : Prop :=
  forall a b, In b (reqs h a) <-> In a (deps h b).

(** Modules are stored under their names. *)
Definition names_ok (h : heap) : Prop :=
  forall k m, own h k = Some m -> name m = k.


(** What the interface of the collection maintains (see [built_wf]): names
    are the keys, non-blank, trimmed and not shadowed by [Object.prototype];
    the two adjacency dictionaries mirror each other inside the heap; the
    counter of modules is at least the number of modules stored. *)
Record wf (c : ModuleCollection) : Prop := {
  wf_keys : NoDup (keys (modules c));
  wf_name : names_ok (modules c);
  wf_key : forall k, In k (keys (modules c)) ->
             k <> "" /\ trim k = k /\ inherited k = None;
  wf_mirrored : mirrored (modules c);
  wf_count : length (modules c) <= numberOfModules c
}.

Fixpoint nodupb (l : list string) : bool :=
  match l with
  | [] => true
  | x :: l' => negb (existsb (String.eqb x) l') && nodupb l'
  end.

Definition is_none {A} (o : option A) : bool :=
  match o with None => true | Some _ => false end.

(** An executable check of [wf]. *)
Definition wfb (c : ModuleCollection) : bool :=
  nodupb (keys (modules c))
  && forallb
       (fun e =>
          String.eqb (name (snd e)) (fst e)
          && negb (String.eqb (fst e) "")
          && String.eqb (trim (fst e)) (fst e)
          && is_none (inherited (fst e))
          && forallb
               (fun r => match own (modules c) r with
                         | Some q => existsb (String.eqb (fst e)) (values (dependants q))
                         | None => false
                         end)
               (values (requires (snd e)))
          && forallb
               (fun r => match own (modules c) r with
                         | Some q => existsb (String.eqb (fst e)) (values (requires q))
                         | None => false
                         end)
               (values (dependants (snd e))))
       (modules c)
  && (length (modules c) <=? numberOfModules c).

(** No traversal marker is set on any module. *)
Definition unmarked (m : ModuleObj) : bool :=
  negb (topologicalMarker m) && negb (sorting m) && negb (indexing m).

Definition clean (h : heap) : Prop :=
  forall k m, own h k = Some m -> unmarked m = true.

Definition cleanb (h : heap) : bool := forallb (fun e => unmarked (snd e)) h.

(** The place of [x] in [l]; the length of [l] when [x] is not in it. *)
Fixpoint position (x : string) (l : list string) : nat :=
  match l with
  | [] => 0
  | y :: l' => if String.eqb y x then 0 else S (position x l')
  end.

Definition on_values {V} (f : V -> V) (o : jsobj V) : jsobj V :=
  map (fun e => (fst e, f (snd e))) o.

Definition no_sort_flags (m : ModuleObj) : ModuleObj :=
  ModuleMethods.with_sorting false (ModuleMethods.with_topologicalMarker false m).

Definition no_index_flags (m : ModuleObj) : ModuleObj :=
  ModuleMethods.with_index None (ModuleMethods.with_indexing false m).

(** Two heaps that differ at most in the markers of the sort. *)
Definition sort_frame (h h' : heap) : Prop :=
  on_values no_sort_flags h' = on_values no_sort_flags h.

(** Two heaps that differ at most in the markers of the indexing. *)
Definition index_frame (h h' : heap) : Prop :=
  on_values no_index_flags h' = on_values no_index_flags h.

Definition count (p : ModuleObj -> bool) (h : heap) : nat :=
  length (filter (fun e => p (snd e)) h).

Definition white (m : ModuleObj) : bool :=
  negb (topologicalMarker m) && negb (sorting m).

Definition unindexed (m : ModuleObj) : bool := negb (indexing m).

(** [reach h a b]: [b] is found from [a] along adjacency entries, of
    either dictionary. *)
Definition reach (h : heap) : ref -> ref -> Prop :=
  clos_refl_trans ref (fun a b => In b (nbrs h a)).

(** What an indexing traversal from [roots] with component id [i] does to
    the heap: only indexing markers change; indexed modules keep their id;
    every module newly indexed has id [i], is reached from a root, and has
    all its neighbours indexed. *)
Record indexing_run (i : nat) (roots : list ref) (h h' : heap) : Prop := {
  ir_frame : index_frame h h';
  ir_keep : forall x, indexed h x = true ->
              indexed h' x = true /\ index_at h' x = index_at h x;
  ir_new : forall x, indexed h' x = true -> indexed h x = false ->
             index_at h' x = Some i /\
             (forall y, In y (nbrs h x) -> indexed h' y = true) /\
             exists r, In r roots /\ reach h r x;
  ir_count : count unindexed h' <= count unindexed h
}.

(** The bucket of component [i], when the stack has one. *)
Definition bucket (s : SortStack) (i : nat) : option (list ref) :=
  array_get i (elements s).

(** Indexed modules have a component id below [bound], shared with all
    their neighbours. *)
Record index_closed (bound : nat) (h : heap) : Prop := {
  ic_nbrs : forall x y, indexed h x = true -> In y (nbrs h x) ->
              indexed h y = true /\ index_at h y = index_at h x;
  ic_bound : forall x, indexed h x = true ->
               exists j, index_at h x = Some j /\ j < bound
}.

(** The stack of a sort in progress: a sorted module is in the bucket of
    its component; a bucket holds, once each, sorted modules of its
    component only, each after all the modules it requires. *)
Record sorted_stack (bound : nat) (h : heap) (s : SortStack) : Prop := {
  ss_indexed : forall x, black h x = true -> indexed h x = true;
  ss_black : forall x i, black h x = true -> index_at h x = Some i ->
               exists b, bucket s i = Some b /\ In x b;
  ss_bucket : forall i b, bucket s i = Some b ->
                b <> [] /\ NoDup b /\
                forall x, In x b -> black h x = true /\ index_at h x = Some i;
  ss_order : forall i b x r, bucket s i = Some b -> In x b -> In r (reqs h x) ->
               In r b /\ position r b < position x b;
  ss_undefined : undefined_bucket s = None;
  ss_length : length (elements s) <= bound
}.

(** What a sort traversal that returns does to the heap: only sort markers
    change; the visiting markers are as before; sorted modules stay
    sorted, and no module that was being visited has become sorted. *)
Record sorting_run (h h' : heap) : Prop := {
  sr_frame : sort_frame h h';
  sr_gray : forall x, gray h' x = gray h x;
  sr_black : forall x, black h x = true -> black h' x = true;
  sr_new : forall x, black h' x = true -> black h x = false -> gray h x = false;
  sr_count : count white h' <= count white h
}.

(** What a sort traversal needs of the state it starts from. *)
Record sort_pre (bound : nat) (h : heap) (s : SortStack) (targets : list ref)
  : Prop := {
  sp_refs : refs_ok h;
  sp_names : names_ok h;
  sp_closed : index_closed bound h;
  sp_targets : forall r, In r targets -> In r (keys h) /\ indexed h r = true;
  sp_stack : sorted_stack bound h s
}.

(** What a sort traversal towards [targets] gives: when it returns, the
    targets are sorted; when it throws, only sort markers have changed and
    the error names a module on a cycle, provided every module being visited
    had a path to every target. *)
Definition sort_post (bound : nat) (h : heap) (s : SortStack)
    (targets : list ref) (res : (heap * SortStack) * outcome unit) : Prop :=
  match res with
  | ((h', s'), Return _) =>
      sorting_run h h' /\
      (forall r, In r targets -> black h' r = true) /\
      sorted_stack bound h' s'
  | ((h', _), Throw e) =>
      sort_frame h h' /\
      exists n, e = CyclicDependency n /\
        ((forall g r, gray h g = true -> In r targets -> path h g r) ->
         path h n n)
  | (_, Stuck) => False
  end.

Definition no_flags (m : ModuleObj) : ModuleObj :=
  no_index_flags (no_sort_flags m).

(** Two heaps that differ at most in traversal markers. *)
Definition marker_frame (h h' : heap) : Prop :=
  on_values no_flags h' = on_values no_flags h.

(** The invariant of the first loop of [serialize], over the heap [h0] it
    started from and the keys [done] it has been through. *)
Record serialize_inv (h0 : heap) (done : list ref) (st : SerializeState)
  : Prop := {
  si_frame : marker_frame h0 (st_heap st);
  si_gray : forall x, gray (st_heap st) x = false;
  si_closed : index_closed (adjacencyPoint st) (st_heap st);
  si_stack : sorted_stack (adjacencyPoint st) (st_heap st) (st_stack st);
  si_done : forall k, In k done -> black (st_heap st) k = true;
  si_component : forall x y,
      indexed (st_heap st) x = true -> indexed (st_heap st) y = true ->
      index_at (st_heap st) x = index_at (st_heap st) y -> connected h0 x y;
  si_ids : forall j, j < adjacencyPoint st ->
      exists x, indexed (st_heap st) x = true /\ index_at (st_heap st) x = Some j
}.

(** What one run of the first loop of [serialize] over some keys gives. *)
Definition loop_post (h0 : heap) (done : list ref)
    (res : SerializeState * outcome unit) : Prop :=
  match res with
  | (st', Return _) => serialize_inv h0 done st'
  | (st', Throw e) =>
      (exists n, e = CyclicDependency n /\ path h0 n n) /\
      marker_frame h0 (st_heap st') /\
      exists k, indexed (st_heap st') k = true
  | (_, Stuck) => False
  end.

(** What the buckets returned by [serialize] are for the graph of [h0]:
    non-empty, together they hold every module once, two modules share a
    bucket exactly when they are connected, and within a bucket a module
    comes after the modules it requires. *)
Record bucketing (h0 : heap) (buckets : list (list ref)) : Prop := {
  bk_nonempty : forall b, In b buckets -> b <> [];
  bk_nodup : NoDup (concat buckets);
  bk_cover : forall k, In k (concat buckets) <-> In k (keys h0);
  bk_component : forall x y, In x (keys h0) -> In y (keys h0) ->
      ((exists b, In b buckets /\ In x b /\ In y b) <-> connected h0 x y);
  bk_order : forall b k r, In b buckets -> In k b -> edge h0 k r ->
      In r b /\ position r b < position k b
}.

(** An executable certificate of acyclicity: a rank that decreases along
    every requirement. *)
Definition ranked (rank : string -> nat) (h : heap) : bool :=
  forallb
    (fun e => forallb (fun r => rank r <? rank (fst e))
                (values (requires (snd e))))
    h.

(** The collections used as examples. *)
Definition declare (edges : list (string * string)) : ModuleCollection :=
  fold_left (fun c e => fst (connect (JString (fst e)) (JString (snd e)) c))
    edges empty.

Definition chain_ABC : ModuleCollection := declare [("A", "B"); ("B", "C")].

Definition cycle_ABC : ModuleCollection :=
  declare [("A", "B"); ("B", "C"); ("C", "A")].

Definition rank_ABC (k : string) : nat :=
  if String.eqb k "A" then 2 else if String.eqb k "B" then 1 else 0.

Definition chains_AB_XY : ModuleCollection := declare [("A", "B"); ("X", "Y")].

Definition chains_XY_AB : ModuleCollection := declare [("X", "Y"); ("A", "B")].

(** Two chains of two edges each, declared interleaved. *)
Definition chains_interleaved : ModuleCollection :=
  declare [("A", "B"); ("X", "Y"); ("B", "C"); ("Y", "Z")].

Definition rank_chains (k : string) : nat :=
  if String.eqb k "A" then 2 else if String.eqb k "X" then 2
  else if String.eqb k "B" then 1 else if String.eqb k "Y" then 1 else 0.

(** Three modules named through [get], no edge. *)
Definition three_modules : ModuleCollection :=
  fold_left (fun c n => fst (get (JString n) true c)) ["A"; "B"; "C"] empty.

(** A mutual requirement, and the same below a module that requires it. *)
Definition cycle_AB : ModuleCollection := declare [("A", "B"); ("B", "A")].

Definition cycle_below_D : ModuleCollection :=
  declare [("D", "A"); ("A", "B"); ("B", "A")].

(** Two modules defined by the same file. *)
Definition two_in_one_file : ModuleCollection :=
  fst (add (JString "B") (JString "lib.js")
         (fst (add (JString "A") (JString "lib.js") empty))).

(** A module that requires a module no file defines. *)
Definition with_orphan : ModuleCollection :=
  fst (connect (JString "A") (JString "B")
         (fst (add (JString "A") (JString "a.js") empty))).

(** The collections made through the interface: [new ModuleCollection()],
    then calls of [get], [add], [connect], [addExport] on a module of the
    collection, and calls of [serialize] that return. Calls that throw
    count too: what they changed before throwing stays. *)
Inductive built : ModuleCollection -> Prop :=
| built_new : built empty
| built_get nm anyway c : built c -> built (fst (get nm anyway c))
| built_add nm src c : built c -> built (fst (add nm src c))
| built_connect a b c : built c -> built (fst (connect a b c))
| built_addExport k meta c :
    built c ->
    built (with_modules (update (modules c) k (ModuleMethods.addExport meta)) c)
| built_serialize c c' s :
    built c -> serialize c = (c', Return s) -> built c'.

(** The collections a program can hold: as [built], with every call of
    [serialize] counted, also those that throw. *)
Inductive reached : ModuleCollection -> Prop :=
| reached_new : reached empty
| reached_get nm anyway c : reached c -> reached (fst (get nm anyway c))
| reached_add nm src c : reached c -> reached (fst (add nm src c))
| reached_connect a b c : reached c -> reached (fst (connect a b c))
| reached_addExport k meta c :
    reached c ->
    reached (with_modules (update (modules c) k (ModuleMethods.addExport meta)) c)
| reached_serialize c : reached c -> reached (fst (serialize c)).

(** Every requirement of [h] is a requirement of [h']. *)
Definition grows (h h' : heap) : Prop :=
  forall a b, In b (reqs h a) -> In b (reqs h' a).

(** * Vocabulary of the further properties *)

Unset Implicit Arguments.

(** The adjacency dictionaries a sequence of dependencies builds for the
    module [k], one assignment per dependency, in order. *)
Definition requires_of (ds : list Dependency) (k : ref) : jsobj ref :=
  fold_left
    (fun o d => if String.eqb (dep_module d) k
                then js_set (dep_require d) (dep_require d) o else o)
    ds [].

Definition dependants_of (ds : list Dependency) (k : ref) : jsobj ref :=
  fold_left
    (fun o d => if String.eqb (dep_require d) k
                then js_set (dep_module d) (dep_module d) o else o)
    ds [].

(** Keys as [for..in] gives them: array indices first, ascending. *)
Fixpoint ordered (ks : list string) : Prop :=
  match ks with
  | [] => True
  | k :: ks' =>
      match array_index k with
      | Some n => forall k' n', In k' ks' -> array_index k' = Some n' -> (n < n')%N
      | None => forall k', In k' ks' -> array_index k' = None
      end /\ ordered ks'
  end.

(** What the interface keeps true of the counters, of the sequence of
    dependencies and of the adjacency dictionaries (see
    [reached_consistent]). *)
Record consistent (c : ModuleCollection) : Prop := {
  cs_count : numberOfDependencies c = length (dependencies c);
  cs_ends : forall d, In d (dependencies c) ->
              In (dep_module d) (keys (modules c)) /\
              In (dep_require d) (keys (modules c)) /\
              dep_module d <> dep_require d;
  cs_nodup : NoDup (dependencies c);
  cs_requires : forall k m, own (modules c) k = Some m ->
                  requires m = requires_of (dependencies c) k /\
                  numberOfRequirements m = length (requires m);
  cs_dependants : forall k m, own (modules c) k = Some m ->
                    dependants m = dependants_of (dependencies c) k /\
                    numberOfDependants m = length (dependants m);
  cs_out : list_sum (map numberOfRequirements (values (modules c)))
           = numberOfDependencies c;
  cs_in : list_sum (map numberOfDependants (values (modules c)))
          = numberOfDependencies c;
  cs_sources : forall k m s, own (modules c) k = Some m ->
                 source m = Some s -> trim s = s;
  cs_order : ordered (keys (modules c))
}.
Arguments cs_count {c}.
Arguments cs_ends {c}.
Arguments cs_nodup {c}.
Arguments cs_requires {c}.
Arguments cs_dependants {c}.
Arguments cs_out {c}.
Arguments cs_in {c}.
Arguments cs_sources {c}.
Arguments cs_order {c}.

(** A module as [clone()] makes it again: the name, the source and the
    edges, without export tags and traversal fields. *)
Definition forget (m : ModuleObj) : ModuleObj :=
  {| name := name m; requires := requires m;
     numberOfRequirements := numberOfRequirements m;
     dependants := dependants m; numberOfDependants := numberOfDependants m;
     exports := []; source := source m;
     topologicalMarker := false; sorting := false;
     indexing := false; index := None |}.

(** A module that has neither export tags nor traversal fields. *)
Definition pristine (m : ModuleObj) : Prop :=
  exports m = [] /\ topologicalMarker m = false /\ sorting m = false /\
  indexing m = false /\ index m = None.

(** The fields of a module that [serialize] never writes. *)
Definition same_graph (m m' : ModuleObj) : Prop :=
  name m' = name m /\ requires m' = requires m /\
  numberOfRequirements m' = numberOfRequirements m /\
  dependants m' = dependants m /\
  numberOfDependants m' = numberOfDependants m /\
  exports m' = exports m /\ source m' = source m.

(** A source [clone()] can register again. *)
Definition usable_source (m : ModuleObj) : Prop :=
  exists s, source m = Some s /\ s <> "" /\ s <> "__proto__".

(** The module [clone()] makes of an entry before it connects anything. *)
Definition replica (e : string * ModuleObj) : string * ModuleObj :=
  (fst e, ModuleMethods.with_source (source (snd e)) (fresh_module (fst e))).

(** The bodies of the two loops of [clone] ([clone_loops]). *)
Definition clone_module (this : ModuleCollection) (item : string)
    (c : ModuleCollection) : ModuleCollection * outcome unit :=
  match own (modules this) item with
  | None => (c, Stuck)
  | Some m =>
      match ModuleMethods.clone m with
      | Return m' =>
          match add (JModule m') (ModuleMethods.source_val m) c with
          | (c', Return _) => (c', Return tt)
          | (c', Throw e) => (c', Throw e)
          | (c', Stuck) => (c', Stuck)
          end
      | Throw e => (c, Throw e)
      | Stuck => (c, Stuck)
      end
  end.

Definition clone_edge (this : ModuleCollection) (item : Dependency)
    (c : ModuleCollection) : ModuleCollection * outcome unit :=
  match own (modules this) (dep_module item),
        own (modules this) (dep_require item) with
  | Some m, Some q =>
      match connect (JModule m) (JModule q) c with
      | (c', Return _) => (c', Return tt)
      | (c', Throw e) => (c', Throw e)
      | (c', Stuck) => (c', Stuck)
      end
  | _, _ => (c, Stuck)
  end.

Definition all_pristine (h : heap) : Prop :=
  forall k m, own h k = Some m -> pristine m.

Definition usable_sourceb (m : ModuleObj) : bool :=
  match source m with
  | Some s => negb (String.eqb s "") && negb (String.eqb s "__proto__")
  | None => false
  end.

(** Two modules with a source each, one requiring the other, and the same
    with an export tag on the first. *)
Definition defined_pair : ModuleCollection :=
  fst (connect (JString "A") (JString "B")
         (fst (add (JString "B") (JString "b.js")
                 (fst (add (JString "A") (JString "a.js") empty))))).

Definition tagged_pair : ModuleCollection :=
  with_modules
    (update (modules defined_pair) "A" (ModuleMethods.addExport (JString "main")))
    defined_pair.

Definition tagged_pair_clone : ModuleCollection :=
  match clone tagged_pair with
  | Return c' => c'
  | _ => empty
  end.

(** A module with its [index] forgotten unless it is being indexed: the
    [index] an earlier [serialize()] left is never read. *)
Definition normalize (m : ModuleObj) : ModuleObj :=
  if indexing m then m else ModuleMethods.with_index None m.

(** Two heaps that differ at most in such stale [index] fields. *)
Definition same_but_stale (h h' : heap) : Prop :=
  on_values normalize h' = on_values normalize h.

(** Every requirement of an indexed module is indexed. *)
Definition requirements_indexed (h : heap) : Prop :=
  forall x y, indexed h x = true -> In y (reqs h x) -> indexed h y = true.

(** Two states of the first loop of [serialize] that differ in stale
    [index] fields. *)
Definition alike (st st' : SerializeState) : Prop :=
  same_but_stale (st_heap st) (st_heap st') /\
  st_stack st = st_stack st' /\ adjacencyPoint st = adjacencyPoint st'.

(** ** Vocabulary of the matcher *)

(** The state after the characters [w], with [tail] left. *)
Definition after (x : RegExp.state) (w tail : string) : RegExp.state :=
  {| RegExp.endIndex := RegExp.endIndex x + String.length w;
     RegExp.rest := tail;
     RegExp.captures := RegExp.captures x |}.

Fixpoint all (p : ascii -> bool) (s : string) : bool :=
  match s with
  | EmptyString => true
  | String c t => p c && all p t
  end.

(** What may follow a run of characters that a greedy quantifier takes
    whole. *)
Definition stops (p : ascii -> bool) (tail : string) : Prop :=
  match tail with
  | EmptyString => True
  | String c _ => p c = false
  end.

(** ** Vocabulary of [format] *)

(** A token made of literal text and placeholders: the text [lit], then for
    every pair a placeholder with the digits [fst] and the text [snd]. *)
Fixpoint token_of (lit : string) (holes : list (string * string)) : string :=
  String.append lit
    match holes with
    | [] => ""
    | (ds, lit') :: holes' =>
        String.append "{"
          (String.append ds (String.append "}" (token_of lit' holes')))
    end.

(** The same with every placeholder replaced by what [value] gives for its
    digits. *)
Fixpoint filled (value : string -> string) (lit : string)
    (holes : list (string * string)) : string :=
  String.append lit
    match holes with
    | [] => ""
    | (ds, lit') :: holes' =>
        String.append (value ds) (filled value lit' holes')
    end.

(** Text without an opening brace. *)
Definition plain (s : string) : bool :=
  all (fun c => negb (Ascii.eqb c "{")) s.

Definition placeholders_ok (holes : list (string * string)) : Prop :=
  forall ds lit, In (ds, lit) holes ->
    ds <> "" /\ all RegExp.is_digit ds = true /\ plain lit = true.

(** The text [format] puts for the placeholder with the digits [ds]: the
    parameter of that number converted to a string, nothing for [null],
    ["undefined"] when there is no such parameter. *)
Definition parameter_text (params : list lib.any) (ds : string) : string :=
  match digits ds 0 with
  | Some i =>
      match nth_error params (N.to_nat i) with
      | Some lib.ANull => ""
      | Some v => lib.to_string v
      | None => "undefined"
      end
  | None => "undefined"
  end.

(** The parameters [format] takes from its arguments after the token. *)
Definition parameters (after_token : list lib.any) : list lib.any :=
  match after_token with
  | lib.AArray params :: _ => params
  | _ => after_token
  end.

(** The messages of collection.js, as [lib.format] makes them. *)
Definition duplicate_edge_token : string :=
  "{1} already marked as requirement of {0}".

(** ** Vocabulary of [toString] *)

(** A string with a backslash put before every double quote. *)
Fixpoint escaped (s : string) : string :=
  match s with
  | EmptyString => EmptyString
  | String c t =>
      if Ascii.eqb c "034" then String "\" (String "034" (escaped t))
      else String c (escaped t)
  end.

(** Strings put one after the other. *)
Definition glue (l : list string) : string := fold_right String.append "" l.

(** The line of a module without dependants, and the line of an edge. *)
Definition node_line (k : string) : string :=
  glue [quote; k; quote; ";"; newline].

Definition edge_line (k d : string) : string :=
  glue [quote; k; quote; "->"; quote; d; quote; ";"; newline].

(** What [toString] prints for the module stored under [k]. *)
Definition lines_of (h : heap) (k : string) : string :=
  match deps h k with
  | [] => node_line k
  | ds => glue (map (edge_line k) ds)
  end.

Definition digraph (c : ModuleCollection) : string :=
  glue ["digraph jslink {"; newline;
        glue (map (lines_of (modules c)) (keys (modules c))); "}"].

(** ** Vocabulary of the path tests *)

Definition matched {A} (o : option A) : bool :=
  match o with Some _ => true | None => false end.

(** Dots, if any, and then a character that is neither a dot nor a slash. *)
Fixpoint after_dots (s : string) : bool :=
  match s with
  | EmptyString => false
  | String c t =>
      if Ascii.eqb c "." then after_dots t else negb (Ascii.eqb c "/")
  end.

(** A hidden name at the head of [s]: one dot or more, and then a character
    that is neither a dot nor a slash. *)
Definition dotted (s : string) : bool :=
  match s with
  | String c t => Ascii.eqb c "." && after_dots t
  | EmptyString => false
  end.

(** A hidden name somewhere in [s], after a slash that follows a character
    other than a line terminator. *)
Fixpoint hidden_from (s : string) : bool :=
  match s with
  | EmptyString => false
  | String c t =>
      match t with
      | String d t' =>
          RegExp.any_but_newline c && Ascii.eqb d "/" && dotted t'
      | EmptyString => false
      end || hidden_from t
  end.

Fixpoint ends_slash (s : string) : bool :=
  match s with
  | EmptyString => false
  | String c t =>
      match t with
      | EmptyString => Ascii.eqb c "/"
      | _ => ends_slash t
      end
  end.

Fixpoint no_slash (s : string) : bool :=
  match s with
  | EmptyString => true
  | String c t => negb (Ascii.eqb c "/") && no_slash t
  end.

(** ** Vocabulary of [parseJSONBooleans] *)

(** The letters of [true], in either case, at the head of [s]. *)
Definition starts_true (s : string) : bool :=
  match s with
  | String t (String r (String u (String e _))) =>
      RegExp.chr_i "t" t && RegExp.chr_i "r" r && RegExp.chr_i "u" u
      && RegExp.chr_i "e" e
  | _ => false
  end.

(** The letters of [true], in either case, somewhere in [s]. *)
Fixpoint contains_true (s : string) : bool :=
  match s with
  | EmptyString => false
  | String _ t => starts_true s || contains_true t
  end.

(** What [true_pattern] asks for after the leading white space. *)
Definition true_tail : RegExp.pattern :=
  RegExp.Seq (RegExp.Char (RegExp.chr_i "t"))
    (RegExp.Seq (RegExp.Char (RegExp.chr_i "r"))
       (RegExp.Seq (RegExp.Char (RegExp.chr_i "u"))
          (RegExp.Seq (RegExp.Char (RegExp.chr_i "e"))
             (RegExp.Many 0 None is_ws)))).

(** The value [parseJSONBooleans] gives a property. *)
Definition as_boolean (v : lib.any) : lib.any :=
  lib.ABool (contains_true (lib.to_string v)).

(** ** Vocabulary of the command line *)

(** An argument that is empty or begins with two dashes. *)
Definition dashed (s : string) : bool :=
  match s with
  | EmptyString => true
  | String c (String d _) => Ascii.eqb c "-" && Ascii.eqb d "-"
  | _ => false
  end.

(** An option as the command line spells it: [--name=value], or [--name]
    for a flag. *)
Definition option_text (o : string * option string) : string :=
  String.append "--"
    (String.append (fst o)
       (match snd o with Some v => String.append "=" v | None => "" end)).

(** The value [argsArray2Object] stores for it. *)
Definition option_value (v : option string) : lib.any :=
  match v with Some v => lib.AString v | None => lib.ABool true end.

(** The object of options given once each. *)
Definition record_of (opts : list (string * option string)) : jsobj lib.any :=
  map (fun o => (fst o, option_value (snd o))) opts.

(** A name of letters other than [hasOwnProperty], and a value, if any,
    that is not empty. *)
Definition option_ok (o : string * option string) : Prop :=
  all RegExp.is_letter (fst o) = true /\ fst o <> "hasOwnProperty" /\
  snd o <> Some "".

(** What remains of an argument after the name of the option: nothing, the
    text after one [=] sign, or the text itself. *)
Definition value_part (r : string) : option string :=
  match r with
  | EmptyString => None
  | String c v =>
      if Ascii.eqb c "=" then
        match v with EmptyString => None | _ => Some v end
      else Some r
  end.
(** * Properties *)

Unset Implicit Arguments.

(** ** Dictionaries *)

Section Dictionaries.
Variable V : Type.
Implicit Types (o : jsobj V) (k : string) (v : V).

Lemma own_In_keys o k v : own o k = Some v -> In k (keys o).
Proof.
  induction o as [|[k' v'] o IH]; simpl; [discriminate|].
  destruct (String.eqb_spec k' k); auto.
Qed.

Lemma own_In o k v : own o k = Some v -> In (k, v) o.
Proof.
  induction o as [|[k' v'] o IH]; simpl; [discriminate|].
  destruct (String.eqb_spec k' k); intros H; auto.
  injection H as ->. subst. now left.
Qed.

Lemma own_None o k : own o k = None <-> ~ In k (keys o).
Proof.
  induction o as [|[k' v'] o IH]; simpl.
  - tauto.
  - destruct (String.eqb_spec k' k); split; intros H.
    + discriminate.
    + exfalso; apply H; now left.
    + intros [E|E]; [congruence | now apply IH in H].
    + apply IH. intros E; apply H; now right.
Qed.

Lemma In_keys_own o k : In k (keys o) -> exists v, own o k = Some v.
Proof.
  intros H. destruct (own o k) eqn:E; eauto.
  apply own_None in E. contradiction.
Qed.

Lemma In_own o k v : NoDup (keys o) -> In (k, v) o -> own o k = Some v.
Proof.
  induction o as [|[k' v'] o IH]; simpl; [tauto|].
  intros ND [E|E].
  - injection E as -> ->. now rewrite String.eqb_refl.
  - inversion ND as [|? ? Hn ND']; subst.
    destruct (String.eqb_spec k' k); subst.
    + exfalso. apply Hn. change (In (fst (k, v)) (map fst o)). now apply in_map.
    + auto.
Qed.

Lemma keys_update o k (f : V -> V) : keys (update o k f) = keys o.
Proof.
  unfold keys, update. rewrite map_map. apply map_ext.
  intros [k' v']; simpl. now destruct (String.eqb k' k).
Qed.

Lemma length_update o k (f : V -> V) : length (update o k f) = length o.
Proof. unfold update. apply length_map. Qed.

Lemma own_update o k (f : V -> V) k' :
  own (update o k f) k' =
  if String.eqb k' k then option_map f (own o k') else own o k'.
Proof.
  induction o as [|[k0 v0] o IH]; simpl.
  - now destruct (String.eqb k' k).
  - destruct (String.eqb_spec k0 k); simpl.
    + subst. destruct (String.eqb_spec k k'); simpl.
      * subst. now rewrite String.eqb_refl.
      * exact IH.
    + destruct (String.eqb_spec k0 k'); simpl.
      * subst. destruct (String.eqb_spec k' k); [contradiction|reflexivity].
      * exact IH.
Qed.

Lemma own_update_same o k (f : V -> V) :
  own (update o k f) k = option_map f (own o k).
Proof. rewrite own_update. now rewrite String.eqb_refl. Qed.

Lemma own_update_other o k (f : V -> V) k' :
  k' <> k -> own (update o k f) k' = own o k'.
Proof.
  intros H. rewrite own_update.
  destruct (String.eqb_spec k' k); [contradiction|reflexivity].
Qed.

Lemma own_app_fresh o k v k' :
  own (o ++ [(k, v)]) k' =
  match own o k' with
  | Some x => Some x
  | None => if String.eqb k k' then Some v else None
  end.
Proof.
  induction o as [|[k0 v0] o IH]; simpl; [reflexivity|].
  now destruct (String.eqb k0 k').
Qed.

Lemma own_insert_index n o k v k' :
  own o k = None ->
  own (insert_index n k v o) k' =
  if String.eqb k k' then Some v else own o k'.
Proof.
  induction o as [|[k0 v0] o IH]; simpl; [reflexivity|].
  destruct (String.eqb_spec k0 k) as [->|Hk0]; [discriminate|]. intros Hn.
  destruct (array_index k0) as [n'|]; [destruct (n' <? n)%N|]; simpl;
    try reflexivity.
  rewrite (IH Hn). destruct (String.eqb_spec k k'); [|reflexivity].
  subst. destruct (String.eqb_spec k0 k'); [contradiction|reflexivity].
Qed.

Lemma own_js_set_other o k v k' :
  k' <> k -> own (js_set k v o) k' = own o k'.
Proof.
  intros H. unfold js_set. destruct (own o k) eqn:E.
  - now apply own_update_other.
  - destruct (String.eqb k "__proto__"); [reflexivity|].
    destruct (array_index k).
    + rewrite own_insert_index by assumption.
      destruct (String.eqb_spec k k'); [congruence|reflexivity].
    + rewrite own_app_fresh. destruct (own o k'); [reflexivity|].
      destruct (String.eqb_spec k k'); [congruence|reflexivity].
Qed.

Lemma own_js_set_same o k v :
  k <> "__proto__" -> own (js_set k v o) k = Some v.
Proof.
  intros H. unfold js_set. destruct (own o k) eqn:E.
  - rewrite own_update_same, E. reflexivity.
  - destruct (String.eqb_spec k "__proto__"); [contradiction|].
    destruct (array_index k).
    + rewrite own_insert_index by assumption. now rewrite String.eqb_refl.
    + rewrite own_app_fresh, E. now rewrite String.eqb_refl.
Qed.

(** After [o[k] = v], reading [o[k]] is truthy: through the own property,
    or for [__proto__] through the accessor. *)
Lemma truthy_js_set o k v : truthy (js_get (js_set k v o) k) = true.
Proof.
  destruct (String.eqb_spec k "__proto__") as [->|Hk].
  - unfold js_get. destruct (own (js_set "__proto__" v o) "__proto__"); reflexivity.
  - unfold js_get. now rewrite own_js_set_same.
Qed.

Lemma keys_insert_index n o k v k' :
  In k' (keys (insert_index n k v o)) <-> k' = k \/ In k' (keys o).
Proof.
  induction o as [|[k0 v0] o IH]; simpl.
  - intuition.
  - destruct (array_index k0) as [n'|]; [destruct (n' <? n)%N|]; simpl;
      rewrite ?IH; intuition.
Qed.

Lemma In_keys_js_set o k v k' :
  k <> "__proto__" ->
  (In k' (keys (js_set k v o)) <-> k' = k \/ In k' (keys o)).
Proof.
  intros Hk. unfold js_set. destruct (own o k) eqn:E.
  - rewrite keys_update. apply own_In_keys in E.
    split; [auto|]. intros [->|]; auto.
  - destruct (String.eqb_spec k "__proto__"); [contradiction|].
    destruct (array_index k).
    + apply keys_insert_index.
    + unfold keys. rewrite map_app, in_app_iff. simpl. intuition.
Qed.

Lemma NoDup_insert_index n o k v :
  ~ In k (keys o) -> NoDup (keys o) -> NoDup (keys (insert_index n k v o)).
Proof.
  induction o as [|[k0 v0] o IH]; simpl; intros Hn ND.
  - constructor; [tauto|constructor].
  - inversion ND; subst.
    destruct (array_index k0) as [n'|]; [destruct (n' <? n)%N|]; simpl.
    + constructor.
      * rewrite keys_insert_index. intros [->|]; tauto.
      * apply IH; tauto.
    + constructor; simpl; tauto.
    + constructor; simpl; tauto.
Qed.

Lemma NoDup_keys_js_set o k v :
  NoDup (keys o) -> NoDup (keys (js_set k v o)).
Proof.
  intros ND. unfold js_set. destruct (own o k) eqn:E.
  - now rewrite keys_update.
  - destruct (String.eqb k "__proto__"); [assumption|].
    apply own_None in E.
    destruct (array_index k).
    + now apply NoDup_insert_index.
    + unfold keys. rewrite map_app. simpl.
      apply NoDup_app; [assumption|constructor; [tauto|constructor]|].
      intros x Hx [<-|[]]. contradiction.
Qed.

Lemma length_insert_index n o k v :
  length (insert_index n k v o) = S (length o).
Proof.
  induction o as [|[k0 v0] o IH]; simpl; [reflexivity|].
  destruct (array_index k0) as [n'|]; [destruct (n' <? n)%N|]; simpl;
    now rewrite ?IH.
Qed.

Lemma length_js_set o k v : length (js_set k v o) <= S (length o).
Proof.
  unfold js_set. destruct (own o k).
  - rewrite length_update. lia.
  - destruct (String.eqb k "__proto__"); [lia|].
    destruct (array_index k).
    + rewrite length_insert_index. lia.
    + rewrite length_app. simpl. lia.
Qed.

End Dictionaries.

(** ** Names *)

Lemma trim_right_idem s : trim_right (trim_right s) = trim_right s.
Proof.
  induction s as [|c s IH]; simpl; [reflexivity|].
  destruct (trim_right s) as [|c' t] eqn:E.
  - destruct (is_ws c) eqn:W; simpl; [reflexivity|]. now rewrite W.
  - simpl in *. now rewrite IH.
Qed.

Lemma trim_left_starts_black s : starts_black (trim_left s).
Proof.
  induction s as [|c s IH]; simpl; [exact I|].
  destruct (is_ws c) eqn:W; [exact IH|exact W].
Qed.

Lemma trim_left_fixed s : starts_black s -> trim_left s = s.
Proof. destruct s as [|c s]; simpl; [reflexivity|]. now intros ->. Qed.

Lemma trim_right_starts_black s : starts_black s -> starts_black (trim_right s).
Proof.
  destruct s as [|c s]; simpl; [trivial|]. intros W.
  destruct (trim_right s); [rewrite W|]; exact W.
Qed.

Lemma trim_idem s : trim (trim s) = trim s.
Proof.
  unfold trim.
  rewrite (trim_left_fixed (trim_right (trim_left s))).
  - apply trim_right_idem.
  - apply trim_right_starts_black, trim_left_starts_black.
Qed.

Lemma stringLike_name nm :
  trim nm <> "" -> lib.stringLike (JString nm) = Return (trim nm).
Proof. destruct nm; simpl; [intros H; now elim H|reflexivity]. Qed.

Lemma inherited_not_proto k : inherited k = None -> k <> "__proto__".
Proof. intros H ->. discriminate. Qed.

Lemma new_trimmed n :
  n <> "" -> trim n = n ->
  ModuleMethods.new (JString n) JUndefined = Return (fresh_module n).
Proof.
  intros Hn Ht. unfold ModuleMethods.new.
  rewrite stringLike_name by congruence. rewrite Ht.
  destruct (String.eqb_spec n ""); [contradiction|reflexivity].
Qed.

(** [get(name, true)] for a usable name: the module found, or a fresh one
    stored under the trimmed name; nothing but [modules] and its counter
    changes. *)
Lemma get_anyway nm this :
  trim nm <> "" -> inherited (trim nm) = None ->
  exists this',
    get (JString nm) true this = (this', Return (VModule (trim nm))) /\
    (match own (modules this) (trim nm) with
     | Some _ => this' = this
     | None =>
         this' = with_modules
                   (js_set (trim nm) (fresh_module (trim nm)) (modules this))
                   (with_numberOfModules (S (numberOfModules this)) this)
     end) /\
    (exists m, own (modules this') (trim nm) = Some m).
Proof.
  intros Hn Hi. unfold get. rewrite stringLike_name by assumption.
  unfold js_get. destruct (own (modules this) (trim nm)) eqn:E.
  - eexists; split; [reflexivity|]. split; [reflexivity|]. eauto.
  - rewrite Hi. rewrite new_trimmed by (auto using trim_idem).
    eexists; split; [reflexivity|]. split; [reflexivity|].
    simpl. rewrite own_js_set_same by now apply inherited_not_proto.
    eauto.
Qed.

Lemma get_anyway_frame nm this this' v :
  get nm true this = (this', v) ->
  dependencies this' = dependencies this /\
  numberOfDependencies this' = numberOfDependencies this /\
  sources this' = sources this.
Proof.
  unfold get. destruct (lib.stringLike nm).
  - destruct (js_get (modules this) a).
    + intros H; injection H as <- <-; auto.
    + intros H; injection H as <- <-; auto.
    + destruct (ModuleMethods.new (JString a) JUndefined);
        intros H; injection H as <- <-; auto.
  - intros H; injection H as <- <-; auto.
  - intros H; injection H as <- <-; auto.
Qed.

(** ** Edge validation: [connect] *)

Lemma get_module_inv nm this this' r :
  get nm true this = (this', Return (VModule r)) ->
  lib.stringLike nm = Return r /\ exists m, own (modules this') r = Some m.
Proof.
  unfold get. destruct (lib.stringLike nm) as [n| |]; try discriminate.
  unfold js_get. destruct (own (modules this) n) eqn:E.
  - intros H; injection H as <- <-. eauto.
  - destruct (inherited n) eqn:Hi; [discriminate|].
    destruct (ModuleMethods.new (JString n) JUndefined); try discriminate.
    intros H; injection H as <- <-. split; [reflexivity|]. simpl.
    rewrite own_js_set_same by now apply inherited_not_proto. eauto.
Qed.

Lemma get_found nm anyway this r m :
  lib.stringLike nm = Return r -> own (modules this) r = Some m ->
  get nm anyway this = (this, Return (VModule r)).
Proof. intros Hs Ho. unfold get, js_get. now rewrite Hs, Ho. Qed.

Lemma require_inv this r h h' :
  require this (VModule r) h = (h', Return tt) ->
  exists m q,
    own h this = Some m /\ own h r = Some q /\ name m <> name q /\
    h' = update (update h this (ModuleMethods.add_requirement (name q) r))
           r (ModuleMethods.add_dependant (name m) this).
Proof.
  unfold require. destruct (own h this) as [m|]; [|discriminate].
  destruct (own h r) as [q|]; [|discriminate].
  destruct (String.eqb_spec (name m) (name q)); [discriminate|].
  destruct (_ || _); [discriminate|].
  intros H; injection H as <-. exists m, q. auto.
Qed.

Lemma Dependency_new_inv v1 v2 h h' d :
  Dependency_new v1 v2 h = (h', Return d) ->
  v1 = VModule (dep_module d) /\ v2 = VModule (dep_require d) /\
  require (dep_module d) v2 h = (h', Return tt).
Proof.
  unfold Dependency_new. destruct v1 as [m| |]; try discriminate.
  destruct (require m v2 h) as [h1 [[]| |]] eqn:E; try discriminate.
  destruct v2; try discriminate.
  intros H; injection H as <- <-. simpl. auto.
Qed.

(** ** Well-formed collections *)

Lemma nodupb_NoDup l : nodupb l = true -> NoDup l.
Proof.
  induction l as [|x l IH]; simpl; [constructor|].
  intros H. apply andb_prop in H. destruct H as [H1 H2].
  constructor; [|auto].
  intros Hin. apply negb_true_iff in H1.
  assert (existsb (String.eqb x) l = true); [|congruence].
  apply existsb_exists. exists x. split; [assumption|apply String.eqb_refl].
Qed.

Lemma existsb_eqb_In k l : existsb (String.eqb k) l = true -> In k l.
Proof.
  intros H. apply existsb_exists in H. destruct H as (x & Hx & E).
  apply String.eqb_eq in E. now subst.
Qed.

Lemma is_none_None {A} (o : option A) : is_none o = true -> o = None.
Proof. destruct o; [discriminate|reflexivity]. Qed.

Lemma wfb_sound c : wfb c = true -> wf c.
Proof.
  unfold wfb. intros H.
  apply andb_prop in H. destruct H as [H Hc].
  apply andb_prop in H. destruct H as [Hnd Hall].
  rewrite forallb_forall in Hall.
  assert (Hent : forall k m, own (modules c) k = Some m ->
            name m = k /\ k <> "" /\ trim k = k /\ inherited k = None /\
            (forall r, In r (values (requires m)) -> In k (deps (modules c) r)) /\
            (forall r, In r (values (dependants m)) -> In k (reqs (modules c) r))).
  { intros k m Hin. apply own_In in Hin. specialize (Hall _ Hin). simpl in Hall.
    repeat (apply andb_prop in Hall; destruct Hall as [Hall ?]).
    repeat split.
    - now apply String.eqb_eq.
    - intros ->. discriminate.
    - now apply String.eqb_eq.
    - now apply is_none_None.
    - intros r Hr. rewrite forallb_forall in H0. specialize (H0 _ Hr).
      unfold deps, field.
      destruct (own (modules c) r) as [q|]; [|discriminate].
      now apply existsb_eqb_In.
    - intros r Hr. rewrite forallb_forall in H. specialize (H _ Hr).
      unfold reqs, field.
      destruct (own (modules c) r) as [q|]; [|discriminate].
      now apply existsb_eqb_In. }
  constructor.
  - now apply nodupb_NoDup.
  - intros k m Ho. now apply Hent in Ho.
  - intros k Hk. apply In_keys_own in Hk. destruct Hk as (m & Ho).
    apply Hent in Ho. tauto.
  - intros a b. split; intros H.
    + unfold reqs, field in H. destruct (own (modules c) a) as [m|] eqn:E; [|destruct H].
      now apply (Hent a m E).
    + unfold deps, field in H. destruct (own (modules c) b) as [m|] eqn:E; [|destruct H].
      now apply (Hent b m E).
  - now apply Nat.leb_le.
Qed.

Lemma wf_empty : wf empty.
Proof. apply wfb_sound. reflexivity. Qed.

(** ** The counter of modules *)

(** [get(name, true)] with a non-empty name that trims to the empty string:
    the counter is incremented, then the constructor throws. *)
Lemma get_blank_name_wf (this : ModuleCollection) (nm : string) :
  wf this -> nm <> "" -> trim nm = "" ->
  exists this',
    get (JString nm) true this = (this', Throw TypeError) /\
    modules this' = modules this /\
    numberOfModules this' = S (numberOfModules this) /\
    length (modules this') < numberOfModules this'.
Proof.
  intros W Hn Ht. unfold get.
  assert (Hs : lib.stringLike (JString nm) = Return "").
  { destruct nm; [now elim Hn|]. simpl. now rewrite <- Ht. }
  rewrite Hs. unfold js_get.
  assert (Ho : own (modules this) "" = None).
  { apply own_None. intros Hin. now apply (wf_key W) in Hin. }
  rewrite Ho. simpl.
  eexists. split; [reflexivity|]. simpl.
  pose proof (wf_count W). repeat split; lia.
Qed.

(** ** analyse *)

Lemma builtin_analyser_fold c ks s0 :
  (forall k, In k ks -> own (modules c) k <> None) ->
  fold_left
    (fun stat prop =>
       match own (modules c) prop with
       | Some module =>
           {| orphanModules :=
                if ModuleMethods.defined module then orphanModules stat
                else orphanModules stat ++ [prop];
              definedModules :=
                if ModuleMethods.defined module then definedModules stat ++ [prop]
                else definedModules stat;
              numberOfExports := numberOfExports stat + length (exports module) |}
       | None => stat
       end) ks s0 =
  {| orphanModules := orphanModules s0 ++ filter (fun k => negb (has_source c k)) ks;
     definedModules := definedModules s0 ++ filter (has_source c) ks;
     numberOfExports := numberOfExports s0 + list_sum (map (exports_at c) ks) |}.
Proof.
  revert s0. induction ks as [|k ks IH]; intros s0 Hk; simpl.
  - rewrite !app_nil_r, Nat.add_0_r. now destruct s0.
  - rewrite IH by (intros; apply Hk; now right).
    destruct (own (modules c) k) as [m|] eqn:E.
    + assert (Hs : has_source c k = ModuleMethods.defined m)
        by (unfold has_source; now rewrite E).
      assert (He : exports_at c k = length (exports m))
        by (unfold exports_at; now rewrite E).
      rewrite Hs, He.
      destruct (ModuleMethods.defined m); simpl;
        rewrite <- ?app_assoc; simpl; f_equal; lia.
    + exfalso. apply (Hk k); [now left|assumption].
Qed.

Lemma own_keys_values {V} (o : jsobj V) :
  NoDup (keys o) -> map (own o) (keys o) = map Some (values o).
Proof.
  induction o as [|[k v] o IH]; simpl; [reflexivity|].
  intros ND. inversion ND as [|? ? Hn ND']; subst.
  rewrite String.eqb_refl. f_equal. rewrite <- IH by assumption.
  apply map_ext_in. intros k' Hk'.
  destruct (String.eqb_spec k k'); [subst; contradiction|reflexivity].
Qed.

Lemma exports_at_total c :
  NoDup (keys (modules c)) ->
  list_sum (map (exports_at c) (keys (modules c))) = exports_total c.
Proof.
  intros ND. unfold exports_total, exports_at.
  change (fun k => match own (modules c) k with
                   | Some m => length (exports m) | None => 0 end)
    with (fun k => (fun o => match o with
                   | Some m => length (exports m) | None => 0 end)
                     (own (modules c) k)).
  rewrite <- (map_map (own (modules c))).
  rewrite own_keys_values by assumption. now rewrite map_map.
Qed.

Lemma analyse_lists c :
  definedModules (analyse c) = filter (has_source c) (keys (modules c)) /\
  orphanModules (analyse c) =
    filter (fun k => negb (has_source c k)) (keys (modules c)) /\
  numberOfExports (analyse c) =
    list_sum (map (exports_at c) (keys (modules c))).
Proof.
  unfold analyse, analysers, builtin_analyser. simpl.
  rewrite builtin_analyser_fold.
  - simpl. auto.
  - intros k Hk E. apply own_None in E. contradiction.
Qed.

Lemma source_kept_refl h : source_kept h h.
Proof. intros k m' H. now rewrite H. Qed.

Lemma get_source_kept nm this this' v :
  get nm true this = (this', v) -> source_kept (modules this) (modules this').
Proof.
  unfold get. destruct (lib.stringLike nm) as [n| |].
  - unfold js_get. destruct (own (modules this) n) eqn:E.
    + intros H; injection H as <- <-. apply source_kept_refl.
    + destruct (inherited n) eqn:Hi.
      * intros H; injection H as <- <-. apply source_kept_refl.
      * unfold ModuleMethods.new. destruct (lib.stringLike (JString n)) as [n'| |].
        -- destruct (String.eqb n' "").
           ++ intros H; injection H as <- <-. apply source_kept_refl.
           ++ simpl. intros H; injection H as <- <-. simpl.
              intros k m'. destruct (String.eqb_spec k n) as [->|Hk].
              ** rewrite own_js_set_same by now apply inherited_not_proto.
                 intros H; injection H as <-. now rewrite E.
              ** rewrite own_js_set_other by assumption.
                 intros H. now rewrite H.
        -- intros H; injection H as <- <-. apply source_kept_refl.
        -- intros H; injection H as <- <-. apply source_kept_refl.
  - intros H; injection H as <- <-. apply source_kept_refl.
  - intros H; injection H as <- <-. apply source_kept_refl.
Qed.

Lemma source_kept_trans h1 h2 h3 :
  source_kept h1 h2 -> source_kept h2 h3 ->
  (forall k, own h2 k = None -> own h1 k = None) ->
  source_kept h1 h3.
Proof.
  intros H12 H23 Hmono k m3 H3. specialize (H23 k m3 H3).
  destruct (own h2 k) as [m2|] eqn:E2.
  - specialize (H12 k m2 E2). destruct (own h1 k); congruence.
  - now rewrite (Hmono k E2).
Qed.

Lemma source_kept_update h k f :
  (forall m, source (f m) = source m) -> source_kept h (update h k f).
Proof.
  intros Hf k' m'. rewrite own_update.
  destruct (String.eqb k' k); [|intros H; now rewrite H].
  destruct (own h k') as [m|]; simpl; [|discriminate].
  intros H; injection H as <-. apply Hf.
Qed.

Lemma get_keeps_keys nm this this' v k :
  get nm true this = (this', v) ->
  own (modules this') k = None -> own (modules this) k = None.
Proof.
  unfold get. destruct (lib.stringLike nm) as [n| |];
    try (intros H; injection H as <- <-; auto).
  destruct (js_get (modules this) n) eqn:E;
    try (intros H; injection H as <- <-; now auto).
  destruct (ModuleMethods.new (JString n) JUndefined);
    try (intros H; injection H as <- <-; now auto).
  intros H; injection H as <- <-. simpl.
  destruct (String.eqb_spec k n) as [->|Hk].
  - intros _. unfold js_get in E. destruct (own (modules this) n); [discriminate|reflexivity].
  - now rewrite own_js_set_other.
Qed.

Lemma connect_source_kept a b this this' d :
  connect a b this = (this', Return d) ->
  source_kept (modules this) (modules this') /\
  exists m, own (modules this') (dep_require d) = Some m.
Proof.
  unfold connect.
  destruct (get a true this) as [t1 [v1| |]] eqn:Ga; try discriminate.
  destruct (get b true t1) as [t2 [v2| |]] eqn:Gb; try discriminate.
  destruct (Dependency_new v1 v2 (modules t2)) as [h [d'| |]] eqn:Dn;
    try discriminate.
  intros H; injection H as <- <-. simpl.
  apply Dependency_new_inv in Dn. destruct Dn as (-> & -> & Rq).
  apply require_inv in Rq. destruct Rq as (m & q & Hm & Hq & Hne & ->).
  split.
  - assert (K1 : forall k, own (modules t1) k = None -> own (modules this) k = None)
      by (intros k; eapply get_keeps_keys; eassumption).
    assert (K2 : forall k, own (modules t2) k = None -> own (modules t1) k = None)
      by (intros k; eapply get_keeps_keys; eassumption).
    apply source_kept_trans with (modules t2); [| |auto].
    + apply source_kept_trans with (modules t1); [| |assumption];
        eapply get_source_kept; eassumption.
    + apply source_kept_trans with
        (update (modules t2) (dep_module d')
           (ModuleMethods.add_requirement (name q) (dep_require d'))).
      * now apply source_kept_update.
      * now apply source_kept_update.
      * intros k. rewrite own_update.
        destruct (String.eqb k (dep_module d')); [|auto].
        destruct (own (modules t2) k); [discriminate|reflexivity].
  - rewrite own_update_same, own_update.
    destruct (String.eqb (dep_require d') (dep_module d')); rewrite Hq; simpl; eauto.
Qed.

Lemma connect_require_name a b this this' d :
  connect a b this = (this', Return d) ->
  lib.stringLike b = Return (dep_require d).
Proof.
  unfold connect.
  destruct (get a true this) as [t1 [v1| |]] eqn:Ga; try discriminate.
  destruct (get b true t1) as [t2 [v2| |]] eqn:Gb; try discriminate.
  destruct (Dependency_new v1 v2 (modules t2)) as [h [d'| |]] eqn:Dn;
    try discriminate.
  intros H; injection H as <- <-.
  apply Dependency_new_inv in Dn. destruct Dn as (-> & -> & _).
  now apply get_module_inv in Gb.
Qed.

Lemma define_inv src m m' :
  ModuleMethods.define src m = Return m' -> source m' <> None.
Proof.
  unfold ModuleMethods.define. destruct (source m); [discriminate|].
  destruct (lib.stringLike src); try discriminate.
  intros H; injection H as <-. discriminate.
Qed.

Lemma add_inv nm src this this' r :
  add nm src this = (this', Return r) ->
  lib.stringLike nm = Return r /\
  exists m', own (modules this') r = Some m' /\ source m' <> None.
Proof.
  unfold add.
  destruct (get nm true this) as [t1 [[r'| |]| |]] eqn:G; try discriminate.
  destruct (own (modules t1) r') as [m|] eqn:Hm; [|discriminate].
  destruct (ModuleMethods.define src m) as [m'| |] eqn:D; try discriminate.
  apply get_module_inv in G. destruct G as (Hs & _).
  assert (Ho : own (update (modules t1) r' (fun _ => m')) r' = Some m')
    by (now rewrite own_update_same, Hm).
  apply define_inv in D.
  destruct (js_get _ _).
  - intros H; injection H as <- <-. simpl. eauto.
  - destruct (String.eqb _ _); [discriminate|].
    intros H; injection H as <- <-. simpl. eauto.
  - intros H; injection H as <- <-. simpl. eauto.
Qed.

(** [analyse()] on a well-formed collection. *)
Lemma analyse_wf (c : ModuleCollection) :
  wf c ->
  definedModules (analyse c) = filter (has_source c) (keys (modules c)) /\
  orphanModules (analyse c) =
    filter (fun k => negb (has_source c k)) (keys (modules c)) /\
  numberOfExports (analyse c) = exports_total c /\
  forall a b c1 d,
    own (modules c) (trim b) = None ->
    connect (JString a) (JString b) c = (c1, Return d) ->
    In (trim b) (orphanModules (analyse c1)) /\
    forall src c2 r,
      add (JString b) (JString src) c1 = (c2, Return r) ->
      In (trim b) (definedModules (analyse c2)) /\
      ~ In (trim b) (orphanModules (analyse c2)).
Proof.
  intros W.
  destruct (analyse_lists c) as (Hd & Ho & He).
  split; [assumption|]. split; [assumption|].
  split; [rewrite He; apply exports_at_total, (wf_keys W)|].
  intros a b c1 d Hfresh Hc.
  pose proof (connect_require_name _ _ _ _ _ Hc) as Hb.
  assert (Hr : dep_require d = trim b).
  { destruct b as [|ch b]; simpl in Hb; [discriminate|]. congruence. }
  destruct (connect_source_kept _ _ _ _ _ Hc) as (Hk & m & Hm).
  rewrite Hr in Hm.
  split.
  - destruct (analyse_lists c1) as (_ & -> & _).
    apply filter_In. split; [eapply own_In_keys; eassumption|].
    unfold has_source. rewrite Hm.
    specialize (Hk _ _ Hm). rewrite Hfresh in Hk.
    unfold ModuleMethods.defined. now rewrite Hk.
  - intros src c2 r Ha.
    apply add_inv in Ha. destruct Ha as (Hs & m' & Hm' & Hsrc).
    assert (r = trim b) as ->.
    { destruct b as [|ch b]; simpl in Hs; [discriminate|]. congruence. }
    assert (Hh : has_source c2 (trim b) = true).
    { unfold has_source. rewrite Hm'. unfold ModuleMethods.defined.
      destruct (source m'); [reflexivity|contradiction]. }
    destruct (analyse_lists c2) as (-> & -> & _).
    split.
    + apply filter_In. split; [eapply own_In_keys; eassumption|assumption].
    + intros Hin. apply filter_In in Hin. destruct Hin as [_ Hin].
      now rewrite Hh in Hin.
Qed.

(** ** Heaps that differ in markers only *)

Lemma own_on_values {V} (f : V -> V) (o : jsobj V) k :
  own (on_values f o) k = option_map f (own o k).
Proof.
  induction o as [|[k' v] o IH]; simpl; [reflexivity|].
  now destruct (String.eqb k' k).
Qed.

Lemma keys_on_values {V} (f : V -> V) (o : jsobj V) :
  keys (on_values f o) = keys o.
Proof. unfold keys, on_values. rewrite map_map. now apply map_ext. Qed.

Lemma on_values_update {V} (g f : V -> V) (o : jsobj V) k :
  (forall v, g (f v) = g v) -> on_values g (update o k f) = on_values g o.
Proof.
  intros H. unfold on_values, update. rewrite map_map. apply map_ext.
  intros [k' v]; simpl. destruct (String.eqb k' k); simpl; now rewrite ?H.
Qed.

Lemma frame_keys (g : ModuleObj -> ModuleObj) (h h' : heap) :
  on_values g h' = on_values g h -> keys h' = keys h.
Proof.
  intros H. rewrite <- (keys_on_values g h'), H. apply keys_on_values.
Qed.

Lemma frame_length (g : ModuleObj -> ModuleObj) (h h' : heap) :
  on_values g h' = on_values g h -> length h' = length h.
Proof.
  intros H. apply frame_keys in H. unfold keys in H.
  rewrite <- (length_map fst h'), H. apply length_map.
Qed.

Lemma frame_field {A} (g : ModuleObj -> ModuleObj) (f : ModuleObj -> A) d
    (h h' : heap) k :
  (forall m, f (g m) = f m) ->
  on_values g h' = on_values g h -> field f d h' k = field f d h k.
Proof.
  intros Hf H. unfold field.
  assert (E : own (on_values g h') k = own (on_values g h) k) by now rewrite H.
  rewrite !own_on_values in E.
  destruct (own h' k), (own h k); simpl in E; try discriminate; [|reflexivity].
  injection E as E. rewrite <- (Hf m), <- (Hf m0). now rewrite E.
Qed.

Lemma field_update {A} (f : ModuleObj -> A) d (h : heap) k g k' :
  field f d (update h k g) k' =
  if String.eqb k' k then field (fun m => f (g m)) d h k' else field f d h k'.
Proof.
  unfold field. rewrite own_update.
  destruct (String.eqb k' k); [|reflexivity]. now destruct (own h k').
Qed.

Lemma sort_frame_refl h : sort_frame h h.
Proof. reflexivity. Qed.

Lemma sort_frame_trans h1 h2 h3 :
  sort_frame h1 h2 -> sort_frame h2 h3 -> sort_frame h1 h3.
Proof. unfold sort_frame. congruence. Qed.

Lemma index_frame_refl h : index_frame h h.
Proof. reflexivity. Qed.

Lemma index_frame_trans h1 h2 h3 :
  index_frame h1 h2 -> index_frame h2 h3 -> index_frame h1 h3.
Proof. unfold index_frame. congruence. Qed.

Lemma sort_frame_reqs h h' k : sort_frame h h' -> reqs h' k = reqs h k.
Proof. intros H. now apply (frame_field no_sort_flags). Qed.

Lemma sort_frame_deps h h' k : sort_frame h h' -> deps h' k = deps h k.
Proof. intros H. now apply (frame_field no_sort_flags). Qed.

Lemma sort_frame_indexed h h' k : sort_frame h h' -> indexed h' k = indexed h k.
Proof. intros H. now apply (frame_field no_sort_flags). Qed.

Lemma sort_frame_index_at h h' k : sort_frame h h' -> index_at h' k = index_at h k.
Proof. intros H. now apply (frame_field no_sort_flags). Qed.

Lemma index_frame_reqs h h' k : index_frame h h' -> reqs h' k = reqs h k.
Proof. intros H. now apply (frame_field no_index_flags). Qed.

Lemma index_frame_deps h h' k : index_frame h h' -> deps h' k = deps h k.
Proof. intros H. now apply (frame_field no_index_flags). Qed.

Lemma index_frame_gray h h' k : index_frame h h' -> gray h' k = gray h k.
Proof. intros H. now apply (frame_field no_index_flags). Qed.

Lemma index_frame_black h h' k : index_frame h h' -> black h' k = black h k.
Proof. intros H. now apply (frame_field no_index_flags). Qed.

Lemma sort_frame_nbrs h h' k : sort_frame h h' -> nbrs h' k = nbrs h k.
Proof.
  intros H. unfold nbrs. now rewrite (sort_frame_reqs _ _ _ H), (sort_frame_deps _ _ _ H).
Qed.

Lemma index_frame_nbrs h h' k : index_frame h h' -> nbrs h' k = nbrs h k.
Proof.
  intros H. unfold nbrs.
  now rewrite (index_frame_reqs _ _ _ H), (index_frame_deps _ _ _ H).
Qed.

(** ** Counting modules by a marker *)

Lemma count_le_length p h : count p h <= length h.
Proof. unfold count. apply filter_length_le. Qed.

Lemma count_update_le p h k f :
  (forall m, p (f m) = true -> p m = true) ->
  count p (update h k f) <= count p h.
Proof.
  intros Hp. unfold count, update.
  induction h as [|[k' m] h IH]; simpl; [lia|].
  destruct (String.eqb k' k); simpl.
  - destruct (p (f m)) eqn:E.
    + rewrite (Hp _ E). simpl. lia.
    + destruct (p m); simpl; lia.
  - destruct (p m); simpl; lia.
Qed.

Lemma count_update_lt p h k f m :
  own h k = Some m -> p m = true -> p (f m) = false ->
  (forall m, p (f m) = true -> p m = true) ->
  count p (update h k f) < count p h.
Proof.
  intros Ho Hm Hfm Hp. revert Ho.
  induction h as [|[k' m'] h IH]; simpl; [discriminate|].
  pose proof (count_update_le p h k f Hp) as Hle.
  unfold count, update in *. simpl.
  destruct (String.eqb_spec k' k).
  - intros E; injection E as ->. simpl. rewrite Hfm, Hm. simpl. lia.
  - intros Ho. specialize (IH Ho). simpl. destruct (p m'); simpl; lia.
Qed.

(** ** Connectivity indexing *)

Lemma reach_frame h h' a b :
  (forall k, nbrs h' k = nbrs h k) -> reach h' a b -> reach h a b.
Proof.
  intros Hn. induction 1 as [x y Hxy| |x y z _ IH1 _ IH2].
  - apply rt_step. now rewrite <- Hn.
  - apply rt_refl.
  - now apply rt_trans with y.
Qed.

Lemma refs_ok_frame (g : ModuleObj -> ModuleObj) h h' :
  on_values g h' = on_values g h -> (forall k, nbrs h' k = nbrs h k) ->
  refs_ok h -> refs_ok h'.
Proof.
  intros Hf Hn Hok k r Hr. rewrite (frame_keys g h h' Hf).
  apply (Hok k). now rewrite <- Hn.
Qed.

Lemma refs_ok_index_frame h h' : index_frame h h' -> refs_ok h -> refs_ok h'.
Proof.
  intros Hf. apply (refs_ok_frame no_index_flags); [exact Hf|].
  intros k. now apply index_frame_nbrs.
Qed.

Lemma refs_ok_sort_frame h h' : sort_frame h h' -> refs_ok h -> refs_ok h'.
Proof.
  intros Hf. apply (refs_ok_frame no_sort_flags); [exact Hf|].
  intros k. now apply sort_frame_nbrs.
Qed.

Lemma indexing_run_refl i roots h : indexing_run i roots h h.
Proof.
  constructor.
  - apply index_frame_refl.
  - auto.
  - intros x H1 H2. congruence.
  - lia.
Qed.

Lemma indexing_run_trans i r1 r2 h1 h2 h3 :
  indexing_run i r1 h1 h2 -> indexing_run i r2 h2 h3 ->
  indexing_run i (r1 ++ r2) h1 h3.
Proof.
  intros R1 R2.
  assert (Hn : forall k, nbrs h2 k = nbrs h1 k)
    by (intros; apply index_frame_nbrs, (ir_frame R1)).
  constructor.
  - eapply index_frame_trans; [apply (ir_frame R1)|apply (ir_frame R2)].
  - intros x Hx. destruct (ir_keep R1 x Hx) as (H2 & E2).
    destruct (ir_keep R2 x H2) as (H3 & E3). split; congruence.
  - intros x H3 H1. destruct (indexed h2 x) eqn:H2.
    + destruct (ir_new R1 x H2 H1) as (Ei & Hy & r & Hr & Hreach).
      destruct (ir_keep R2 x H2) as (_ & E3).
      split; [congruence|]. split.
      * intros y Hyx. apply (ir_keep R2). auto.
      * exists r. split; [apply in_or_app; now left|assumption].
    + destruct (ir_new R2 x H3 H2) as (Ei & Hy & r & Hr & Hreach).
      split; [assumption|]. split.
      * intros y Hyx. apply Hy. now rewrite Hn.
      * exists r. split; [apply in_or_app; now right|].
        now apply (reach_frame h1 h2).
  - pose proof (ir_count R1). pose proof (ir_count R2). lia.
Qed.

Section IndexLoop.
Variables (fuel i : nat).
Hypothesis call : forall k h,
  refs_ok h -> In k (keys h) -> count unindexed h < fuel ->
  exists h', collectionAdjacencyIndex fuel i k h = (h', Return tt) /\
             indexing_run i [k] h h' /\ indexed h' k = true.

Lemma index_loop rs : forall h,
  refs_ok h -> (forall r, In r rs -> In r (keys h)) ->
  count unindexed h < fuel ->
  exists h', for_each (collectionAdjacencyIndex fuel i) rs h = (h', Return tt) /\
             indexing_run i rs h h' /\
             forall r, In r rs -> indexed h' r = true.
Proof.
  induction rs as [|r rs IH]; intros h Hok Hin Hc; simpl.
  - exists h. split; [reflexivity|]. split; [apply indexing_run_refl|].
    intros r [].
  - destruct (call r h Hok (Hin r (or_introl eq_refl)) Hc) as (h1 & E1 & R1 & I1).
    rewrite E1.
    pose proof (ir_frame R1) as F1.
    destruct (IH h1) as (h2 & E2 & R2 & I2).
    + now apply (refs_ok_index_frame h).
    + intros r' Hr'. rewrite (frame_keys _ _ _ F1). apply Hin. now right.
    + pose proof (ir_count R1). lia.
    + exists h2. split; [assumption|]. split.
      * apply (indexing_run_trans i [r] rs h h1 h2 R1 R2).
      * intros r' [<-|Hr']; [|auto]. now apply (ir_keep R2).
Qed.
End IndexLoop.

Lemma In_values_field (h : heap) k m r :
  own h k = Some m -> In r (values (requires m)) -> In r (nbrs h k).
Proof.
  intros Ho Hr. unfold nbrs, reqs, field. rewrite Ho.
  apply in_or_app. now left.
Qed.

Lemma index_mark_frame h k i :
  index_frame h
    (update h k (fun x => ModuleMethods.with_indexing true
                            (ModuleMethods.with_index (Some i) x))).
Proof. unfold index_frame. apply on_values_update. reflexivity. Qed.

(** With a budget above the number of modules not yet indexed, the
    indexing traversal returns, and it is an [indexing_run]. *)
Lemma index_traversal fuel i : forall k h,
  refs_ok h -> In k (keys h) -> count unindexed h < fuel ->
  exists h', collectionAdjacencyIndex fuel i k h = (h', Return tt) /\
             indexing_run i [k] h h' /\ indexed h' k = true.
Proof.
  induction fuel as [|fuel IH]; intros k h Hok Hk Hc; [lia|].
  simpl. destruct (In_keys_own _ _ _ Hk) as (m & Hm). rewrite Hm.
  destruct (indexing m) eqn:Hi; simpl.
  - exists h. split; [reflexivity|]. split; [apply indexing_run_refl|].
    unfold indexed, field. now rewrite Hm.
  - set (mark := fun x => ModuleMethods.with_indexing true
                            (ModuleMethods.with_index (Some i) x)).
    set (h1 := update h k mark).
    assert (F1 : index_frame h h1) by apply index_mark_frame.
    assert (C1 : count unindexed h1 < count unindexed h).
    { apply (count_update_lt unindexed h k mark m); auto.
      - unfold unindexed. now rewrite Hi.
      - intros m'. discriminate. }
    assert (N1 : forall x, nbrs h1 x = nbrs h x)
      by (intros; now apply index_frame_nbrs).
    assert (Ok1 : refs_ok h1) by now apply (refs_ok_index_frame h).
    assert (I1 : forall x, indexed h1 x = if String.eqb x k then true else indexed h x).
    { intros x. unfold indexed, h1. rewrite field_update.
      destruct (String.eqb_spec x k) as [->|]; [|reflexivity].
      unfold field. now rewrite Hm. }
    assert (X1 : forall x, index_at h1 x =
                   if String.eqb x k then Some i else index_at h x).
    { intros x. unfold index_at, h1. rewrite field_update.
      destruct (String.eqb_spec x k) as [->|]; [|reflexivity].
      unfold field. now rewrite Hm. }
    assert (K1 : keys h1 = keys h) by apply keys_update.
    assert (Hn : nbrs h k = values (requires m) ++ values (dependants m)).
    { unfold nbrs, reqs, deps, field. now rewrite Hm. }
    destruct (index_loop fuel i IH (values (requires m)) h1) as (h2 & E2 & R2 & I2);
      [assumption| |lia|].
    { intros r Hr. rewrite K1. apply (Hok k). rewrite Hn.
      apply in_or_app. now left. }
    pose proof (ir_frame R2) as F2. pose proof (ir_count R2) as C2.
    destruct (index_loop fuel i IH (values (dependants m)) h2) as (h3 & E3 & R3 & I3);
      [now apply (refs_ok_index_frame h1)| |lia|].
    { intros r Hr. rewrite (frame_keys _ _ _ F2), K1. apply (Hok k). rewrite Hn.
      apply in_or_app. now right. }
    fold mark. fold h1. rewrite E2.
    exists h3. split; [exact E3|].
    pose proof (indexing_run_trans _ _ _ _ _ _ R2 R3) as R13.
    assert (Ik3 : indexed h3 k = true).
    { apply (ir_keep R13). rewrite I1. now rewrite String.eqb_refl. }
    split; [|exact Ik3].
    assert (Hk0 : indexed h k = false) by (unfold indexed, field; now rewrite Hm).
    constructor.
    + eapply index_frame_trans; [exact F1|apply (ir_frame R13)].
    + intros x Hx.
      assert (x <> k) by (intros ->; congruence).
      assert (Hx1 : indexed h1 x = true).
      { rewrite I1. destruct (String.eqb_spec x k); [reflexivity|assumption]. }
      destruct (ir_keep R13 x Hx1) as (H3 & E3x). split; [assumption|].
      rewrite E3x, X1. destruct (String.eqb_spec x k); [contradiction|reflexivity].
    + intros x H3 H0. destruct (String.eqb_spec x k) as [->|Hxk].
      * split.
        { destruct (ir_keep R13 k) as (_ & Ek).
          - rewrite I1. now rewrite String.eqb_refl.
          - rewrite Ek, X1. now rewrite String.eqb_refl. }
        split.
        { intros y Hy. rewrite Hn in Hy. apply in_app_or in Hy.
          destruct Hy as [Hy|Hy]; [apply (ir_keep R3)|]; auto. }
        exists k. split; [now left|apply rt_refl].
      * assert (Hx1 : indexed h1 x = false).
        { rewrite I1. destruct (String.eqb_spec x k); [contradiction|assumption]. }
        destruct (ir_new R13 x H3 Hx1) as (Ei & Hy & r & Hr & Hreach).
        split; [assumption|]. split.
        { intros y Hyx. apply Hy. now rewrite N1. }
        exists k. split; [now left|].
        apply rt_trans with r.
        { apply rt_step. now rewrite Hn. }
        now apply (reach_frame h h1).
    + pose proof (ir_count R13). lia.
Qed.

(** ** Arrays with holes, positions *)

Lemma array_get_set_same {A} i (v : A) l : array_get i (array_set i v l) = Some v.
Proof.
  unfold array_get. revert l. induction i as [|i IH]; intros [|x l]; simpl; auto.
Qed.

Lemma array_get_set_other {A} i j (v : A) l :
  j <> i -> array_get j (array_set i v l) = array_get j l.
Proof.
  unfold array_get. revert j l.
  induction i as [|i IH]; intros [|j] [|x l] Hne; simpl;
    try congruence; try reflexivity.
  - now destruct j.
  - rewrite (IH j []) by congruence. now destruct j.
  - apply IH. congruence.
Qed.

Lemma length_array_set {A} i (v : A) l :
  length (array_set i v l) = Nat.max (length l) (S i).
Proof.
  revert l. induction i as [|i IH]; intros [|x l]; simpl; rewrite ?IH; simpl; lia.
Qed.

Lemma position_app x l l' : In x l -> position x (l ++ l') = position x l.
Proof.
  induction l as [|y l IH]; simpl; [tauto|].
  destruct (String.eqb_spec y x); [reflexivity|].
  intros [E|H]; [contradiction|]. now rewrite IH.
Qed.

Lemma position_fresh x l : ~ In x l -> position x (l ++ [x]) = length l.
Proof.
  induction l as [|y l IH]; simpl.
  - now rewrite String.eqb_refl.
  - intros H. destruct (String.eqb_spec y x); [subst; tauto|].
    rewrite IH; tauto.
Qed.

Lemma position_lt x l : In x l -> position x l < length l.
Proof.
  induction l as [|y l IH]; simpl; [tauto|].
  destruct (String.eqb_spec y x); [lia|].
  intros [E|H]; [contradiction|]. specialize (IH H). lia.
Qed.

(** ** Topological sort *)

Lemma path_frame h h' a b :
  (forall k, reqs h' k = reqs h k) -> path h' a b -> path h a b.
Proof.
  intros Hr. induction 1 as [x y Hxy|x y z _ IH1 _ IH2].
  - apply t_step. unfold edge in *. now rewrite <- Hr.
  - now apply t_trans with y.
Qed.

Lemma names_ok_frame (g : ModuleObj -> ModuleObj) h h' :
  (forall m, name (g m) = name m) ->
  on_values g h' = on_values g h -> names_ok h -> names_ok h'.
Proof.
  intros Hg Hf Hn k m Ho.
  pose proof (frame_field g name "" h h' k Hg Hf) as E.
  unfold field in E. rewrite Ho in E.
  destruct (own h k) as [m0|] eqn:E0.
  - rewrite E. now apply Hn.
  - assert (E' : own (on_values g h') k = own (on_values g h) k) by now rewrite Hf.
    rewrite !own_on_values, Ho, E0 in E'. discriminate.
Qed.

Lemma index_closed_ext bound h h' :
  (forall k, indexed h' k = indexed h k) ->
  (forall k, index_at h' k = index_at h k) ->
  (forall k, nbrs h' k = nbrs h k) ->
  index_closed bound h -> index_closed bound h'.
Proof.
  intros Hi Hx Hn [C1 C2]. constructor.
  - intros x y. rewrite !Hi, !Hx, Hn. apply C1.
  - intros x. rewrite Hi, Hx. apply C2.
Qed.

Lemma index_closed_sort_frame bound h h' :
  sort_frame h h' -> index_closed bound h -> index_closed bound h'.
Proof.
  intros F. apply index_closed_ext; intros k.
  - now apply sort_frame_indexed.
  - now apply sort_frame_index_at.
  - now apply sort_frame_nbrs.
Qed.

Lemma sorted_stack_ext bound bound' h h' s :
  (forall k, black h' k = black h k) ->
  (forall k, indexed h k = true -> indexed h' k = true) ->
  (forall k, indexed h k = true -> index_at h' k = index_at h k) ->
  (forall k, reqs h' k = reqs h k) ->
  bound <= bound' ->
  sorted_stack bound h s -> sorted_stack bound' h' s.
Proof.
  intros Hb Hi Hx Hr Hle [S0 S1 S2 S3 S4 S5]. constructor; auto.
  - intros x. rewrite Hb. auto.
  - intros x i. rewrite Hb. intros B. rewrite Hx by auto. now apply S1.
  - intros i b E. destruct (S2 i b E) as (? & ? & H). repeat split; auto.
    + rewrite Hb. now apply H.
    + destruct (H x H2) as (B & I). rewrite Hx by auto. exact I.
  - intros i b x r. rewrite Hr. apply S3.
  - lia.
Qed.

Lemma sorting_run_refl h : sorting_run h h.
Proof.
  constructor; auto.
  - apply sort_frame_refl.
  - intros x H1 H2. congruence.
Qed.

Lemma sorting_run_trans h1 h2 h3 :
  sorting_run h1 h2 -> sorting_run h2 h3 -> sorting_run h1 h3.
Proof.
  intros R1 R2. constructor.
  - eapply sort_frame_trans; [apply (sr_frame R1)|apply (sr_frame R2)].
  - intros x. now rewrite (sr_gray R2), (sr_gray R1).
  - intros x H. apply (sr_black R2), (sr_black R1), H.
  - intros x H3 H1. destruct (black h2 x) eqn:H2.
    + apply (sr_new R1 x H2 H1).
    + rewrite <- (sr_gray R1). apply (sr_new R2 x H3 H2).
  - pose proof (sr_count R1). pose proof (sr_count R2). lia.
Qed.

Lemma sort_pre_run bound h h' s s' targets targets' :
  sort_pre bound h s targets -> sorting_run h h' ->
  sorted_stack bound h' s' ->
  (forall r, In r targets' -> In r (keys h) /\ indexed h r = true) ->
  sort_pre bound h' s' targets'.
Proof.
  intros [P1 P2 P3 P4 P5] R S' T. pose proof (sr_frame R) as F.
  constructor.
  - now apply (refs_ok_sort_frame h).
  - now apply (names_ok_frame no_sort_flags h).
  - now apply (index_closed_sort_frame bound h).
  - intros r Hr. rewrite (frame_keys _ _ _ F), (sort_frame_indexed _ _ _ F). auto.
  - assumption.
Qed.

Section SortLoop.
Variables (fuel bound : nat).
Hypothesis call : forall k h s,
  sort_pre bound h s [k] -> count white h < fuel ->
  sort_post bound h s [k] (collectionTopoSort fuel k (h, s)).

Lemma sort_loop rs : forall h s,
  sort_pre bound h s rs -> count white h < fuel ->
  sort_post bound h s rs (for_each (collectionTopoSort fuel) rs (h, s)).
Proof.
  induction rs as [|r rs IH]; intros h s Pre Hc; simpl.
  - split; [apply sorting_run_refl|]. split; [intros r []|apply (sp_stack Pre)].
  - assert (Pre1 : sort_pre bound h s [r]).
    { destruct Pre as [P1 P2 P3 P4 P5]. constructor; auto.
      intros r' [<-|[]]. apply P4. now left. }
    pose proof (call r h s Pre1 Hc) as Post1.
    destruct (collectionTopoSort fuel r (h, s)) as [[h1 s1] [[]|e|]]; simpl in *.
    + destruct Post1 as (R1 & B1 & S1).
      assert (Pre2 : sort_pre bound h1 s1 rs).
      { apply (sort_pre_run bound h h1 s s1 (r :: rs)); auto.
        intros r' Hr'. apply (sp_targets Pre). now right. }
      assert (Hc2 : count white h1 < fuel) by (pose proof (sr_count R1); lia).
      pose proof (IH h1 s1 Pre2 Hc2) as Post2.
      destruct (for_each (collectionTopoSort fuel) rs (h1, s1))
        as [[h2 s2] [[]|e|]]; simpl in *.
      * destruct Post2 as (R2 & B2 & S2).
        split; [now apply (sorting_run_trans h h1 h2)|]. split; [|assumption].
        intros r' [<-|Hr']; [|auto]. apply (sr_black R2). apply B1. now left.
      * destruct Post2 as (F2 & n & -> & Hcyc).
        split; [eapply sort_frame_trans; [apply (sr_frame R1)|exact F2]|].
        exists n. split; [reflexivity|].
        intros Hg.
        apply (path_frame h h1); [intros; apply sort_frame_reqs, (sr_frame R1)|].
        apply Hcyc. intros g r' Hgray Hr'.
        rewrite (sr_gray R1) in Hgray.
        specialize (Hg g r' Hgray (or_intror Hr')).
        apply (path_frame h1 h); [|assumption].
        intros x. symmetry. apply sort_frame_reqs, (sr_frame R1).
      * exact Post2.
    + destruct Post1 as (F1 & n & -> & Hcyc). split; [exact F1|].
      exists n. split; [reflexivity|].
      intros Hg. apply Hcyc. intros g r' Hgray [<-|[]]. apply Hg; [assumption|now left].
    + exact Post1.
Qed.
End SortLoop.

Lemma bucket_push_same i k s :
  bucket (push (Some i) k s) i =
  Some (match bucket s i with Some b => b | None => [] end ++ [k]).
Proof. unfold bucket, push. simpl. apply array_get_set_same. Qed.

Lemma bucket_push_other i j k s :
  j <> i -> bucket (push (Some i) k s) j = bucket s j.
Proof. intros H. unfold bucket, push. simpl. now apply array_get_set_other. Qed.

(** Pushing a module whose requirements are all sorted, in its own
    component, keeps the stack sorted. *)
Lemma sorted_stack_push bound h2 h3 s2 k i :
  sorted_stack bound h2 s2 ->
  (forall x, black h3 x = if String.eqb x k then true else black h2 x) ->
  (forall x, indexed h3 x = indexed h2 x) ->
  (forall x, index_at h3 x = index_at h2 x) ->
  (forall x, reqs h3 x = reqs h2 x) ->
  black h2 k = false -> indexed h2 k = true ->
  index_at h2 k = Some i -> i < bound ->
  (forall r, In r (reqs h2 k) -> black h2 r = true /\ index_at h2 r = Some i) ->
  sorted_stack bound h3 (push (Some i) k s2).
Proof.
  intros [S0 S1 S2 S3 S4 S5] Hb Hd Hx Hr Hk Hik Hi Hlt Hreq.
  set (b0 := match bucket s2 i with Some b => b | None => [] end).
  assert (Hb0 : NoDup b0 /\
                (forall x, In x b0 -> black h2 x = true /\ index_at h2 x = Some i) /\
                (forall x r, In x b0 -> In r (reqs h2 x) ->
                   In r b0 /\ position r b0 < position x b0)).
  { unfold b0. destruct (bucket s2 i) as [b|] eqn:E.
    - destruct (S2 i b E) as (_ & ND & Hel).
      split; [assumption|]. split; [exact Hel|].
      intros x r Hxb Hrx. now apply (S3 i b x r).
    - split; [constructor|]. split; intros; simpl in *; tauto. }
  destruct Hb0 as (ND0 & El0 & Ord0).
  assert (Hk0 : ~ In k b0).
  { intros Hin. apply El0 in Hin. destruct Hin as [Hin _]. congruence. }
  assert (Hreq0 : forall r, In r (reqs h2 k) -> In r b0).
  { intros r Hin. destruct (Hreq r Hin) as (Br & Ir).
    destruct (S1 r i Br Ir) as (b & E & Hrb). unfold b0. now rewrite E. }
  assert (Blk : forall x, black h2 x = true -> black h3 x = true).
  { intros x H. rewrite Hb. now destruct (String.eqb x k). }
  constructor.
  - intros x. rewrite Hb, Hd.
    destruct (String.eqb_spec x k) as [Exk|Exk]; [now subst x|auto].
  - intros x j Bx Ix. rewrite Hx in Ix. rewrite Hb in Bx.
    destruct (Nat.eq_dec j i) as [->|Hji].
    + rewrite bucket_push_same. fold b0. exists (b0 ++ [k]). split; [reflexivity|].
      apply in_or_app. destruct (String.eqb_spec x k) as [Exk|Exk].
      * right. now left.
      * left. destruct (S1 x i Bx Ix) as (b & E & Hxb). unfold b0. now rewrite E.
    + rewrite bucket_push_other by assumption.
      destruct (String.eqb_spec x k) as [Exk|Exk]; [congruence|]. now apply S1.
  - intros j b. destruct (Nat.eq_dec j i) as [->|Hji].
    + rewrite bucket_push_same. fold b0. intros E; injection E as <-.
      split; [now destruct b0|]. split.
      * apply NoDup_app; [assumption|constructor; [tauto|constructor]|].
        intros x Hx0 [<-|[]]. contradiction.
      * intros x Hin. apply in_app_or in Hin. destruct Hin as [Hin|[<-|[]]].
        -- destruct (El0 x Hin). split; [auto|]. now rewrite Hx.
        -- split; [rewrite Hb; now rewrite String.eqb_refl|]. now rewrite Hx.
    + rewrite bucket_push_other by assumption. intros E.
      destruct (S2 j b E) as (? & ? & Hel). repeat split; auto.
      * apply Blk. now apply Hel.
      * rewrite Hx. now apply Hel.
  - intros j b x r. rewrite Hr. destruct (Nat.eq_dec j i) as [->|Hji].
    + rewrite bucket_push_same. fold b0. intros E; injection E as <-.
      intros Hin Hreqx. apply in_app_or in Hin. destruct Hin as [Hin|[<-|[]]].
      * destruct (Ord0 x r Hin Hreqx) as (Hrb & Hpos).
        split; [apply in_or_app; now left|].
        now rewrite !position_app by assumption.
      * pose proof (Hreq0 r Hreqx) as Hrb.
        split; [apply in_or_app; now left|].
        rewrite position_app by assumption. rewrite position_fresh by assumption.
        now apply position_lt.
    + rewrite bucket_push_other by assumption. apply S3.
  - assumption.
  - unfold push. simpl. rewrite length_array_set. lia.
Qed.

Lemma path_edge_end h g k r : path h g k -> edge h k r -> path h g r.
Proof. intros P E. apply t_trans with k; [assumption|now apply t_step]. Qed.

(** With a budget above the number of unvisited modules, the sort either
    returns with its target sorted and the stack in order, or throws the
    name of a module that lies on a cycle. *)
Lemma sort_traversal fuel bound : forall k h s,
  sort_pre bound h s [k] -> count white h < fuel ->
  sort_post bound h s [k] (collectionTopoSort fuel k (h, s)).
Proof.
  induction fuel as [|fuel IH]; intros k h s Pre Hc; [lia|].
  destruct (sp_targets Pre k (or_introl eq_refl)) as (Hk & Hik).
  destruct (In_keys_own _ _ _ Hk) as (m & Hm).
  simpl. rewrite Hm.
  destruct (topologicalMarker m) eqn:Gm.
  - (* the module is being visited *)
    simpl. split; [unfold sort_frame; now apply on_values_update|].
    exists k. split.
    + f_equal. now apply (sp_names Pre).
    + intros Hg. apply (Hg k k); [|now left].
      unfold gray, field. now rewrite Hm.
  - destruct (sorting m) eqn:Bm; simpl.
    + (* already sorted *)
      split; [apply sorting_run_refl|]. split; [|apply (sp_stack Pre)].
      intros r [<-|[]]. unfold black, field. now rewrite Hm.
    + set (h1 := update h k (ModuleMethods.with_topologicalMarker true)).
      assert (F1 : sort_frame h h1)
        by (unfold sort_frame, h1; now apply on_values_update).
      assert (G1 : forall x, gray h1 x = if String.eqb x k then true else gray h x).
      { intros x. unfold gray, h1. rewrite field_update.
        destruct (String.eqb_spec x k) as [E|E]; [|reflexivity].
        subst x. unfold field. now rewrite Hm. }
      assert (B1 : forall x, black h1 x = black h x).
      { intros x. unfold black, h1. rewrite field_update.
        now destruct (String.eqb x k). }
      assert (C1 : count white h1 < count white h).
      { apply (count_update_lt white h k _ m); auto.
        - unfold white. now rewrite Gm, Bm.
        - intros m'. discriminate. }
      assert (Hreqs : values (requires m) = reqs h k)
        by (unfold reqs, field; now rewrite Hm).
      assert (Hidx : index m = index_at h k)
        by (unfold index_at, field; now rewrite Hm).
      assert (Gk : gray h k = false) by (unfold gray, field; now rewrite Hm).
      assert (Bk : black h k = false) by (unfold black, field; now rewrite Hm).
      assert (Pre1 : sort_pre bound h1 s (reqs h k)).
      { destruct Pre as [P1 P2 P3 P4 P5]. constructor.
        - now apply (refs_ok_sort_frame h).
        - now apply (names_ok_frame no_sort_flags h).
        - now apply (index_closed_sort_frame bound h).
        - intros r Hr. rewrite (frame_keys _ _ _ F1), (sort_frame_indexed _ _ _ F1).
          assert (Hn : In r (nbrs h k)) by (apply in_or_app; now left).
          split; [now apply (P1 k)|]. now apply (ic_nbrs P3 k r).
        - apply (sorted_stack_ext bound bound h); auto; intros x.
          + now rewrite (sort_frame_indexed _ _ _ F1).
          + intros _. now apply sort_frame_index_at.
          + now apply sort_frame_reqs. }
      rewrite Hreqs. fold h1.
      pose proof (sort_loop fuel bound IH (reqs h k) h1 s Pre1 ltac:(lia)) as Post.
      cbn [fst snd].
      match goal with
      | |- context [for_each ?f ?l ?st] => set (res := for_each f l st)
      end.
      change (sort_post bound h1 s (reqs h k) res) in Post.
      destruct res as [[h2 s2] [[]|e|]]; simpl in Post |- *.
      * destruct Post as (R12 & B2 & S2).
        pose proof (sr_frame R12) as F12.
        set (done := fun x => ModuleMethods.with_sorting true
                                (ModuleMethods.with_topologicalMarker false x)).
        set (h3 := update h2 k done).
        assert (F23 : sort_frame h2 h3)
          by (unfold sort_frame, h3; now apply on_values_update).
        assert (Hk2 : exists m2, own h2 k = Some m2).
        { apply In_keys_own. now rewrite (frame_keys _ _ _ F12), (frame_keys _ _ _ F1). }
        destruct Hk2 as (m2 & Hm2).
        assert (G3 : forall x, gray h3 x = if String.eqb x k then false else gray h2 x).
        { intros x. unfold gray, h3. rewrite field_update.
          destruct (String.eqb_spec x k) as [E|E]; [|reflexivity].
          subst x. unfold field. now rewrite Hm2. }
        assert (B3 : forall x, black h3 x = if String.eqb x k then true else black h2 x).
        { intros x. unfold black, h3. rewrite field_update.
          destruct (String.eqb_spec x k) as [E|E]; [|reflexivity].
          subst x. unfold field. now rewrite Hm2. }
        assert (Bk2 : black h2 k = false).
        { destruct (black h2 k) eqn:E; [|reflexivity].
          assert (gray h1 k = false).
          { apply (sr_new R12 k E). now rewrite B1. }
          rewrite G1, String.eqb_refl in H. discriminate. }
        destruct (ic_bound (sp_closed Pre) k Hik) as (i & Hi & Hlt).
        rewrite Hidx, Hi.
        split; [|split].
        -- constructor.
           ++ eapply sort_frame_trans; [exact F1|].
              eapply sort_frame_trans; [exact F12|exact F23].
           ++ intros x. rewrite G3.
              destruct (String.eqb_spec x k) as [E|E]; [now subst x|].
              rewrite (sr_gray R12), G1.
              destruct (String.eqb_spec x k); [contradiction|reflexivity].
           ++ intros x Hx. rewrite B3. destruct (String.eqb x k); [reflexivity|].
              apply (sr_black R12). now rewrite B1.
           ++ intros x H3 H0. destruct (String.eqb_spec x k) as [E|E]; [now subst x|].
              rewrite B3 in H3.
              destruct (String.eqb_spec x k); [contradiction|].
              assert (Hg1 : gray h1 x = false)
                by (apply (sr_new R12 x H3); now rewrite B1).
              rewrite G1 in Hg1.
              destruct (String.eqb_spec x k); [contradiction|assumption].
           ++ assert (count white h3 <= count white h2).
              { apply count_update_le. intros m'. discriminate. }
              pose proof (sr_count R12). lia.
        -- intros r [<-|[]]. rewrite B3. now rewrite String.eqb_refl.
        -- apply (sorted_stack_push bound h2 h3 s2 k i); auto.
           ++ intros x. now apply sort_frame_indexed.
           ++ intros x. now apply sort_frame_index_at.
           ++ intros x. now apply sort_frame_reqs.
           ++ now rewrite (sort_frame_indexed _ _ _ F12), (sort_frame_indexed _ _ _ F1).
           ++ rewrite (sort_frame_index_at _ _ _ F12), (sort_frame_index_at _ _ _ F1).
              exact Hi.
           ++ intros r Hr.
              rewrite (sort_frame_reqs _ _ _ F12), (sort_frame_reqs _ _ _ F1) in Hr.
              split; [now apply B2|].
              rewrite (sort_frame_index_at _ _ _ F12), (sort_frame_index_at _ _ _ F1).
              rewrite <- Hi. apply (ic_nbrs (sp_closed Pre) k r Hik).
              apply in_or_app. now left.
      * destruct Post as (F2 & n & -> & Hcyc).
        split; [eapply sort_frame_trans; [exact F1|exact F2]|].
        exists n. split; [reflexivity|].
        intros Hg.
        apply (path_frame h h1); [intros; now apply sort_frame_reqs|].
        apply Hcyc. intros g r Hgray Hr.
        assert (Hkr : path h1 k r).
        { apply t_step. unfold edge. now rewrite (sort_frame_reqs _ _ _ F1). }
        rewrite G1 in Hgray. destruct (String.eqb_spec g k) as [E|E].
        -- now subst g.
        -- apply t_trans with k; [|assumption].
           specialize (Hg g k Hgray (or_introl eq_refl)).
           apply (path_frame h1 h); [|assumption].
           intros x. symmetry. now apply sort_frame_reqs.
      * exact Post.
Qed.

(** ** The loop of [serialize] *)

Lemma on_values_compose {V} (g f : V -> V) (o : jsobj V) :
  on_values g (on_values f o) = on_values (fun v => g (f v)) o.
Proof. unfold on_values. rewrite map_map. reflexivity. Qed.

Lemma marker_frame_refl h : marker_frame h h.
Proof. reflexivity. Qed.

Lemma marker_frame_index h0 h h' :
  marker_frame h0 h -> index_frame h h' -> marker_frame h0 h'.
Proof.
  unfold marker_frame, index_frame. intros H0 H.
  rewrite <- H0.
  change no_flags with (fun m => no_sort_flags (no_index_flags m)).
  rewrite <- !(on_values_compose no_sort_flags no_index_flags). now rewrite H.
Qed.

Lemma marker_frame_sort h0 h h' :
  marker_frame h0 h -> sort_frame h h' -> marker_frame h0 h'.
Proof.
  unfold marker_frame, sort_frame. intros H0 H.
  rewrite <- H0. unfold no_flags.
  rewrite <- !(on_values_compose no_index_flags no_sort_flags). now rewrite H.
Qed.

Lemma marker_frame_reqs h h' k : marker_frame h h' -> reqs h' k = reqs h k.
Proof. intros H. now apply (frame_field no_flags). Qed.

Lemma marker_frame_deps h h' k : marker_frame h h' -> deps h' k = deps h k.
Proof. intros H. now apply (frame_field no_flags). Qed.

Lemma marker_frame_nbrs h h' k : marker_frame h h' -> nbrs h' k = nbrs h k.
Proof.
  intros H. unfold nbrs.
  now rewrite (marker_frame_reqs _ _ _ H), (marker_frame_deps _ _ _ H).
Qed.

Lemma mirrored_nbrs_sym h x y : mirrored h -> In y (nbrs h x) -> In x (nbrs h y).
Proof.
  intros M H. apply in_app_or in H. apply in_or_app.
  destruct H as [H|H]; [right|left]; now apply M.
Qed.

Lemma nbrs_connected h x y : mirrored h -> In y (nbrs h x) -> connected h x y.
Proof.
  intros M H. apply in_app_or in H. destruct H as [H|H].
  - now apply rst_step.
  - apply rst_sym, rst_step. now apply M.
Qed.

Lemma reach_connected h x y : mirrored h -> reach h x y -> connected h x y.
Proof.
  intros M. induction 1 as [a b Hab|a|a b c _ IH1 _ IH2].
  - now apply nbrs_connected.
  - apply rst_refl.
  - now apply rst_trans with b.
Qed.

(** Connected modules of an index-closed heap share their index. *)
Lemma connected_same_index bound h x y :
  mirrored h -> index_closed bound h -> connected h x y ->
  (indexed h x = true -> indexed h y = true /\ index_at h y = index_at h x) /\
  (indexed h y = true -> indexed h x = true /\ index_at h x = index_at h y).
Proof.
  intros M C. induction 1 as [a b Hab|a|a b _ IH|a b c _ IH1 _ IH2].
  - split; intros H.
    + apply (ic_nbrs C a b H). apply in_or_app. now left.
    + apply (ic_nbrs C b a H). apply in_or_app. right. now apply M.
  - tauto.
  - tauto.
  - split; intros H.
    + destruct (proj1 IH1 H) as (Hb & Eb). destruct (proj1 IH2 Hb) as (Hc & Ec).
      split; congruence.
    + destruct (proj2 IH2 H) as (Hb & Eb). destruct (proj2 IH1 Hb) as (Ha & Ea).
      split; congruence.
Qed.

Lemma field_own_true (f : ModuleObj -> bool) h k :
  field f false h k = true -> In k (keys h).
Proof.
  unfold field. destruct (own h k) eqn:E; [|discriminate].
  intros _. eapply own_In_keys; eassumption.
Qed.

Lemma connected_frame h h' a b :
  (forall k, reqs h' k = reqs h k) -> connected h' a b -> connected h a b.
Proof.
  intros Hr. induction 1 as [x y Hxy|x|x y _ IH|x y z _ IH1 _ IH2].
  - apply rst_step. unfold edge in *. now rewrite <- Hr.
  - apply rst_refl.
  - now apply rst_sym.
  - now apply rst_trans with y.
Qed.

Section SerializeLoop.
Variable h0 : heap.
Hypothesis Hrefs : refs_ok h0.
Hypothesis Hnames : names_ok h0.
Hypothesis Hmir : mirrored h0.
Variable fuel : nat.
Hypothesis Hfuel : length h0 < fuel.

Lemma mf_refs h : marker_frame h0 h -> refs_ok h.
Proof.
  intros F. apply (refs_ok_frame no_flags h0); auto.
  intros k. now apply marker_frame_nbrs.
Qed.

Lemma mf_names h : marker_frame h0 h -> names_ok h.
Proof. intros F. now apply (names_ok_frame no_flags h0). Qed.

Lemma mf_mirrored h : marker_frame h0 h -> mirrored h.
Proof.
  intros F a b.
  rewrite (marker_frame_reqs _ _ a F), (marker_frame_deps _ _ b F). apply Hmir.
Qed.

Lemma mf_keys h : marker_frame h0 h -> keys h = keys h0.
Proof. apply frame_keys. Qed.

Lemma mf_count p h : marker_frame h0 h -> count p h < fuel.
Proof.
  intros F. pose proof (count_le_length p h).
  rewrite (frame_length _ _ _ F) in H. lia.
Qed.

Lemma index_phase done st k :
  serialize_inv h0 done st -> In k (keys h0) ->
  indexed (st_heap st) k = false ->
  exists h1,
    collectionAdjacencyIndex fuel (adjacencyPoint st) k (st_heap st)
      = (h1, Return tt) /\
    serialize_inv h0 done
      {| st_heap := h1; st_stack := st_stack st;
         adjacencyPoint := S (adjacencyPoint st) |} /\
    indexed h1 k = true.
Proof.
  intros I Hk Hik.
  set (h := st_heap st) in *. set (ap := adjacencyPoint st) in *.
  pose proof (si_frame I) as F. fold h in F.
  pose proof (si_closed I) as C. fold h ap in C.
  destruct (index_traversal fuel ap k h) as (h1 & E & R & Ik1).
  { now apply mf_refs. }
  { now rewrite mf_keys. }
  { now apply mf_count. }
  exists h1. split; [exact E|]. split; [|exact Ik1].
  pose proof (ir_frame R) as F1.
  assert (N1 : forall x, nbrs h1 x = nbrs h x) by (intros; now apply index_frame_nbrs).
  constructor; simpl.
  - now apply (marker_frame_index h0 h).
  - intros x. rewrite (index_frame_gray _ _ _ F1). apply (si_gray I).
  - constructor.
    + intros x y Hx Hy. rewrite N1 in Hy. destruct (indexed h x) eqn:Ex.
      * destruct (ic_nbrs C x y Ex Hy) as (Iy & Ey).
        destruct (ir_keep R y Iy) as (Iy1 & Ey1).
        destruct (ir_keep R x Ex) as (_ & Ex1). split; congruence.
      * destruct (ir_new R x Hx Ex) as (Xi & Hall & _).
        split; [now apply Hall|]. rewrite Xi.
        destruct (indexed h y) eqn:Ey.
        -- exfalso. apply (mirrored_nbrs_sym h x y (mf_mirrored h F)) in Hy.
           destruct (ic_nbrs C y x Ey Hy). congruence.
        -- now apply (ir_new R y (Hall y Hy) Ey).
    + intros x Hx. destruct (indexed h x) eqn:Ex.
      * destruct (ic_bound C x Ex) as (j & Ej & Hj).
        destruct (ir_keep R x Ex) as (_ & Ex1).
        exists j. split; [congruence|lia].
      * exists ap. split; [now apply (ir_new R x Hx Ex)|lia].
  - apply (sorted_stack_ext ap (S ap) h h1); auto.
    + intros x. now apply index_frame_black.
    + intros x Hx. now apply (ir_keep R).
    + intros x Hx. now apply (ir_keep R).
    + intros x. now apply index_frame_reqs.
    + apply (si_stack I).
  - intros x Hx. rewrite (index_frame_black _ _ _ F1). now apply (si_done I).
  - intros x y Hx Hy Exy.
    assert (Hreach : forall z, indexed h1 z = true -> indexed h z = false ->
                               connected h0 k z).
    { intros z Hz Hz0. destruct (ir_new R z Hz Hz0) as (_ & _ & r & [<-|[]] & Hr).
      apply (connected_frame h0 h); [intros; now apply marker_frame_reqs|].
      apply reach_connected; [now apply mf_mirrored|assumption]. }
    assert (Hold : forall z, indexed h z = true ->
              exists j, index_at h1 z = Some j /\ j < ap).
    { intros z Hz. destruct (ic_bound C z Hz) as (j & Ej & Hj).
      destruct (ir_keep R z Hz) as (_ & Ez1). exists j. split; [congruence|lia]. }
    destruct (indexed h x) eqn:Ex, (indexed h y) eqn:Ey.
    + apply (si_component I x y Ex Ey). change (index_at h x = index_at h y).
      destruct (ir_keep R x Ex) as (_ & E1). destruct (ir_keep R y Ey) as (_ & E2).
      congruence.
    + exfalso. destruct (Hold x Ex) as (j & Ej & Hj).
      destruct (ir_new R y Hy Ey) as (Ey1 & _). rewrite Ej, Ey1 in Exy.
      injection Exy as ->. lia.
    + exfalso. destruct (Hold y Ey) as (j & Ej & Hj).
      destruct (ir_new R x Hx Ex) as (Ex1 & _). rewrite Ej, Ex1 in Exy.
      injection Exy as <-. lia.
    + apply rst_trans with k; [apply rst_sym|]; now apply Hreach.
  - intros j Hj. destruct (Nat.eq_dec j ap) as [->|Hne].
    + exists k. split; [assumption|]. now apply (ir_new R k Ik1 Hik).
    + destruct (si_ids I (j := j)) as (x & Hx & Ex); [fold ap; lia|].
      change (index_at h x = Some j) in Ex.
      exists x. destruct (ir_keep R x Hx) as (Hx1 & Ex1). split; congruence.
Qed.

Lemma sort_phase done st k :
  serialize_inv h0 done st -> In k (keys h0) ->
  indexed (st_heap st) k = true ->
  match collectionTopoSort fuel k (st_heap st, st_stack st) with
  | ((h2, s2), r) =>
      loop_post h0 (k :: done)
        ({| st_heap := h2; st_stack := s2;
            adjacencyPoint := adjacencyPoint st |}, r)
  end.
Proof.
  intros I Hk Hik.
  set (h := st_heap st) in *. set (ap := adjacencyPoint st) in *.
  pose proof (si_frame I) as F. fold h in F.
  assert (Pre : sort_pre ap h (st_stack st) [k]).
  { constructor.
    - now apply mf_refs.
    - now apply mf_names.
    - apply (si_closed I).
    - intros r [<-|[]]. split; [now rewrite mf_keys|assumption].
    - apply (si_stack I). }
  pose proof (sort_traversal fuel ap k h (st_stack st) Pre (mf_count white h F))
    as Post.
  destruct (collectionTopoSort fuel k (h, st_stack st)) as [[h2 s2] [[]|e|]];
    simpl in *.
  - destruct Post as (R & B & S').
    pose proof (sr_frame R) as F2.
    constructor; simpl.
    + now apply (marker_frame_sort h0 h).
    + intros x. rewrite (sr_gray R). apply (si_gray I).
    + apply (index_closed_sort_frame ap h); [assumption|apply (si_closed I)].
    + exact S'.
    + intros x [<-|Hx]; [apply B; now left|]. apply (sr_black R). now apply (si_done I).
    + intros x y. rewrite !(sort_frame_indexed _ _ _ F2), !(sort_frame_index_at _ _ _ F2).
      apply (si_component I).
    + intros j Hj. destruct (si_ids I Hj) as (x & Hx & Ex). exists x.
      now rewrite (sort_frame_indexed _ _ _ F2), (sort_frame_index_at _ _ _ F2).
  - destruct Post as (F2 & n & -> & Hcyc). split; [|split].
    + exists n. split; [reflexivity|].
      apply (path_frame h0 h); [intros; now apply marker_frame_reqs|].
      apply Hcyc. intros g r Hg. rewrite (si_gray I) in Hg. discriminate.
    + now apply (marker_frame_sort h0 h).
    + exists k. now rewrite (sort_frame_indexed _ _ _ F2).
  - exact Post.
Qed.

Lemma serialize_inv_done done st k :
  serialize_inv h0 done st -> black (st_heap st) k = true ->
  serialize_inv h0 (k :: done) st.
Proof.
  intros [I1 I2 I3 I4 I5 I6 I7] B. constructor; auto.
  intros x [<-|Hx]; auto.
Qed.

Lemma serialize_step_spec done st k :
  serialize_inv h0 done st -> In k (keys h0) ->
  loop_post h0 (k :: done) (serialize_step fuel k st).
Proof.
  intros I Hk. unfold serialize_step.
  pose proof (si_frame I) as F.
  destruct (In_keys_own _ (st_heap st) k) as (module & Hm);
    [now rewrite mf_keys|].
  rewrite Hm.
  assert (Hidx : indexing module = indexed (st_heap st) k)
    by (unfold indexed, field; now rewrite Hm).
  rewrite Hidx. destruct (indexed (st_heap st) k) eqn:Ei; simpl.
  - rewrite Hm.
    assert (Hb : sorting module = black (st_heap st) k)
      by (unfold black, field; now rewrite Hm).
    rewrite Hb. destruct (black (st_heap st) k) eqn:Eb; simpl.
    + destruct st. now apply serialize_inv_done.
    + pose proof (sort_phase done st k I Hk Ei) as P.
      destruct (collectionTopoSort fuel k (st_heap st, st_stack st)) as [[h2 s2] r].
      exact P.
  - destruct (index_phase done st k I Hk Ei) as (h1 & E & I1 & Ik1).
    rewrite E.
    destruct (In_keys_own _ h1 k) as (module' & Hm').
    { rewrite (mf_keys h1); [assumption|apply (si_frame I1)]. }
    rewrite Hm'.
    assert (Hb : sorting module' = black h1 k)
      by (unfold black, field; now rewrite Hm').
    rewrite Hb. destruct (black h1 k) eqn:Eb; simpl.
    + now apply serialize_inv_done.
    + pose proof (sort_phase done _ k I1 Hk Ik1) as P. simpl in P.
      destruct (collectionTopoSort fuel k (h1, st_stack st)) as [[h2 s2] r].
      exact P.
Qed.

Lemma serialize_loop ks : forall done st,
  serialize_inv h0 done st -> (forall k, In k ks -> In k (keys h0)) ->
  loop_post h0 (rev ks ++ done) (for_each (serialize_step fuel) ks st).
Proof.
  induction ks as [|k ks IH]; intros done st I Hks; simpl.
  - exact I.
  - pose proof (serialize_step_spec done st k I (Hks k (or_introl eq_refl))) as P.
    destruct (serialize_step fuel k st) as [st1 [[]|e|]]; simpl in P.
    + rewrite <- app_assoc. simpl. apply IH; [assumption|].
      intros k' Hk'. apply Hks. now right.
    + exact P.
    + exact P.
Qed.

End SerializeLoop.

(** ** From well-formed collections to the loop invariant *)

Lemma field_In_own {A} (f : ModuleObj -> list A) h k x :
  In x (field f [] h k) -> In k (keys h).
Proof.
  unfold field. destruct (own h k) eqn:E; [|intros []].
  intros _. eapply own_In_keys; eassumption.
Qed.

Lemma mirrored_refs_ok h : mirrored h -> refs_ok h.
Proof.
  intros M k r Hr. apply in_app_or in Hr. destruct Hr as [Hr|Hr].
  - apply M in Hr. eapply field_In_own; eassumption.
  - apply M in Hr. eapply field_In_own; eassumption.
Qed.

Lemma wf_refs_ok c : wf c -> refs_ok (modules c).
Proof. intros W. apply mirrored_refs_ok, (wf_mirrored W). Qed.

Lemma wf_names_ok c : wf c -> names_ok (modules c).
Proof. intros W. apply (wf_name W). Qed.

Lemma cleanb_clean h : cleanb h = true -> clean h.
Proof.
  unfold cleanb. rewrite forallb_forall. intros H k m Ho.
  apply own_In in Ho. apply (H (k, m) Ho).
Qed.

Lemma clean_field (f : ModuleObj -> bool) h k :
  clean h -> (forall m, unmarked m = true -> f m = false) ->
  field f false h k = false.
Proof.
  intros C Hf. unfold field. destruct (own h k) eqn:E; [|reflexivity].
  apply Hf. now apply (C k).
Qed.

Lemma unmarked_flags m :
  unmarked m = true ->
  topologicalMarker m = false /\ sorting m = false /\ indexing m = false.
Proof.
  unfold unmarked. destruct (topologicalMarker m), (sorting m), (indexing m);
    simpl; intros H; try discriminate; auto.
Qed.

Lemma array_get_nil {A} i : @array_get A i [] = None.
Proof. unfold array_get. now destruct i. Qed.

Lemma clean_inv h :
  clean h ->
  serialize_inv h []
    {| st_heap := h;
       st_stack := {| elements := []; undefined_bucket := None |};
       adjacencyPoint := 0 |}.
Proof.
  intros C.
  assert (G : forall x, gray h x = false)
    by (intros; apply clean_field; auto; intros m Hm; now apply unmarked_flags in Hm).
  assert (B : forall x, black h x = false)
    by (intros; apply clean_field; auto; intros m Hm; now apply unmarked_flags in Hm).
  assert (X : forall x, indexed h x = false)
    by (intros; apply clean_field; auto; intros m Hm; now apply unmarked_flags in Hm).
  constructor; simpl.
  - apply marker_frame_refl.
  - exact G.
  - constructor; intros x; rewrite X; discriminate.
  - constructor; simpl.
    + intros x. rewrite B. discriminate.
    + intros x i. rewrite B. discriminate.
    + intros i b. unfold bucket. simpl. rewrite array_get_nil. discriminate.
    + intros i b x r. unfold bucket. simpl. rewrite array_get_nil. discriminate.
    + reflexivity.
    + lia.
  - intros k [].
  - intros x y. rewrite X. discriminate.
  - intros j Hj. lia.
Qed.

(** The first loop of [serialize] on a well-formed, unmarked collection:
    it never gets stuck; it returns in a state that satisfies the
    invariant with every key done, or throws a module on a cycle. *)
Lemma serialize_loop_wf c :
  wf c -> clean (modules c) ->
  loop_post (modules c) (rev (keys (modules c)))
    (for_each (serialize_step (S (length (modules c)))) (keys (modules c))
       {| st_heap := modules c;
          st_stack := {| elements := []; undefined_bucket := None |};
          adjacencyPoint := 0 |}).
Proof.
  intros W C.
  rewrite <- (app_nil_r (rev (keys (modules c)))).
  apply serialize_loop; auto using wf_refs_ok, wf_mirrored, wf_names_ok, clean_inv.
Qed.

(** ** The buckets of a completed loop *)

Lemma array_all_some {A} (l : list (option A)) :
  (forall j, j < length l -> array_get j l <> None) ->
  exists bs, l = map Some bs.
Proof.
  induction l as [|x l IH]; intros H.
  - now exists [].
  - destruct IH as (bs & ->).
    { intros j Hj. apply (H (S j)). simpl. lia. }
    destruct x as [v|].
    + now exists (v :: bs).
    + exfalso. apply (H 0); [simpl; lia|reflexivity].
Qed.

Lemma array_get_map_Some {A} (bs : list A) j :
  array_get j (map Some bs) = nth_error bs j.
Proof.
  unfold array_get. revert j. induction bs as [|b bs IH]; intros [|j]; simpl; auto.
Qed.

Lemma NoDup_app_disjoint {A} (l l' : list A) x :
  NoDup (l ++ l') -> In x l -> In x l' -> False.
Proof.
  induction l as [|a l IH]; simpl; [tauto|].
  intros ND [->|Hx] Hx'; inversion ND as [|? ? Hn ND']; subst.
  - apply Hn. apply in_or_app. now right.
  - now apply IH.
Qed.

Lemma NoDup_concat_unique {A} (bs : list (list A)) b b' y :
  NoDup (concat bs) -> In b bs -> In b' bs -> In y b -> In y b' -> b = b'.
Proof.
  induction bs as [|c bs IH]; simpl; [tauto|].
  intros ND [->|Hb] [->|Hb'] Hy Hy'.
  - reflexivity.
  - exfalso. apply (NoDup_app_disjoint _ _ y ND Hy).
    apply in_concat. now exists b'.
  - exfalso. apply (NoDup_app_disjoint _ _ y ND Hy').
    apply in_concat. now exists b.
  - apply IH; auto. now apply NoDup_app_remove_l in ND.
Qed.

Lemma NoDup_concat_nth (bs : list (list string)) :
  (forall j b, nth_error bs j = Some b -> NoDup b) ->
  (forall i j bi bj x, nth_error bs i = Some bi -> nth_error bs j = Some bj ->
     In x bi -> In x bj -> i = j) ->
  NoDup (concat bs).
Proof.
  induction bs as [|b bs IH]; intros Hnd Hdis; simpl; [constructor|].
  apply NoDup_app.
  - apply (Hnd 0). reflexivity.
  - apply IH.
    + intros j b' E. apply (Hnd (S j)). exact E.
    + intros i j bi bj x Ei Ej Hi Hj.
      assert (S i = S j) by (apply (Hdis (S i) (S j) bi bj x); auto). lia.
  - intros x Hx Hc. apply in_concat in Hc. destruct Hc as (b' & Hb' & Hxb').
    apply In_nth_error in Hb'. destruct Hb' as (j & Ej).
    assert (0 = S j) by (apply (Hdis 0 (S j) b b' x); auto). lia.
Qed.

Lemma final_buckets h0 st :
  refs_ok h0 -> mirrored h0 ->
  serialize_inv h0 (rev (keys h0)) st ->
  exists buckets,
    st_stack st = {| elements := map Some buckets; undefined_bucket := None |} /\
    bucketing h0 buckets.
Proof.
  intros Hrefs Hmir I.
  set (h := st_heap st) in *. set (s := st_stack st) in *.
  set (ap := adjacencyPoint st) in *.
  pose proof (si_frame I) as F. pose proof (si_stack I) as S.
  pose proof (si_closed I) as C. fold h in F. fold h s ap in S. fold h ap in C.
  assert (K : keys h = keys h0) by now apply frame_keys in F.
  assert (Hmir' : mirrored h).
  { intros a b. rewrite (marker_frame_reqs _ _ a F), (marker_frame_deps _ _ b F).
    apply Hmir. }
  assert (AllB : forall k, In k (keys h0) -> black h k = true).
  { intros k Hk. apply (si_done I). now apply -> in_rev. }
  assert (Idx : forall k, In k (keys h0) ->
            exists i b, index_at h k = Some i /\ bucket s i = Some b /\ In k b).
  { intros k Hk. pose proof (AllB k Hk) as B.
    destruct (ic_bound C k (ss_indexed S k B)) as (i & Ei & _).
    destruct (ss_black S k B Ei) as (b & Eb & Hb). eauto. }
  assert (Hkey : forall i b x, bucket s i = Some b -> In x b ->
            In x (keys h0) /\ index_at h x = Some i).
  { intros i b x E Hx. destruct (ss_bucket S i E) as (_ & _ & Hel).
    destruct (Hel x Hx) as (B & Ei). split; [|assumption].
    rewrite <- K. now apply (field_own_true sorting). }
  destruct (array_all_some (elements s)) as (bs & Ebs).
  { intros j Hj. pose proof (ss_length S).
    destruct (si_ids I (j := j)) as (x & Hx & Ex); [fold s ap; lia|].
    assert (Hxk : In x (keys h0)) by (rewrite <- K; now apply (field_own_true indexing)).
    destruct (ss_black S x (AllB x Hxk) Ex) as (b & Eb & _).
    unfold bucket in Eb. congruence. }
  assert (Hnth : forall j, bucket s j = nth_error bs j).
  { intros j. unfold bucket. rewrite Ebs. apply array_get_map_Some. }
  exists bs. split.
  { pose proof (ss_undefined S). destruct s; simpl in *. congruence. }
  constructor.
  - intros b Hb. apply In_nth_error in Hb. destruct Hb as (j & Ej).
    rewrite <- Hnth in Ej. now destruct (ss_bucket S j Ej).
  - apply NoDup_concat_nth.
    + intros j b Ej. rewrite <- Hnth in Ej. now destruct (ss_bucket S j Ej) as (_ & ? & _).
    + intros i j bi bj x Ei Ej Hi Hj. rewrite <- Hnth in Ei, Ej.
      destruct (Hkey i bi x Ei Hi) as (_ & E1).
      destruct (Hkey j bj x Ej Hj) as (_ & E2). congruence.
  - intros k. split.
    + intros Hc. apply in_concat in Hc. destruct Hc as (b & Hb & Hk).
      apply In_nth_error in Hb. destruct Hb as (j & Ej). rewrite <- Hnth in Ej.
      now destruct (Hkey j b k Ej Hk).
    + intros Hk. destruct (Idx k Hk) as (i & b & _ & Eb & Hb).
      apply in_concat. exists b. split; [|assumption].
      rewrite Hnth in Eb. eapply nth_error_In; eassumption.
  - intros x y Hx Hy. split.
    + intros (b & Hb & Hxb & Hyb).
      apply In_nth_error in Hb. destruct Hb as (j & Ej). rewrite <- Hnth in Ej.
      destruct (Hkey j b x Ej Hxb) as (_ & E1).
      destruct (Hkey j b y Ej Hyb) as (_ & E2).
      apply (si_component I).
      * apply (ss_indexed S). now apply AllB.
      * apply (ss_indexed S). now apply AllB.
      * fold h. congruence.
    + intros Hc.
      assert (Hc' : connected h x y).
      { apply (connected_frame h h0); [|assumption].
        intros k. symmetry. now apply marker_frame_reqs. }
      destruct (connected_same_index ap h x y Hmir' C Hc') as (Hxy & _).
      destruct (Hxy (ss_indexed S x (AllB x Hx))) as (_ & E).
      destruct (Idx x Hx) as (i & b & Ei & Eb & Hb).
      destruct (Idx y Hy) as (i' & b' & Ei' & Eb' & Hb').
      assert (i' = i) by congruence. subst i'.
      assert (b' = b) by congruence. subst b'.
      exists b. split; [|auto]. rewrite Hnth in Eb. eapply nth_error_In; eassumption.
  - intros b k r Hb Hk He.
    apply In_nth_error in Hb. destruct Hb as (j & Ej). rewrite <- Hnth in Ej.
    eapply (ss_order S); [exact Ej|exact Hk|].
    unfold edge in He. now rewrite (marker_frame_reqs _ _ k F).
Qed.

(** A graph whose modules fit in buckets ordered by requirement has no
    cycle. *)
Lemma bucketing_acyclic h0 buckets :
  refs_ok h0 -> bucketing h0 buckets -> acyclic h0.
Proof.
  intros Hrefs B.
  assert (Hrank : forall x y, path h0 x y ->
            exists b, In b buckets /\ In x b /\ In y b /\
                      position y b < position x b).
  { induction 1 as [x y Hxy|x y z _ IH1 _ IH2].
    - assert (Hx : In x (keys h0)).
      { unfold edge, reqs in Hxy. apply (field_own_true (fun _ => true)).
        unfold field in *. now destruct (own h0 x). }
      apply (bk_cover B) in Hx. apply in_concat in Hx.
      destruct Hx as (b & Hb & Hxb). exists b.
      destruct (bk_order B b x y Hb Hxb Hxy). auto.
    - destruct IH1 as (b & Hb & Hxb & Hyb & L1).
      destruct IH2 as (b' & Hb' & Hyb' & Hzb' & L2).
      assert (b' = b)
        by (apply (NoDup_concat_unique buckets b' b y (bk_nodup B)); auto).
      subst b'. exists b. repeat split; auto. lia. }
  intros k Hk. destruct (Hrank k k Hk) as (b & _ & _ & _ & L). lia.
Qed.

(** ** serialize *)

Lemma marker_frame_clear_all ks : forall h,
  marker_frame h (fold_left (fun h k => update h k clear_flags) ks h).
Proof.
  induction ks as [|k ks IH]; intros h; simpl; [apply marker_frame_refl|].
  unfold marker_frame in *. rewrite IH. now apply on_values_update.
Qed.

Lemma own_clear_all ks : forall (h : heap) k,
  own (fold_left (fun h k => update h k clear_flags) ks h) k =
  if existsb (String.eqb k) ks then option_map clear_flags (own h k)
  else own h k.
Proof.
  induction ks as [|k0 ks IH]; intros h k; simpl; [reflexivity|].
  rewrite IH, own_update.
  destruct (String.eqb k k0), (existsb (String.eqb k) ks); simpl; try reflexivity.
  now destruct (own h k).
Qed.

Lemma serialize_outcome c :
  wf c -> clean (modules c) ->
  (exists c' buckets,
     serialize c =
       (c', Return {| elements := map Some buckets; undefined_bucket := None |}) /\
     bucketing (modules c) buckets /\ clean (modules c') /\
     marker_frame (modules c) (modules c') /\
     numberOfModules c' = numberOfModules c) \/
  (exists c' n,
     serialize c = (c', Throw (CyclicDependency n)) /\ path (modules c) n n /\
     marker_frame (modules c) (modules c') /\
     exists k, indexed (modules c') k = true).
Proof.
  intros W C. unfold serialize.
  pose proof (serialize_loop_wf c W C) as P.
  destruct (for_each _ _ _) as [st [[]|e|]]; simpl in P.
  - left.
    destruct (final_buckets (modules c) st (wf_refs_ok c W) (wf_mirrored W) P)
      as (bs & E & B).
    eexists. exists bs. rewrite E. split; [reflexivity|]. split; [assumption|].
    simpl. split; [|split; [|reflexivity]].
    2:{ pose proof (marker_frame_clear_all (keys (st_heap st)) (st_heap st)) as F.
        pose proof (si_frame P) as F0. unfold marker_frame in *. congruence. }
    intros k m'. rewrite own_clear_all.
    destruct (own (st_heap st) k) as [m|] eqn:Hm.
    + assert (Hin : existsb (String.eqb k) (keys (st_heap st)) = true).
      { apply existsb_exists. exists k. split; [|apply String.eqb_refl].
        eapply own_In_keys; eassumption. }
      rewrite Hin. simpl. intros H; injection H as <-.
      pose proof (si_gray P k) as G. unfold gray, field in G. rewrite Hm in G.
      unfold unmarked. simpl. now rewrite G.
    + destruct (existsb _ _); discriminate.
  - right. destruct P as ((n & -> & Hp) & F & Hk). exists (with_modules (st_heap st) c), n. auto.
  - destruct P.
Qed.

Lemma ranked_acyclic rank h : ranked rank h = true -> acyclic h.
Proof.
  unfold ranked. rewrite forallb_forall. intros H.
  assert (Hpath : forall a b, path h a b -> rank b < rank a).
  { induction 1 as [a b Hab|a b c _ IH1 _ IH2]; [|lia].
    unfold edge, reqs, field in Hab.
    destruct (own h a) as [m|] eqn:E; [|destruct Hab].
    apply own_In in E. specialize (H (a, m) E). simpl in H.
    rewrite forallb_forall in H. apply Nat.ltb_lt. now apply H. }
  intros k Hk. apply Hpath in Hk. lia.
Qed.

Lemma NoDup_concat_In {A} (bs : list (list A)) b :
  NoDup (concat bs) -> In b bs -> NoDup b.
Proof.
  induction bs as [|c bs IH]; simpl; [tauto|].
  intros ND [->|Hb].
  - now apply NoDup_app_remove_r in ND.
  - apply IH; [|assumption]. now apply NoDup_app_remove_l in ND.
Qed.

(** [serialize()] on a well-formed, unmarked collection without a cycle:
    the order inside the buckets. *)
Lemma serialize_order_wf (c : ModuleCollection) :
  wf c -> clean (modules c) -> acyclic (modules c) ->
  exists c' buckets,
    serialize c =
      (c', Return {| elements := map Some buckets; undefined_bucket := None |}) /\
    forall b, In b buckets ->
      NoDup b /\
      forall k r, In k b -> edge (modules c) k r ->
        In r b /\ position r b < position k b.
Proof.
  intros W C A.
  destruct (serialize_outcome c W C) as [(c' & bs & E & B & _)|(c' & n & _ & Hp & _)].
  - exists c', bs. split; [assumption|]. intros b Hb. split.
    + apply (NoDup_concat_In bs); [apply (bk_nodup B)|assumption].
    + intros k r. now apply (bk_order B).
  - now apply A in Hp.
Qed.

(** [serialize()] on a well-formed, unmarked collection with a cycle. *)
Lemma serialize_cycle_wf (c : ModuleCollection) :
  wf c -> clean (modules c) -> (exists k, path (modules c) k k) ->
  exists c' n,
    serialize c = (c', Throw (CyclicDependency n)) /\ path (modules c) n n.
Proof.
  intros W C (k & Hk).
  destruct (serialize_outcome c W C) as [(c' & bs & E & B & _)|(c' & n & E & Hp & _)];
    [|now exists c', n].
  exfalso. apply (bucketing_acyclic (modules c) bs (wf_refs_ok c W) B k Hk).
Qed.

Lemma cycle_ABC_path : path (modules cycle_ABC) "A" "A".
Proof.
  apply t_trans with "B"; [apply t_step; vm_compute; now left|].
  apply t_trans with "C"; apply t_step; vm_compute; now left.
Qed.

Lemma connected_no_edges h x y :
  (forall k, reqs h k = []) -> connected h x y -> x = y.
Proof.
  intros H. induction 1 as [a b Hab| | |]; try congruence.
  unfold edge in Hab. rewrite H in Hab. destruct Hab.
Qed.

Lemma length_concat_singletons {A} (bs : list (list A)) :
  (forall b, In b bs -> length b = 1) -> length (concat bs) = length bs.
Proof.
  induction bs as [|b bs IH]; simpl; [reflexivity|]. intros H.
  rewrite length_app, IH, (H b); auto.
Qed.

(** [serialize()] on a well-formed, unmarked collection without a cycle:
    the buckets are the weakly connected components. *)
Lemma serialize_components_wf (c : ModuleCollection) :
  wf c -> clean (modules c) -> acyclic (modules c) ->
  exists c' buckets,
    serialize c =
      (c', Return {| elements := map Some buckets; undefined_bucket := None |}) /\
    (forall b, In b buckets -> b <> []) /\
    NoDup (concat buckets) /\
    (forall k, In k (concat buckets) <-> In k (keys (modules c))) /\
    (forall x y, In x (keys (modules c)) -> In y (keys (modules c)) ->
       ((exists b, In b buckets /\ In x b /\ In y b) <->
        connected (modules c) x y)) /\
    (forall b k r, In b buckets -> In k b -> edge (modules c) k r ->
       In r b /\ position r b < position k b) /\
    ((forall k, reqs (modules c) k = []) ->
     length buckets = length (modules c) /\
     forall b, In b buckets -> length b = 1).
Proof.
  intros W C A.
  destruct (serialize_outcome c W C) as [(c' & bs & E & B & _)|(c' & n & _ & Hp & _)];
    [|now apply A in Hp].
  exists c', bs. split; [assumption|].
  destruct B as [B1 B2 B3 B4 B5].
  repeat (split; [assumption|]).
  intros Hno.
  assert (Hone : forall b, In b bs -> length b = 1).
  { intros b Hb. pose proof (B1 b Hb) as Hne.
    pose proof (NoDup_concat_In bs b B2 Hb) as ND.
    destruct b as [|x [|y l]]; [congruence|reflexivity|exfalso].
    assert (Hx : In x (keys (modules c)))
      by (apply B3, in_concat; exists (x :: y :: l); simpl; auto).
    assert (Hy : In y (keys (modules c)))
      by (apply B3, in_concat; exists (x :: y :: l); simpl; auto).
    assert (Hc : connected (modules c) x y).
    { apply (B4 x y Hx Hy). exists (x :: y :: l). simpl. auto. }
    apply (connected_no_edges _ _ _ Hno) in Hc. subst y.
    inversion ND as [|? ? Hn _]. apply Hn. now left. }
  split; [|assumption].
  rewrite <- (length_concat_singletons bs Hone).
  rewrite <- (length_map fst (modules c)).
  apply Permutation_length, NoDup_Permutation; auto.
  apply (wf_keys W).
Qed.

(** ** clone *)

Lemma define_undefined m : forall m', ModuleMethods.define JUndefined m <> Return m'.
Proof.
  intros m'. unfold ModuleMethods.define. destruct (source m); discriminate.
Qed.

Lemma define_not_stuck src m : ModuleMethods.define src m <> Stuck.
Proof.
  unfold ModuleMethods.define. destruct (source m); [discriminate|].
  destruct src as [|s|m0]; simpl; try discriminate.
  destruct s; discriminate.
Qed.

Lemma new_not_stuck nm src : ModuleMethods.new nm src <> Stuck.
Proof.
  unfold ModuleMethods.new.
  destruct nm as [|s|m0]; simpl; try discriminate.
  - destruct s; [discriminate|]. destruct (String.eqb _ _); [discriminate|].
    destruct (js_truthy src); [apply define_not_stuck|discriminate].
  - destruct (String.eqb _ _); [discriminate|].
    destruct (js_truthy src); [apply define_not_stuck|discriminate].
Qed.

Lemma get_not_stuck nm anyway this : snd (get nm anyway this) <> Stuck.
Proof.
  unfold get. destruct (lib.stringLike nm) as [n| |] eqn:E; simpl; try discriminate.
  - destruct (js_get (modules this) n); simpl; try discriminate.
    destruct anyway; simpl; [|discriminate].
    pose proof (new_not_stuck (JString n) JUndefined) as H.
    destruct (ModuleMethods.new (JString n) JUndefined); simpl; congruence.
  - destruct nm as [|s|m0]; simpl in E; try discriminate. destruct s; discriminate.
Qed.

(** [add] with an undefined source throws; [add] never gets stuck. *)
Lemma add_undefined nm this :
  exists e, snd (add nm JUndefined this) = Throw e.
Proof.
  unfold add. pose proof (get_not_stuck nm true this) as Hs.
  destruct (get nm true this) as [t1 [[r| |]|e|]] eqn:G; simpl in *;
    try (eexists; reflexivity); try congruence.
  apply get_module_inv in G. destruct G as (_ & m & Hm). rewrite Hm.
  pose proof (define_undefined m) as H1. pose proof (define_not_stuck JUndefined m) as H2.
  destruct (ModuleMethods.define JUndefined m); simpl;
    [now elim (H1 a)|eexists; reflexivity|congruence].
Qed.

Lemma add_not_stuck nm src this : snd (add nm src this) <> Stuck.
Proof.
  unfold add. pose proof (get_not_stuck nm true this) as Hs.
  destruct (get nm true this) as [t1 [[r| |]|e|]] eqn:G; simpl in *;
    try discriminate; try congruence.
  apply get_module_inv in G. destruct G as (_ & m & Hm). rewrite Hm.
  pose proof (define_not_stuck src m) as H2.
  destruct (ModuleMethods.define src m); simpl; try discriminate; try congruence.
  destruct (js_get _ _); simpl; try discriminate.
  destruct (String.eqb _ _); discriminate.
Qed.

(** The first loop of [clone], over keys that hold an orphan. *)
Lemma clone_modules_throw this ks : forall c,
  (forall k, In k ks -> own (modules this) k <> None) ->
  (exists k m, In k ks /\ own (modules this) k = Some m /\ source m = None) ->
  exists e,
    snd (for_each
           (fun item c =>
              match own (modules this) item with
              | None => (c, Stuck)
              | Some m =>
                  match ModuleMethods.clone m with
                  | Return m' =>
                      match add (JModule m') (ModuleMethods.source_val m) c with
                      | (c', Return _) => (c', Return tt)
                      | (c', Throw e) => (c', Throw e)
                      | (c', Stuck) => (c', Stuck)
                      end
                  | Throw e => (c, Throw e)
                  | Stuck => (c, Stuck)
                  end
              end) ks c) = Throw e.
Proof.
  induction ks as [|k ks IH]; intros c Hown (k0 & m0 & Hin & Hm0 & Hsrc).
  - destruct Hin.
  - simpl. destruct (own (modules this) k) as [m|] eqn:Hm;
      [|exfalso; apply (Hown k); [now left|assumption]].
    pose proof (new_not_stuck (JString (name m)) (ModuleMethods.source_val m)) as Hn.
    unfold ModuleMethods.clone.
    destruct (ModuleMethods.new _ _) as [m'|e|]; simpl;
      [|eexists; reflexivity|congruence].
    pose proof (add_not_stuck (JModule m') (ModuleMethods.source_val m) c) as Ha.
    destruct Hin as [<-|Hin].
    + rewrite Hm in Hm0. injection Hm0 as ->.
      unfold ModuleMethods.source_val in *. rewrite Hsrc in *.
      destruct (add_undefined (JModule m') c) as (e & He).
      destruct (add (JModule m') JUndefined c) as [c' [r|e'|]]; simpl in *;
        try discriminate; eexists; reflexivity.
    + destruct (add _ _ c) as [c' [r|e'|]]; simpl in *;
        [|eexists; reflexivity|congruence].
      apply IH; [intros; apply Hown; now right|eauto].
Qed.

(** ** The markers after [serialize] *)

(** A [serialize()] that returns leaves no marker behind. *)
Lemma serialize_success_clean c c' s :
  wf c -> clean (modules c) -> serialize c = (c', Return s) ->
  clean (modules c').
Proof.
  intros W C E.
  destruct (serialize_outcome c W C) as [(c1 & bs & E1 & _ & Hc & _)|(c1 & n & E1 & _)];
    rewrite E in E1; [|discriminate].
  now injection E1 as <- _.
Qed.

(** A [serialize()] that throws leaves an [indexing] marker. *)
Lemma serialize_failure_wf (c c' : ModuleCollection) (e : error) :
  wf c -> clean (modules c) -> serialize c = (c', Throw e) ->
  exists k, indexed (modules c') k = true.
Proof.
  intros W C E.
  destruct (serialize_outcome c W C)
    as [(c1 & bs & E1 & _)|(c1 & n & E1 & _ & _ & Hk)];
    rewrite E in E1; [discriminate|].
  now injection E1 as -> _.
Qed.

(** After the failure, a second attempt meets the marker left on [D] and
    blames [D], from which no path comes back. *)
Lemma serialize_retry_blames_bystander :
  snd (serialize cycle_below_D) = Throw (CyclicDependency "A") /\
  snd (serialize (fst (serialize cycle_below_D))) = Throw (CyclicDependency "D") /\
  ~ path (modules cycle_below_D) "D" "D".
Proof.
  split; [reflexivity|]. split; [reflexivity|].
  assert (H : forall a b, path (modules cycle_below_D) a b -> b <> "D").
  { induction 1 as [a b Hab|]; [|assumption].
    unfold edge, reqs, field in Hab.
    remember (modules cycle_below_D) as h eqn:Eh. vm_compute in Eh. subst h.
    cbn -[String.eqb] in Hab.
    destruct (String.eqb "D" a); cbn -[String.eqb] in Hab;
      [destruct Hab as [<-|[]]; discriminate|].
    destruct (String.eqb "A" a); cbn -[String.eqb] in Hab;
      [destruct Hab as [<-|[]]; discriminate|].
    destruct (String.eqb "B" a); cbn -[String.eqb] in Hab;
      [destruct Hab as [<-|[]]; discriminate|destruct Hab]. }
  intros P. now apply H in P.
Qed.

(** ** The interface maintains well-formedness *)

Lemma wf_ext c c' :
  modules c' = modules c -> numberOfModules c <= numberOfModules c' ->
  wf c -> wf c'.
Proof.
  intros Em En [W1 W2 W3 W4 W5]. constructor; rewrite Em; auto. lia.
Qed.

Lemma update_ext_at {V} (o : jsobj V) k (f g : V -> V) v :
  NoDup (keys o) -> own o k = Some v -> f v = g v ->
  update o k f = update o k g.
Proof.
  intros ND Ho E. unfold update. apply map_ext_in. intros [k' v'] Hin. simpl.
  destruct (String.eqb_spec k' k) as [->|]; [|reflexivity].
  apply (In_own _ _ _ _ ND) in Hin. rewrite Ho in Hin. injection Hin as <-.
  now rewrite E.
Qed.

(** An update that keeps names and adjacency keeps well-formedness. *)
Lemma wf_update c c' k f :
  modules c' = update (modules c) k f ->
  numberOfModules c <= numberOfModules c' ->
  (forall m, name (f m) = name m /\ requires (f m) = requires m /\
             dependants (f m) = dependants m) ->
  wf c -> wf c'.
Proof.
  intros Em En Hf [W1 W2 W3 W4 W5].
  assert (R : forall x, reqs (modules c') x = reqs (modules c) x).
  { intros x. unfold reqs. rewrite Em, field_update.
    destruct (String.eqb x k); [|reflexivity].
    unfold field. destruct (own (modules c) x); [|reflexivity].
    now destruct (Hf m) as (_ & -> & _). }
  assert (D : forall x, deps (modules c') x = deps (modules c) x).
  { intros x. unfold deps. rewrite Em, field_update.
    destruct (String.eqb x k); [|reflexivity].
    unfold field. destruct (own (modules c) x); [|reflexivity].
    now destruct (Hf m) as (_ & _ & ->). }
  constructor.
  - now rewrite Em, keys_update.
  - intros x m. rewrite Em, own_update.
    destruct (String.eqb x k); [|apply W2].
    destruct (own (modules c) x) as [m0|] eqn:E; simpl; [|discriminate].
    intros H; injection H as <-. destruct (Hf m0) as (-> & _). now apply W2.
  - rewrite Em, keys_update. exact W3.
  - intros a b. rewrite R, D. apply W4.
  - rewrite Em, length_update. lia.
Qed.

Lemma clean_update h k f :
  (forall m, unmarked (f m) = unmarked m) -> clean h -> clean (update h k f).
Proof.
  intros Hf C x m. rewrite own_update.
  destruct (String.eqb x k); [|apply C].
  destruct (own h x) as [m0|] eqn:E; simpl; [|discriminate].
  intros H; injection H as <-. rewrite Hf. now apply (C x).
Qed.

Lemma stringLike_trimmed nm n : lib.stringLike nm = Return n -> trim n = n.
Proof.
  destruct nm as [|s|m]; simpl; try discriminate.
  - destruct s; [discriminate|]. intros H; injection H as <-. apply trim_idem.
  - intros H; injection H as <-. apply trim_idem.
Qed.

Lemma js_get_missing {V} (o : jsobj V) k :
  js_get o k = Missing -> own o k = None /\ inherited k = None.
Proof.
  unfold js_get. destruct (own o k); [discriminate|].
  destruct (inherited k); [discriminate|]. auto.
Qed.

Lemma wf_get nm anyway c :
  wf c ->
  wf (fst (get nm anyway c)) /\
  (clean (modules c) -> clean (modules (fst (get nm anyway c)))).
Proof.
  intros W. unfold get.
  destruct (lib.stringLike nm) as [n| |] eqn:Hs; simpl; auto.
  destruct (js_get (modules c) n) eqn:Hg; simpl; auto.
  destruct anyway; simpl; auto.
  apply js_get_missing in Hg. destruct Hg as (Ho & Hi).
  pose proof (stringLike_trimmed _ _ Hs) as Ht.
  destruct (String.eqb_spec n "") as [->|Hn]; simpl.
  { split; [|auto]. apply (wf_ext c); simpl; auto. }
  rewrite (new_trimmed n Hn Ht). simpl.
  assert (Hp : n <> "__proto__") by now apply inherited_not_proto.
  destruct W as [W1 W2 W3 W4 W5].
  assert (R : forall x, reqs (js_set n (fresh_module n) (modules c)) x
                        = reqs (modules c) x).
  { intros x. unfold reqs, field. destruct (String.eqb_spec x n) as [->|Hx].
    - rewrite own_js_set_same, Ho by assumption. reflexivity.
    - now rewrite own_js_set_other. }
  assert (D : forall x, deps (js_set n (fresh_module n) (modules c)) x
                        = deps (modules c) x).
  { intros x. unfold deps, field. destruct (String.eqb_spec x n) as [->|Hx].
    - rewrite own_js_set_same, Ho by assumption. reflexivity.
    - now rewrite own_js_set_other. }
  split.
  - constructor; simpl.
    + now apply NoDup_keys_js_set.
    + intros x m. destruct (String.eqb_spec x n) as [->|Hx].
      * rewrite own_js_set_same by assumption. intros H; now injection H as <-.
      * rewrite own_js_set_other by assumption. apply W2.
    + intros x Hx. apply In_keys_js_set in Hx; [|assumption].
      destruct Hx as [->|Hx]; auto.
    + intros a b. unfold fresh_module in R, D. rewrite R, D. apply W4.
    + pose proof (length_js_set _ (modules c) n (fresh_module n)). lia.
  - intros C x m. destruct (String.eqb_spec x n) as [->|Hx].
    + rewrite own_js_set_same by assumption. intros H; now injection H as <-.
    + rewrite own_js_set_other by assumption. apply C.
Qed.

Lemma define_fields src m m' :
  ModuleMethods.define src m = Return m' ->
  exists s, m' = ModuleMethods.with_source (Some s) m.
Proof.
  unfold ModuleMethods.define. destruct (source m); [discriminate|].
  destruct (lib.stringLike src); try discriminate.
  intros H; injection H as <-. eauto.
Qed.

Lemma wf_add nm src c :
  wf c ->
  wf (fst (add nm src c)) /\
  (clean (modules c) -> clean (modules (fst (add nm src c)))).
Proof.
  intros W. destruct (wf_get nm true c W) as (W1 & C1).
  unfold add. destruct (get nm true c) as [t1 [[r| |]|e|]]; simpl in *; auto.
  destruct (own (modules t1) r) as [m|] eqn:Hm; simpl; auto.
  destruct (ModuleMethods.define src m) as [m'|e|] eqn:D; simpl; auto.
  destruct (define_fields _ _ _ D) as (s & ->).
  assert (E : update (modules t1) r (fun _ => ModuleMethods.with_source (Some s) m)
              = update (modules t1) r (ModuleMethods.with_source (Some s))).
  { apply (update_ext_at _ _ _ _ m); auto. apply (wf_keys W1). }
  assert (W2 : forall c', modules c' = update (modules t1) r
                            (fun _ => ModuleMethods.with_source (Some s) m) ->
                          numberOfModules c' = numberOfModules t1 ->
                          wf c' /\ (clean (modules c) -> clean (modules c'))).
  { intros c' Em En. rewrite E in Em. split.
    - apply (wf_update t1 c' r _ Em); [lia| |assumption]. intros; auto.
    - intros C. rewrite Em. apply clean_update; [reflexivity|auto]. }
  destruct (js_get _ _); simpl.
  - now apply W2.
  - destruct (String.eqb _ _); simpl; now apply W2.
  - now apply W2.
Qed.

Lemma In_values_insert_index {V} n (o : jsobj V) k v x :
  In x (values (insert_index n k v o)) <-> x = v \/ In x (values o).
Proof.
  induction o as [|[k0 v0] o IH]; simpl.
  - intuition.
  - destruct (array_index k0) as [n'|]; [destruct (n' <? n)%N|]; simpl;
      rewrite ?IH; intuition.
Qed.

Lemma In_values_js_set_fresh {V} (o : jsobj V) k v x :
  own o k = None -> k <> "__proto__" ->
  (In x (values (js_set k v o)) <-> x = v \/ In x (values o)).
Proof.
  intros Ho Hk. unfold js_set. rewrite Ho.
  destruct (String.eqb_spec k "__proto__"); [contradiction|].
  destruct (array_index k).
  - apply In_values_insert_index.
  - unfold values. rewrite map_app, in_app_iff. simpl. intuition.
Qed.

(** A successful [require] adds one edge to both adjacency views. *)
Lemma require_edges h ra rb m q :
  own h ra = Some m -> own h rb = Some q -> ra <> rb ->
  js_get (requires m) (name q) = Missing ->
  js_get (dependants q) (name m) = Missing ->
  let h' := update (update h ra (ModuleMethods.add_requirement (name q) rb))
              rb (ModuleMethods.add_dependant (name m) ra) in
  (forall a b, In b (reqs h' a) <-> (a = ra /\ b = rb) \/ In b (reqs h a)) /\
  (forall a b, In a (deps h' b) <-> (a = ra /\ b = rb) \/ In a (deps h b)).
Proof.
  intros Hm Hq Hne G1 G2 h'.
  apply js_get_missing in G1. destruct G1 as (O1 & I1).
  apply js_get_missing in G2. destruct G2 as (O2 & I2).
  split; intros a b.
  - unfold h', reqs. rewrite !field_update.
    destruct (String.eqb_spec a rb) as [Ea|Ea].
    + subst a. destruct (String.eqb_spec rb ra); [congruence|].
      unfold field. rewrite Hq. simpl. intuition congruence.
    + destruct (String.eqb_spec a ra) as [Ea'|Ea'].
      * subst a. unfold field. rewrite Hm. simpl.
        rewrite In_values_js_set_fresh by (auto using inherited_not_proto).
        intuition congruence.
      * intuition congruence.
  - unfold h', deps. rewrite !field_update.
    destruct (String.eqb_spec b rb) as [Eb|Eb].
    + subst b. destruct (String.eqb_spec rb ra); [congruence|].
      unfold field. rewrite Hq. simpl.
      rewrite In_values_js_set_fresh by (auto using inherited_not_proto).
      intuition congruence.
    + destruct (String.eqb_spec b ra) as [Eb'|Eb'].
      * subst b. unfold field. rewrite Hm. simpl. intuition congruence.
      * intuition congruence.
Qed.

Lemma wf_same c h :
  h = modules c -> wf c -> wf (with_modules h c).
Proof. intros ->. apply wf_ext; simpl; auto. Qed.

Lemma wf_require c ra v :
  wf c ->
  wf (with_modules (fst (require ra v (modules c))) c) /\
  (clean (modules c) -> clean (fst (require ra v (modules c)))).
Proof.
  intros W.
  assert (Same : wf (with_modules (modules c) c) /\
                 (clean (modules c) -> clean (modules c)))
    by (split; [now apply wf_same|auto]).
  unfold require.
  destruct (own (modules c) ra) as [m|] eqn:Hm; simpl; auto.
  destruct v as [rb|b|]; simpl; auto.
  - destruct (own (modules c) rb) as [q|] eqn:Hq; simpl; auto.
    destruct (String.eqb_spec (name m) (name q)) as [En|En]; simpl; auto.
    destruct (js_get (requires m) (name q)) eqn:G1; simpl; auto.
    destruct (js_get (dependants q) (name m)) eqn:G2; simpl; auto.
    assert (Hne : ra <> rb).
    { rewrite (wf_name W ra Hm), (wf_name W rb Hq) in En. exact En. }
    destruct (require_edges _ _ _ _ _ Hm Hq Hne G1 G2) as (R & D).
    split.
    + destruct W as [W1 W2 W3 W4 W5]. constructor; simpl.
      * now rewrite !keys_update.
      * intros x y. rewrite !own_update.
        destruct (String.eqb x rb), (String.eqb x ra);
          destruct (own (modules c) x) as [m0|] eqn:E; simpl;
          try discriminate; intros H; injection H as <-; simpl; now apply W2.
      * rewrite !keys_update. exact W3.
      * intros a b. rewrite R, D. specialize (W4 a b). tauto.
      * rewrite !length_update. exact W5.
    + intros C. apply clean_update; [reflexivity|].
      apply clean_update; [reflexivity|assumption].
  - destruct (builtin_name b) as [n|]; simpl.
    + destruct (String.eqb _ _); simpl; auto.
      destruct (truthy _); simpl; auto.
    + destruct (truthy _); simpl; auto.
Qed.

Lemma wf_connect a b c :
  wf c ->
  wf (fst (connect a b c)) /\
  (clean (modules c) -> clean (modules (fst (connect a b c)))).
Proof.
  intros W. destruct (wf_get a true c W) as (W1 & C1).
  unfold connect. destruct (get a true c) as [t1 [v1|e|]]; simpl in *; auto.
  destruct (wf_get b true t1 W1) as (W2 & C2).
  destruct (get b true t1) as [t2 [v2|e|]]; simpl in *; auto.
  unfold Dependency_new.
  destruct v1 as [ra| |]; simpl;
    try (split; [now apply wf_same|auto]).
  destruct (wf_require t2 ra v2 W2) as (W3 & C3).
  destruct (require ra v2 (modules t2)) as [h [[]|e|]]; simpl in *; auto.
  destruct v2; simpl; auto.
  split; [|auto]. apply (wf_ext (with_modules h t2)); auto.
Qed.

Lemma wf_addExport k meta c :
  wf c ->
  wf (with_modules (update (modules c) k (ModuleMethods.addExport meta)) c) /\
  (clean (modules c) ->
   clean (update (modules c) k (ModuleMethods.addExport meta))).
Proof.
  intros W.
  assert (Hf : forall m, ModuleMethods.addExport meta m = m \/
                         exists e, ModuleMethods.addExport meta m
                                   = ModuleMethods.with_exports e m).
  { intros m. unfold ModuleMethods.addExport.
    destruct (existsb _ _); [now left|right; eauto]. }
  split.
  - apply (wf_update c _ k (ModuleMethods.addExport meta)); auto.
    intros m. destruct (Hf m) as [->|(e & ->)]; auto.
  - intros C. apply clean_update; [|assumption].
    intros m. now destruct (Hf m) as [->|(e & ->)].
Qed.

Lemma wf_marker_frame c c' :
  marker_frame (modules c) (modules c') ->
  numberOfModules c <= numberOfModules c' -> wf c -> wf c'.
Proof.
  intros F En [W1 W2 W3 W4 W5]. constructor.
  - now rewrite (frame_keys _ _ _ F).
  - now apply (names_ok_frame no_flags (modules c)).
  - now rewrite (frame_keys _ _ _ F).
  - intros a b. rewrite (marker_frame_reqs _ _ a F), (marker_frame_deps _ _ b F).
    apply W4.
  - rewrite (frame_length _ _ _ F). lia.
Qed.

Lemma wf_serialize c c' s :
  wf c -> clean (modules c) -> serialize c = (c', Return s) ->
  wf c' /\ clean (modules c').
Proof.
  intros W C E.
  destruct (serialize_outcome c W C)
    as [(c1 & bs & E1 & _ & Hc & F & En)|(c1 & n & E1 & _)];
    rewrite E in E1; [|discriminate].
  injection E1 as <- _. split; [|assumption].
  apply (wf_marker_frame c c' F); [lia|assumption].
Qed.

(** Every collection made through the interface is well-formed and carries
    no traversal marker. *)
Theorem built_wf c : built c -> wf c /\ clean (modules c).
Proof.
  induction 1 as [|nm anyway c _ [W C]|nm src c _ [W C]|a b c _ [W C]
                  |k meta c _ [W C]|c c' s _ [W C] E].
  - split; [apply wf_empty|]. intros k m. discriminate.
  - destruct (wf_get nm anyway c W). auto.
  - destruct (wf_add nm src c W). auto.
  - destruct (wf_connect a b c W). auto.
  - destruct (wf_addExport k meta c W). auto.
  - now apply (wf_serialize c c' s).
Qed.

(** ** The registry of sources, in general *)

Lemma define_source src m m' :
  ModuleMethods.define (JString src) m = Return m' ->
  source m' = Some (trim src) /\ name m' = name m.
Proof.
  unfold ModuleMethods.define. destruct (source m); [discriminate|].
  destruct src as [|ch src]; simpl; [discriminate|].
  intros H; injection H as <-. auto.
Qed.

(** [add] when nothing is registered under the source path. *)
Lemma add_registers_wf (c c' : ModuleCollection)
    (nm src : string) (r : ref) :
  wf c ->
  add (JString nm) (JString src) c = (c', Return r) ->
  getBySource (trim src) c = Missing -> trim nm <> trim src ->
  getBySource (trim src) c' = Missing /\
  getBySource (trim nm) c' = Own [(trim src, trim nm)].
Proof.
  intros W. destruct (wf_get (JString nm) true c W) as (W1 & _).
  unfold add.
  destruct (get (JString nm) true c) as [t1 [[r'| |]| |]] eqn:G; try discriminate.
  simpl in W1.
  destruct (get_anyway_frame _ _ _ _ G) as (_ & _ & Hsrc).
  apply get_module_inv in G. destruct G as (Hs & _).
  assert (r' = trim nm) as ->.
  { destruct nm; simpl in Hs; [discriminate|congruence]. }
  destruct (own (modules t1) (trim nm)) as [m|] eqn:Hm; [|discriminate].
  destruct (ModuleMethods.define (JString src) m) as [m'| |] eqn:D;
    try discriminate.
  destruct (define_source _ _ _ D) as (Es & En).
  pose proof (wf_name W1 (trim nm) Hm) as Hname.
  assert (Hkey : inherited (trim nm) = None).
  { apply (wf_key W1). eapply own_In_keys; eassumption. }
  rewrite Es. simpl source_key. simpl sources. rewrite Hsrc.
  unfold getBySource. intros H Hmiss Hne. rewrite Hmiss in H.
  injection H as <- <-. simpl sources.
  unfold ModuleMethods.toString. rewrite En, Hname.
  apply js_get_missing in Hmiss. destruct Hmiss as (Ho & Hi).
  unfold js_get.
  rewrite own_js_set_other by congruence. rewrite Ho, Hi.
  rewrite own_js_set_same by now apply inherited_not_proto.
  split; [reflexivity|]. f_equal.
  unfold js_set. simpl.
  destruct (String.eqb_spec (trim src) "__proto__") as [E|E];
    [rewrite E in Hi; discriminate|].
  now destruct (array_index (trim src)).
Qed.

(** [clone()] of a collection whose modules all have a source: the same
    modules and dependencies; an edge added to the clone is not counted in
    the original. *)
Lemma clone_of_defined_modules :
  let c := fst (add (JString "B") (JString "b.js") with_orphan) in
  match clone c with
  | Return c' =>
      modules c' = modules c /\ dependencies c' = dependencies c /\
      numberOfDependencies (fst (connect (JString "B") (JString "C") c')) = 2 /\
      numberOfDependencies c = 1
  | _ => False
  end.
Proof. vm_compute. repeat split; reflexivity. Qed.

(** ** No call gets stuck *)

Lemma connect_not_stuck a b c : snd (connect a b c) <> Stuck.
Proof.
  unfold connect. pose proof (get_not_stuck a true c) as Ha.
  destruct (get a true c) as [t1 [v1|e|]] eqn:Ga; simpl in *;
    try discriminate; try congruence.
  pose proof (get_not_stuck b true t1) as Hb.
  destruct (get b true t1) as [t2 [v2|e|]] eqn:Gb; simpl in *;
    try discriminate; try congruence.
  unfold Dependency_new.
  destruct v1 as [ra| |]; simpl; try discriminate.
  apply get_module_inv in Ga. destruct Ga as (_ & m & Hm).
  assert (Hm2 : exists m2, own (modules t2) ra = Some m2).
  { destruct (own (modules t2) ra) eqn:E; eauto.
    now rewrite (get_keeps_keys _ _ _ _ _ Gb E) in Hm. }
  destruct Hm2 as (m2 & Hm2).
  unfold require. rewrite Hm2.
  destruct v2 as [rb|bi|]; simpl; try discriminate.
  - apply get_module_inv in Gb. destruct Gb as (_ & q & Hq). rewrite Hq.
    destruct (String.eqb _ _); simpl; [discriminate|].
    destruct (_ || _); simpl; discriminate.
  - destruct (builtin_name bi); simpl.
    + destruct (String.eqb _ _); simpl; [discriminate|].
      destruct (truthy _); discriminate.
    + destruct (truthy _); discriminate.
Qed.

Lemma serialize_not_stuck c :
  wf c -> clean (modules c) -> snd (serialize c) <> Stuck.
Proof.
  intros W C.
  destruct (serialize_outcome c W C) as [(c' & bs & E & _)|(c' & n & E & _)];
    rewrite E; discriminate.
Qed.

(** ** Whatever the state, [serialize] changes markers only *)

Lemma for_each_rel {S A} (R : S -> S -> Prop) (f : A -> S -> S * outcome unit) :
  (forall s, R s s) -> (forall s1 s2 s3, R s1 s2 -> R s2 s3 -> R s1 s3) ->
  (forall x s, R s (fst (f x s))) ->
  forall l s, R s (fst (for_each f l s)).
Proof.
  intros Hrefl Htrans Hf. induction l as [|x l IH]; intros s; simpl; [apply Hrefl|].
  pose proof (Hf x s) as H1.
  destruct (f x s) as [s1 [[]|e|]]; simpl in *; auto.
  apply Htrans with s1; [assumption|apply IH].
Qed.

Lemma topoSort_frame fuel : forall k st,
  sort_frame (fst st) (fst (fst (collectionTopoSort fuel k st))).
Proof.
  induction fuel as [|fuel IH]; intros k [h s]; simpl; [apply sort_frame_refl|].
  destruct (own h k) as [m|]; simpl; [|apply sort_frame_refl].
  destruct (topologicalMarker m); simpl.
  - unfold sort_frame. now apply on_values_update.
  - destruct (sorting m); simpl; [apply sort_frame_refl|].
    set (h1 := update h k (ModuleMethods.with_topologicalMarker true)).
    assert (F1 : sort_frame h h1)
      by (unfold sort_frame, h1; now apply on_values_update).
    pose proof (for_each_rel (fun a b : heap * SortStack => sort_frame (fst a) (fst b))
                  (collectionTopoSort fuel)
                  (fun s => sort_frame_refl (fst s))
                  (fun s1 s2 s3 => sort_frame_trans (fst s1) (fst s2) (fst s3))
                  IH) as L.
    match goal with
    | |- context [match for_each ?f ?l ?s with _ => _ end] =>
        pose proof (L l s) as F2;
        change (sort_frame (fst s) (fst (fst (for_each f l s)))) in F2;
        destruct (for_each f l s) as [[h2 s2] [[]|e|]]
    end; simpl in *.
    + eapply sort_frame_trans; [exact F1|].
      eapply sort_frame_trans; [exact F2|].
      unfold sort_frame. now apply on_values_update.
    + eapply sort_frame_trans; eassumption.
    + eapply sort_frame_trans; eassumption.
Qed.

Lemma adjacencyIndex_frame fuel i : forall k h,
  index_frame h (fst (collectionAdjacencyIndex fuel i k h)).
Proof.
  induction fuel as [|fuel IH]; intros k h; simpl; [apply index_frame_refl|].
  destruct (own h k) as [m|]; simpl; [|apply index_frame_refl].
  destruct (indexing m); simpl; [apply index_frame_refl|].
  pose proof (index_mark_frame h k i) as F1.
  set (h1 := update h k _) in *.
  pose proof (for_each_rel index_frame (collectionAdjacencyIndex fuel i)
                index_frame_refl index_frame_trans IH) as L.
  match goal with
  | |- context [match for_each ?f ?l ?s with _ => _ end] =>
      pose proof (L l s) as F2;
      change (index_frame s (fst (for_each f l s))) in F2;
      destruct (for_each f l s) as [h2 [[]|e|]]
  end; simpl in *.
  - eapply index_frame_trans; [exact F1|].
    eapply index_frame_trans; [exact F2|apply L].
  - eapply index_frame_trans; eassumption.
  - eapply index_frame_trans; eassumption.
Qed.

Lemma marker_frame_trans h1 h2 h3 :
  marker_frame h1 h2 -> marker_frame h2 h3 -> marker_frame h1 h3.
Proof. unfold marker_frame. congruence. Qed.

Lemma sort_part_frame fuel k h0 h1 s ap :
  marker_frame h0 h1 ->
  marker_frame h0
    (st_heap
       (fst (match own h1 k with
             | None => ({| st_heap := h1; st_stack := s; adjacencyPoint := ap |},
                        Stuck)
             | Some module' =>
                 if negb (sorting module') then
                   let '((h2, stack), r2) := collectionTopoSort fuel k (h1, s) in
                   ({| st_heap := h2; st_stack := stack; adjacencyPoint := ap |}, r2)
                 else ({| st_heap := h1; st_stack := s; adjacencyPoint := ap |},
                       Return tt)
             end))).
Proof.
  intros F. destruct (own h1 k) as [m'|]; simpl; [|assumption].
  destruct (negb (sorting m')); simpl; [|assumption].
  pose proof (topoSort_frame fuel k (h1, s)) as F2.
  destruct (collectionTopoSort fuel k (h1, s)) as [[h2 s2] r2]; simpl in *.
  now apply (marker_frame_sort _ h1).
Qed.

Lemma serialize_step_frame fuel k st :
  marker_frame (st_heap st) (st_heap (fst (serialize_step fuel k st))).
Proof.
  unfold serialize_step.
  destruct (own (st_heap st) k) as [m|]; simpl; [|apply marker_frame_refl].
  destruct (indexing m); simpl.
  - apply sort_part_frame, marker_frame_refl.
  - pose proof (adjacencyIndex_frame fuel (adjacencyPoint st) k (st_heap st)) as F1.
    assert (F : marker_frame (st_heap st)
                  (fst (collectionAdjacencyIndex fuel (adjacencyPoint st) k
                          (st_heap st))))
      by (apply (marker_frame_index _ (st_heap st)); [apply marker_frame_refl|assumption]).
    destruct (collectionAdjacencyIndex fuel (adjacencyPoint st) k (st_heap st))
      as [h1 [[]|e|]]; simpl in *; try assumption.
    now apply sort_part_frame.
Qed.

Lemma serialize_frame c :
  marker_frame (modules c) (modules (fst (serialize c))) /\
  numberOfModules (fst (serialize c)) = numberOfModules c.
Proof.
  unfold serialize.
  pose proof (for_each_rel (fun a b => marker_frame (st_heap a) (st_heap b))
                (serialize_step (S (length (modules c))))
                (fun s => marker_frame_refl (st_heap s))
                (fun s1 s2 s3 => marker_frame_trans (st_heap s1) (st_heap s2) (st_heap s3))
                (serialize_step_frame (S (length (modules c))))
                (keys (modules c))
                {| st_heap := modules c;
                   st_stack := {| elements := []; undefined_bucket := None |};
                   adjacencyPoint := 0 |}) as F.
  destruct (for_each _ _ _) as [st [[]|e|]]; simpl in *; split; auto.
  eapply marker_frame_trans; [exact F|apply marker_frame_clear_all].
Qed.

(** ** Requirements are never removed *)

Lemma path_grows h h' a b : grows h h' -> path h a b -> path h' a b.
Proof.
  intros G. induction 1 as [x y Hxy|x y z _ IH1 _ IH2].
  - apply t_step. now apply G.
  - now apply t_trans with y.
Qed.

Lemma grows_refl h : grows h h.
Proof. intros a b H. exact H. Qed.

Lemma grows_trans h1 h2 h3 : grows h1 h2 -> grows h2 h3 -> grows h1 h3.
Proof. intros G1 G2 a b H. apply G2, G1, H. Qed.

Lemma grows_update h k f :
  (forall m, own h k = Some m -> requires (f m) = requires m) ->
  grows h (update h k f).
Proof.
  intros Hf a b. unfold reqs. rewrite field_update.
  destruct (String.eqb_spec a k) as [->|]; [|auto].
  unfold field. destruct (own h k) as [m|]; [|auto].
  now rewrite (Hf m eq_refl).
Qed.

Lemma grows_get nm anyway c : grows (modules c) (modules (fst (get nm anyway c))).
Proof.
  unfold get. destruct (lib.stringLike nm) as [n| |]; simpl; try apply grows_refl.
  destruct (js_get (modules c) n) eqn:G; simpl; try apply grows_refl.
  destruct anyway; simpl; [|apply grows_refl].
  apply js_get_missing in G. destruct G as (Ho & Hi).
  destruct (ModuleMethods.new (JString n) JUndefined) as [m0|e|]; simpl;
    try apply grows_refl.
  intros x y. unfold reqs, field.
  destruct (String.eqb_spec x n) as [->|Hx].
  - rewrite Ho. intros [].
  - now rewrite own_js_set_other.
Qed.

Lemma grows_add nm src c : grows (modules c) (modules (fst (add nm src c))).
Proof.
  pose proof (grows_get nm true c) as G. unfold add.
  destruct (get nm true c) as [t1 [[r| |]|e|]]; simpl in *; auto.
  destruct (own (modules t1) r) as [m|] eqn:Hm; simpl; auto.
  destruct (ModuleMethods.define src m) as [m'|e|] eqn:D; simpl; auto.
  destruct (define_fields _ _ _ D) as (s & ->).
  assert (G2 : grows (modules c)
                 (update (modules t1) r
                    (fun _ => ModuleMethods.with_source (Some s) m))).
  { eapply grows_trans; [exact G|]. apply grows_update.
    intros m0 E. rewrite Hm in E. now injection E as <-. }
  destruct (js_get _ _); simpl; auto.
  destruct (String.eqb _ _); simpl; auto.
Qed.

Lemma grows_require ra v h : grows h (fst (require ra v h)).
Proof.
  unfold require. destruct (own h ra) as [m|] eqn:Hm; simpl; [|apply grows_refl].
  destruct v as [rb|b|]; simpl; try apply grows_refl.
  - destruct (own h rb) as [q|] eqn:Hq; simpl; [|apply grows_refl].
    destruct (String.eqb _ _); simpl; [apply grows_refl|].
    destruct (js_get (requires m) (name q)) eqn:G1; simpl; try apply grows_refl.
    destruct (truthy _); simpl; [apply grows_refl|].
    apply js_get_missing in G1. destruct G1 as (O1 & I1).
    eapply grows_trans; [|apply grows_update; reflexivity].
    intros a b. unfold reqs. rewrite field_update.
    destruct (String.eqb_spec a ra) as [->|]; [|auto].
    unfold field. rewrite Hm. simpl. intros H.
    apply In_values_js_set_fresh; auto using inherited_not_proto.
  - destruct (builtin_name b); simpl.
    + destruct (String.eqb _ _); simpl; [apply grows_refl|].
      destruct (truthy _); apply grows_refl.
    + destruct (truthy _); apply grows_refl.
Qed.

Lemma grows_connect a b c : grows (modules c) (modules (fst (connect a b c))).
Proof.
  pose proof (grows_get a true c) as G1. unfold connect.
  destruct (get a true c) as [t1 [v1|e|]]; simpl in *; auto.
  pose proof (grows_get b true t1) as G2.
  destruct (get b true t1) as [t2 [v2|e|]]; simpl in *;
    try (eapply grows_trans; eassumption).
  assert (G3 : grows (modules c) (modules t2)) by (eapply grows_trans; eassumption).
  unfold Dependency_new. destruct v1 as [ra| |]; simpl; auto.
  pose proof (grows_require ra v2 (modules t2)) as G4.
  destruct (require ra v2 (modules t2)) as [h [[]|e|]]; simpl in *;
    try (eapply grows_trans; eassumption).
  destruct v2; simpl; eapply grows_trans; eassumption.
Qed.

Lemma grows_marker_frame h h' : marker_frame h h' -> grows h h'.
Proof. intros F a b. now rewrite (marker_frame_reqs _ _ a F). Qed.

(** Every collection a program can hold is well-formed, and carries no
    traversal marker unless its graph has a cycle: the markers a failed
    [serialize] leaves are never met on an acyclic graph. *)
Theorem reached_wf c :
  reached c -> wf c /\ (acyclic (modules c) -> clean (modules c)).
Proof.
  intros H.
  assert (Inv : wf c /\ (clean (modules c) \/ exists k, path (modules c) k k)).
  { induction H as [|nm anyway c _ [W D]|nm src c _ [W D]|a b c _ [W D]
                    |k meta c _ [W D]|c _ [W D]].
    - split; [apply wf_empty|]. left. intros k m. discriminate.
    - destruct (wf_get nm anyway c W) as (W' & C'). split; [assumption|].
      destruct D as [C|(k & P)]; [left; auto|right].
      exists k. eapply path_grows; [apply grows_get|eassumption].
    - destruct (wf_add nm src c W) as (W' & C'). split; [assumption|].
      destruct D as [C|(k & P)]; [left; auto|right].
      exists k. eapply path_grows; [apply grows_add|eassumption].
    - destruct (wf_connect a b c W) as (W' & C'). split; [assumption|].
      destruct D as [C|(k & P)]; [left; auto|right].
      exists k. eapply path_grows; [apply grows_connect|eassumption].
    - destruct (wf_addExport k meta c W) as (W' & C'). split; [assumption|].
      destruct D as [C|(k0 & P)]; [left; auto|right].
      exists k0. eapply path_grows; [|eassumption]. simpl.
      apply grows_update. intros m _. unfold ModuleMethods.addExport.
      now destruct (existsb _ _).
    - destruct (serialize_frame c) as (F & En). split.
      + apply (wf_marker_frame c _ F); [lia|assumption].
      + destruct D as [C|(k & P)].
        * destruct (serialize_outcome c W C)
            as [(c' & bs & E & _ & Hc & _)|(c' & n & E & Hp & _)]; rewrite E; simpl.
          -- now left.
          -- right. exists n. rewrite E in F. simpl in F.
             eapply path_grows; [apply grows_marker_frame; exact F|assumption].
        * right. exists k.
          eapply path_grows; [apply grows_marker_frame; exact F|assumption]. }
  destruct Inv as (W & [C|(k & P)]); split; auto.
  intros A. now apply A in P.
Qed.

(** * The properties of the collections a program can hold *)

Lemma built_declare_from edges : forall c,
  built c ->
  built (fold_left
           (fun c e => fst (connect (JString (fst e)) (JString (snd e)) c))
           edges c).
Proof.
  induction edges as [|e edges IH]; intros c B; simpl; [assumption|].
  apply IH. now apply built_connect.
Qed.

Lemma built_declare edges : built (declare edges).
Proof. apply built_declare_from, built_new. Qed.

Lemma built_reached c : built c -> reached c.
Proof.
  induction 1 as [| | | | |c c' s _ IH E].
  - apply reached_new.
  - now apply reached_get.
  - now apply reached_add.
  - now apply reached_connect.
  - now apply reached_addExport.
  - replace c' with (fst (serialize c)) by now rewrite E.
    now apply reached_serialize.
Qed.

Lemma reached_declare edges : reached (declare edges).
Proof. apply built_reached, built_declare. Qed.

Lemma for_each_pred {S A} (P : S -> Prop) (f : A -> S -> S * outcome unit) :
  (forall x s, P s -> P (fst (f x s))) ->
  forall l s, P s -> P (fst (for_each f l s)).
Proof.
  intros Hf. induction l as [|x l IH]; intros s Hs; simpl; [assumption|].
  pose proof (Hf x s Hs) as H1.
  destruct (f x s) as [s1 [[]|e|]]; simpl in *; auto.
Qed.

(** The collection [clone()] returns is made through the interface. *)
Lemma built_clone c c' : clone c = Return c' -> built c'.
Proof.
  unfold clone.
  match goal with
  | |- context [for_each ?f (keys (modules c)) empty] =>
      assert (B1 : built (fst (for_each f (keys (modules c)) empty)));
      [|destruct (for_each f (keys (modules c)) empty) as [c1 r1]]
  end.
  { apply for_each_pred; [|apply built_new].
    intros x s Bs. destruct (own (modules c) x) as [m|]; simpl; [|assumption].
    destruct (ModuleMethods.clone m) as [m'|e|]; simpl; try assumption.
    pose proof (built_add (JModule m') (ModuleMethods.source_val m) Bs) as Ba.
    destruct (add (JModule m') (ModuleMethods.source_val m) s) as [s' [r|e|]];
      simpl in *; assumption. }
  simpl in B1. destruct r1 as [[]|e|]; try discriminate.
  match goal with
  | |- context [for_each ?f (dependencies c) c1] =>
      assert (B2 : built (fst (for_each f (dependencies c) c1)));
      [|destruct (for_each f (dependencies c) c1) as [c2 r2]]
  end.
  { apply for_each_pred; [|assumption].
    intros x s Bs.
    destruct (own (modules c) (dep_module x)) as [m|]; simpl; [|assumption].
    destruct (own (modules c) (dep_require x)) as [q|]; simpl; [|assumption].
    pose proof (built_connect (JModule m) (JModule q) Bs) as Bc.
    destruct (connect (JModule m) (JModule q) s) as [s' [r|e|]];
      simpl in *; assumption. }
  simpl in B2. destruct r2 as [[]|e|]; try discriminate.
  intros H. now injection H as <-.
Qed.

(** C1. For every collection whose requirements form no cycle,
    [serialize()] returns buckets in each of which every module stands
    strictly after every module it requires, all of which are in the same
    bucket. *)
Theorem serialize_orders_requirements (c : ModuleCollection) :
  reached c -> acyclic (modules c) ->
  exists c' buckets,
    serialize c =
      (c', Return {| elements := map Some buckets; undefined_bucket := None |}) /\
    forall b, In b buckets ->
      NoDup b /\
      forall k r, In k b -> edge (modules c) k r ->
        In r b /\ position r b < position k b.
Proof.
  intros R A. destruct (reached_wf c R) as (W & C).
  apply serialize_order_wf; auto.
Qed.

Lemma serialize_orders_requirements_chain :
  reached chain_ABC /\ acyclic (modules chain_ABC) /\
  snd (serialize chain_ABC) =
    Return {| elements := [Some ["C"; "B"; "A"]]; undefined_bucket := None |} /\
  exists c' buckets,
    serialize chain_ABC =
      (c', Return {| elements := map Some buckets; undefined_bucket := None |}) /\
    forall b, In b buckets ->
      NoDup b /\
      forall k r, In k b -> edge (modules chain_ABC) k r ->
        In r b /\ position r b < position k b.
Proof.
  split; [apply reached_declare|].
  split; [apply (ranked_acyclic rank_ABC); reflexivity|].
  split; [reflexivity|].
  apply (serialize_orders_requirements chain_ABC).
  - apply reached_declare.
  - apply (ranked_acyclic rank_ABC); reflexivity.
Defined.

(** C2. A collection with a cycle does not always make [serialize()] name
    a module of a cycle. On the collection where [D] requires [A], [A]
    requires [B] and [B] requires [A], the first call throws the
    [CyclicDependency] message with the name [A]; what that call leaves is a
    collection a program can hold, with the same cycle through [A], and on
    it [serialize()] throws the [CyclicDependency] message with the name
    [D], a module that lies on no cycle. *)
Theorem serialize_cycle_names_bystander :
  let c := fst (serialize cycle_below_D) in
  reached c /\
  path (modules c) "A" "A" /\
  snd (serialize cycle_below_D) = Throw (CyclicDependency "A") /\
  snd (serialize c) = Throw (CyclicDependency "D") /\
  ~ path (modules c) "D" "D".
Proof.
  destruct serialize_retry_blames_bystander as (E1 & E2 & N).
  split; [apply reached_serialize, reached_declare|].
  split.
  { apply t_trans with "B"; apply t_step; vm_compute; now left. }
  split; [exact E1|]. split; [exact E2|].
  intros P. apply N. apply (path_frame _ _ _ _ (fun k =>
    marker_frame_reqs _ _ k (proj1 (serialize_frame cycle_below_D)))).
  exact P.
Qed.

(** C3. For every collection without a cycle, [serialize()] returns one
    bucket per weakly connected component: the buckets are non-empty, hold
    every module exactly once, and two modules share a bucket exactly when
    they are connected; each bucket is ordered by requirement. When no
    module requires another, there are as many buckets as modules, of one
    module each. The order of the declarations plays no part. *)
Theorem serialize_buckets_are_components (c : ModuleCollection) :
  reached c -> acyclic (modules c) ->
  exists c' buckets,
    serialize c =
      (c', Return {| elements := map Some buckets; undefined_bucket := None |}) /\
    (forall b, In b buckets -> b <> []) /\
    NoDup (concat buckets) /\
    (forall k, In k (concat buckets) <-> In k (keys (modules c))) /\
    (forall x y, In x (keys (modules c)) -> In y (keys (modules c)) ->
       ((exists b, In b buckets /\ In x b /\ In y b) <->
        connected (modules c) x y)) /\
    (forall b k r, In b buckets -> In k b -> edge (modules c) k r ->
       In r b /\ position r b < position k b) /\
    ((forall k, reqs (modules c) k = []) ->
     length buckets = length (modules c) /\
     forall b, In b buckets -> length b = 1).
Proof.
  intros R A. destruct (reached_wf c R) as (W & C).
  apply serialize_components_wf; auto.
Qed.

Lemma serialize_buckets_are_components_chains :
  reached chains_interleaved /\ acyclic (modules chains_interleaved) /\
  snd (serialize chains_interleaved) =
    Return {| elements := [Some ["C"; "B"; "A"]; Some ["Z"; "Y"; "X"]];
              undefined_bucket := None |} /\
  snd (serialize chains_AB_XY) =
    Return {| elements := [Some ["B"; "A"]; Some ["Y"; "X"]];
              undefined_bucket := None |} /\
  snd (serialize chains_XY_AB) =
    Return {| elements := [Some ["Y"; "X"]; Some ["B"; "A"]];
              undefined_bucket := None |} /\
  snd (serialize three_modules) =
    Return {| elements := [Some ["A"]; Some ["B"]; Some ["C"]];
              undefined_bucket := None |} /\
  exists c' buckets,
    serialize chains_interleaved =
      (c', Return {| elements := map Some buckets; undefined_bucket := None |}) /\
    (forall b, In b buckets -> b <> []) /\
    NoDup (concat buckets) /\
    (forall k, In k (concat buckets) <-> In k (keys (modules chains_interleaved))) /\
    (forall x y, In x (keys (modules chains_interleaved)) ->
       In y (keys (modules chains_interleaved)) ->
       ((exists b, In b buckets /\ In x b /\ In y b) <->
        connected (modules chains_interleaved) x y)) /\
    (forall b k r, In b buckets -> In k b ->
       edge (modules chains_interleaved) k r ->
       In r b /\ position r b < position k b) /\
    ((forall k, reqs (modules chains_interleaved) k = []) ->
     length buckets = length (modules chains_interleaved) /\
     forall b, In b buckets -> length b = 1).
Proof.
  split; [apply reached_declare|].
  split; [apply (ranked_acyclic rank_chains); reflexivity|].
  do 4 (split; [reflexivity|]).
  apply (serialize_buckets_are_components chains_interleaved).
  - apply reached_declare.
  - apply (ranked_acyclic rank_chains); reflexivity.
Defined.

(** C4 (the code departs from the claim). When [add(name, source)] finds
    nothing under the source path, it stores the module in a fresh dictionary
    kept under the module's name: [getBySource(source)] still finds nothing,
    and the dictionary found under the name maps the source path to the
    module. *)
Theorem add_registers_under_module_name (c c' : ModuleCollection)
    (nm src : string) (r : ref) :
  reached c ->
  add (JString nm) (JString src) c = (c', Return r) ->
  getBySource (trim src) c = Missing -> trim nm <> trim src ->
  getBySource (trim src) c' = Missing /\
  getBySource (trim nm) c' = Own [(trim src, trim nm)].
Proof.
  intros R. destruct (reached_wf c R) as (W & _).
  now apply add_registers_wf.
Qed.

Lemma add_registers_under_module_name_lib :
  let c := fst (add (JString "A") (JString "lib.js") empty) in
  reached c /\
  add (JString "B") (JString "lib.js") c = (two_in_one_file, Return "B") /\
  getBySource (trim "lib.js") c = Missing /\ trim "B" <> trim "lib.js" /\
  sources two_in_one_file =
    [("A", [("lib.js", "A")]); ("B", [("lib.js", "B")])] /\
  (getBySource (trim "lib.js") two_in_one_file = Missing /\
   getBySource (trim "B") two_in_one_file = Own [(trim "lib.js", trim "B")]).
Proof.
  assert (R : reached (fst (add (JString "A") (JString "lib.js") empty)))
    by apply reached_add, reached_new.
  split; [exact R|].
  split; [vm_compute; reflexivity|]. split; [vm_compute; reflexivity|].
  split; [discriminate|].
  split; [vm_compute; reflexivity|].
  apply (add_registers_under_module_name
           (fst (add (JString "A") (JString "lib.js") empty))
           two_in_one_file "B" "lib.js" "B" R).
  - vm_compute; reflexivity.
  - vm_compute; reflexivity.
  - discriminate.
Defined.

(** C5 (the code departs from the claim). [clone()] passes the source of
    every module to [add]; for a module without a source, [add] throws:
    [clone()] fails on every collection that holds an orphan module. *)
Theorem clone_throws_on_orphan (this : ModuleCollection) :
  (exists k m, own (modules this) k = Some m /\ source m = None) ->
  exists e, clone this = Throw e.
Proof.
  intros (k & m & Hm & Hsrc). unfold clone.
  destruct (clone_modules_throw this (keys (modules this)) empty) as (e & He).
  - intros k' Hk' E. apply own_None in E. contradiction.
  - exists k, m. split; [eapply own_In_keys; eassumption|auto].
  - destruct (for_each _ (keys (modules this)) empty) as [c r].
    simpl in He. subst r. now exists e.
Qed.

Lemma clone_throws_on_orphan_B :
  (exists k m, own (modules with_orphan) k = Some m /\ source m = None) /\
  clone with_orphan = Throw TypeError /\
  exists e, clone with_orphan = Throw e.
Proof.
  assert (H : exists k m, own (modules with_orphan) k = Some m /\ source m = None).
  { exists "B". eexists. split; reflexivity. }
  split; [exact H|]. split; [reflexivity|].
  exact (clone_throws_on_orphan with_orphan H).
Defined.

(** C6. When [connect(a, b)] has succeeded, the same call fails with the
    [DuplicateEdge] message, and after both calls the collection holds one
    dependency more than before the first. *)
Theorem connect_twice_duplicate (this c1 : ModuleCollection) (a b : jsval)
    (d : Dependency) :
  connect a b this = (c1, Return d) ->
  exists c2 n q,
    connect a b c1 = (c2, Throw (DuplicateEdge n q)) /\
    numberOfDependencies c2 = S (numberOfDependencies this) /\
    dependencies c2 = dependencies this ++ [d].
Proof.
  unfold connect at 1.
  destruct (get a true this) as [t1 [v1| |]] eqn:Ga; try discriminate.
  destruct (get b true t1) as [t2 [v2| |]] eqn:Gb; try discriminate.
  destruct (Dependency_new v1 v2 (modules t2)) as [h [d'| |]] eqn:Dn;
    try discriminate.
  intros H; injection H as <- <-.
  apply Dependency_new_inv in Dn. destruct Dn as (-> & -> & Rq).
  apply require_inv in Rq. destruct Rq as (m & q & Hm & Hq & Hne & ->).
  set (ra := dep_module d') in *. set (rb := dep_require d') in *.
  assert (Hab : rb <> ra) by (intros E; rewrite E in Hq; congruence).
  destruct (get_anyway_frame _ _ _ _ Ga) as (Fa1 & Fa2 & _).
  destruct (get_anyway_frame _ _ _ _ Gb) as (Fb1 & Fb2 & _).
  apply get_module_inv in Ga. destruct Ga as (Sa & _).
  apply get_module_inv in Gb. destruct Gb as (Sb & _).
  set (h := update _ rb _).
  assert (Ha' : own h ra = Some (ModuleMethods.add_requirement (name q) rb m)).
  { unfold h. rewrite own_update_other by congruence.
    now rewrite own_update_same, Hm. }
  assert (Hb' : own h rb = Some (ModuleMethods.add_dependant (name m) ra q)).
  { unfold h. rewrite own_update_same, own_update_other by assumption.
    now rewrite Hq. }
  unfold connect.
  match goal with |- context [get a true ?c] => set (c1 := c) end.
  rewrite (get_found _ true c1 _ _ Sa Ha'), (get_found _ true c1 _ _ Sb Hb').
  unfold Dependency_new, require. simpl modules. rewrite Ha', Hb'. simpl.
  destruct (String.eqb_spec (name m) (name q)); [contradiction|].
  rewrite truthy_js_set. simpl.
  do 3 eexists. split; [reflexivity|]. simpl.
  rewrite Fb1, Fb2, Fa1, Fa2. auto.
Qed.

Lemma connect_twice_duplicate_AB :
  let c1 := fst (connect (JString "A") (JString "B") empty) in
  let d := {| dep_module := "A"; dep_require := "B" |} in
  connect (JString "A") (JString "B") empty = (c1, Return d) /\
  exists c2 n q,
    connect (JString "A") (JString "B") c1 = (c2, Throw (DuplicateEdge n q)) /\
    numberOfDependencies c2 = S (numberOfDependencies empty) /\
    dependencies c2 = dependencies empty ++ [d].
Proof.
  split; [reflexivity|].
  apply (connect_twice_duplicate empty _ (JString "A") (JString "B") _).
  reflexivity.
Defined.

(** C7. [connect(name, name)] with a usable name fails with the
    [SelfDependency] message, and neither the sequence of dependencies nor
    their counter changes. *)
Theorem connect_self_dependency (this : ModuleCollection) (nm : string) :
  trim nm <> "" -> inherited (trim nm) = None ->
  exists this' who,
    connect (JString nm) (JString nm) this = (this', Throw (SelfDependency who)) /\
    dependencies this' = dependencies this /\
    numberOfDependencies this' = numberOfDependencies this.
Proof.
  intros Hn Hi.
  destruct (get_anyway nm this Hn Hi) as (this1 & Hg & _ & m & Hm).
  unfold connect. rewrite Hg.
  rewrite (get_found _ true this1 _ _ (stringLike_name _ Hn) Hm).
  unfold Dependency_new, require. rewrite Hm, String.eqb_refl.
  exists (with_modules (modules this1) this1), (name m).
  split; [reflexivity|]. simpl.
  destruct (get_anyway_frame _ _ _ _ Hg) as (-> & -> & _). auto.
Qed.

Lemma connect_self_dependency_A :
  trim "A" <> "" /\ inherited (trim "A") = None /\
  exists this' who,
    connect (JString "A") (JString "A") empty = (this', Throw (SelfDependency who)) /\
    dependencies this' = dependencies empty /\
    numberOfDependencies this' = numberOfDependencies empty.
Proof.
  split; [discriminate|]. split; [reflexivity|].
  apply (connect_self_dependency empty "A"); [discriminate|reflexivity].
Defined.

(** C8 (the code departs from the claim). A [serialize()] that throws skips
    the loop that deletes the markers: every module it has indexed keeps its
    [indexing] marker, and there is at least one; only the marker of the
    module named by the error is deleted before the throw. *)
Theorem serialize_failure_leaves_markers (c c' : ModuleCollection) (e : error) :
  built c -> serialize c = (c', Throw e) ->
  exists k, indexed (modules c') k = true.
Proof.
  intros B. destruct (built_wf c B) as (W & C).
  now apply serialize_failure_wf.
Qed.

Lemma serialize_failure_leaves_markers_AB :
  let c' := fst (serialize cycle_AB) in
  built cycle_AB /\
  serialize cycle_AB = (c', Throw (CyclicDependency "A")) /\
  gray (modules c') "B" = true /\
  indexed (modules c') "A" = true /\ indexed (modules c') "B" = true /\
  exists k, indexed (modules c') k = true.
Proof.
  split; [apply built_declare|].
  do 4 (split; [reflexivity|]).
  apply (serialize_failure_leaves_markers cycle_AB _ (CyclicDependency "A")).
  - apply built_declare.
  - reflexivity.
Defined.

(** C9. [analyse()] lists under [definedModules] exactly the modules that
    have a source and under [orphanModules] exactly those that have none,
    and [numberOfExports] is the number of export tags over all modules.
    A module first named as the requirement of a [connect] is an orphan;
    once [add] has given it a source it is among the defined modules and no
    longer an orphan. *)
Theorem analyse_partitions_by_source (c : ModuleCollection) :
  reached c ->
  definedModules (analyse c) = filter (has_source c) (keys (modules c)) /\
  orphanModules (analyse c) =
    filter (fun k => negb (has_source c k)) (keys (modules c)) /\
  numberOfExports (analyse c) = exports_total c /\
  forall a b c1 d,
    own (modules c) (trim b) = None ->
    connect (JString a) (JString b) c = (c1, Return d) ->
    In (trim b) (orphanModules (analyse c1)) /\
    forall src c2 r,
      add (JString b) (JString src) c1 = (c2, Return r) ->
      In (trim b) (definedModules (analyse c2)) /\
      ~ In (trim b) (orphanModules (analyse c2)).
Proof.
  intros R. destruct (reached_wf c R) as (W & _).
  now apply analyse_wf.
Qed.

Lemma analyse_partitions_by_source_AB :
  reached empty /\
  let c1 := fst (connect (JString "A") (JString "B") empty) in
  let c2 := fst (add (JString "B") (JString "b.js") c1) in
  orphanModules (analyse c1) = ["A"; "B"] /\
  definedModules (analyse c2) = ["B"] /\
  orphanModules (analyse c2) = ["A"] /\
  (In (trim "B") (definedModules (analyse c2)) /\
   ~ In (trim "B") (orphanModules (analyse c2))).
Proof.
  split; [apply reached_new|].
  split; [reflexivity|]. split; [reflexivity|]. split; [reflexivity|].
  destruct (analyse_partitions_by_source empty reached_new) as (_ & _ & _ & H).
  destruct (H "A" "B" _ {| dep_module := "A"; dep_require := "B" |}
              eq_refl eq_refl) as (_ & H').
  exact (H' "b.js" _ "B" eq_refl).
Defined.

(** C10. [get(name, true)] with a non-empty name that trims to the empty
    string throws; no module is stored, but the counter of modules has
    been incremented and now exceeds the number of modules stored. *)
Theorem get_blank_name_overcounts (this : ModuleCollection) (nm : string) :
  reached this -> nm <> "" -> trim nm = "" ->
  exists this',
    get (JString nm) true this = (this', Throw TypeError) /\
    modules this' = modules this /\
    numberOfModules this' = S (numberOfModules this) /\
    length (modules this') < numberOfModules this'.
Proof.
  intros R. destruct (reached_wf this R) as (W & _).
  now apply get_blank_name_wf.
Qed.

Lemma get_blank_name_overcounts_spaces :
  reached empty /\ "  " <> "" /\ trim "  " = "" /\
  exists this',
    get (JString "  ") true empty = (this', Throw TypeError) /\
    modules this' = modules empty /\
    numberOfModules this' = S (numberOfModules empty) /\
    length (modules this') < numberOfModules this'.
Proof.
  split; [apply reached_new|].
  split; [discriminate|]. split; [reflexivity|].
  apply (get_blank_name_overcounts empty "  ");
    [apply reached_new|discriminate|reflexivity].
Defined.

(** * Further properties *)

(** ** Array indices and the order of keys *)

Lemma digit_inj c c' d : digit c = Some d -> digit c' = Some d -> c = c'.
Proof.
  unfold digit. intros H H'.
  destruct ((48 <=? N_of_ascii c) && (N_of_ascii c <=? 57))%N eqn:E; [|discriminate].
  destruct ((48 <=? N_of_ascii c') && (N_of_ascii c' <=? 57))%N eqn:E'; [|discriminate].
  apply andb_prop in E, E'. destruct E as [E1 E2], E' as [E1' E2'].
  apply N.leb_le in E1, E2, E1', E2'.
  injection H as H. injection H' as H'.
  rewrite <- (ascii_N_embedding c), <- (ascii_N_embedding c'). f_equal. lia.
Qed.

Lemma digit_bound c d : digit c = Some d -> (d < 10)%N.
Proof.
  unfold digit.
  destruct ((48 <=? N_of_ascii c) && (N_of_ascii c <=? 57))%N eqn:E; [|discriminate].
  apply andb_prop in E. destruct E as [E1 E2]. apply N.leb_le in E1, E2.
  intros H; injection H as <-. lia.
Qed.

Lemma digit_zero c : digit c = Some 0%N -> c = "0"%char.
Proof. intros H. now apply (digit_inj c "0" 0%N). Qed.

(** The value of a numeral read after [acc]. *)
Lemma digits_value s : forall acc n,
  digits s acc = Some n ->
  exists v, (n = acc * 10 ^ N.of_nat (String.length s) + v /\
             v < 10 ^ N.of_nat (String.length s))%N.
Proof.
  induction s as [|c s IH]; intros acc n; simpl String.length.
  - simpl. intros H; injection H as <-. exists 0%N. simpl. lia.
  - cbn [digits]. destruct (digit c) as [d|] eqn:D; [|discriminate].
    intros H. apply IH in H. destruct H as (v & -> & Hv).
    apply digit_bound in D.
    rewrite Nat2N.inj_succ, N.pow_succ_r'.
    set (p := (10 ^ N.of_nat (String.length s))%N) in *.
    exists (d * p + v)%N. split; [ring|nia].
Qed.

Lemma digits_lead s : forall acc n c t,
  s = String c t -> digits s acc = Some n ->
  exists d v, digit c = Some d /\
    (n = (10 * acc + d) * 10 ^ N.of_nat (String.length t) + v /\
     v < 10 ^ N.of_nat (String.length t))%N.
Proof.
  intros acc n c t -> H. cbn [digits] in H.
  destruct (digit c) as [d|] eqn:D; [|discriminate].
  apply digits_value in H. destruct H as (v & -> & Hv). now exists d, v.
Qed.

Lemma digits_inj s : forall s' acc n,
  String.length s = String.length s' ->
  digits s acc = Some n -> digits s' acc = Some n -> s = s'.
Proof.
  induction s as [|c s IH]; intros [|c' s'] acc n L; try discriminate;
    [reflexivity|].
  simpl in L. injection L as L. intros H H'.
  destruct (digits_lead _ _ _ _ _ eq_refl H) as (d & v & D & E & Hv).
  destruct (digits_lead _ _ _ _ _ eq_refl H') as (d' & v' & D' & E' & Hv').
  rewrite <- L in *.
  assert (d = d') by nia. subst d'.
  rewrite (digit_inj _ _ _ D D'). f_equal.
  cbn [digits] in H, H'. rewrite D in H. rewrite D' in H'.
  exact (IH _ _ _ L H H').
Qed.

(** An array index is ["0"] or a numeral that does not begin with a zero. *)
Lemma array_index_inv k n :
  array_index k = Some n ->
  (k = "0" /\ n = 0%N) \/
  (exists c t d, k = String c t /\ digit c = Some d /\ (1 <= d)%N /\
                 digits k 0 = Some n).
Proof.
  destruct k as [|c t]; [discriminate|].
  destruct (ascii_dec c "0") as [->|Hc].
  - destruct t; simpl; [|discriminate]. intros H; injection H as <-. now left.
  - intros H. right.
    assert (Hd : match digits (String c t) 0 with
                 | Some m => if (m <? 4294967295)%N then Some m else None
                 | None => None
                 end = Some n).
    { destruct c as [[] [] [] [] [] [] [] []]; try exact H; now elim Hc. }
    clear H. destruct (digits (String c t) 0) as [m|] eqn:E; [|discriminate].
    destruct (m <? 4294967295)%N; [|discriminate]. injection Hd as ->.
    pose proof E as E'. cbn [digits] in E'.
    destruct (digit c) as [d|] eqn:D; [|discriminate].
    exists c, t, d. repeat split; auto.
    destruct (N.eq_dec d 0) as [->|]; [|lia].
    apply digit_zero in D. contradiction.
Qed.

Lemma array_index_inj k k' n :
  array_index k = Some n -> array_index k' = Some n -> k = k'.
Proof.
  intros H H'. apply array_index_inv in H, H'.
  assert (Z : forall c t d m, digit c = Some d -> (1 <= d)%N ->
                digits (String c t) 0 = Some m -> (m <> 0)%N).
  { intros c t d m D Hd E.
    destruct (digits_lead _ _ _ _ _ eq_refl E) as (d' & v & D' & -> & _).
    rewrite D in D'. injection D' as <-.
    pose proof (N.pow_nonzero 10 (N.of_nat (String.length t))). nia. }
  destruct H as [(-> & ->)|(c & t & d & -> & D & Hd & E)],
           H' as [(-> & E0)|(c' & t' & d' & -> & D' & Hd' & E')]; auto.
  - exfalso. now apply (Z _ _ _ _ D' Hd' E').
  - exfalso. subst n. now apply (Z _ _ _ _ D Hd E).
  - apply (digits_inj _ _ 0%N n); auto.
    destruct (digits_lead _ _ _ _ _ eq_refl E) as (d1 & v & D1 & En & Hv).
    destruct (digits_lead _ _ _ _ _ eq_refl E') as (d1' & v' & D1' & En' & Hv').
    rewrite D in D1. injection D1 as <-. rewrite D' in D1'. injection D1' as <-.
    apply digit_bound in D, D'. simpl. f_equal.
    set (a := String.length t) in *. set (b := String.length t') in *.
    destruct (Nat.lt_trichotomy a b) as [Hab|[Hab|Hab]]; [|assumption|]; exfalso.
    + assert (P : (10 ^ N.of_nat (S a) <= 10 ^ N.of_nat b)%N)
        by (apply N.pow_le_mono_r; lia).
      rewrite Nat2N.inj_succ, N.pow_succ_r' in P. nia.
    + assert (P : (10 ^ N.of_nat (S b) <= 10 ^ N.of_nat a)%N)
        by (apply N.pow_le_mono_r; lia).
      rewrite Nat2N.inj_succ, N.pow_succ_r' in P. nia.
Qed.

Lemma ordered_insert_index {V} n k (v : V) : forall o,
  array_index k = Some n -> ~ In k (keys o) -> ordered (keys o) ->
  ordered (keys (insert_index n k v o)).
Proof.
  intros o Hk. induction o as [|[k0 v0] o IH]; intros Hn Ho.
  - simpl. rewrite Hk. split; [intros k' n' []|exact I].
  - simpl in Hn, Ho. destruct Ho as (Hhead & Ho). cbn [insert_index].
    destruct (array_index k0) as [n0|] eqn:E0.
    + destruct (N.ltb_spec n0 n) as [L|L].
      * simpl. rewrite E0. split; [|apply IH; tauto].
        intros k' n' Hin E'. apply keys_insert_index in Hin.
        destruct Hin as [->|Hin]; [congruence|eauto].
      * assert (n <> n0).
        { intros ->. apply Hn. left. eapply array_index_inj; eassumption. }
        simpl. rewrite Hk, E0. split; [|split; assumption].
        intros k' n' [<-|Hin] E'; [rewrite E0 in E'; injection E' as <-; lia|].
        specialize (Hhead k' n' Hin E'). lia.
    + simpl. rewrite Hk, E0. split; [|split; assumption].
      intros k' n' [<-|Hin] E'; [congruence|].
      rewrite (Hhead k' Hin) in E'. discriminate.
Qed.

Lemma ordered_app_plain ks k :
  array_index k = None -> ordered ks -> ordered (ks ++ [k]).
Proof.
  intros Hk. induction ks as [|k0 ks IH]; simpl.
  - rewrite Hk. intros _. split; [intros k' []|exact I].
  - intros (Hhead & Ho). split; [|auto].
    destruct (array_index k0) as [n0|].
    + intros k' n' Hin E'. apply in_app_iff in Hin.
      destruct Hin as [Hin|[<-|[]]]; [eauto|congruence].
    + intros k' Hin. apply in_app_iff in Hin.
      destruct Hin as [Hin|[<-|[]]]; auto.
Qed.

Lemma ordered_js_set {V} (o : jsobj V) k v :
  ordered (keys o) -> ordered (keys (js_set k v o)).
Proof.
  intros Ho. unfold js_set. destruct (own o k) eqn:E.
  - now rewrite keys_update.
  - destruct (String.eqb k "__proto__"); [assumption|].
    apply own_None in E.
    destruct (array_index k) as [n|] eqn:Hk.
    + now apply ordered_insert_index.
    + unfold keys. rewrite map_app. now apply ordered_app_plain.
Qed.

(** A key that [for..in] gives last was the last to be stored. *)
Lemma js_set_last {V} (o : jsobj V) k v :
  ordered (keys o ++ [k]) -> ~ In k (keys o) -> k <> "__proto__" ->
  js_set k v o = o ++ [(k, v)].
Proof.
  intros Ho Hn Hp. unfold js_set.
  assert (E : own o k = None) by now apply own_None.
  rewrite E. destruct (String.eqb_spec k "__proto__") as [|_]; [contradiction|].
  destruct (array_index k) as [n|] eqn:Hk; [|reflexivity].
  clear E. induction o as [|[k0 v0] o IH]; [reflexivity|].
  simpl in Ho, Hn. destruct Ho as (Hhead & Ho). cbn [insert_index].
  destruct (array_index k0) as [n0|].
  - assert (L : (n0 < n)%N) by (apply (Hhead k); [apply in_app_iff; right; now left|assumption]).
    apply N.ltb_lt in L. rewrite L. simpl. f_equal. apply IH; tauto.
  - rewrite Hhead in Hk; [discriminate|]. apply in_app_iff. right. now left.
Qed.

Lemma ordered_app_l ks ks' : ordered (ks ++ ks') -> ordered ks.
Proof.
  induction ks as [|k ks IH]; simpl; [trivial|].
  intros (Hhead & Ho). split; [|auto].
  destruct (array_index k).
  - intros k' n' Hin. apply Hhead, in_app_iff. now left.
  - intros k' Hin. apply Hhead, in_app_iff. now left.
Qed.

(** ** The adjacency a sequence of dependencies builds *)

Lemma requires_of_app ds d k :
  requires_of (ds ++ [d]) k =
  if String.eqb (dep_module d) k
  then js_set (dep_require d) (dep_require d) (requires_of ds k)
  else requires_of ds k.
Proof. unfold requires_of. now rewrite fold_left_app. Qed.

Lemma dependants_of_app ds d k :
  dependants_of (ds ++ [d]) k =
  if String.eqb (dep_require d) k
  then js_set (dep_module d) (dep_module d) (dependants_of ds k)
  else dependants_of ds k.
Proof. unfold dependants_of. now rewrite fold_left_app. Qed.

Lemma requires_of_keys ds k x :
  In x (keys (requires_of ds k)) ->
  exists d, In d ds /\ dep_module d = k /\ dep_require d = x.
Proof.
  induction ds as [|d ds IH] using rev_ind; [intros []|].
  rewrite requires_of_app. destruct (String.eqb_spec (dep_module d) k) as [E|E].
  - intros H.
    destruct (String.eqb_spec x (dep_require d)) as [->|Hx].
    + exists d. split; [apply in_app_iff; right; now left|auto].
    + assert (Hin : In x (keys (requires_of ds k))).
      { destruct (own (requires_of ds k) x) eqn:O; [eapply own_In_keys; eassumption|].
        apply In_keys_own in H. destruct H as (v & H).
        rewrite own_js_set_other in H by assumption. congruence. }
      destruct (IH Hin) as (d' & Hd' & ?). exists d'. split; [|assumption].
      apply in_app_iff. now left.
  - intros H. destruct (IH H) as (d' & Hd' & ?). exists d'. split; [|assumption].
    apply in_app_iff. now left.
Qed.

Lemma dependants_of_keys ds k x :
  In x (keys (dependants_of ds k)) ->
  exists d, In d ds /\ dep_require d = k /\ dep_module d = x.
Proof.
  induction ds as [|d ds IH] using rev_ind; [intros []|].
  rewrite dependants_of_app. destruct (String.eqb_spec (dep_require d) k) as [E|E].
  - intros H.
    destruct (String.eqb_spec x (dep_module d)) as [->|Hx].
    + exists d. split; [apply in_app_iff; right; now left|auto].
    + assert (Hin : In x (keys (dependants_of ds k))).
      { destruct (own (dependants_of ds k) x) eqn:O; [eapply own_In_keys; eassumption|].
        apply In_keys_own in H. destruct H as (v & H).
        rewrite own_js_set_other in H by assumption. congruence. }
      destruct (IH Hin) as (d' & Hd' & ?). exists d'. split; [|assumption].
      apply in_app_iff. now left.
  - intros H. destruct (IH H) as (d' & Hd' & ?). exists d'. split; [|assumption].
    apply in_app_iff. now left.
Qed.

Lemma requires_of_own ds d :
  In d ds -> dep_require d <> "__proto__" ->
  own (requires_of ds (dep_module d)) (dep_require d) = Some (dep_require d).
Proof.
  intros Hin Hp. induction ds as [|d' ds IH] using rev_ind; [destruct Hin|].
  rewrite requires_of_app.
  apply in_app_iff in Hin. destruct Hin as [Hin|[->|[]]].
  - destruct (String.eqb (dep_module d') (dep_module d)); [|auto].
    destruct (String.eqb_spec (dep_require d) (dep_require d')) as [E|E].
    + rewrite <- E. now apply own_js_set_same.
    + rewrite own_js_set_other by assumption. auto.
  - rewrite String.eqb_refl. now apply own_js_set_same.
Qed.

Lemma dependants_of_own ds d :
  In d ds -> dep_module d <> "__proto__" ->
  own (dependants_of ds (dep_require d)) (dep_module d) = Some (dep_module d).
Proof.
  intros Hin Hp. induction ds as [|d' ds IH] using rev_ind; [destruct Hin|].
  rewrite dependants_of_app.
  apply in_app_iff in Hin. destruct Hin as [Hin|[->|[]]].
  - destruct (String.eqb (dep_require d') (dep_require d)); [|auto].
    destruct (String.eqb_spec (dep_module d) (dep_module d')) as [E|E].
    + rewrite <- E. now apply own_js_set_same.
    + rewrite own_js_set_other by assumption. auto.
  - rewrite String.eqb_refl. now apply own_js_set_same.
Qed.

Lemma requires_of_none ds k :
  (forall d, In d ds -> dep_module d <> k) -> requires_of ds k = [].
Proof.
  induction ds as [|d ds IH] using rev_ind; [reflexivity|]. intros H.
  rewrite requires_of_app.
  destruct (String.eqb_spec (dep_module d) k) as [E|E].
  - exfalso. apply (H d); [apply in_app_iff; right; now left|assumption].
  - apply IH. intros d' Hd'. apply H, in_app_iff. now left.
Qed.

Lemma dependants_of_none ds k :
  (forall d, In d ds -> dep_require d <> k) -> dependants_of ds k = [].
Proof.
  induction ds as [|d ds IH] using rev_ind; [reflexivity|]. intros H.
  rewrite dependants_of_app.
  destruct (String.eqb_spec (dep_require d) k) as [E|E].
  - exfalso. apply (H d); [apply in_app_iff; right; now left|assumption].
  - apply IH. intros d' Hd'. apply H, in_app_iff. now left.
Qed.

Lemma length_js_set_fresh {V} (o : jsobj V) k v :
  own o k = None -> k <> "__proto__" -> length (js_set k v o) = S (length o).
Proof.
  intros E Hp. unfold js_set. rewrite E.
  destruct (String.eqb_spec k "__proto__"); [contradiction|].
  destruct (array_index k).
  - apply length_insert_index.
  - rewrite length_app. simpl. lia.
Qed.

(** ** Counters, dependencies and adjacency agree *)

Lemma map_values_pointwise {V A} (f : V -> A) : forall (o o' : jsobj V),
  keys o' = keys o -> NoDup (keys o) ->
  (forall k v', own o' k = Some v' -> exists v, own o k = Some v /\ f v' = f v) ->
  map f (values o') = map f (values o).
Proof.
  induction o as [|[k v] o IH]; intros [|[k' v'] o'] K ND H; try discriminate;
    [reflexivity|].
  simpl in K. injection K as -> K. inversion ND as [|? ? Hn ND']; subst.
  simpl. f_equal.
  - destruct (H k v') as (v0 & E & Hf); [simpl; now rewrite String.eqb_refl|].
    simpl in E. rewrite String.eqb_refl in E. now injection E as <-.
  - apply IH; auto. intros x y Hx.
    assert (x <> k).
    { intros ->. apply Hn. rewrite <- K. eapply own_In_keys; eassumption. }
    destruct (H x y) as (v0 & E & Hf).
    + simpl. destruct (String.eqb_spec k x); [congruence|assumption].
    + simpl in E. destruct (String.eqb_spec k x); [congruence|]. eauto.
Qed.

Lemma consistent_ext c c' :
  wf c -> consistent c ->
  keys (modules c') = keys (modules c) ->
  dependencies c' = dependencies c ->
  numberOfDependencies c' = numberOfDependencies c ->
  (forall k m', own (modules c') k = Some m' ->
     exists m, own (modules c) k = Some m /\
       requires m' = requires m /\
       numberOfRequirements m' = numberOfRequirements m /\
       dependants m' = dependants m /\
       numberOfDependants m' = numberOfDependants m /\
       (forall s, source m' = Some s -> source m = Some s \/ trim s = s)) ->
  consistent c'.
Proof.
  intros W [C1 C2 C3 C4 C5 C6 C7 C8 C9] K D N H.
  constructor; rewrite ?K, ?D, ?N; auto.
  - intros k m' Hm'. destruct (H k m' Hm') as (m & Hm & -> & -> & _).
    now apply (C4 k).
  - intros k m' Hm'. destruct (H k m' Hm') as (m & Hm & _ & _ & -> & -> & _).
    now apply (C5 k).
  - rewrite <- C6. f_equal. apply map_values_pointwise; auto; [apply (wf_keys W)|].
    intros k m' Hm'. destruct (H k m' Hm') as (m & Hm & _ & E & _). eauto.
  - rewrite <- C7. f_equal. apply map_values_pointwise; auto; [apply (wf_keys W)|].
    intros k m' Hm'. destruct (H k m' Hm') as (m & Hm & _ & _ & _ & E & _). eauto.
  - intros k m' s Hm' Hs. destruct (H k m' Hm') as (m & Hm & _ & _ & _ & _ & S).
    destruct (S s Hs) as [S'|S']; [now apply (C8 k m)|assumption].
Qed.

Lemma consistent_update c c' k f :
  wf c -> consistent c ->
  modules c' = update (modules c) k f ->
  dependencies c' = dependencies c ->
  numberOfDependencies c' = numberOfDependencies c ->
  (forall m, requires (f m) = requires m /\
             numberOfRequirements (f m) = numberOfRequirements m /\
             dependants (f m) = dependants m /\
             numberOfDependants (f m) = numberOfDependants m /\
             (forall s, source (f m) = Some s -> source m = Some s \/ trim s = s)) ->
  consistent c'.
Proof.
  intros W C M D N Hf. apply (consistent_ext c c' W C); auto.
  - now rewrite M, keys_update.
  - intros x m'. rewrite M, own_update.
    destruct (String.eqb x k).
    + destruct (own (modules c) x) as [m|]; simpl; [|discriminate].
      intros E; injection E as <-. exists m. split; [reflexivity|apply Hf].
    + intros E. exists m'. split; [assumption|]. repeat split; auto.
Qed.

Lemma consistent_frame c c' :
  wf c -> consistent c ->
  marker_frame (modules c) (modules c') ->
  dependencies c' = dependencies c ->
  numberOfDependencies c' = numberOfDependencies c ->
  consistent c'.
Proof.
  intros W C F D N. apply (consistent_ext c c' W C); auto.
  - apply (frame_keys _ _ _ F).
  - intros k m' Hm'.
    assert (E : own (on_values no_flags (modules c')) k
                = own (on_values no_flags (modules c)) k) by now rewrite F.
    rewrite !own_on_values, Hm' in E.
    destruct (own (modules c) k) as [m|]; [|discriminate].
    simpl in E. injection E as En Er Ec Ed Ecd Ee Es.
    exists m. repeat split; auto. intros s Hs. left. congruence.
Qed.

Lemma consistent_empty : consistent empty.
Proof.
  constructor; simpl; auto; try (intros ? []); try discriminate.
  constructor.
Qed.

Lemma list_sum_insert_index {V} (f : V -> nat) n k v (o : jsobj V) :
  list_sum (map f (values (insert_index n k v o)))
  = f v + list_sum (map f (values o)).
Proof.
  induction o as [|[k0 v0] o IH]; simpl; [reflexivity|].
  destruct (array_index k0) as [n'|]; [destruct (n' <? n)%N|]; simpl;
    rewrite ?IH; lia.
Qed.

Lemma list_sum_js_set_fresh {V} (f : V -> nat) k v (o : jsobj V) :
  own o k = None -> k <> "__proto__" ->
  list_sum (map f (values (js_set k v o))) = f v + list_sum (map f (values o)).
Proof.
  intros E Hp. unfold js_set. rewrite E.
  destruct (String.eqb_spec k "__proto__"); [contradiction|].
  destruct (array_index k).
  - apply list_sum_insert_index.
  - unfold values. rewrite !map_app, list_sum_app. simpl. lia.
Qed.

Lemma list_sum_update {V} (f : V -> nat) (g : V -> V) k : forall (o : jsobj V) v,
  NoDup (keys o) -> own o k = Some v ->
  list_sum (map f (values (update o k g))) + f v
  = list_sum (map f (values o)) + f (g v).
Proof.
  induction o as [|[k0 v0] o IH]; intros v ND; simpl; [discriminate|].
  inversion ND as [|? ? Hn ND']; subst.
  destruct (String.eqb_spec k0 k) as [->|Hk].
  - intros E; injection E as <-. simpl.
    assert (U : update o k g = o).
    { unfold update. rewrite <- (map_id o) at 2. apply map_ext_in.
      intros [k1 v1] Hin. simpl. destruct (String.eqb_spec k1 k) as [->|]; [|reflexivity].
      exfalso. apply Hn. change (In (fst (k, v1)) (map fst o)). now apply in_map. }
    fold (update o k g). rewrite U. lia.
  - intros E. simpl. fold (update o k g). specialize (IH v ND' E). lia.
Qed.

Lemma consistent_get nm anyway c :
  wf c -> consistent c -> consistent (fst (get nm anyway c)).
Proof.
  intros W C. unfold get.
  destruct (lib.stringLike nm) as [n| |] eqn:Hs; simpl; auto.
  destruct (js_get (modules c) n) eqn:Hg; simpl; auto.
  destruct anyway; simpl; auto.
  apply js_get_missing in Hg. destruct Hg as (Ho & Hi).
  pose proof (stringLike_trimmed _ _ Hs) as Ht.
  assert (Same : consistent (with_numberOfModules (S (numberOfModules c)) c)).
  { apply (consistent_ext c _ W C); auto.
    intros k m' Hm'. exists m'. simpl in Hm'. repeat split; auto. }
  destruct (String.eqb_spec n "") as [->|Hn]; simpl; [exact Same|].
  rewrite (new_trimmed n Hn Ht). simpl.
  assert (Hp : n <> "__proto__") by now apply inherited_not_proto.
  assert (Hnk : ~ In n (keys (modules c))) by now apply own_None.
  destruct C as [C1 C2 C3 C4 C5 C6 C7 C8 C9].
  constructor; simpl; auto.
  - intros d Hd. destruct (C2 d Hd) as (Ha & Hb & Hab).
    repeat split; auto; apply In_keys_js_set; auto.
  - intros k m. destruct (String.eqb_spec k n) as [->|Hk].
    + rewrite own_js_set_same by assumption. intros E; injection E as <-. simpl.
      split; [|reflexivity]. symmetry. apply requires_of_none.
      intros d Hd E. apply Hnk. rewrite <- E. now apply C2.
    + rewrite own_js_set_other by assumption. apply C4.
  - intros k m. destruct (String.eqb_spec k n) as [->|Hk].
    + rewrite own_js_set_same by assumption. intros E; injection E as <-. simpl.
      split; [|reflexivity]. symmetry. apply dependants_of_none.
      intros d Hd E. apply Hnk. rewrite <- E. now apply C2.
    + rewrite own_js_set_other by assumption. apply C5.
  - rewrite list_sum_js_set_fresh by assumption. simpl. exact C6.
  - rewrite list_sum_js_set_fresh by assumption. simpl. exact C7.
  - intros k m s. destruct (String.eqb_spec k n) as [->|Hk].
    + rewrite own_js_set_same by assumption. intros E; injection E as <-. discriminate.
    + rewrite own_js_set_other by assumption. apply C8.
  - now apply ordered_js_set.
Qed.

Lemma define_result src m m' :
  ModuleMethods.define src m = Return m' ->
  source m = None /\
  exists s, lib.stringLike src = Return s /\
            m' = ModuleMethods.with_source (Some s) m.
Proof.
  unfold ModuleMethods.define. destruct (source m); [discriminate|].
  destruct (lib.stringLike src) as [s| |]; try discriminate.
  intros H; injection H as <-. eauto.
Qed.

Lemma consistent_add nm src c :
  wf c -> consistent c -> consistent (fst (add nm src c)).
Proof.
  intros W C. destruct (wf_get nm true c W) as (W1 & _).
  pose proof (consistent_get nm true c W C) as C1.
  unfold add. destruct (get nm true c) as [t1 [[r| |]|e|]]; simpl in *; auto.
  destruct (own (modules t1) r) as [m|] eqn:Hm; simpl; auto.
  destruct (ModuleMethods.define src m) as [m'|e|] eqn:D; simpl; auto.
  destruct (define_result _ _ _ D) as (_ & s & Hs & ->).
  apply stringLike_trimmed in Hs.
  assert (E : update (modules t1) r (fun _ => ModuleMethods.with_source (Some s) m)
              = update (modules t1) r (ModuleMethods.with_source (Some s))).
  { apply (update_ext_at _ _ _ _ m); auto. apply (wf_keys W1). }
  assert (K : forall c', modules c' = update (modules t1) r
                           (fun _ => ModuleMethods.with_source (Some s) m) ->
                         dependencies c' = dependencies t1 ->
                         numberOfDependencies c' = numberOfDependencies t1 ->
                         consistent c').
  { intros c' Em Ed En. rewrite E in Em.
    apply (consistent_update t1 c' r _ W1 C1 Em Ed En).
    intros m0. repeat split; auto. simpl. intros s0 Es. injection Es as <-. now right. }
  destruct (js_get _ _); simpl.
  - now apply K.
  - destruct (String.eqb _ _); simpl; now apply K.
  - now apply K.
Qed.

Lemma require_result this r h h' :
  require this (VModule r) h = (h', Return tt) ->
  exists m q,
    own h this = Some m /\ own h r = Some q /\ name m <> name q /\
    js_get (requires m) (name q) = Missing /\
    js_get (dependants q) (name m) = Missing /\
    h' = update (update h this (ModuleMethods.add_requirement (name q) r))
           r (ModuleMethods.add_dependant (name m) this).
Proof.
  unfold require. destruct (own h this) as [m|]; [|discriminate].
  destruct (own h r) as [q|]; [|discriminate].
  destruct (String.eqb_spec (name m) (name q)); [discriminate|].
  destruct (js_get (requires m) (name q)) eqn:G1; simpl; try discriminate.
  destruct (js_get (dependants q) (name m)) eqn:G2; simpl; try discriminate.
  intros H; injection H as <-. exists m, q. auto 10.
Qed.

(** A [require] that throws changes nothing. *)
Lemma require_throw ra v h :
  snd (require ra v h) <> Return tt -> fst (require ra v h) = h.
Proof.
  unfold require. destruct (own h ra) as [m|]; [|reflexivity].
  destruct v as [rb|b|]; try reflexivity.
  - destruct (own h rb) as [q|]; [|reflexivity].
    destruct (String.eqb _ _); [reflexivity|].
    destruct (_ || _); [reflexivity|]. simpl. intros H. now elim H.
  - destruct (builtin_name b); [destruct (String.eqb _ _); [reflexivity|]|];
      destruct (truthy _); reflexivity.
Qed.

Lemma NoDup_snoc {A} (l : list A) x : NoDup l -> ~ In x l -> NoDup (l ++ [x]).
Proof.
  intros ND Hn. apply NoDup_app; [assumption|constructor; [tauto|constructor]|].
  intros y Hy [<-|[]]. contradiction.
Qed.

(** The collection after the edge from [ra] to [rb] has been stored. *)
Lemma consistent_edge c ra rb m q :
  wf c -> consistent c ->
  own (modules c) ra = Some m -> own (modules c) rb = Some q -> ra <> rb ->
  js_get (requires m) rb = Missing -> js_get (dependants q) ra = Missing ->
  forall c',
    modules c' = update (update (modules c) ra (ModuleMethods.add_requirement rb rb))
                   rb (ModuleMethods.add_dependant ra ra) ->
    dependencies c' = dependencies c ++ [{| dep_module := ra; dep_require := rb |}] ->
    numberOfDependencies c' = S (numberOfDependencies c) ->
    consistent c'.
Proof.
  intros W [C1 C2 C3 C4 C5 C6 C7 C8 C9] Hm Hq Hne G1 G2 c' M D N.
  apply js_get_missing in G1, G2. destruct G1 as (O1 & I1), G2 as (O2 & I2).
  apply inherited_not_proto in I1, I2.
  set (d := {| dep_module := ra; dep_require := rb |}) in *.
  assert (Hown : forall k,
            own (modules c') k =
            if String.eqb k rb then Some (ModuleMethods.add_dependant ra ra q)
            else if String.eqb k ra then Some (ModuleMethods.add_requirement rb rb m)
            else own (modules c) k).
  { intros k. rewrite M, !own_update.
    destruct (String.eqb_spec k rb) as [->|].
    - destruct (String.eqb_spec rb ra); [congruence|]. now rewrite Hq.
    - destruct (String.eqb_spec k ra) as [->|]; [now rewrite Hm|reflexivity]. }
  destruct (C4 ra m Hm) as (R1 & R2). destruct (C5 rb q Hq) as (D1 & D2).
  constructor.
  - rewrite N, D, length_app. simpl. lia.
  - rewrite M, !keys_update. intros d' Hd'. rewrite D in Hd'.
    apply in_app_iff in Hd'. destruct Hd' as [Hd'|[<-|[]]]; [auto|].
    simpl. repeat split; auto; eapply own_In_keys; eassumption.
  - rewrite D. apply NoDup_snoc; [assumption|].
    intros Hin. apply requires_of_own in Hin; [|assumption].
    simpl in Hin. congruence.
  - intros k m'. rewrite Hown, D, requires_of_app. simpl.
    destruct (String.eqb_spec k rb) as [->|Hk].
    + intros E; injection E as <-. simpl.
      destruct (String.eqb_spec ra rb); [contradiction|]. now apply C4.
    + destruct (String.eqb_spec k ra) as [->|Hk'].
      * intros E; injection E as <-. simpl. rewrite String.eqb_refl.
        split; [now rewrite R1|].
        rewrite length_js_set_fresh by assumption. now rewrite R2.
      * destruct (String.eqb_spec ra k); [congruence|]. apply C4.
  - intros k m'. rewrite Hown, D, dependants_of_app. simpl.
    destruct (String.eqb_spec k rb) as [->|Hk].
    + intros E; injection E as <-. simpl. rewrite String.eqb_refl.
      split; [now rewrite D1|].
      rewrite length_js_set_fresh by assumption. now rewrite D2.
    + destruct (String.eqb_spec rb k); [congruence|].
      destruct (String.eqb_spec k ra) as [->|Hk'].
      * intros E; injection E as <-. simpl. now apply C5.
      * apply C5.
  - rewrite N, M.
    assert (S1 : own (update (modules c) ra (ModuleMethods.add_requirement rb rb)) rb
                 = Some q) by (now rewrite own_update_other by congruence).
    pose proof (list_sum_update numberOfRequirements
                  (ModuleMethods.add_dependant ra ra) rb _ q
                  ltac:(rewrite keys_update; apply (wf_keys W)) S1) as P1.
    pose proof (list_sum_update numberOfRequirements
                  (ModuleMethods.add_requirement rb rb) ra _ m (wf_keys W) Hm) as P2.
    simpl in P1, P2. lia.
  - rewrite N, M.
    assert (S1 : own (update (modules c) ra (ModuleMethods.add_requirement rb rb)) rb
                 = Some q) by (now rewrite own_update_other by congruence).
    pose proof (list_sum_update numberOfDependants
                  (ModuleMethods.add_dependant ra ra) rb _ q
                  ltac:(rewrite keys_update; apply (wf_keys W)) S1) as P1.
    pose proof (list_sum_update numberOfDependants
                  (ModuleMethods.add_requirement rb rb) ra _ m (wf_keys W) Hm) as P2.
    simpl in P1, P2. lia.
  - intros k m' s. rewrite Hown.
    destruct (String.eqb_spec k rb) as [->|Hk].
    + intros E; injection E as <-. simpl. now apply (C8 rb q).
    + destruct (String.eqb_spec k ra) as [->|Hk'].
      * intros E; injection E as <-. simpl. now apply (C8 ra m).
      * apply C8.
  - now rewrite M, !keys_update.
Qed.

Lemma consistent_connect a b c :
  wf c -> consistent c -> consistent (fst (connect a b c)).
Proof.
  intros W C. destruct (wf_get a true c W) as (W1 & _).
  pose proof (consistent_get a true c W C) as C1.
  unfold connect. destruct (get a true c) as [t1 [v1|e|]]; simpl in *; auto.
  destruct (wf_get b true t1 W1) as (W2 & _).
  pose proof (consistent_get b true t1 W1 C1) as C2.
  destruct (get b true t1) as [t2 [v2|e|]]; simpl in *; auto.
  assert (Same : forall h, h = modules t2 -> consistent (with_modules h t2)).
  { intros h ->. apply (consistent_ext t2 _ W2 C2); auto.
    intros k m' Hm'. exists m'. simpl in Hm'. repeat split; auto. }
  unfold Dependency_new.
  destruct v1 as [ra| |]; simpl; try (now apply Same).
  pose proof (require_throw ra v2 (modules t2)) as T.
  destruct (require ra v2 (modules t2)) as [h [[]|e|]] eqn:R; simpl in *;
    try (apply Same, T; discriminate).
  destruct v2 as [rb| |]; simpl; try (apply Same, T; discriminate).
  - apply require_result in R.
    destruct R as (m & q & Hm & Hq & Hne & G1 & G2 & ->).
    pose proof (wf_name W2 ra Hm) as Na. pose proof (wf_name W2 rb Hq) as Nb.
    rewrite Na, Nb in *.
    apply (consistent_edge t2 ra rb m q W2 C2 Hm Hq Hne G1 G2); reflexivity.
  - unfold require in R. destruct (own (modules t2) ra); [|discriminate].
    destruct (builtin_name b0); [destruct (String.eqb _ _); [discriminate|]|];
      destruct (truthy _); discriminate.
  - unfold require in R. destruct (own (modules t2) ra); discriminate.
Qed.

Lemma addExport_same_graph meta m :
  same_graph m (ModuleMethods.addExport meta m) \/
  exists e, ModuleMethods.addExport meta m = ModuleMethods.with_exports e m.
Proof.
  unfold ModuleMethods.addExport. destruct (existsb _ _); [left|right; eauto].
  repeat split.
Qed.

(** Every collection a program can hold keeps its counters, its sequence of
    dependencies and its adjacency dictionaries in agreement. *)
Lemma reached_consistent c : reached c -> consistent c.
Proof.
  induction 1 as [|nm anyway c R C|nm src c R C|a b c R C|k meta c R C|c R C].
  - apply consistent_empty.
  - apply consistent_get; [apply (reached_wf c R)|assumption].
  - apply consistent_add; [apply (reached_wf c R)|assumption].
  - apply consistent_connect; [apply (reached_wf c R)|assumption].
  - apply (consistent_update c _ k (ModuleMethods.addExport meta));
      [apply (reached_wf c R)|assumption|reflexivity..|].
    intros m. unfold ModuleMethods.addExport.
    destruct (existsb _ _); repeat split; auto.
  - destruct (serialize_frame c) as (F & _).
    apply (consistent_frame c _ (proj1 (reached_wf c R)) C F).
    + unfold serialize. destruct (for_each _ _ _) as [st [[]|e|]]; reflexivity.
    + unfold serialize. destruct (for_each _ _ _) as [st [[]|e|]]; reflexivity.
Qed.

Lemma In_insert_index {V} n k (v : V) e : forall o,
  In e (insert_index n k v o) <-> e = (k, v) \/ In e o.
Proof.
  induction o as [|[k0 v0] o IH]; simpl.
  - intuition.
  - destruct (array_index k0) as [n'|]; [destruct (n' <? n)%N|]; simpl;
      rewrite ?IH; intuition.
Qed.

Lemma In_js_set {V} (o : jsobj V) k v e :
  In e (js_set k v o) -> e = (k, v) \/ In e o.
Proof.
  unfold js_set. destruct (own o k) as [old|].
  - unfold update. intros H. apply in_map_iff in H.
    destruct H as ([k0 v0] & <- & Hin). simpl.
    destruct (String.eqb_spec k0 k) as [->|]; auto.
  - destruct (String.eqb k "__proto__"); [auto|].
    destruct (array_index k).
    + apply In_insert_index.
    + intros H. apply in_app_iff in H. destruct H as [H|[<-|[]]]; auto.
Qed.

(** The adjacency dictionaries are keyed by the module they hold. *)
Lemma requires_of_keyed ds k e : In e (requires_of ds k) -> fst e = snd e.
Proof.
  induction ds as [|d ds IH] using rev_ind; [intros []|].
  rewrite requires_of_app. destruct (String.eqb _ _); [|exact IH].
  intros H. apply In_js_set in H. destruct H as [->|H]; auto.
Qed.

Lemma dependants_of_keyed ds k e : In e (dependants_of ds k) -> fst e = snd e.
Proof.
  induction ds as [|d ds IH] using rev_ind; [intros []|].
  rewrite dependants_of_app. destruct (String.eqb _ _); [|exact IH].
  intros H. apply In_js_set in H. destruct H as [->|H]; auto.
Qed.

Lemma keyed_values {V} (o : jsobj V) :
  forall (g : V -> string), (forall e, In e o -> fst e = g (snd e)) ->
  map g (values o) = keys o.
Proof.
  intros g H. unfold values, keys. rewrite map_map. apply map_ext_in.
  intros e He. symmetry. now apply H.
Qed.

Lemma requires_of_values ds k : values (requires_of ds k) = keys (requires_of ds k).
Proof.
  rewrite <- (map_id (values _)). apply keyed_values. apply requires_of_keyed.
Qed.

Lemma dependants_of_values ds k :
  values (dependants_of ds k) = keys (dependants_of ds k).
Proof.
  rewrite <- (map_id (values _)). apply keyed_values. apply dependants_of_keyed.
Qed.

Lemma consistent_edges c :
  wf c -> consistent c ->
  forall a b, In {| dep_module := a; dep_require := b |} (dependencies c)
              <-> edge (modules c) a b.
Proof.
  intros W C a b. unfold edge, reqs, field. split.
  - intros Hin. destruct (cs_ends C _ Hin) as (Ha & Hb & _). simpl in *.
    apply In_keys_own in Ha. destruct Ha as (m & Hm). rewrite Hm.
    destruct (cs_requires C a m Hm) as (-> & _).
    rewrite requires_of_values.
    apply requires_of_own in Hin; [eapply own_In_keys; eassumption|].
    simpl. apply inherited_not_proto. now apply (wf_key W).
  - destruct (own (modules c) a) as [m|] eqn:Hm; [|intros []].
    destruct (cs_requires C a m Hm) as (-> & _).
    rewrite requires_of_values. intros H. apply requires_of_keys in H.
    destruct H as ([a' b'] & Hin & Ea & Eb). simpl in *. now subst.
Qed.

(** ** [get] and [add], for every value that converts to a usable name *)

Lemma get_anyway_val nm n this :
  lib.stringLike nm = Return n -> n <> "" -> inherited n = None ->
  exists this',
    get nm true this = (this', Return (VModule n)) /\
    (match own (modules this) n with
     | Some _ => this' = this
     | None =>
         this' = with_modules
                   (js_set n (fresh_module n) (modules this))
                   (with_numberOfModules (S (numberOfModules this)) this)
     end) /\
    (exists m, own (modules this') n = Some m).
Proof.
  intros Hs Hn Hi. unfold get. rewrite Hs.
  unfold js_get. destruct (own (modules this) n) eqn:E.
  - eexists; split; [reflexivity|]. split; [reflexivity|]. eauto.
  - rewrite Hi. rewrite new_trimmed by (eauto using stringLike_trimmed).
    eexists; split; [reflexivity|]. split; [reflexivity|].
    simpl. rewrite own_js_set_same by now apply inherited_not_proto.
    eauto.
Qed.

(** [connect] between two usable, distinct names that are not connected
    yet. *)
Lemma connect_fresh c a b ra rb :
  wf c -> consistent c ->
  lib.stringLike a = Return ra -> lib.stringLike b = Return rb ->
  ra <> "" -> rb <> "" -> inherited ra = None -> inherited rb = None ->
  ra <> rb ->
  ~ In {| dep_module := ra; dep_require := rb |} (dependencies c) ->
  exists c',
    connect a b c = (c', Return {| dep_module := ra; dep_require := rb |}) /\
    dependencies c' =
      dependencies c ++ [{| dep_module := ra; dep_require := rb |}] /\
    numberOfDependencies c' = S (numberOfDependencies c) /\
    sources c' = sources c /\
    (In ra (keys (modules c)) -> In rb (keys (modules c)) ->
     keys (modules c') = keys (modules c) /\
     numberOfModules c' = numberOfModules c).
Proof.
  intros W C Sa Sb Na Nb Ia Ib Hne Hnew.
  destruct (get_anyway_val a ra c Sa Na Ia) as (t1 & Ga & Ea & ma & Hma).
  destruct (wf_get a true c W) as (W1 & _).
  pose proof (consistent_get a true c W C) as C1.
  rewrite Ga in W1, C1. simpl in W1, C1.
  destruct (get_anyway_val b rb t1 Sb Nb Ib) as (t2 & Gb & Eb & q & Hq).
  destruct (wf_get b true t1 W1) as (W2 & _).
  pose proof (consistent_get b true t1 W1 C1) as C2.
  rewrite Gb in W2, C2. simpl in W2, C2.
  destruct (get_anyway_frame _ _ _ _ Ga) as (Fa1 & Fa2 & Fa3).
  destruct (get_anyway_frame _ _ _ _ Gb) as (Fb1 & Fb2 & Fb3).
  assert (Hm : exists m, own (modules t2) ra = Some m).
  { destruct (own (modules t2) ra) eqn:E; eauto.
    now rewrite (get_keeps_keys _ _ _ _ _ Gb E) in Hma. }
  destruct Hm as (m & Hm).
  pose proof (wf_name W2 ra Hm) as Nm. pose proof (wf_name W2 rb Hq) as Nq.
  assert (G1 : js_get (requires m) rb = Missing).
  { unfold js_get. rewrite Ib.
    destruct (own (requires m) rb) eqn:O; [|reflexivity].
    exfalso. apply Hnew. apply own_In_keys in O.
    destruct (cs_requires C2 ra m Hm) as (R & _). rewrite R in O.
    apply requires_of_keys in O. destruct O as ([a' b'] & Hin & Ea' & Eb').
    simpl in *. subst. now rewrite <- Fa1, <- Fb1. }
  assert (G2 : js_get (dependants q) ra = Missing).
  { unfold js_get. rewrite Ia.
    destruct (own (dependants q) ra) eqn:O; [|reflexivity].
    exfalso. apply Hnew. apply own_In_keys in O.
    destruct (cs_dependants C2 rb q Hq) as (R & _). rewrite R in O.
    apply dependants_of_keys in O. destruct O as ([a' b'] & Hin & Ea' & Eb').
    simpl in *. subst. now rewrite <- Fa1, <- Fb1. }
  unfold connect. rewrite Ga, Gb. unfold Dependency_new, require.
  rewrite Hm, Hq, Nm, Nq.
  destruct (String.eqb_spec ra rb); [contradiction|].
  rewrite G1, G2. simpl.
  eexists. split; [reflexivity|]. simpl.
  rewrite Fb1, Fb2, Fb3, Fa1, Fa2, Fa3. repeat split; auto.
  - rewrite !keys_update.
    apply In_keys_own in H. destruct H as (x & Hx). rewrite Hx in Ea. subst t1.
    apply In_keys_own in H0. destruct H0 as (y & Hy). rewrite Hy in Eb. now subst t2.
  - apply In_keys_own in H. destruct H as (x & Hx). rewrite Hx in Ea. subst t1.
    apply In_keys_own in H0. destruct H0 as (y & Hy). rewrite Hy in Eb. now subst t2.
Qed.

(** [add] of a module that is not in the collection yet. *)
Lemma add_new nm src c k s :
  lib.stringLike nm = Return k -> k <> "" -> inherited k = None ->
  own (modules c) k = None ->
  lib.stringLike src = Return s -> s <> "__proto__" ->
  exists c',
    add nm src c = (c', Return k) /\
    modules c' =
      update (js_set k (fresh_module k) (modules c)) k
        (fun _ => ModuleMethods.with_source (Some s) (fresh_module k)) /\
    numberOfModules c' = S (numberOfModules c) /\
    dependencies c' = dependencies c /\
    numberOfDependencies c' = numberOfDependencies c.
Proof.
  intros Hk Hn Hi Ho Hs Hp.
  destruct (get_anyway_val nm k c Hk Hn Hi) as (t1 & G & E & _).
  rewrite Ho in E. subst t1. unfold add. rewrite G. simpl modules.
  rewrite own_js_set_same by now apply inherited_not_proto.
  unfold ModuleMethods.define. simpl source at 1. rewrite Hs.
  simpl source_key.
  destruct (js_get _ s) eqn:J.
  - eexists. split; [reflexivity|]. simpl. auto.
  - destruct (String.eqb_spec s "__proto__"); [contradiction|].
    eexists. split; [reflexivity|]. simpl. auto.
  - eexists. split; [reflexivity|]. simpl. auto.
Qed.

Lemma update_app_last {V} (o : jsobj V) k v (f : V -> V) :
  ~ In k (keys o) -> update (o ++ [(k, v)]) k f = o ++ [(k, f v)].
Proof.
  intros Hn. unfold update. rewrite map_app. simpl. rewrite String.eqb_refl.
  f_equal. rewrite <- (map_id o) at 2. apply map_ext_in.
  intros [k0 v0] Hin. simpl. destruct (String.eqb_spec k0 k) as [->|]; [|reflexivity].
  exfalso. apply Hn. change (In (fst (k, v0)) (map fst o)). now apply in_map.
Qed.

(** ** [clone] of a collection whose modules all have a source *)

Lemma keys_replica o : keys (map replica o) = keys o.
Proof. unfold keys. rewrite map_map. now apply map_ext. Qed.

Lemma stringLike_module m :
  lib.stringLike (JModule m) = Return (trim (name m)).
Proof. reflexivity. Qed.

Lemma clone_module_replica k m s :
  name m = k -> k <> "" -> trim k = k ->
  source m = Some s -> s <> "" -> trim s = s ->
  ModuleMethods.clone m
  = Return (ModuleMethods.with_source (Some s) (fresh_module k)).
Proof.
  intros Nm Hk Tk Hs Hs' Ts. unfold ModuleMethods.clone, ModuleMethods.new.
  rewrite Nm. rewrite stringLike_name by congruence. rewrite Tk.
  destruct (String.eqb_spec k ""); [contradiction|].
  unfold ModuleMethods.source_val. rewrite Hs. simpl js_truthy.
  destruct (String.eqb_spec s ""); [contradiction|]. simpl.
  unfold ModuleMethods.define. simpl source.
  rewrite stringLike_name by congruence. now rewrite Ts.
Qed.

Section CloneModules.
Variable this : ModuleCollection.
Hypothesis W : wf this.
Hypothesis C : consistent this.
Hypothesis U : forall k m, own (modules this) k = Some m -> usable_source m.

Lemma clone_modules rest : forall done c0,
  modules this = done ++ rest ->
  modules c0 = map replica done ->
  numberOfModules c0 = length done ->
  dependencies c0 = [] -> numberOfDependencies c0 = 0 ->
  exists c1,
    for_each (clone_module this) (keys rest) c0 = (c1, Return tt) /\
    modules c1 = map replica (modules this) /\
    numberOfModules c1 = length (modules this) /\
    dependencies c1 = [] /\ numberOfDependencies c1 = 0.
Proof.
  induction rest as [|[k m] rest IH]; intros done c0 E M N D ND.
  - rewrite app_nil_r in E. subst done. exists c0. simpl. auto.
  - assert (Hin : In (k, m) (modules this))
      by (rewrite E; apply in_app_iff; right; now left).
    pose proof (In_own _ _ _ _ (wf_keys W) Hin) as Hm.
    pose proof (wf_name W k Hm) as Nm.
    destruct (wf_key W k (own_In_keys _ _ _ _ Hm)) as (Hk & Tk & Ik).
    destruct (U k m Hm) as (s & Hs & Hs' & Hp).
    pose proof (cs_sources C k m s Hm Hs) as Ts.
    assert (ND' : NoDup (keys done ++ k :: keys rest)).
    { pose proof (wf_keys W) as K. rewrite E in K. unfold keys in *.
      now rewrite map_app in K. }
    assert (Hnk : ~ In k (keys done)).
    { apply NoDup_remove_2 in ND'. intros H. apply ND', in_app_iff. now left. }
    assert (Ord : ordered (keys (map replica done) ++ [k])).
    { rewrite keys_replica. pose proof (cs_order C) as O. rewrite E in O.
      unfold keys in O. rewrite map_app in O. simpl in O.
      apply (ordered_app_l _ (map fst rest)). now rewrite <- app_assoc. }
    simpl. unfold clone_module at 1. rewrite Hm.
    rewrite (clone_module_replica k m s Nm Hk Tk Hs Hs' Ts).
    unfold ModuleMethods.source_val. rewrite Hs.
    destruct (add_new (JModule (ModuleMethods.with_source (Some s) (fresh_module k)))
                (JString s) c0 k s) as (c' & A & M' & N' & D' & ND'');
      auto.
    { simpl. now rewrite Tk. }
    { rewrite M. apply own_None. now rewrite keys_replica. }
    { rewrite <- Ts at 2. apply stringLike_name. congruence. }
    rewrite A.
    apply (IH (done ++ [(k, m)]) c').
    + now rewrite <- app_assoc.
    + rewrite M', M.
      rewrite js_set_last; [|assumption|now rewrite keys_replica
                            |now apply inherited_not_proto].
      rewrite update_app_last by now rewrite keys_replica.
      rewrite map_app. simpl. unfold replica at 3. simpl. now rewrite Hs.
    + rewrite N', N, length_app. simpl. lia.
    + congruence.
    + congruence.
Qed.

End CloneModules.

Lemma clone_loops this :
  clone this =
  match for_each (clone_module this) (keys (modules this)) empty with
  | (c, Return _) =>
      match for_each (clone_edge this) (dependencies this) c with
      | (c', Return _) => Return c'
      | (_, Throw e) => Throw e
      | (_, Stuck) => Stuck
      end
  | (_, Throw e) => Throw e
  | (_, Stuck) => Stuck
  end.
Proof. reflexivity. Qed.

(** *** Fresh modules stay without export tags and traversal fields *)

Lemma pristine_update h k f :
  (forall m, pristine m -> pristine (f m)) ->
  all_pristine h -> all_pristine (update h k f).
Proof.
  intros Hf P x m. rewrite own_update.
  destruct (String.eqb x k); [|apply P].
  destruct (own h x) as [m0|] eqn:E; simpl; [|discriminate].
  intros H; injection H as <-. apply Hf. now apply (P x).
Qed.

Lemma pristine_get nm anyway c :
  all_pristine (modules c) -> all_pristine (modules (fst (get nm anyway c))).
Proof.
  intros P. unfold get. destruct (lib.stringLike nm) as [n| |]; simpl; auto.
  destruct (js_get (modules c) n) eqn:G; simpl; auto.
  destruct anyway; simpl; auto.
  apply js_get_missing in G. destruct G as (Ho & Hi).
  unfold ModuleMethods.new. destruct (lib.stringLike (JString n)) as [n'| |]; simpl; auto.
  destruct (String.eqb n' ""); simpl; auto.
  intros x m. destruct (String.eqb_spec x n) as [->|Hx].
  - rewrite own_js_set_same by now apply inherited_not_proto.
    intros H; injection H as <-. repeat split.
  - rewrite own_js_set_other by assumption. apply P.
Qed.

Lemma pristine_add nm src c :
  all_pristine (modules c) -> all_pristine (modules (fst (add nm src c))).
Proof.
  intros P. pose proof (pristine_get nm true c P) as P1. unfold add.
  destruct (get nm true c) as [t1 [[r| |]|e|]]; simpl in *; auto.
  destruct (own (modules t1) r) as [m|] eqn:Hm; simpl; auto.
  destruct (ModuleMethods.define src m) as [m'|e|] eqn:D; simpl; auto.
  destruct (define_result _ _ _ D) as (_ & s & _ & ->).
  assert (P2 : all_pristine (update (modules t1) r
                               (fun _ => ModuleMethods.with_source (Some s) m))).
  { apply pristine_update; [|assumption]. intros _ _. exact (P1 r m Hm). }
  destruct (js_get _ _); simpl; auto.
  destruct (String.eqb _ _); simpl; auto.
Qed.

Lemma pristine_connect a b c :
  all_pristine (modules c) -> all_pristine (modules (fst (connect a b c))).
Proof.
  intros P. pose proof (pristine_get a true c P) as P1. unfold connect.
  destruct (get a true c) as [t1 [v1|e|]]; simpl in *; auto.
  pose proof (pristine_get b true t1 P1) as P2.
  destruct (get b true t1) as [t2 [v2|e|]]; simpl in *; auto.
  unfold Dependency_new. destruct v1 as [ra| |]; simpl; auto.
  pose proof (require_throw ra v2 (modules t2)) as T.
  destruct (require ra v2 (modules t2)) as [h [[]|e|]] eqn:R; simpl in *;
    try (rewrite T by discriminate; assumption).
  destruct v2 as [rb| |]; simpl; try (rewrite T by discriminate; assumption).
  - apply require_result in R.
    destruct R as (m & q & _ & _ & _ & _ & _ & ->).
    apply pristine_update; [intros x Hx; exact Hx|].
    apply pristine_update; [intros x Hx; exact Hx|assumption].
  - unfold require in R. destruct (own (modules t2) ra); [|discriminate].
    destruct (builtin_name b0); [destruct (String.eqb _ _); [discriminate|]|];
      destruct (truthy _); discriminate.
  - unfold require in R. destruct (own (modules t2) ra); discriminate.
Qed.

Section CloneEdges.
Variable this : ModuleCollection.
Hypothesis W : wf this.
Hypothesis C : consistent this.

Lemma clone_edges rest : forall done c0,
  dependencies this = done ++ rest ->
  built c0 ->
  keys (modules c0) = keys (modules this) ->
  dependencies c0 = done ->
  (forall k m0, own (modules c0) k = Some m0 ->
     field source None (modules this) k = source m0) ->
  all_pristine (modules c0) ->
  exists c1,
    for_each (clone_edge this) rest c0 = (c1, Return tt) /\
    built c1 /\
    keys (modules c1) = keys (modules this) /\
    dependencies c1 = dependencies this /\
    numberOfModules c1 = numberOfModules c0 /\
    (forall k m1, own (modules c1) k = Some m1 ->
       field source None (modules this) k = source m1) /\
    all_pristine (modules c1).
Proof.
  induction rest as [|[a b] rest IH]; intros done c0 E B K D S P.
  - rewrite app_nil_r in E. exists c0. simpl.
    split; [reflexivity|]. split; [assumption|]. split; [assumption|].
    split; [congruence|]. split; [reflexivity|]. split; assumption.
  - set (d := {| dep_module := a; dep_require := b |}) in *.
    assert (Hd : In d (dependencies this))
      by (rewrite E; apply in_app_iff; right; now left).
    destruct (cs_ends C d Hd) as (Ha & Hb & Hab). simpl in Ha, Hb, Hab.
    destruct (In_keys_own _ _ _ Ha) as (m & Hm).
    destruct (In_keys_own _ _ _ Hb) as (q & Hq).
    destruct (wf_key W a Ha) as (Na & Ta & Ia).
    destruct (wf_key W b Hb) as (Nb & Tb & Ib).
    pose proof (wf_name W a Hm) as Nm. pose proof (wf_name W b Hq) as Nq.
    destruct (built_wf c0 B) as (W0 & _).
    pose proof (reached_consistent c0 (built_reached c0 B)) as C0.
    assert (Hnew : ~ In d (dependencies c0)).
    { rewrite D. pose proof (cs_nodup C) as ND. rewrite E in ND.
      apply NoDup_remove_2 in ND. intros H. apply ND, in_app_iff. now left. }
    destruct (connect_fresh c0 (JModule m) (JModule q) a b W0 C0)
      as (c' & Cn & D' & _ & _ & K'); auto.
    { simpl. now rewrite Nm, Ta. }
    { simpl. now rewrite Nq, Tb. }
    assert (Ha0 : In a (keys (modules c0))) by now rewrite K.
    assert (Hb0 : In b (keys (modules c0))) by now rewrite K.
    destruct (K' Ha0 Hb0) as (K'' & N'). clear K'.
    simpl. unfold clone_edge at 1. simpl dep_module. simpl dep_require.
    rewrite Hm, Hq, Cn.
    destruct (IH (done ++ [d]) c') as (c1 & F & B1 & K1 & D1 & N1 & S1 & P1).
    + now rewrite <- app_assoc.
    + replace c' with (fst (connect (JModule m) (JModule q) c0)) by now rewrite Cn.
      now apply built_connect.
    + congruence.
    + now rewrite D', D.
    + intros k m1 H1. destruct (connect_source_kept _ _ _ _ _ Cn) as (SK & _).
      specialize (SK k m1 H1).
      destruct (own (modules c0) k) as [m0|] eqn:H0.
      * rewrite SK. now apply S.
      * exfalso. apply own_None in H0. apply H0. rewrite <- K''.
        eapply own_In_keys; eassumption.
    + replace c' with (fst (connect (JModule m) (JModule q) c0)) by now rewrite Cn.
      now apply pristine_connect.
    + exists c1. split; [assumption|]. split; [assumption|].
      split; [assumption|]. split; [assumption|]. split; [congruence|].
      split; assumption.
Qed.

End CloneEdges.

Lemma jsobj_pointwise {V} (f : V -> V) : forall (o o' : jsobj V),
  keys o' = keys o -> NoDup (keys o) ->
  (forall k v v', own o k = Some v -> own o' k = Some v' -> v' = f v) ->
  o' = on_values f o.
Proof.
  induction o as [|[k v] o IH]; intros [|[k' v'] o'] K ND H; try discriminate;
    [reflexivity|].
  simpl in K. injection K as -> K. inversion ND as [|? ? Hn ND']; subst.
  simpl. f_equal.
  - f_equal. apply (H k); simpl; now rewrite String.eqb_refl.
  - apply IH; auto. intros x y y' Hy Hy'.
    assert (x <> k).
    { intros ->. apply Hn. eapply own_In_keys; eassumption. }
    apply (H x); simpl; destruct (String.eqb_spec k x); congruence.
Qed.

(** [clone()] of a collection in which every module has a usable source. *)
Lemma clone_wf (c : ModuleCollection) :
  reached c ->
  (forall k m, own (modules c) k = Some m -> usable_source m) ->
  exists c',
    clone c = Return c' /\
    modules c' = on_values forget (modules c) /\
    dependencies c' = dependencies c /\
    numberOfDependencies c' = length (dependencies c) /\
    numberOfModules c' = length (modules c).
Proof.
  intros R U. destruct (reached_wf c R) as (W & _).
  pose proof (reached_consistent c R) as C.
  destruct (clone_modules c W C U (modules c) [] empty)
    as (c1 & L1 & M1 & N1 & D1 & ND1); try reflexivity.
  assert (B1 : built c1).
  { replace c1 with (fst (for_each (clone_module c) (keys (modules c)) empty))
      by now rewrite L1.
    apply for_each_pred; [|apply built_new].
    intros x s Bs. unfold clone_module.
    destruct (own (modules c) x) as [m|]; simpl; [|assumption].
    destruct (ModuleMethods.clone m) as [m'|e|]; simpl; try assumption.
    pose proof (built_add (JModule m') (ModuleMethods.source_val m) Bs) as Ba.
    destruct (add (JModule m') (ModuleMethods.source_val m) s) as [s' [r|e|]];
      simpl in *; assumption. }
  assert (O1 : forall k, own (modules c1) k
                 = option_map (fun m => ModuleMethods.with_source (source m)
                                          (fresh_module k)) (own (modules c) k)).
  { intros k. rewrite M1. clear. induction (modules c) as [|[k0 m0] o IH]; simpl;
      [reflexivity|].
    destruct (String.eqb_spec k0 k) as [->|]; [reflexivity|exact IH]. }
  destruct (clone_edges c W C (dependencies c) [] c1)
    as (c2 & L2 & B2 & K2 & D2 & N2 & S2 & P2); auto.
  - now rewrite M1, keys_replica.
  - intros k m0. rewrite O1. unfold field.
    destruct (own (modules c) k); [|discriminate].
    simpl. intros H; now injection H as <-.
  - intros k m0. rewrite O1.
    destruct (own (modules c) k); [|discriminate].
    simpl. intros H; injection H as <-. repeat split.
  - exists c2. rewrite clone_loops, L1, L2. split; [reflexivity|].
    destruct (built_wf c2 B2) as (W2 & _).
    pose proof (reached_consistent c2 (built_reached c2 B2)) as C2.
    repeat split; auto.
    + apply jsobj_pointwise; auto; [apply (wf_keys W)|].
      intros k m m' Hm Hm'.
      pose proof (wf_name W k Hm) as Nm. pose proof (wf_name W2 k Hm') as Nm'.
      destruct (cs_requires C k m Hm) as (R1 & R2).
      destruct (cs_requires C2 k m' Hm') as (R1' & R2').
      destruct (cs_dependants C k m Hm) as (E1 & E2).
      destruct (cs_dependants C2 k m' Hm') as (E1' & E2').
      pose proof (S2 k m' Hm') as Sm. unfold field in Sm. rewrite Hm in Sm.
      destruct (P2 k m' Hm') as (Pe & Pt & Ps & Pi & Px).
      rewrite D2 in *.
      destruct m, m'; unfold forget; simpl in *. f_equal; congruence.
    + rewrite (cs_count C2). now rewrite D2.
    + congruence.
Qed.

(** ** Names *)

Lemma stringLike_trim a :
  trim a <> "" -> lib.stringLike (JString a) = lib.stringLike (JString (trim a)).
Proof.
  intros H. rewrite (stringLike_name a H).
  rewrite stringLike_name by (now rewrite trim_idem). now rewrite trim_idem.
Qed.

Lemma get_stringLike nm nm' anyway this :
  lib.stringLike nm = lib.stringLike nm' -> get nm anyway this = get nm' anyway this.
Proof. intros E. unfold get. now rewrite E. Qed.

Lemma stringLike_throws nm e : lib.stringLike nm = Throw e -> e = TypeError.
Proof.
  destruct nm as [|s|m]; simpl; try discriminate.
  - intros H; now injection H.
  - destruct s; [intros H; now injection H|discriminate].
Qed.

Lemma define_throws_string src m e :
  source m = None -> ModuleMethods.define src m = Throw e -> e = TypeError.
Proof.
  unfold ModuleMethods.define. intros ->.
  destruct (lib.stringLike src) eqn:E; try discriminate.
  intros H; injection H as <-. now apply stringLike_throws in E.
Qed.

Lemma get_throws nm anyway this e :
  snd (get nm anyway this) = Throw e -> e = TypeError.
Proof.
  unfold get. destruct (lib.stringLike nm) as [n| |] eqn:E; simpl.
  - destruct (js_get (modules this) n); simpl; try discriminate.
    destruct anyway; simpl; [|discriminate].
    unfold ModuleMethods.new. destruct (lib.stringLike (JString n)) eqn:E'; simpl.
    + destruct (String.eqb _ _); simpl; [intros H; now injection H|discriminate].
    + intros H; injection H as <-. now apply stringLike_throws in E'.
    + discriminate.
  - intros H; injection H as <-. now apply stringLike_throws in E.
  - discriminate.
Qed.

(** ** [serialize] and the graph *)

Lemma marker_frame_same_graph h h' k m' :
  marker_frame h h' -> own h' k = Some m' ->
  exists m, own h k = Some m /\ same_graph m m'.
Proof.
  intros F Hm'.
  assert (E : own (on_values no_flags h') k = own (on_values no_flags h) k)
    by now rewrite F.
  rewrite !own_on_values, Hm' in E.
  destruct (own h k) as [m|]; [|discriminate].
  simpl in E. injection E as En Er Ec Ed Ecd Ee Es.
  exists m. repeat split; auto.
Qed.

Lemma fold_left_ext_in {A B} (f g : A -> B -> A) (l : list B) :
  (forall a b, In b l -> f a b = g a b) ->
  forall a, fold_left f l a = fold_left g l a.
Proof.
  induction l as [|b l IH]; intros H a; simpl; [reflexivity|].
  rewrite H by now left. apply IH. intros a' b' Hb'. apply H. now right.
Qed.

Lemma analyse_frame c c' :
  marker_frame (modules c) (modules c') -> analyse c' = analyse c.
Proof.
  intros F. unfold analyse, analysers. simpl. unfold builtin_analyser.
  rewrite (frame_keys _ _ _ F). apply fold_left_ext_in.
  intros stat prop Hin. apply In_keys_own in Hin. destruct Hin as (m & Hm).
  destruct (own (modules c') prop) as [m'|] eqn:Hm'.
  - destruct (marker_frame_same_graph _ _ _ _ F Hm')
      as (m0 & Hm0 & _ & _ & _ & _ & _ & Ee & Es).
    rewrite Hm in Hm0. injection Hm0 as <-. rewrite Hm.
    unfold ModuleMethods.defined. now rewrite Ee, Es.
  - exfalso. apply own_None in Hm'. apply Hm'. rewrite (frame_keys _ _ _ F).
    eapply own_In_keys; eassumption.
Qed.

Lemma serialize_fields c :
  let c' := fst (serialize c) in
  numberOfModules c' = numberOfModules c /\ sources c' = sources c /\
  dependencies c' = dependencies c /\
  numberOfDependencies c' = numberOfDependencies c.
Proof.
  unfold serialize. destruct (for_each _ _ _) as [st [[]|e|]]; simpl; auto.
Qed.

Lemma usable_sourceb_sound h :
  forallb (fun e => usable_sourceb (snd e)) h = true ->
  forall k m, own h k = Some m -> usable_source m.
Proof.
  intros H k m Hm. apply own_In in Hm. rewrite forallb_forall in H.
  specialize (H _ Hm). simpl in H. unfold usable_sourceb in H.
  destruct (source m) as [s|] eqn:E; [|discriminate].
  apply andb_prop in H. destruct H as [H1 H2].
  exists s. split; [exact E|].
  split; intros ->; discriminate.
Qed.

Lemma reached_defined_pair : reached defined_pair.
Proof. apply reached_connect, reached_add, reached_add, reached_new. Qed.

Lemma reached_tagged_pair : reached tagged_pair.
Proof. apply reached_addExport, reached_defined_pair. Qed.

Lemma clone_pristine c c' :
  clone c = Return c' -> all_pristine (modules c').
Proof.
  rewrite clone_loops.
  assert (P1 : all_pristine
                 (modules (fst (for_each (clone_module c) (keys (modules c)) empty)))).
  { apply (for_each_pred (fun s => all_pristine (modules s))).
    - intros x s Ps. unfold clone_module.
      destruct (own (modules c) x) as [m|]; simpl; [|assumption].
      destruct (ModuleMethods.clone m) as [m'|e|]; simpl; try assumption.
      pose proof (pristine_add (JModule m') (ModuleMethods.source_val m) s Ps) as Pa.
      destruct (add (JModule m') (ModuleMethods.source_val m) s) as [s' [r|e|]];
        simpl in *; assumption.
    - intros k m. discriminate. }
  destruct (for_each (clone_module c) (keys (modules c)) empty) as [c1 [[]|e|]];
    try discriminate.
  simpl in P1.
  assert (P2 : all_pristine
                 (modules (fst (for_each (clone_edge c) (dependencies c) c1)))).
  { apply (for_each_pred (fun s => all_pristine (modules s))); [|assumption].
    intros x s Ps. unfold clone_edge.
    destruct (own (modules c) (dep_module x)) as [m|]; simpl; [|assumption].
    destruct (own (modules c) (dep_require x)) as [q|]; simpl; [|assumption].
    pose proof (pristine_connect (JModule m) (JModule q) s Ps) as Pc.
    destruct (connect (JModule m) (JModule q) s) as [s' [r|e|]];
      simpl in *; assumption. }
  destruct (for_each (clone_edge c) (dependencies c) c1) as [c2 [[]|e|]];
    try discriminate.
  intros H; now injection H as <-.
Qed.

Lemma list_sum_zero l : (forall x, In x l -> x = 0) -> list_sum l = 0.
Proof.
  induction l as [|x l IH]; intros H; simpl; [reflexivity|].
  rewrite (H x) by now left. apply IH. intros y Hy. apply H. now right.
Qed.

(** ** [serialize] does not read what an earlier [serialize] left *)

Ltac norm_solve :=
  intros;
  repeat match goal with m : ModuleObj |- _ => destruct m end;
  unfold normalize, clear_flags, ModuleMethods.with_index,
    ModuleMethods.with_indexing, ModuleMethods.with_sorting,
    ModuleMethods.with_topologicalMarker in *;
  simpl in *;
  repeat match goal with
         | H : context [if ?b then _ else _] |- _ => destruct b
         | |- context [if ?b then _ else _] => destruct b
         end;
  try discriminate; try congruence.

Lemma normalize_indexing m m' :
  normalize m' = normalize m -> indexing m' = indexing m.
Proof. norm_solve. Qed.

Lemma normalize_indexed m m' :
  normalize m' = normalize m -> indexing m = true -> m' = m.
Proof. norm_solve. Qed.

Lemma stale_own h : forall h' k,
  same_but_stale h h' ->
  match own h k, own h' k with
  | Some m, Some m' => normalize m' = normalize m
  | None, None => True
  | _, _ => False
  end.
Proof.
  intros h' k S.
  assert (E : own (on_values normalize h') k = own (on_values normalize h) k)
    by now rewrite S.
  rewrite !own_on_values in E.
  destruct (own h k), (own h' k); simpl in E; try discriminate; auto.
  now injection E.
Qed.

Lemma stale_update : forall h h' k (f : ModuleObj -> ModuleObj),
  (forall m m', normalize m' = normalize m -> normalize (f m') = normalize (f m)) ->
  same_but_stale h h' -> same_but_stale (update h k f) (update h' k f).
Proof.
  unfold same_but_stale.
  induction h as [|[k0 m0] h IH]; intros [|[k0' m0'] h'] k f Hf S;
    try discriminate; [reflexivity|].
  simpl in S. injection S as Ek Em S. subst k0'. simpl.
  rewrite (IH h' k f Hf S).
  destruct (String.eqb k0 k); simpl; f_equal; f_equal; auto.
Qed.

Lemma stale_refl h : same_but_stale h h.
Proof. reflexivity. Qed.

Lemma stale_keys h h' : same_but_stale h h' -> keys h' = keys h.
Proof. apply frame_keys. Qed.

Lemma stale_length h h' : same_but_stale h h' -> length h' = length h.
Proof. apply frame_length. Qed.

(** Two runs of a loop from related states. *)
Lemma for_each_sim {S A} (R : S -> S -> Prop) (f : A -> S -> S * outcome unit) :
  forall l,
  (forall x s s', In x l -> R s s' ->
     R (fst (f x s)) (fst (f x s')) /\ snd (f x s) = snd (f x s')) ->
  forall s s', R s s' ->
    R (fst (for_each f l s)) (fst (for_each f l s')) /\
    snd (for_each f l s) = snd (for_each f l s').
Proof.
  induction l as [|x l IH]; intros Hf s s' Hs; simpl; [auto|].
  destruct (Hf x s s' (or_introl eq_refl) Hs) as (R1 & E1).
  destruct (f x s) as [s1 r1], (f x s') as [s1' r1']. simpl in *. subst r1'.
  destruct r1 as [[]|e|]; simpl; [|auto|auto].
  apply IH; [|assumption]. intros y a a' Hy. apply Hf. now right.
Qed.

Lemma adjacencyIndex_sim fuel i : forall k h h',
  same_but_stale h h' ->
  same_but_stale (fst (collectionAdjacencyIndex fuel i k h))
                 (fst (collectionAdjacencyIndex fuel i k h')) /\
  snd (collectionAdjacencyIndex fuel i k h)
  = snd (collectionAdjacencyIndex fuel i k h').
Proof.
  induction fuel as [|fuel IH]; intros k h h' S; simpl; [auto|].
  pose proof (stale_own h h' k S) as O.
  destruct (own h k) as [m|], (own h' k) as [m'|]; try contradiction; [|auto].
  rewrite (normalize_indexing _ _ O).
  destruct (indexing m) eqn:Im; simpl; [auto|].
  assert (Er : requires m' = requires m) by (revert O; clear; norm_solve).
  assert (Ed : dependants m' = dependants m) by (revert O; clear; norm_solve).
  rewrite Er, Ed.
  set (mark := fun x => ModuleMethods.with_indexing true
                          (ModuleMethods.with_index (Some i) x)).
  assert (S1 : same_but_stale (update h k mark) (update h' k mark)).
  { apply stale_update; [|assumption]. unfold mark. clear. norm_solve. }
  destruct (for_each_sim same_but_stale (collectionAdjacencyIndex fuel i)
              (values (requires m)) (fun x s s' _ => IH x s s')
              _ _ S1) as (S2 & E2).
  destruct (for_each (collectionAdjacencyIndex fuel i) (values (requires m))
              (update h k mark)) as [h2 r2].
  destruct (for_each (collectionAdjacencyIndex fuel i) (values (requires m))
              (update h' k mark)) as [h2' r2'].
  simpl in S2, E2. subst r2'.
  destruct r2 as [[]|e|]; simpl; auto.
  apply (for_each_sim same_but_stale (collectionAdjacencyIndex fuel i)
           (values (dependants m)) (fun x s s' _ => IH x s s')); assumption.
Qed.

Lemma requirements_indexed_frame h h' :
  sort_frame h h' -> requirements_indexed h -> requirements_indexed h'.
Proof.
  intros F C x y. rewrite !(sort_frame_indexed _ _ _ F), (sort_frame_reqs _ _ _ F).
  apply C.
Qed.

Lemma topoSort_sim fuel : forall k h h' s,
  same_but_stale h h' -> requirements_indexed h -> indexed h k = true ->
  same_but_stale (fst (fst (collectionTopoSort fuel k (h, s))))
                 (fst (fst (collectionTopoSort fuel k (h', s)))) /\
  snd (fst (collectionTopoSort fuel k (h, s)))
  = snd (fst (collectionTopoSort fuel k (h', s))) /\
  snd (collectionTopoSort fuel k (h, s)) = snd (collectionTopoSort fuel k (h', s)).
Proof.
  induction fuel as [|fuel IH]; intros k h h' s S C Ik; simpl; [auto|].
  pose proof (stale_own h h' k S) as O.
  unfold indexed, field in Ik.
  destruct (own h k) as [m|] eqn:Hm; [|discriminate].
  destruct (own h' k) as [m'|]; [|contradiction].
  apply normalize_indexed in O; [|assumption]. subst m'.
  destruct (topologicalMarker m) eqn:Gm; simpl.
  { split; [|auto]. apply stale_update; [|assumption]. clear. norm_solve. }
  destruct (sorting m) eqn:Bm; simpl; [auto|].
  set (h1 := update h k (ModuleMethods.with_topologicalMarker true)).
  set (h1' := update h' k (ModuleMethods.with_topologicalMarker true)).
  assert (F1 : sort_frame h h1)
    by (unfold sort_frame, h1; now apply on_values_update).
  set (R := fun a a' : heap * SortStack =>
              same_but_stale (fst a) (fst a') /\ snd a = snd a' /\
              requirements_indexed (fst a) /\
              forall r, In r (values (requires m)) -> indexed (fst a) r = true).
  assert (R1 : R (h1, s) (h1', s)).
  { split; [|split; [reflexivity|split]]; simpl.
    - apply stale_update; [|assumption]. clear. norm_solve.
    - now apply (requirements_indexed_frame h).
    - intros r Hr. rewrite (sort_frame_indexed _ _ _ F1). apply (C k).
      + unfold indexed, field. now rewrite Hm.
      + unfold reqs, field. now rewrite Hm. }
  assert (Step : forall x a a', In x (values (requires m)) -> R a a' ->
            R (fst (collectionTopoSort fuel x a))
              (fst (collectionTopoSort fuel x a')) /\
            snd (collectionTopoSort fuel x a) = snd (collectionTopoSort fuel x a')).
  { intros x [ha sa] [ha' sa'] Hx (Sa & Es & Ca & Ta). simpl in *. subst sa'.
    destruct (IH x ha ha' sa Sa Ca (Ta x Hx)) as (S2 & E2 & O2).
    pose proof (topoSort_frame fuel x (ha, sa)) as F2. simpl in F2.
    split; [|assumption]. split; [assumption|]. split; [assumption|]. split.
    - now apply (requirements_indexed_frame ha).
    - intros r Hr. rewrite (sort_frame_indexed _ _ _ F2). now apply Ta. }
  destruct (for_each_sim R (collectionTopoSort fuel) (values (requires m)) Step
              _ _ R1) as ((S2 & E2 & _) & O2).
  destruct (for_each (collectionTopoSort fuel) (values (requires m)) (h1, s))
    as [[h2 s2] r2].
  destruct (for_each (collectionTopoSort fuel) (values (requires m)) (h1', s))
    as [[h2' s2'] r2'].
  simpl in S2, E2, O2. subst s2' r2'.
  destruct r2 as [[]|e|]; simpl; auto.
  split; [|auto]. apply stale_update; [|assumption]. clear. norm_solve.
Qed.

Section SerializeTwice.
Variable h0 : heap.
Hypothesis Hrefs : refs_ok h0.
Hypothesis Hnames : names_ok h0.
Hypothesis Hmir : mirrored h0.
Variable fuel : nat.
Hypothesis Hfuel : length h0 < fuel.

Lemma closed_requirements bound h :
  index_closed bound h -> requirements_indexed h.
Proof.
  intros C x y Hx Hy. apply (ic_nbrs C x y Hx).
  unfold nbrs. apply in_app_iff. now left.
Qed.

Lemma sort_part_sim k h h' s ap :
  same_but_stale h h' -> requirements_indexed h -> indexed h k = true ->
  let run := fun (h : heap) =>
    match own h k with
    | None => ({| st_heap := h; st_stack := s; adjacencyPoint := ap |}, Stuck)
    | Some module' =>
        if negb (sorting module') then
          let '((h2, stack), r2) := collectionTopoSort fuel k (h, s) in
          ({| st_heap := h2; st_stack := stack; adjacencyPoint := ap |}, r2)
        else ({| st_heap := h; st_stack := s; adjacencyPoint := ap |}, Return tt)
    end in
  alike (fst (run h)) (fst (run h')) /\ snd (run h) = snd (run h').
Proof.
  intros S C Ik run. unfold run.
  pose proof (stale_own h h' k S) as O.
  pose proof Ik as Ik'. unfold indexed, field in Ik'.
  destruct (own h k) as [m|] eqn:Hm; [|discriminate].
  destruct (own h' k) as [m'|]; [|contradiction].
  apply normalize_indexed in O; [|assumption]. subst m'.
  destruct (sorting m); simpl.
  - repeat split; auto.
  - destruct (topoSort_sim fuel k h h' s S C Ik) as (S2 & E2 & O2).
    destruct (collectionTopoSort fuel k (h, s)) as [[h2 s2] r2].
    destruct (collectionTopoSort fuel k (h', s)) as [[h2' s2'] r2'].
    simpl in *. repeat split; auto.
Qed.

Lemma serialize_step_sim done st st' k :
  serialize_inv h0 done st -> In k (keys h0) -> alike st st' ->
  alike (fst (serialize_step fuel k st)) (fst (serialize_step fuel k st')) /\
  snd (serialize_step fuel k st) = snd (serialize_step fuel k st').
Proof.
  intros I Hk (Hst & Es & Ea). unfold serialize_step.
  pose proof (stale_own _ _ k Hst) as O.
  destruct (In_keys_own _ (st_heap st) k) as (m & Hm);
    [rewrite (mf_keys h0); [assumption|apply (si_frame I)]|].
  rewrite Hm in *.
  destruct (own (st_heap st') k) as [m'|]; [|contradiction].
  rewrite (normalize_indexing _ _ O), <- Es, <- Ea.
  destruct (indexing m) eqn:Im; simpl.
  - apply sort_part_sim; auto.
    + apply (closed_requirements (adjacencyPoint st)), (si_closed I).
    + unfold indexed, field. now rewrite Hm.
  - assert (Ik : indexed (st_heap st) k = false)
      by (unfold indexed, field; now rewrite Hm).
    destruct (index_phase h0 Hrefs Hmir fuel Hfuel done st k I Hk Ik)
      as (h1 & E & I1 & Ik1).
    destruct (adjacencyIndex_sim fuel (adjacencyPoint st) k _ _ Hst) as (S1 & O1).
    rewrite E in *.
    destruct (collectionAdjacencyIndex fuel (adjacencyPoint st) k (st_heap st'))
      as [h1' r1']. simpl in S1, O1. subst r1'.
    apply sort_part_sim; auto.
    apply (closed_requirements (S (adjacencyPoint st))), (si_closed I1).
Qed.

Lemma serialize_loop_sim ks : forall done st st',
  serialize_inv h0 done st -> (forall k, In k ks -> In k (keys h0)) ->
  alike st st' ->
  alike (fst (for_each (serialize_step fuel) ks st))
        (fst (for_each (serialize_step fuel) ks st')) /\
  snd (for_each (serialize_step fuel) ks st)
  = snd (for_each (serialize_step fuel) ks st').
Proof.
  induction ks as [|k ks IH]; intros done st st' I Hks A; simpl; [auto|].
  assert (Hk : In k (keys h0)) by (apply Hks; now left).
  destruct (serialize_step_sim done st st' k I Hk A) as (A1 & E1).
  pose proof (serialize_step_spec h0 Hrefs Hnames Hmir fuel Hfuel done st k I Hk)
    as P.
  destruct (serialize_step fuel k st) as [st1 r1].
  destruct (serialize_step fuel k st') as [st1' r1']. simpl in *. subst r1'.
  destruct r1 as [[]|e|]; simpl; auto.
  apply (IH (k :: done)); auto.
Qed.

End SerializeTwice.

Lemma clean_stale h h' :
  NoDup (keys h) -> clean h -> clean h' -> marker_frame h h' ->
  same_but_stale h h'.
Proof.
  unfold same_but_stale, marker_frame. revert h'.
  induction h as [|[k m] h IH]; intros [|[k' m'] h'] ND C C' F;
    try discriminate; [reflexivity|].
  simpl in F. injection F as Ek En Er Ec Ed Ecd Ee Es F. subst k'.
  inversion ND as [|? ? Hn ND']; subst.
  assert (Hn' : ~ In k (keys h')).
  { assert (K : keys h' = keys h) by (now apply (frame_keys no_flags)).
    now rewrite K. }
  assert (Ct : clean h).
  { intros x y Hx. apply (C x). simpl.
    destruct (String.eqb_spec k x) as [->|]; [|assumption].
    apply own_In_keys in Hx. contradiction. }
  assert (Ct' : clean h').
  { intros x y Hx. apply (C' x). simpl.
    destruct (String.eqb_spec k x) as [->|]; [|assumption].
    apply own_In_keys in Hx. contradiction. }
  simpl. rewrite (IH h' ND' Ct Ct' F). f_equal. f_equal.
  pose proof (C k m) as U. simpl in U. rewrite String.eqb_refl in U.
  pose proof (C' k m') as U'. simpl in U'. rewrite String.eqb_refl in U'.
  specialize (U eq_refl). specialize (U' eq_refl).
  apply unmarked_flags in U, U'.
  destruct U as (U1 & U2 & U3), U' as (U1' & U2' & U3').
  revert En Er Ec Ed Ecd Ee Es U1 U2 U3 U1' U2' U3'. clear. norm_solve.
Qed.

(** On well-formed collections without markers, the outcome of
    [serialize()] does not depend on the traversal fields. *)
Lemma serialize_sim c c' :
  wf c -> clean (modules c) -> clean (modules c') ->
  marker_frame (modules c) (modules c') ->
  snd (serialize c') = snd (serialize c).
Proof.
  intros W C C' F.
  pose proof (clean_stale _ _ (wf_keys W) C C' F) as Hst.
  unfold serialize.
  rewrite (stale_keys _ _ Hst), (stale_length _ _ Hst).
  destruct (serialize_loop_sim (modules c) (wf_refs_ok c W) (wf_names_ok c W)
              (wf_mirrored W) (S (length (modules c))) (Nat.lt_succ_diag_r _)
              (keys (modules c)) []
              {| st_heap := modules c;
                 st_stack := {| elements := []; undefined_bucket := None |};
                 adjacencyPoint := 0 |}
              {| st_heap := modules c';
                 st_stack := {| elements := []; undefined_bucket := None |};
                 adjacencyPoint := 0 |})
    as ((_ & Es & _) & Eo); auto.
  { now apply clean_inv. }
  { repeat split; auto. }
  destruct (for_each _ (keys (modules c)) {| st_heap := modules c |}) as [st r].
  destruct (for_each _ (keys (modules c)) {| st_heap := modules c' |}) as [st' r'].
  simpl in Es, Eo. subst r'.
  destruct r as [[]|e|]; simpl; congruence.
Qed.

(** ** Strings *)

Lemma append_nil_r s : String.append s "" = s.
Proof. induction s as [|c s IH]; simpl; [reflexivity|now rewrite IH]. Qed.

Lemma append_assoc s t u :
  String.append (String.append s t) u = String.append s (String.append t u).
Proof. induction s as [|c s IH]; simpl; [reflexivity|now rewrite IH]. Qed.

Lemma length_append s t :
  String.length (String.append s t) = String.length s + String.length t.
Proof. induction s as [|c s IH]; simpl; [reflexivity|now rewrite IH]. Qed.

Lemma substring_0_0 s : substring 0 0 s = "".
Proof. now destruct s. Qed.

Lemma substring_prefix s t :
  substring 0 (String.length s) (String.append s t) = s.
Proof.
  induction s as [|c s IH]; simpl; [apply substring_0_0|now rewrite IH].
Qed.

Lemma substring_all s : substring 0 (String.length s) s = s.
Proof. rewrite <- (append_nil_r s) at 2. apply substring_prefix. Qed.

Lemma substring_skip s t n m :
  substring (String.length s + n) m (String.append s t) = substring n m t.
Proof. induction s as [|c s IH]; simpl; [reflexivity|exact IH]. Qed.

(** ** The matcher *)

Module RegExpFacts.
Import RegExp.

Lemma leq_max_le n m max : n <= m -> leq_max m max = true -> leq_max n max = true.
Proof.
  destruct max as [b|]; simpl; [|reflexivity].
  intros H L. apply Nat.leb_le in L. apply Nat.leb_le. lia.
Qed.

(** A greedy quantifier takes the whole run when what follows then
    matches. *)
Lemma many_greedy min max p k : forall w n x tail,
  all p w = true -> stops p tail ->
  leq_max (n + String.length w) max = true -> min <= n + String.length w ->
  k (after x w tail) <> None ->
  many min max p k n {| endIndex := endIndex x; rest := String.append w tail;
                        captures := captures x |} (String.append w tail)
  = k (after x w tail).
Proof.
  induction w as [|c w IH]; intros n x tail Hw Ht Hmax Hmin Hk.
  - simpl in *. rewrite Nat.add_0_r in *.
    assert (Hx : after x "" tail = {| endIndex := endIndex x; rest := tail;
                                      captures := captures x |}).
    { unfold after. simpl. now rewrite Nat.add_0_r. }
    rewrite Hx in *.
    assert (Hm : (min <=? n) = true) by now apply Nat.leb_le.
    destruct tail as [|c t]; simpl; rewrite Hm; [reflexivity|].
    simpl in Ht. now rewrite Ht.
  - simpl in Hw. apply andb_prop in Hw. destruct Hw as [Hc Hw].
    simpl String.length in *. simpl String.append. cbn [many endIndex captures].
    rewrite Hc. rewrite (leq_max_le (S n) (n + S (String.length w)) max) by (auto; lia).
    cbn [andb].
    assert (Ha : after {| endIndex := S (endIndex x);
                          rest := String.append w tail; captures := captures x |}
                   w tail = after x (String c w) tail).
    { unfold after. simpl. f_equal. lia. }
    assert (En : S n + String.length w = n + S (String.length w)) by lia.
    pose proof (IH (S n) {| endIndex := S (endIndex x);
                           rest := String.append w tail;
                           captures := captures x |} tail Hw Ht) as IH'.
    cbn [endIndex captures] in IH'. rewrite Ha, En in IH'.
    rewrite (IH' Hmax Hmin Hk).
    destruct (k (after x (String c w) tail)); [reflexivity|now elim Hk].
Qed.

Lemma exec_from_index a : forall s i r,
  exec_from a i s = Some r -> i <= index r.
Proof.
  induction s as [|c s IH]; intros i r; simpl.
  - destruct (run a _ Some); [|discriminate]. intros H; injection H as <-. simpl. lia.
  - destruct (run a _ Some).
    + intros H; injection H as <-. simpl. lia.
    + intros H. apply IH in H. lia.
Qed.

(** A replacement where the pattern matches at once. *)
Lemma replace_hit a f fuel i s y :
  run a {| endIndex := i; rest := s; captures := [] |} Some = Some y ->
  endIndex y - i <> 0 ->
  replace_all_from (S fuel) a f i s
  = String.append (f (substring 0 (endIndex y - i) s) y)
      (replace_all_from fuel a f (endIndex y) (rest y)).
Proof.
  intros R L. cbn [replace_all_from].
  assert (E : exec_from a i s = Some {| index := i; final := y |})
    by (destruct s; simpl; now rewrite R).
  rewrite E. simpl. rewrite Nat.sub_diag, substring_0_0. simpl.
  apply Nat.eqb_neq in L. now rewrite L.
Qed.

(** A replacement where the pattern does not match at once. *)
Lemma replace_skip a f fuel i c t :
  run a {| endIndex := i; rest := String c t; captures := [] |} Some = None ->
  replace_all_from (S fuel) a f i (String c t)
  = String c (replace_all_from (S fuel) a f (S i) t).
Proof.
  intros R. cbn [replace_all_from]. cbn [exec_from]. rewrite R.
  destruct (exec_from a (S i) t) as [r|] eqn:E; [|reflexivity].
  pose proof (exec_from_index a t (S i) r E) as Hi.
  replace (index r - i) with (S (index r - S i)) by lia.
  reflexivity.
Qed.

End RegExpFacts.

(** ** [format] *)

Module FormatFacts.
Import RegExp.
Import RegExpFacts.

Lemma placeholder_miss c t i :
  c <> "{"%char ->
  run lib.placeholder {| endIndex := i; rest := String c t; captures := [] |} Some
  = None.
Proof.
  intros H. cbn [lib.placeholder run rest]. unfold chr at 1.
  destruct (Ascii.eqb_spec "{" c); [congruence|reflexivity].
Qed.

Lemma placeholder_end i :
  run lib.placeholder {| endIndex := i; rest := ""; captures := [] |} Some = None.
Proof. reflexivity. Qed.

Lemma placeholder_hit ds tail i :
  ds <> "" -> all is_digit ds = true ->
  run lib.placeholder
    {| endIndex := i;
       rest := String "{" (String.append ds (String "}" tail));
       captures := [] |} Some
  = Some {| endIndex := S (S i + String.length ds); rest := tail;
            captures := [(1, ds)] |}.
Proof.
  intros Hne Hd. cbn [lib.placeholder run rest]. unfold chr at 1.
  rewrite Ascii.eqb_refl. cbn [endIndex captures].
  set (k := fun y : state => _).
  pose proof (many_greedy 1 None is_digit k ds 0
                {| endIndex := S i; rest := String.append ds (String "}" tail);
                   captures := [] |} (String "}" tail) Hd eq_refl eq_refl) as G.
  cbn [endIndex captures] in G.
  assert (K : k (after {| endIndex := S i;
                          rest := String.append ds (String "}" tail);
                          captures := [] |} ds (String "}" tail))
              = Some {| endIndex := S (S i + String.length ds); rest := tail;
                        captures := [(1, ds)] |}).
  { unfold k, after. cbn [endIndex rest captures run]. unfold chr.
    rewrite Ascii.eqb_refl. do 3 f_equal.
    replace (S i + String.length ds - S i) with (String.length ds) by lia.
    now rewrite substring_prefix. }
  rewrite G; [exact K| |congruence].
  destruct ds; [now elim Hne|simpl; lia].
Qed.

Section Replace.
Variable f : string -> state -> string.
Variable value : string -> string.
Hypothesis f_value : forall str y ds, capture 1 y = Some ds -> f str y = value ds.

Lemma replace_plain lit : forall fuel i tail,
  plain lit = true ->
  replace_all_from (S fuel) lib.placeholder f i (String.append lit tail)
  = String.append lit
      (replace_all_from (S fuel) lib.placeholder f (i + String.length lit) tail).
Proof.
  induction lit as [|c lit IH]; intros fuel i tail P.
  - simpl. now rewrite Nat.add_0_r.
  - unfold plain in P. simpl in P. apply andb_prop in P. destruct P as [Pc P].
    simpl String.append. rewrite replace_skip.
    + rewrite (IH fuel (S i) tail P).
      assert (E : i + S (String.length lit) = S i + String.length lit) by lia.
      cbn [String.length]. rewrite E. reflexivity.
    + apply placeholder_miss. intros ->. discriminate.
Qed.

Lemma replace_token holes : forall lit fuel i,
  plain lit = true -> placeholders_ok holes -> length holes <= fuel ->
  replace_all_from (S fuel) lib.placeholder f i (token_of lit holes)
  = filled value lit holes.
Proof.
  induction holes as [|[ds lit'] holes IH]; intros lit fuel i P Ok L.
  - cbn [token_of filled]. rewrite replace_plain by assumption. reflexivity.
  - destruct (Ok ds lit' (or_introl eq_refl)) as (Hne & Hd & P').
    simpl in L. destruct fuel as [|fuel]; [lia|].
    cbn [token_of filled]. rewrite replace_plain by assumption. f_equal.
    simpl String.append.
    rewrite (replace_hit lib.placeholder f (S fuel) _ _ _
               (placeholder_hit ds (token_of lit' holes) _ Hne Hd))
      by (cbn [endIndex]; lia).
    cbn [endIndex rest]. erewrite f_value by reflexivity. f_equal.
    apply IH; auto; [|lia]. intros d l Hin. apply Ok. now right.
Qed.

End Replace.

Lemma token_of_length lit holes :
  length holes <= String.length (token_of lit holes).
Proof.
  revert lit. induction holes as [|[ds lit'] holes IH]; intros lit; simpl; [lia|].
  rewrite length_append. simpl. rewrite length_append. simpl.
  specialize (IH lit'). lia.
Qed.

Lemma token_of_empty lit holes :
  token_of lit holes = "" -> lit = "" /\ holes = [].
Proof.
  destruct holes as [|[ds l] holes]; destruct lit; simpl; try discriminate; auto.
Qed.

Lemma argument_parameter x params i :
  lib.argument (x :: params) (i + 1)
  = match nth_error params (N.to_nat i) with
    | Some v => v
    | None => lib.AUndefined
    end.
Proof.
  unfold lib.argument.
  destruct (N.ltb_spec (i + 1) (N.of_nat (length (x :: params)))) as [L|L];
    cbn [length] in L.
  - replace (N.to_nat (i + 1)) with (S (N.to_nat i)) by lia. cbn [nth].
    assert (Hl : N.to_nat i < length params) by lia.
    destruct (nth_error params (N.to_nat i)) eqn:E.
    + now apply nth_error_nth.
    + apply nth_error_None in E. lia.
  - assert (Hl : length params <= N.to_nat i) by lia.
    apply nth_error_None in Hl. now rewrite Hl.
Qed.

End FormatFacts.

Lemma format_token (lit : string) (holes : list (string * string))
    (after_token : list lib.any) :
  plain lit = true -> placeholders_ok holes ->
  lib.format (lib.AString (token_of lit holes) :: after_token)
  = lib.AString
      match parameters after_token with
      | [] => token_of lit holes
      | params => filled (parameter_text params) lit holes
      end.
Proof.
  intros P Ok.
  assert (R : forall x params,
            RegExp.replace_all lib.placeholder
              (fun (str : string) (y : RegExp.state) =>
                 match
                   match RegExp.capture 1 y with
                   | Some i => digits i 0
                   | None => None
                   end
                 with
                 | Some i =>
                     match lib.argument (x :: params) (i + 1) with
                     | lib.ANull => lib.E
                     | v => lib.to_string v
                     end
                 | None => lib.to_string lib.AUndefined
                 end) (token_of lit holes)
            = filled (parameter_text params) lit holes).
  { intros x params. unfold RegExp.replace_all.
    apply FormatFacts.replace_token; auto using FormatFacts.token_of_length.
    intros str y ds Hc. rewrite Hc. unfold parameter_text.
    destruct (digits ds 0) as [i|]; [|reflexivity].
    rewrite FormatFacts.argument_parameter.
    destruct (nth_error params (N.to_nat i)) as [[]|]; reflexivity. }
  assert (Z : token_of lit holes = "" ->
              forall params, filled (parameter_text params) lit holes = "").
  { intros E params. apply FormatFacts.token_of_empty in E.
    destruct E as (-> & ->). reflexivity. }
  unfold lib.format. cbn [nth].
  destruct (String.eqb_spec (token_of lit holes) "") as [E|E]; cbn [negb andb].
  - rewrite E. destruct after_token as [|[] rest]; cbn [parameters];
      try rewrite (Z E); try reflexivity.
    destruct l; [reflexivity|now rewrite (Z E)].
  - destruct after_token as [|p rest]; [reflexivity|].
    destruct p; cbn [parameters length Nat.sub Nat.eqb negb];
      try (now rewrite R).
    destruct l as [|p0 l]; [reflexivity|].
    cbn [length Nat.sub Nat.eqb negb]. now rewrite R.
Qed.

(** ** [toString] *)

Lemma escape_quotes_from s : forall fuel i,
  String.length s <= fuel ->
  RegExp.replace_all_from (S fuel) (RegExp.Char (RegExp.chr "034"))
    (fun _ _ => String "\" quote) i s
  = escaped s.
Proof.
  induction s as [|c s IH]; intros fuel i L; [reflexivity|].
  cbn [escaped]. destruct (Ascii.eqb_spec c "034") as [->|Hc].
  - simpl in L. destruct fuel as [|fuel]; [lia|].
    rewrite (RegExpFacts.replace_hit _ _ (S fuel) i _
               {| RegExp.endIndex := S i; RegExp.rest := s;
                  RegExp.captures := [] |}).
    + cbn [RegExp.endIndex RegExp.rest]. rewrite IH by lia. reflexivity.
    + reflexivity.
    + cbn [RegExp.endIndex]. lia.
  - rewrite RegExpFacts.replace_skip.
    + rewrite IH by (simpl in L; lia). reflexivity.
    + cbn [RegExp.run RegExp.rest]. unfold RegExp.chr.
      destruct (Ascii.eqb_spec "034" c); [congruence|reflexivity].
Qed.

Lemma escape_quotes_escaped s : escape_quotes s = escaped s.
Proof. unfold escape_quotes, RegExp.replace_all. now apply escape_quotes_from. Qed.

(** In an escaped string every double quote follows a backslash. *)
Lemma escaped_quotes_follow s : forall pre post,
  escaped s = String.append pre (String "034" post) ->
  exists pre', pre = String.append pre' "\".
Proof.
  induction s as [|c s IH]; intros pre post; simpl.
  - destruct pre; discriminate.
  - destruct (Ascii.eqb_spec c "034") as [->|Hc].
    + destruct pre as [|x [|y pre]]; simpl; intros H.
      * discriminate.
      * injection H as Hx _. subst x. now exists "".
      * injection H as Hx Hy H. subst x y. destruct (IH _ _ H) as (pre' & ->).
        now exists (String "\" (String "034" pre')).
    + destruct pre as [|x pre]; simpl; intros H.
      * injection H as Hx _. now elim Hc.
      * injection H as Hx H. subst x. destruct (IH _ _ H) as (pre' & ->).
        now exists (String c pre').
Qed.

Lemma fold_left_glue {A} (g : A -> string) (f : string -> A -> string) l :
  (forall out x, In x l -> f out x = String.append out (g x)) ->
  forall init, fold_left f l init = String.append init (glue (map g l)).
Proof.
  induction l as [|x l IH]; intros H init; simpl.
  - now rewrite append_nil_r.
  - rewrite IH by (intros out y Hy; apply H; now right).
    rewrite H by now left. apply append_assoc.
Qed.

Lemma edge_token_format m d :
  lib.to_string
    (lib.format
       [lib.AString
          (String.append quote (String.append "{0}" (String.append quote
             (String.append "->" (String.append quote (String.append "{1}"
                (String.append quote (String.append ";" newline))))))));
        lib.AModule m; lib.AString d])
  = edge_line (name m) d.
Proof.
  set (holes := [("0", String.append quote (String.append "->" quote));
                 ("1", String.append quote (String.append ";" newline))]).
  assert (Ok : placeholders_ok holes).
  { intros ds lit [H|[H|[]]]; injection H as <- <-;
      (split; [discriminate|split; reflexivity]). }
  pose proof (format_token quote holes [lib.AModule m; lib.AString d] eq_refl Ok)
    as F.
  change (token_of quote holes) with
    (String.append quote (String.append "{0}" (String.append quote
       (String.append "->" (String.append quote (String.append "{1}"
          (String.append quote (String.append ";" newline)))))))) in F.
  rewrite F. reflexivity.
Qed.

Lemma toString_digraph c : wf c -> consistent c -> toString c = digraph c.
Proof.
  intros W C. unfold toString, digraph. cbn [glue fold_right].
  rewrite (fold_left_glue (lines_of (modules c))).
  - now rewrite !append_assoc, append_nil_r.
  - intros out k Hk. apply In_keys_own in Hk. destruct Hk as (m & Hm).
    rewrite Hm. destruct (cs_dependants C k m Hm) as (D1 & D2).
    pose proof (wf_name W k Hm) as Nm.
    assert (Ed : deps (modules c) k = keys (dependants m)).
    { unfold deps, field. rewrite Hm, D1. apply dependants_of_values. }
    unfold lines_of. rewrite Ed, D2.
    destruct (dependants m) as [|e ds] eqn:Em.
    + simpl. unfold node_line. cbn [glue fold_right]. rewrite Nm.
      now rewrite append_nil_r.
    + cbn [length Nat.eqb negb]. rewrite <- Em.
      rewrite (fold_left_glue (edge_line k)).
      * rewrite Em. reflexivity.
      * intros o d _. now rewrite edge_token_format, Nm.
Qed.

Lemma dependency_token_format a b :
  lib.to_string
    (lib.format
       [lib.AString
          (String.append quote (String.append "{0}" (String.append quote
             (String.append "->" (String.append quote (String.append "{1}"
                (String.append quote ";")))))));
        lib.AString a; lib.AString b])
  = glue [quote; a; quote; "->"; quote; b; quote; ";"].
Proof.
  set (holes := [("0", String.append quote (String.append "->" quote));
                 ("1", String.append quote ";")]).
  assert (Ok : placeholders_ok holes).
  { intros ds lit [H|[H|[]]]; injection H as <- <-;
      (split; [discriminate|split; reflexivity]). }
  pose proof (format_token quote holes [lib.AString a; lib.AString b] eq_refl Ok)
    as F.
  change (token_of quote holes) with
    (String.append quote (String.append "{0}" (String.append quote
       (String.append "->" (String.append quote (String.append "{1}"
          (String.append quote ";"))))))) in F.
  rewrite F. reflexivity.
Qed.
(** ** The path tests of lib.js *)

Module PathFacts.
Import RegExp.

Lemma matched_alt {A} (a b : option A) :
  matched (match a with Some z => Some z | None => b end)
  = matched a || matched b.
Proof. now destruct a. Qed.

Lemma matched_true {A} (o : option A) : matched o = true <-> o <> None.
Proof. destruct o; simpl; split; congruence. Qed.

(** The dots of a hidden name and the character after them. *)
Lemma dots_run (k : state -> option state) :
  (forall y, matched (k y)
             = match rest y with
               | String c _ => negb (Ascii.eqb c "/" || Ascii.eqb c ".")
               | EmptyString => false
               end) ->
  forall s n x, rest x = s ->
  matched (many 1 None (chr ".") k n x s)
  = if 1 <=? n then after_dots s else dotted s.
Proof.
  intros Hk. induction s as [|c t IH]; intros n x Hx.
  - cbn [many]. destruct (1 <=? n); [|reflexivity]. now rewrite Hk, Hx.
  - cbn [many leq_max]. unfold chr at 1. rewrite andb_true_r.
    destruct (Ascii.eqb_spec "." c) as [<-|Hc].
    + rewrite matched_alt, IH by reflexivity.
      change (1 <=? S n) with true. cbn iota.
      assert (H : matched (if 1 <=? n then k x else None) = false).
      { destruct (1 <=? n); [|reflexivity]. now rewrite Hk, Hx. }
      rewrite H, orb_false_r. now destruct (1 <=? n).
    + assert (E : Ascii.eqb c "." = false) by (apply Ascii.eqb_neq; congruence).
      cbn [after_dots dotted]. rewrite E. cbn [andb].
      destruct (1 <=? n); [|reflexivity].
      rewrite Hk, Hx. now rewrite E, orb_false_r.
Qed.

Lemma hidden_run i s :
  matched (run lib.hidden_pattern
             {| endIndex := i; rest := s; captures := [] |} Some)
  = ((i =? 0) && dotted s)
    || match s with
       | String c (String d t) =>
           any_but_newline c && Ascii.eqb d "/" && dotted t
       | _ => false
       end.
Proof.
  unfold lib.hidden_pattern. cbn [run endIndex rest captures].
  rewrite matched_alt. f_equal.
  - destruct (i =? 0); [|reflexivity]. cbn [andb].
    rewrite dots_run by (reflexivity || (intros y; cbn [run]; destruct (rest y);
      [reflexivity|]; now destruct (negb _))).
    reflexivity.
  - destruct s as [|c [|d t]]; [reflexivity|now destruct (any_but_newline c)|].
    destruct (any_but_newline c); [|reflexivity]. cbn [andb].
    unfold chr at 1. rewrite (Ascii.eqb_sym "/" d).
    destruct (Ascii.eqb d "/"); [|reflexivity]. cbn [andb endIndex rest captures].
    rewrite dots_run by (reflexivity || (intros y; cbn [run]; destruct (rest y);
      [reflexivity|]; now destruct (negb _))).
    reflexivity.
Qed.

Lemma hidden_exec : forall s i,
  matched (exec_from lib.hidden_pattern i s)
  = ((i =? 0) && dotted s) || hidden_from s.
Proof.
  induction s as [|c t IH]; intros i.
  - cbn [exec_from]. pose proof (hidden_run i "") as H.
    destruct (run _ _ Some); simpl in *; [|now rewrite andb_false_r].
    now rewrite andb_false_r in H.
  - cbn [exec_from]. pose proof (hidden_run i (String c t)) as H.
    destruct (run _ _ Some).
    + cbn [matched] in *. cbn [hidden_from]. rewrite orb_assoc. now rewrite <- H.
    + cbn [matched] in H. rewrite IH. cbn [Nat.eqb andb orb hidden_from].
      rewrite orb_assoc, <- H. reflexivity.
Qed.

Lemma hidden_from_spec : forall s,
  hidden_from s = true <->
  exists q c name,
    s = String.append q (String c (String "/" name)) /\
    any_but_newline c = true /\ dotted name = true.
Proof.
  induction s as [|c t IH].
  - simpl. split; [discriminate|]. intros (q & c & name & E & _).
    destruct q; discriminate.
  - cbn [hidden_from]. rewrite orb_true_iff, IH. split.
    + intros [H|(q & c' & name & -> & Hc & Hn)].
      * destruct t as [|d t']; [discriminate|].
        apply andb_prop in H. destruct H as [H Hn].
        apply andb_prop in H. destruct H as [Hc Hd].
        apply Ascii.eqb_eq in Hd. subst d. now exists "", c, t'.
      * now exists (String c q), c', name.
    + intros (q & c' & name & E & Hc & Hn). destruct q as [|c0 q].
      * simpl in E. injection E as -> ->. left.
        rewrite Hc, Hn. reflexivity.
      * simpl in E. injection E as -> ->. right. now exists q, c', name.
Qed.

Lemma hidden_from_no_slash : forall s, no_slash s = true -> hidden_from s = false.
Proof.
  induction s as [|c t IH]; [reflexivity|]. cbn [no_slash hidden_from].
  intros H. apply andb_prop in H. destruct H as [_ H]. rewrite (IH H).
  destruct t as [|d t']; [reflexivity|]. cbn [no_slash] in H.
  apply andb_prop in H. destruct H as [H _].
  destruct (Ascii.eqb d "/"); [discriminate|]. now rewrite andb_false_r.
Qed.

(** The two ways of being a directory. *)
Lemma directory_run i s :
  matched (run lib.directory_pattern
             {| endIndex := i; rest := s; captures := [] |} Some)
  = ((i =? 0) && (String.eqb s "." || String.eqb s ".."))
    || String.eqb s "/".
Proof.
  unfold lib.directory_pattern. cbn [run endIndex rest captures].
  rewrite matched_alt. f_equal.
  - destruct (i =? 0); [|reflexivity]. cbn [andb].
    destruct s as [|c1 [|c2 [|c3 t]]]; cbn -[Ascii.eqb]; unfold chr;
      repeat match goal with
             | |- context [Ascii.eqb "." ?c] =>
                 is_var c; destruct (Ascii.eqb_spec "." c); subst;
                 cbn -[Ascii.eqb]
             end;
      rewrite ?Ascii.eqb_refl; cbn -[Ascii.eqb];
      repeat match goal with
             | H : "."%char <> ?c |- _ =>
                 apply not_eq_sym, Ascii.eqb_neq in H; rewrite ?H
             end;
      reflexivity.
  - destruct s as [|c [|d t]]; cbn -[Ascii.eqb]; unfold chr;
      rewrite ?(Ascii.eqb_sym "/"); try reflexivity;
      destruct (Ascii.eqb c "/"); reflexivity.
Qed.

Lemma directory_exec : forall s i,
  matched (exec_from lib.directory_pattern i s)
  = ((i =? 0) && (String.eqb s "." || String.eqb s "..")) || ends_slash s.
Proof.
  induction s as [|c t IH]; intros i.
  - cbn [exec_from]. pose proof (directory_run i "") as H.
    destruct (run _ _ Some); simpl in *; [|now rewrite andb_false_r].
    now rewrite andb_false_r in H.
  - cbn [exec_from]. pose proof (directory_run i (String c t)) as H.
    assert (E : String.eqb (String c t) "/" || ends_slash t
                = ends_slash (String c t)).
    { cbn [ends_slash]. destruct t as [|d t'].
      - simpl. now rewrite orb_false_r; destruct (Ascii.eqb c "/").
      - simpl String.eqb. destruct (Ascii.eqb c "/"); reflexivity. }
    destruct (run _ _ Some).
    + cbn [matched] in *. rewrite <- E, orb_assoc, <- H. reflexivity.
    + cbn [matched] in H. rewrite IH. cbn [Nat.eqb andb orb].
      rewrite <- E, orb_assoc, <- H. reflexivity.
Qed.

Lemma ends_slash_spec : forall s,
  ends_slash s = true <-> exists q, s = String.append q "/".
Proof.
  induction s as [|c t IH].
  - simpl. split; [discriminate|]. intros (q & E). destruct q; discriminate.
  - cbn [ends_slash]. destruct t as [|d t'].
    + rewrite Ascii.eqb_eq. split.
      * intros ->. now exists "".
      * intros (q & E). destruct q as [|c0 [|c1 q]]; simpl in E;
          [now injection E|discriminate|discriminate].
    + rewrite IH. split.
      * intros (q & ->). now exists (String c q).
      * intros (q & E). destruct q as [|c0 q]; [discriminate|].
        simpl in E. injection E as _ E. now exists q.
Qed.

End PathFacts.
(** ** The options of the command line *)

Module OptionFacts.
Import RegExp RegExpFacts PathFacts.

(** A greedy quantifier also takes the whole run when its bound stops it. *)
Lemma many_greedy_bound min max p k : forall w n x tail,
  all p w = true ->
  stops p tail \/ leq_max (S (n + String.length w)) max = false ->
  leq_max (n + String.length w) max = true -> min <= n + String.length w ->
  k (after x w tail) <> None ->
  many min max p k n {| endIndex := endIndex x; rest := String.append w tail;
                        captures := captures x |} (String.append w tail)
  = k (after x w tail).
Proof.
  induction w as [|c w IH]; intros n x tail Hw Ht Hmax Hmin Hk.
  - simpl in *. rewrite Nat.add_0_r in *.
    assert (Hx : after x "" tail = {| endIndex := endIndex x; rest := tail;
                                      captures := captures x |}).
    { unfold after. simpl. now rewrite Nat.add_0_r. }
    rewrite Hx in *.
    assert (Hm : (min <=? n) = true) by now apply Nat.leb_le.
    destruct tail as [|c t]; simpl; rewrite Hm; [reflexivity|].
    destruct Ht as [Ht|Ht]; [simpl in Ht; now rewrite Ht|].
    rewrite Ht. now rewrite andb_false_r.
  - simpl in Hw. apply andb_prop in Hw. destruct Hw as [Hc Hw].
    simpl String.length in *. simpl String.append. cbn [many endIndex captures].
    rewrite Hc. rewrite (leq_max_le (S n) (n + S (String.length w)) max) by (auto; lia).
    cbn [andb].
    assert (Ha : after {| endIndex := S (endIndex x);
                          rest := String.append w tail; captures := captures x |}
                   w tail = after x (String c w) tail).
    { unfold after. simpl. f_equal. lia. }
    assert (En : S n + String.length w = n + S (String.length w)) by lia.
    pose proof (IH (S n) {| endIndex := S (endIndex x);
                           rest := String.append w tail;
                           captures := captures x |} tail Hw) as IH'.
    cbn [endIndex captures] in IH'. rewrite Ha, En in IH'.
    rewrite (IH' Ht Hmax Hmin Hk).
    destruct (k (after x (String c w) tail)); [reflexivity|now elim Hk].
Qed.

Lemma letters_split : forall s,
  exists n r, s = String.append n r /\ all is_letter n = true /\
              stops is_letter r.
Proof.
  induction s as [|c s (n & r & -> & Hn & Hr)].
  - now exists "", "".
  - destruct (is_letter c) eqn:E.
    + exists (String c n), r. simpl. now rewrite E, Hn.
    + now exists "", (String c (String.append n r)).
Qed.

Lemma letter_no_index c t : is_letter c = true -> array_index (String c t) = None.
Proof.
  destruct c as [[] [] [] [] [] [] [] []]; intros H; vm_compute in H;
    (discriminate H || reflexivity).
Qed.

Lemma letters_no_index n : all is_letter n = true -> array_index n = None.
Proof.
  destruct n as [|c t]; [reflexivity|]. simpl. intros H.
  apply andb_prop in H. now apply letter_no_index.
Qed.

Lemma letters_no_proto n : all is_letter n = true -> n <> "__proto__".
Proof. intros H ->. discriminate H. Qed.

Lemma js_set_letters (out : jsobj lib.any) n v :
  all is_letter n = true -> own out n = None ->
  js_set n v out = out ++ [(n, v)].
Proof.
  intros L O. unfold js_set. rewrite O, (letters_no_index n L).
  destruct (String.eqb_spec n "__proto__") as [E|_]; [|reflexivity].
  now elim (letters_no_proto n L).
Qed.

(** The optional value and the end of the argument. *)
Lemma value_run x v cs :
  captures x = cs -> rest x = v ->
  (forall e, In e cs -> fst e <> 2) ->
  run (Seq (Opt (Group 2 (Many 0 None (fun _ => true)))) Eol) x Some
  = Some {| endIndex := endIndex x + String.length v; rest := "";
            captures := match v with
                        | EmptyString => cs
                        | _ => (2, v) :: cs
                        end |}.
Proof.
  intros Hc Hr Hcs. destruct x as [i s cs']. simpl in Hc, Hr. subst s cs'.
  assert (F : filter (fun e : nat * string =>
                        negb (existsb (Nat.eqb (fst e)) [2])) cs = cs).
  { clear - Hcs. induction cs as [|e cs IH]; [reflexivity|]. simpl.
    destruct (Nat.eqb_spec (fst e) 2) as [E|_].
    - now elim (Hcs e (or_introl eq_refl)).
    - simpl. f_equal. apply IH. intros e' H. apply Hcs. now right. }
  cbn [run groups app]. unfold forget_groups. cbn [endIndex rest captures].
  rewrite F. destruct v as [|c v].
  - cbn [many Nat.leb endIndex]. rewrite Nat.eqb_refl. cbn [rest].
    now rewrite Nat.add_0_r.
  - match goal with
    | |- context [many ?mn ?mx ?p ?k 0 _ _] =>
        pose proof (many_greedy mn mx p k (String c v) 0
                      {| endIndex := i; rest := String c v; captures := cs |} "")
          as G
    end.
    rewrite append_nil_r in G. cbn [endIndex rest captures] in G. rewrite G.
    + unfold after. cbn [endIndex rest captures].
      assert (E : i + String.length (String c v) - i = String.length (String c v))
        by lia.
      rewrite E, substring_all.
      destruct (Nat.eqb_spec (i + String.length (String c v)) i) as [E'|_];
        [simpl in E'; lia|reflexivity].
    + clear. induction (String c v) as [|a s IH]; [reflexivity|exact IH].
    + exact I.
    + reflexivity.
    + lia.
    + unfold after. cbn [endIndex rest captures].
      destruct (Nat.eqb_spec (i + String.length (String c v)) i) as [E'|_];
        [simpl in E'; lia|discriminate].
Qed.

(** An argument that begins with two dashes is an option: its name is the
    run of letters after the dashes. *)
Lemma option_run n r :
  all is_letter n = true -> stops is_letter r ->
  exists y,
    run lib.option_pattern
      {| endIndex := 0; rest := String.append "--" (String.append n r);
         captures := [] |} Some = Some y /\
    capture 1 y = Some n /\ capture 2 y = value_part r.
Proof.
  intros Hn Hr.
  set (x3 := {| endIndex := 2 + String.length n; rest := r;
                captures := [(1, n)] |}).
  set (tail := Seq (Opt (Group 2 (Many 0 None (fun _ => true)))) Eol).
  assert (Ht : forall x v, captures x = [(1, n)] -> rest x = v ->
             run tail x Some
             = Some {| endIndex := endIndex x + String.length v; rest := "";
                       captures := match v with
                                   | EmptyString => [(1, n)]
                                   | _ => [(2, v); (1, n)]
                                   end |}).
  { intros x v Hc Hv. apply value_run; auto.
    intros e [<-|[]]. discriminate. }
  assert (Hk : exists y,
             run (Seq (Many 0 (Some 1) (chr "=")) tail) x3 Some = Some y /\
             capture 1 y = Some n /\ capture 2 y = value_part r).
  { cbn [run]. subst x3. cbn [rest]. destruct r as [|c v].
    - cbn [many Nat.leb]. rewrite (Ht _ "") by reflexivity.
      eexists. split; [reflexivity|]. split; reflexivity.
    - cbn [many leq_max Nat.leb endIndex captures]. unfold chr at 1.
      cbn [value_part]. rewrite (Ascii.eqb_sym "=" c).
      destruct (Ascii.eqb c "=") eqn:Ec; cbn [andb].
      + assert (M : many 0 (Some 1) (chr "=") (fun y => run tail y Some) 1
                      {| endIndex := S (2 + String.length n); rest := v;
                         captures := [(1, n)] |} v
                    = run tail {| endIndex := S (2 + String.length n); rest := v;
                                  captures := [(1, n)] |} Some).
        { destruct v as [|d v']; cbn [many leq_max Nat.leb]; [reflexivity|].
          now rewrite andb_false_r. }
        rewrite M, (Ht _ v) by reflexivity.
        eexists. split; [reflexivity|]. now destruct v.
      + rewrite (Ht _ (String c v)) by reflexivity.
        eexists. split; [reflexivity|]. split; reflexivity. }
  destruct Hk as (y & Hy & H1 & H2). exists y. split; [|now split].
  unfold lib.option_pattern. cbn [run endIndex rest captures Nat.eqb].
  cbn [String.append]. unfold chr at 1 2. cbn [Ascii.eqb Bool.eqb andb].
  cbn [run endIndex rest captures].
  match goal with
  | |- context [many ?mn ?mx ?p ?k 0 _ _] =>
      pose proof (many_greedy mn mx p k n 0
                    {| endIndex := 2; rest := String.append n r;
                       captures := [] |} r Hn Hr eq_refl (Nat.le_0_l _)) as G
  end.
  cbn [endIndex rest captures] in G. unfold after in G.
  cbn [endIndex rest captures] in G.
  assert (E : 2 + String.length n - 2 = String.length n) by lia.
  rewrite E, substring_prefix in G. rewrite G; [exact Hy|].
  intros C.
  change (run (Seq (Many 0 (Some 1) (chr "=")) tail) x3 Some = None) in C.
  congruence.
Qed.

Lemma option_exec_later : forall s i,
  exec_from lib.option_pattern (S i) s = None.
Proof. induction s as [|c s IH]; intros i; [reflexivity|]. simpl. apply IH. Qed.

(** Every argument that begins with two dashes is taken for an option. *)
Lemma option_exec n r :
  all is_letter n = true -> stops is_letter r ->
  exists y,
    exec_from lib.option_pattern 0 (String.append "--" (String.append n r))
    = Some {| index := 0; final := y |} /\
    capture 1 y = Some n /\ capture 2 y = value_part r.
Proof.
  intros Hn Hr. destruct (option_run n r Hn Hr) as (y & Hy & H1 & H2).
  exists y. split; [|now split].
  change (String.append "--" (String.append n r))
    with (String "-" (String "-" (String.append n r))) in *.
  cbn [exec_from]. now rewrite Hy.
Qed.

(** The other arguments are passed over. *)
Lemma option_miss s :
  (forall t, s <> String.append "--" t) ->
  exec_from lib.option_pattern 0 s = None.
Proof.
  intros H. destruct s as [|c1 s]; [reflexivity|].
  cbn [exec_from]. rewrite option_exec_later.
  unfold lib.option_pattern. cbn [run endIndex rest captures Nat.eqb].
  unfold chr at 1. destruct (Ascii.eqb_spec "-" c1) as [<-|_]; [|reflexivity].
  destruct s as [|c2 s]; [reflexivity|]. cbn [run endIndex rest captures].
  unfold chr at 1. destruct (Ascii.eqb_spec "-" c2) as [<-|_]; [|reflexivity].
  now elim (H s).
Qed.

Lemma option_text_split o :
  option_ok o ->
  exists r, option_text o = String.append "--" (String.append (fst o) r) /\
            stops is_letter r /\ value_part r = snd o.
Proof.
  intros (_ & _ & Hv). destruct o as [n [v|]]; simpl in *.
  - exists (String "=" v). split; [reflexivity|]. split; [reflexivity|].
    destruct v; [now elim Hv|reflexivity].
  - now exists "".
Qed.

(** One option that is met for the first time. *)
Lemma option_first o out args :
  option_ok o -> own out "hasOwnProperty" = None -> own out (fst o) = None ->
  lib.argsArray2Object_from (option_text o :: args) out
  = lib.argsArray2Object_from args (out ++ [(fst o, option_value (snd o))]).
Proof.
  intros Ho Hh Hn. destruct (option_text_split o Ho) as (r & E & Hr & Hv).
  destruct Ho as (L & _ & _).
  destruct (option_exec (fst o) r L Hr) as (y & Hy & H1 & H2).
  cbn [lib.argsArray2Object_from]. rewrite E, Hy.
  change (String.eqb (String.append "--" (String.append (fst o) r)) "")
    with false. cbv iota. cbn [final]. unfold lib.replacer.
  rewrite H1, H2, Hv, Hh, Hn. rewrite js_set_letters by assumption.
  now destruct (snd o).
Qed.

(** One option that was met before. *)
Lemma option_again n v out old args :
  option_ok (n, v) -> own out "hasOwnProperty" = None -> own out n = Some old ->
  lib.argsArray2Object_from (option_text (n, v) :: args) out
  = lib.argsArray2Object_from args
      (update out n
         (fun _ => match old with
                   | lib.AArray l => lib.AArray (l ++ [option_value v])
                   | _ => lib.AArray [old; option_value v]
                   end)).
Proof.
  intros Ho Hh Hn. destruct (option_text_split _ Ho) as (r & E & Hr & Hv).
  destruct Ho as (L & _ & _). cbn [fst snd] in *.
  destruct (option_exec n r L Hr) as (y & Hy & H1 & H2).
  cbn [lib.argsArray2Object_from]. rewrite E, Hy.
  change (String.eqb (String.append "--" (String.append n r)) "")
    with false. cbv iota. cbn [final]. unfold lib.replacer.
  rewrite H1, H2, Hv, Hh, Hn.
  destruct old; destruct v; reflexivity.
Qed.

Lemma own_app_none {V} (o : jsobj V) k v k' :
  own o k' = None -> k <> k' -> own (o ++ [(k, v)]) k' = None.
Proof.
  intros H N. rewrite own_app_fresh, H.
  destruct (String.eqb_spec k k'); [contradiction|reflexivity].
Qed.

Lemma options_first : forall opts out args,
  Forall option_ok opts -> NoDup (map fst opts) ->
  own out "hasOwnProperty" = None ->
  (forall o, In o opts -> own out (fst o) = None) ->
  lib.argsArray2Object_from (map option_text opts ++ args) out
  = lib.argsArray2Object_from args (out ++ record_of opts).
Proof.
  induction opts as [|o opts IH]; intros out args F ND Hh Hn.
  - simpl. now rewrite app_nil_r.
  - inversion F as [|? ? Ho F']; subst. inversion ND as [|? ? Hx ND']; subst.
    simpl map. simpl app.
    rewrite option_first; auto; [|apply Hn; now left].
    rewrite IH; auto.
    + now rewrite <- app_assoc.
    + apply own_app_none; [assumption|]. destruct Ho as (_ & H & _). exact H.
    + intros o' Hin. apply own_app_none; [apply Hn; now right|].
      intros E. apply Hx. rewrite E. now apply in_map.
Qed.

Lemma own_record_of : forall opts n v,
  NoDup (map fst opts) -> In (n, v) opts ->
  own (record_of opts) n = Some (option_value v).
Proof.
  induction opts as [|[n0 v0] opts IH]; intros n v ND H; [destruct H|].
  destruct H as [H|H].
  - injection H as -> ->. simpl. now rewrite String.eqb_refl.
  - inversion ND as [|? ? Hx ND']; subst. simpl.
    destruct (String.eqb_spec n0 n) as [->|_]; [|now apply IH].
    elim Hx. change (In (fst (n, v)) (map fst opts)). now apply in_map.
Qed.

Lemma own_record_of_none : forall opts n,
  ~ In n (map fst opts) -> own (record_of opts) n = None.
Proof.
  induction opts as [|[n0 v0] opts IH]; intros n H; [reflexivity|]. simpl in *.
  destruct (String.eqb_spec n0 n) as [->|_]; [elim H; now left|].
  apply IH. tauto.
Qed.

Lemma update_update {V} (o : jsobj V) k (a b : V) :
  update (update o k (fun _ => a)) k (fun _ => b) = update o k (fun _ => b).
Proof.
  unfold update. rewrite map_map. apply map_ext. intros [k0 v0]. simpl.
  destruct (String.eqb_spec k0 k) as [->|N]; simpl.
  - now rewrite String.eqb_refl.
  - destruct (String.eqb_spec k0 k); [contradiction|reflexivity].
Qed.

(** An option given again and again. *)
Lemma options_again n : forall vs out l args,
  all is_letter n = true -> n <> "hasOwnProperty" ->
  Forall (fun v => v <> Some "") vs ->
  own out "hasOwnProperty" = None -> own out n <> None ->
  lib.argsArray2Object_from
    (map (fun v => option_text (n, v)) vs ++ args)
    (update out n (fun _ => lib.AArray l))
  = lib.argsArray2Object_from args
      (update out n (fun _ => lib.AArray (l ++ map option_value vs))).
Proof.
  induction vs as [|v vs IH]; intros out l args L N F Hh Hn.
  - simpl. now rewrite app_nil_r.
  - inversion F as [|? ? Hv F']; subst. simpl map. simpl app.
    destruct (own out n) as [old|] eqn:E; [|now elim Hn].
    rewrite (option_again n v _ (lib.AArray l)).
    + rewrite update_update, IH; auto; [|now rewrite E].
      now rewrite <- app_assoc.
    + now repeat split.
    + rewrite own_update_other; [assumption|congruence].
    + now rewrite own_update_same, E.
Qed.

End OptionFacts.
(** ** The booleans of a JSON object *)

Module BooleanFacts.
Import RegExp PathFacts.

Lemma ws_not_t c : is_ws c = true -> chr_i "t" c = false.
Proof.
  destruct c as [[] [] [] [] [] [] [] []]; intros H; vm_compute in H;
    (discriminate H || reflexivity).
Qed.

Lemma ws_not_true c t : is_ws c = true -> starts_true (String c t) = false.
Proof.
  intros H. destruct t as [|r [|u [|e t]]]; try reflexivity.
  cbn [starts_true]. now rewrite (ws_not_t c H).
Qed.

Lemma many_always max p : forall s n x,
  matched (many 0 max p Some n x s) = true.
Proof.
  induction s as [|c t IH]; intros n x; cbn [many Nat.leb]; [reflexivity|].
  destruct (p c && leq_max (S n) max); [|reflexivity].
  now rewrite matched_alt, IH.
Qed.

Lemma true_tail_run x :
  matched (run true_tail x Some) = starts_true (rest x).
Proof.
  unfold true_tail. cbn [run]. destruct (rest x) as [|t [|r [|u [|e s]]]];
    cbn [starts_true endIndex rest captures]; try reflexivity.
  - now destruct (chr_i "t" t).
  - destruct (chr_i "t" t); [|reflexivity]. now destruct (chr_i "r" r).
  - destruct (chr_i "t" t); [|reflexivity].
    destruct (chr_i "r" r); [|reflexivity]. now destruct (chr_i "u" u).
  - destruct (chr_i "t" t); [|reflexivity].
    destruct (chr_i "r" r); [|reflexivity].
    destruct (chr_i "u" u); [|reflexivity].
    destruct (chr_i "e" e); [|reflexivity].
    cbn [andb]. apply many_always.
Qed.

Lemma true_run : forall s n x,
  rest x = s ->
  matched (many 0 None is_ws (fun y => run true_tail y Some) n x s)
  = starts_true (trim_left s).
Proof.
  induction s as [|c t IH]; intros n x Hx.
  - cbn [many Nat.leb]. now rewrite true_tail_run, Hx.
  - cbn [many Nat.leb leq_max trim_left]. rewrite andb_true_r.
    destruct (is_ws c) eqn:W.
    + rewrite matched_alt, IH by reflexivity.
      rewrite true_tail_run, Hx, (ws_not_true c t W). apply orb_false_r.
    + now rewrite true_tail_run, Hx.
Qed.

Lemma contains_trim : forall s,
  starts_true (trim_left s) = true -> contains_true s = true.
Proof.
  induction s as [|c t IH]; [discriminate|]. cbn [trim_left contains_true].
  destruct (is_ws c).
  - intros H. rewrite (IH H). apply orb_true_r.
  - intros ->. reflexivity.
Qed.

Lemma true_exec : forall s i,
  matched (exec_from lib.true_pattern i s) = contains_true s.
Proof.
  induction s as [|c t IH]; intros i.
  - reflexivity.
  - cbn [exec_from].
    pose proof (true_run (String c t) 0
                  {| endIndex := i; rest := String c t; captures := [] |}
                  eq_refl) as H.
    change (many 0 None is_ws (fun y => run true_tail y Some) 0
              {| endIndex := i; rest := String c t; captures := [] |}
              (String c t))
      with (run lib.true_pattern
              {| endIndex := i; rest := String c t; captures := [] |} Some) in H.
    destruct (run lib.true_pattern _ Some).
    + cbn [matched] in *. symmetry. now apply contains_trim.
    + cbn [matched] in H. rewrite IH. cbn [contains_true].
      cbn [trim_left] in H. destruct (is_ws c) eqn:W.
      * now rewrite (ws_not_true c t W).
      * now rewrite <- H.
Qed.

Lemma true_test s : test lib.true_pattern s = contains_true s.
Proof. exact (true_exec s 0). Qed.

End BooleanFacts.

(** ** Merging objects *)

Lemma copy_own {V} : forall (from sink : jsobj V) k,
  NoDup (keys from) -> own from "__proto__" = None ->
  own (lib.copy sink from) k
  = match own from k with Some v => Some v | None => own sink k end.
Proof.
  intros from. induction from as [|[k0 v0] src IH]; intros sink k ND P;
    [reflexivity|].
  inversion ND as [|? ? Hx ND']; subst. simpl in P.
  destruct (String.eqb_spec k0 "__proto__") as [|N]; [discriminate|].
  change (lib.copy sink ((k0, v0) :: src))
    with (lib.copy (js_set k0 v0 sink) src).
  rewrite IH by assumption. simpl.
  destruct (String.eqb_spec k0 k) as [<-|Hk].
  - assert (E : own src k0 = None) by now apply own_None.
    rewrite E. now apply own_js_set_same.
  - destruct (own src k); [reflexivity|]. apply own_js_set_other. congruence.
Qed.

Lemma fill_own : forall (from sink : jsobj lib.any),
  own from "__proto__" = None ->
  own from "hasOwnProperty" = None -> own sink "hasOwnProperty" = None ->
  exists sink',
    lib.fill sink from = (sink', Return tt) /\
    forall k, own sink' k
              = match own sink k with Some v => Some v | None => own from k end.
Proof.
  intros from. induction from as [|[k0 v0] src IH]; intros sink P Hs Hk.
  - exists sink. split; [reflexivity|]. intros k. now destruct (own sink k).
  - simpl in P, Hs.
    destruct (String.eqb_spec k0 "__proto__") as [|N]; [discriminate|].
    destruct (String.eqb_spec k0 "hasOwnProperty") as [|N']; [discriminate|].
    cbn [lib.fill]. rewrite Hk. destruct (own sink k0) as [old|] eqn:E.
    + destruct (IH sink P Hs Hk) as (sink' & F & O). exists sink'.
      split; [exact F|]. intros k. rewrite O. simpl.
      destruct (String.eqb_spec k0 k) as [<-|_]; [now rewrite E|reflexivity].
    + destruct (IH (js_set k0 v0 sink) P Hs) as (sink' & F & O).
      { rewrite own_js_set_other; [assumption|congruence]. }
      exists sink'. split; [exact F|]. intros k. rewrite O. simpl.
      destruct (String.eqb_spec k0 k) as [<-|Hn].
      * rewrite own_js_set_same by assumption. now rewrite E.
      * rewrite own_js_set_other by congruence. reflexivity.
Qed.

(** * Further properties of the interface *)

(** X1. Once [get(name, true)] has returned a module, [get(name)] returns
    that same module, with or without [anyway], and changes nothing. *)
Theorem get_finds_created_module (this this1 : ModuleCollection) (nm : jsval)
    (r : ref) :
  get nm true this = (this1, Return (VModule r)) ->
  forall anyway, get nm anyway this1 = (this1, Return (VModule r)).
Proof.
  intros G anyway. apply get_module_inv in G. destruct G as (Hs & m & Hm).
  now apply (get_found nm anyway this1 r m).
Qed.

Lemma get_finds_created_module_A :
  let c := fst (get (JString " A ") true empty) in
  get (JString " A ") true empty = (c, Return (VModule "A")) /\
  numberOfModules c = 1 /\
  forall anyway, get (JString " A ") anyway c = (c, Return (VModule "A")).
Proof.
  split; [reflexivity|]. split; [reflexivity|].
  apply (get_finds_created_module empty _ (JString " A ") "A"). reflexivity.
Defined.

(** X2. White space around a name plays no part: [get], [add] and
    [connect] behave on a name exactly as on the trimmed name, as long as
    something is left of it. *)
Theorem names_are_trimmed (this : ModuleCollection) (a b : string) :
  trim a <> "" -> trim b <> "" ->
  (forall anyway,
     get (JString a) anyway this = get (JString (trim a)) anyway this) /\
  (forall src, add (JString a) src this = add (JString (trim a)) src this) /\
  connect (JString a) (JString b) this
  = connect (JString (trim a)) (JString (trim b)) this.
Proof.
  intros Ha Hb.
  assert (G : forall x anyway c, trim x <> "" ->
            get (JString x) anyway c = get (JString (trim x)) anyway c).
  { intros x anyway c Hx. apply get_stringLike. now apply stringLike_trim. }
  split; [intros anyway; now apply G|]. split.
  - intros src. unfold add. now rewrite (G a true this Ha).
  - unfold connect. rewrite (G a true this Ha).
    destruct (get (JString (trim a)) true this) as [t1 [v1|e|]]; try reflexivity.
    now rewrite (G b true t1 Hb).
Qed.

Lemma names_are_trimmed_AB :
  trim " A" <> "" /\ trim "B " <> "" /\
  connect (JString " A") (JString "B ") empty
  = connect (JString "A") (JString "B") empty.
Proof.
  split; [discriminate|]. split; [discriminate|].
  apply (names_are_trimmed empty " A" "B "); discriminate.
Defined.

(** X3. A name that [Object.prototype] has a member for never becomes a
    module: [get] returns the inherited member and changes nothing, [add]
    throws a [TypeError] and changes nothing, and [connect] from that name
    throws a [TypeError]. *)
Theorem inherited_name_is_no_module (this : ModuleCollection) (nm : string)
    (b : builtin) :
  reached this -> inherited (trim nm) = Some b ->
  (forall anyway, get (JString nm) anyway this = (this, Return (VBuiltin b))) /\
  (forall src, add (JString nm) src this = (this, Throw TypeError)) /\
  (forall other, snd (connect (JString nm) other this) = Throw TypeError).
Proof.
  intros R Hi. destruct (reached_wf this R) as (W & _).
  assert (Hn : trim nm <> "") by (intros E; rewrite E in Hi; discriminate).
  assert (Ho : own (modules this) (trim nm) = None).
  { destruct (own (modules this) (trim nm)) eqn:E; [|reflexivity].
    apply own_In_keys in E. apply (wf_key W) in E.
    destruct E as (_ & _ & E). congruence. }
  assert (G : forall anyway,
            get (JString nm) anyway this = (this, Return (VBuiltin b))).
  { intros anyway. unfold get, js_get.
    now rewrite (stringLike_name nm Hn), Ho, Hi. }
  split; [exact G|]. split.
  - intros src. unfold add. now rewrite G.
  - intros other. unfold connect. rewrite G.
    pose proof (get_throws other true this) as T.
    pose proof (get_not_stuck other true this) as S.
    destruct (get other true this) as [t2 [v2|e|]]; simpl in *.
    + reflexivity.
    + now rewrite (T e eq_refl).
    + now elim S.
Qed.

Lemma inherited_name_is_no_module_constructor :
  reached empty /\ inherited (trim "constructor") = Some (native "Object") /\
  get (JString "constructor") true empty
  = (empty, Return (VBuiltin (native "Object"))) /\
  add (JString "constructor") (JString "a.js") empty = (empty, Throw TypeError) /\
  snd (connect (JString "constructor") (JString "A") empty) = Throw TypeError.
Proof.
  split; [apply reached_new|]. split; [reflexivity|].
  destruct (inherited_name_is_no_module empty "constructor" (native "Object")
              reached_new eq_refl) as (G & A & C).
  split; [apply G|]. split; [apply A|apply C].
Defined.

(** X4. In every collection a program can hold the counters agree with
    the data: [numberOfDependencies] is the length of [dependencies], every
    module counts its requirements and its dependants exactly, and both
    counts, summed over the modules, give the number of dependencies. *)
Theorem counters_agree_with_data (c : ModuleCollection) :
  reached c ->
  numberOfDependencies c = length (dependencies c) /\
  (forall k m, own (modules c) k = Some m ->
     numberOfRequirements m = length (requires m) /\
     numberOfDependants m = length (dependants m)) /\
  list_sum (map numberOfRequirements (values (modules c)))
  = length (dependencies c) /\
  list_sum (map numberOfDependants (values (modules c)))
  = length (dependencies c).
Proof.
  intros R. pose proof (reached_consistent c R) as C.
  split; [apply (cs_count C)|]. split.
  - intros k m Hm. split; [apply (cs_requires C k m Hm)|apply (cs_dependants C k m Hm)].
  - rewrite <- (cs_count C). split; [apply (cs_out C)|apply (cs_in C)].
Qed.

Lemma counters_agree_with_data_chain :
  reached chain_ABC /\
  numberOfDependencies chain_ABC = 2 /\
  map numberOfRequirements (values (modules chain_ABC)) = [1; 1; 0] /\
  map numberOfDependants (values (modules chain_ABC)) = [0; 1; 1] /\
  list_sum (map numberOfRequirements (values (modules chain_ABC)))
  = length (dependencies chain_ABC).
Proof.
  split; [apply reached_declare|]. do 3 (split; [reflexivity|]).
  apply (counters_agree_with_data chain_ABC), reached_declare.
Defined.

(** X5. In every collection a program can hold, [dependencies] lists
    every edge of the graph exactly once: the pair of a module and a
    requirement is in the sequence exactly when the module's [requires]
    holds the requirement, which is exactly when the requirement's
    [dependants] holds the module. *)
Theorem dependencies_are_the_edges (c : ModuleCollection) :
  reached c ->
  NoDup (dependencies c) /\
  forall a b,
    (In {| dep_module := a; dep_require := b |} (dependencies c)
     <-> In b (reqs (modules c) a)) /\
    (In b (reqs (modules c) a) <-> In a (deps (modules c) b)).
Proof.
  intros R. destruct (reached_wf c R) as (W & _).
  pose proof (reached_consistent c R) as C.
  split; [apply (cs_nodup C)|]. intros a b. split.
  - apply (consistent_edges c W C).
  - apply (wf_mirrored W).
Qed.

Lemma dependencies_are_the_edges_chain :
  reached chain_ABC /\
  dependencies chain_ABC
  = [{| dep_module := "A"; dep_require := "B" |};
     {| dep_module := "B"; dep_require := "C" |}] /\
  NoDup (dependencies chain_ABC) /\
  forall a b,
    (In {| dep_module := a; dep_require := b |} (dependencies chain_ABC)
     <-> In b (reqs (modules chain_ABC) a)) /\
    (In b (reqs (modules chain_ABC) a) <-> In a (deps (modules chain_ABC) b)).
Proof.
  split; [apply reached_declare|]. split; [reflexivity|].
  apply (dependencies_are_the_edges chain_ABC), reached_declare.
Defined.

(** X6. Between two usable, distinct names, [connect] succeeds exactly
    when the edge is new: when the pair is already among the dependencies it
    throws the [DuplicateEdge] message and changes neither the modules nor
    the dependencies; otherwise it returns the new dependency, appended to
    the sequence and counted. *)
Theorem connect_accepts_exactly_new_edges (c : ModuleCollection) (a b : string) :
  reached c ->
  trim a <> "" -> trim b <> "" ->
  inherited (trim a) = None -> inherited (trim b) = None ->
  trim a <> trim b ->
  let d := {| dep_module := trim a; dep_require := trim b |} in
  (In d (dependencies c) ->
   exists c',
     connect (JString a) (JString b) c
     = (c', Throw (DuplicateEdge (trim a) (trim b))) /\
     modules c' = modules c /\ dependencies c' = dependencies c) /\
  (~ In d (dependencies c) ->
   exists c',
     connect (JString a) (JString b) c = (c', Return d) /\
     dependencies c' = dependencies c ++ [d] /\
     numberOfDependencies c' = S (numberOfDependencies c)).
Proof.
  intros R Na Nb Ia Ib Hne d. destruct (reached_wf c R) as (W & _).
  pose proof (reached_consistent c R) as C. split.
  - intros Hin. destruct (cs_ends C d Hin) as (Ha & Hb & _). simpl in Ha, Hb.
    destruct (In_keys_own _ _ _ Ha) as (m & Hm).
    destruct (In_keys_own _ _ _ Hb) as (q & Hq).
    unfold connect.
    rewrite (get_found _ true c _ _ (stringLike_name a Na) Hm).
    rewrite (get_found _ true c _ _ (stringLike_name b Nb) Hq).
    unfold Dependency_new, require. rewrite Hm, Hq.
    rewrite (wf_name W _ Hm), (wf_name W _ Hq).
    destruct (String.eqb_spec (trim a) (trim b)); [contradiction|].
    destruct (cs_requires C _ m Hm) as (Rm & _).
    assert (G : js_get (requires m) (trim b) = Own (trim b)).
    { assert (O : own (requires_of (dependencies c) (trim a)) (trim b)
                  = Some (trim b)).
      { apply (requires_of_own (dependencies c) d Hin). simpl.
        now apply inherited_not_proto. }
      unfold js_get. now rewrite Rm, O. }
    rewrite G. simpl. eexists. split; [reflexivity|]. simpl. auto.
  - intros Hnew.
    destruct (connect_fresh c (JString a) (JString b) (trim a) (trim b) W C)
      as (c' & Cn & D & N & _); auto using stringLike_name.
    exists c'. auto.
Qed.

Lemma connect_accepts_exactly_new_edges_chain :
  reached chain_ABC /\
  snd (connect (JString "A") (JString "B") chain_ABC)
  = Throw (DuplicateEdge "A" "B") /\
  snd (connect (JString "A") (JString "C") chain_ABC)
  = Return {| dep_module := "A"; dep_require := "C" |} /\
  let d := {| dep_module := trim "A"; dep_require := trim "C" |} in
  (In d (dependencies chain_ABC) ->
   exists c',
     connect (JString "A") (JString "C") chain_ABC
     = (c', Throw (DuplicateEdge (trim "A") (trim "C"))) /\
     modules c' = modules chain_ABC /\ dependencies c' = dependencies chain_ABC) /\
  (~ In d (dependencies chain_ABC) ->
   exists c',
     connect (JString "A") (JString "C") chain_ABC = (c', Return d) /\
     dependencies c' = dependencies chain_ABC ++ [d] /\
     numberOfDependencies c' = S (numberOfDependencies chain_ABC)).
Proof.
  split; [apply reached_declare|]. split; [reflexivity|]. split; [reflexivity|].
  apply (connect_accepts_exactly_new_edges chain_ABC "A" "C");
    [apply reached_declare|discriminate|discriminate|reflexivity|reflexivity
    |discriminate].
Defined.

(** X7. A module is defined once: after [add(name, source)] has returned,
    [add] of the same name throws the [DuplicateDefinition] message, which
    carries the name, the source now offered and the source kept, and the
    collection stays as it is. *)
Theorem add_twice_duplicate_definition (this c1 : ModuleCollection)
    (nm src src' : jsval) (r : ref) :
  reached this -> add nm src this = (c1, Return r) ->
  exists s,
    lib.stringLike src = Return s /\
    field source None (modules c1) r = Some s /\
    add nm src' c1
    = (c1, Throw (DuplicateDefinition r (ModuleMethods.display src') s)).
Proof.
  intros R. destruct (reached_wf this R) as (W & _).
  destruct (wf_get nm true this W) as (W1 & _).
  unfold add at 1.
  destruct (get nm true this) as [t1 [[r'| |]| |]] eqn:G; try discriminate.
  simpl in W1.
  destruct (own (modules t1) r') as [m|] eqn:Hm; [|discriminate].
  destruct (ModuleMethods.define src m) as [m'| |] eqn:D; try discriminate.
  apply get_module_inv in G. destruct G as (Hs & _).
  destruct (define_result _ _ _ D) as (_ & s & Hsrc & ->).
  pose proof (wf_name W1 r' Hm) as Nm.
  set (m' := ModuleMethods.with_source (Some s) m) in *.
  assert (K : forall c, modules c = update (modules t1) r' (fun _ => m') ->
            add nm src' c
            = (c, Throw (DuplicateDefinition r' (ModuleMethods.display src') s)) /\
            field source None (modules c) r' = Some s).
  { intros c M.
    assert (Ho : own (modules c) r' = Some m')
      by (now rewrite M, own_update_same, Hm).
    split.
    - unfold add. rewrite (get_found nm true c r' m' Hs Ho), Ho.
      unfold ModuleMethods.define. simpl. now rewrite Nm.
    - unfold field. now rewrite Ho. }
  assert (Fin : forall c, modules c = update (modules t1) r' (fun _ => m') ->
            (c, Return r') = (c1, Return r) ->
            exists s0, lib.stringLike src = Return s0 /\
              field source None (modules c1) r = Some s0 /\
              add nm src' c1
              = (c1, Throw (DuplicateDefinition r (ModuleMethods.display src') s0))).
  { intros c M H. injection H as <- <-. exists s.
    destruct (K c M) as (K1 & K2). auto. }
  destruct (js_get _ _).
  - now apply Fin.
  - destruct (String.eqb _ _); [discriminate|]. now apply Fin.
  - now apply Fin.
Qed.

Lemma add_twice_duplicate_definition_A :
  let c1 := fst (add (JString "A") (JString " a.js") empty) in
  reached empty /\
  add (JString "A") (JString " a.js") empty = (c1, Return "A") /\
  add (JString "A") (JString "b.js") c1
  = (c1, Throw (DuplicateDefinition "A" "b.js" "a.js")) /\
  exists s,
    lib.stringLike (JString " a.js") = Return s /\
    field source None (modules c1) "A" = Some s /\
    add (JString "A") (JString "b.js") c1
    = (c1, Throw (DuplicateDefinition "A"
                    (ModuleMethods.display (JString "b.js")) s)).
Proof.
  split; [apply reached_new|]. split; [reflexivity|]. split; [reflexivity|].
  apply (add_twice_duplicate_definition empty _ (JString "A") (JString " a.js")
           (JString "b.js") "A" reached_new).
  reflexivity.
Defined.

(** X8. [add] with a missing or empty source throws a [TypeError], but
    only after [get] has created the module: a new name stays in the
    collection as a module without a source, and is counted. *)
Theorem add_without_source_leaves_orphan (this : ModuleCollection)
    (nm : string) (src : jsval) :
  trim nm <> "" -> inherited (trim nm) = None ->
  own (modules this) (trim nm) = None -> js_truthy src = false ->
  exists c',
    add (JString nm) src this = (c', Throw TypeError) /\
    own (modules c') (trim nm) = Some (fresh_module (trim nm)) /\
    numberOfModules c' = S (numberOfModules this) /\
    sources c' = sources this.
Proof.
  intros Hn Hi Ho Hsrc.
  destruct (get_anyway nm this Hn Hi) as (t1 & G & E & _).
  rewrite Ho in E. subst t1. unfold add. rewrite G. simpl modules.
  rewrite own_js_set_same by now apply inherited_not_proto.
  assert (D : ModuleMethods.define src (fresh_module (trim nm)) = Throw TypeError).
  { destruct src as [|s|m]; simpl in Hsrc; try discriminate; [reflexivity|].
    destruct s; [reflexivity|discriminate]. }
  rewrite D. eexists. split; [reflexivity|]. simpl.
  rewrite own_js_set_same by now apply inherited_not_proto. auto.
Qed.

Lemma add_without_source_leaves_orphan_A :
  trim "A" <> "" /\ inherited (trim "A") = None /\
  own (modules empty) (trim "A") = None /\ js_truthy (JString "") = false /\
  orphanModules (analyse (fst (add (JString "A") (JString "") empty))) = ["A"] /\
  exists c',
    add (JString "A") (JString "") empty = (c', Throw TypeError) /\
    own (modules c') (trim "A") = Some (fresh_module (trim "A")) /\
    numberOfModules c' = S (numberOfModules empty) /\
    sources c' = sources empty.
Proof.
  split; [discriminate|]. do 4 (split; [reflexivity|]).
  apply (add_without_source_leaves_orphan empty "A" (JString ""));
    [discriminate|reflexivity|reflexivity|reflexivity].
Defined.

(** X9. Whatever its outcome, [serialize()] writes traversal fields only:
    the modules keep their keys, names, sources, export tags, adjacency
    dictionaries and counters, the collection keeps its counters, its
    registry of sources and its dependencies, and [analyse()] gives the same
    statistics as before. *)
Theorem serialize_writes_markers_only (c : ModuleCollection) :
  keys (modules (fst (serialize c))) = keys (modules c) /\
  (forall k m', own (modules (fst (serialize c))) k = Some m' ->
     exists m, own (modules c) k = Some m /\ same_graph m m') /\
  numberOfModules (fst (serialize c)) = numberOfModules c /\
  sources (fst (serialize c)) = sources c /\
  dependencies (fst (serialize c)) = dependencies c /\
  numberOfDependencies (fst (serialize c)) = numberOfDependencies c /\
  analyse (fst (serialize c)) = analyse c.
Proof.
  destruct (serialize_frame c) as (F & _).
  destruct (serialize_fields c) as (N & S & D & ND).
  split; [apply (frame_keys _ _ _ F)|].
  split; [intros k m'; now apply marker_frame_same_graph|].
  repeat split; auto. now apply analyse_frame.
Qed.

(** X10. [clone()] does not copy export tags or traversal fields: in the
    collection it returns no module has an export tag, whatever the original
    had, and [analyse()] counts no export. *)
Theorem clone_forgets_exports (c c' : ModuleCollection) :
  clone c = Return c' ->
  (forall k m, own (modules c') k = Some m -> exports m = [] /\ index m = None) /\
  numberOfExports (analyse c') = 0.
Proof.
  intros H. pose proof (clone_pristine c c' H) as P.
  split.
  - intros k m Hm. destruct (P k m Hm) as (E & _ & _ & _ & I). auto.
  - destruct (built_wf c' (built_clone c c' H)) as (W & _).
    destruct (analyse_wf c' W) as (_ & _ & -> & _).
    unfold exports_total. apply list_sum_zero.
    intros x Hx. apply in_map_iff in Hx. destruct Hx as (m & <- & Hm).
    unfold values in Hm. apply in_map_iff in Hm. destruct Hm as ([k m0] & <- & Hin).
    apply (In_own _ _ _ _ (wf_keys W)) in Hin.
    destruct (P k m0 Hin) as (E & _). simpl. now rewrite E.
Qed.

Lemma clone_forgets_exports_tagged :
  numberOfExports (analyse tagged_pair) = 1 /\
  clone tagged_pair = Return tagged_pair_clone /\
  (forall k m, own (modules tagged_pair_clone) k = Some m ->
     exports m = [] /\ index m = None) /\
  numberOfExports (analyse tagged_pair_clone) = 0.
Proof.
  assert (E : clone tagged_pair = Return tagged_pair_clone)
    by (vm_compute; reflexivity).
  split; [reflexivity|]. split; [exact E|].
  exact (clone_forgets_exports tagged_pair tagged_pair_clone E).
Defined.

(** X11. On every collection a program can hold in which each module has
    a usable source (not empty, not [__proto__]), [clone()] returns a
    collection with the same modules in the same order, each with its name,
    its source and its adjacency dictionaries and counters, but without
    export tags and traversal fields; with the same dependencies in the
    same order; and with counters that are exact, also when the original
    over-counted its modules. *)
Theorem clone_copies_the_graph (c : ModuleCollection) :
  reached c ->
  (forall k m, own (modules c) k = Some m -> usable_source m) ->
  exists c',
    clone c = Return c' /\
    modules c' = on_values forget (modules c) /\
    dependencies c' = dependencies c /\
    numberOfDependencies c' = length (dependencies c) /\
    numberOfModules c' = length (modules c).
Proof. apply clone_wf. Qed.

Lemma clone_copies_the_graph_tagged :
  reached tagged_pair /\
  (forall k m, own (modules tagged_pair) k = Some m -> usable_source m) /\
  exists c',
    clone tagged_pair = Return c' /\
    modules c' = on_values forget (modules tagged_pair) /\
    dependencies c' = dependencies tagged_pair /\
    numberOfDependencies c' = length (dependencies tagged_pair) /\
    numberOfModules c' = length (modules tagged_pair).
Proof.
  assert (U : forall k m, own (modules tagged_pair) k = Some m -> usable_source m)
    by (apply usable_sourceb_sound; reflexivity).
  split; [apply reached_tagged_pair|]. split; [exact U|].
  exact (clone_copies_the_graph tagged_pair reached_tagged_pair U).
Defined.

(** X12. [serialize()] can be called again: on every collection a program
    can hold whose requirements form no cycle, a second call returns the
    same buckets as the first. The [index] fields the first call leaves on
    the modules are never read by the second. *)
Theorem serialize_is_repeatable (c : ModuleCollection) :
  reached c -> acyclic (modules c) ->
  exists s,
    snd (serialize c) = Return s /\
    snd (serialize (fst (serialize c))) = Return s.
Proof.
  intros R A. destruct (reached_wf c R) as (W & C). specialize (C A).
  destruct (serialize_outcome c W C)
    as [(c' & bs & E & _ & C' & F & _)|(c' & n & _ & P & _)];
    [|now apply A in P].
  eexists. rewrite E. simpl. split; [reflexivity|].
  rewrite (serialize_sim c c' W C C' F). now rewrite E.
Qed.

Lemma serialize_is_repeatable_chains :
  reached chains_interleaved /\ acyclic (modules chains_interleaved) /\
  snd (serialize (fst (serialize chains_interleaved)))
  = Return {| elements := [Some ["C"; "B"; "A"]; Some ["Z"; "Y"; "X"]];
              undefined_bucket := None |} /\
  exists s,
    snd (serialize chains_interleaved) = Return s /\
    snd (serialize (fst (serialize chains_interleaved))) = Return s.
Proof.
  split; [apply reached_declare|].
  split; [apply (ranked_acyclic rank_chains); reflexivity|].
  split; [vm_compute; reflexivity|].
  apply (serialize_is_repeatable chains_interleaved).
  - apply reached_declare.
  - apply (ranked_acyclic rank_chains); reflexivity.
Defined.

(** X13. [format] replaces every placeholder of a token by the parameter
    of that number, converted to a string: nothing for [null], the text
    [undefined] when there is no such parameter. The parameters are the
    elements of the second argument when it is an array and the arguments
    after the token otherwise; with no parameter at all the token comes back
    unchanged, placeholders included. The text put in is not searched
    again. *)
Theorem format_substitutes_parameters (lit : string)
    (holes : list (string * string)) (after_token : list lib.any) :
  plain lit = true -> placeholders_ok holes ->
  lib.format (lib.AString (token_of lit holes) :: after_token)
  = lib.AString
      match parameters after_token with
      | [] => token_of lit holes
      | params => filled (parameter_text params) lit holes
      end.
Proof. apply format_token. Qed.

Lemma format_substitutes_parameters_messages :
  let holes := [("1", " already marked as requirement of "); ("0", "")] in
  plain "" = true /\ placeholders_ok holes /\
  token_of "" holes = duplicate_edge_token /\
  lib.format [lib.AString duplicate_edge_token; lib.AString "A"; lib.AString "{0}"]
  = lib.AString "{0} already marked as requirement of A" /\
  lib.format [lib.AString duplicate_edge_token;
              lib.AArray [lib.ANull; lib.ANumber 7]]
  = lib.AString "7 already marked as requirement of " /\
  lib.format [lib.AString duplicate_edge_token]
  = lib.AString duplicate_edge_token /\
  lib.format [lib.AString (token_of "" holes); lib.AString "A"]
  = lib.AString
      match parameters [lib.AString "A"] with
      | [] => token_of "" holes
      | params => filled (parameter_text params) "" holes
      end.
Proof.
  assert (Ok : placeholders_ok
                 [("1", " already marked as requirement of "); ("0", "")]).
  { intros ds lit [H|[H|[]]]; injection H as <- <-;
      (split; [discriminate|split; reflexivity]). }
  split; [reflexivity|]. split; [exact Ok|].
  do 4 (split; [vm_compute; reflexivity|]).
  exact (format_substitutes_parameters "" _ [lib.AString "A"] eq_refl Ok).
Defined.

(** X14. The string of a dependency of a collection a program can hold is
    the name of the module and the name of its requirement, in this order,
    each between double quotes and joined by an arrow, with a backslash put
    before every double quote of a name (and before nothing else): in the
    escaped name every double quote follows a backslash. *)
Theorem dependency_prints_escaped_names (c : ModuleCollection) (d : Dependency) :
  reached c -> In d (dependencies c) ->
  Dependency_toString (modules c) d
  = Return (glue [quote; escaped (dep_module d); quote; "->";
                  quote; escaped (dep_require d); quote; ";"]) /\
  forall s pre post,
    escape_quotes s = String.append pre (String.append quote post) ->
    exists pre', pre = String.append pre' "\".
Proof.
  intros R Hd. destruct (reached_wf c R) as (W & _).
  pose proof (reached_consistent c R) as C. split.
  - destruct (cs_ends C d Hd) as (Ha & Hb & _).
    destruct (In_keys_own _ _ _ Ha) as (m & Hm).
    destruct (In_keys_own _ _ _ Hb) as (q & Hq).
    unfold Dependency_toString, ModuleMethods.toString. rewrite Hm, Hq.
    rewrite (wf_name W _ Hm), (wf_name W _ Hq).
    rewrite dependency_token_format. now rewrite !escape_quotes_escaped.
  - intros s pre post. rewrite escape_quotes_escaped. apply escaped_quotes_follow.
Qed.

Lemma dependency_prints_escaped_names_AB :
  let d := {| dep_module := "A"; dep_require := "B" |} in
  reached chain_ABC /\ In d (dependencies chain_ABC) /\
  escape_quotes (glue ["a"; quote; "b\"]) = glue ["a\"; quote; "b\"] /\
  Dependency_toString (modules chain_ABC) d
  = Return (glue [quote; escaped (dep_module d); quote; "->";
                  quote; escaped (dep_require d); quote; ";"]).
Proof.
  split; [apply reached_declare|]. split; [now left|].
  split; [vm_compute; reflexivity|].
  apply (dependency_prints_escaped_names chain_ABC
           {| dep_module := "A"; dep_require := "B" |});
    [apply reached_declare|now left].
Defined.

(** X15. The string of a collection a program can hold is the DOT graph
    [digraph jslink], with, for every module in enumeration order, one line
    per dependant, an arrow from the module (a requirement) to the dependant,
    or, when no module depends on it, the line of the module alone; names
    are put between double quotes as they are, without escaping. *)
Theorem toString_prints_digraph (c : ModuleCollection) :
  reached c -> toString c = digraph c.
Proof.
  intros R. apply toString_digraph; [apply (reached_wf c R)|].
  now apply reached_consistent.
Qed.

Lemma toString_prints_digraph_chain :
  reached chain_ABC /\
  digraph chain_ABC
  = glue ["digraph jslink {"; newline; node_line "A"; edge_line "B" "A";
          edge_line "C" "B"; "}"] /\
  toString chain_ABC = digraph chain_ABC.
Proof.
  split; [apply reached_declare|]. split; [vm_compute; reflexivity|].
  apply (toString_prints_digraph chain_ABC), reached_declare.
Defined.

(** X16. [isUnixDirectory] holds of the paths [.] and [..] and of the paths
    that end with a slash, and of no other. *)
Theorem isUnixDirectory_dots_or_trailing_slash (p : string) :
  lib.isUnixDirectory p = true <->
  p = "." \/ p = ".." \/ exists q, p = String.append q "/".
Proof.
  change (lib.isUnixDirectory p)
    with (matched (RegExp.exec_from lib.directory_pattern 0 p)).
  rewrite (PathFacts.directory_exec p 0). cbn [Nat.eqb andb].
  rewrite !orb_true_iff, !String.eqb_eq, PathFacts.ends_slash_spec. tauto.
Qed.

(** X17. [isUnixHiddenPath] holds of a path exactly when a hidden name, one
    dot or more followed by a character that is neither a dot nor a slash,
    stands at its head or right after a slash that itself follows a
    character other than a line terminator. *)
Theorem isUnixHiddenPath_finds_dotted_names (p : string) :
  lib.isUnixHiddenPath p = true <->
  exists pre name,
    p = String.append pre name /\ dotted name = true /\
    (pre = "" \/
     exists q c, pre = String.append q (String c "/") /\
                 RegExp.any_but_newline c = true).
Proof.
  change (lib.isUnixHiddenPath p)
    with (matched (RegExp.exec_from lib.hidden_pattern 0 p)).
  rewrite (PathFacts.hidden_exec p 0). cbn [Nat.eqb andb].
  rewrite orb_true_iff, PathFacts.hidden_from_spec. split.
  - intros [H|(q & c & name & -> & Hc & Hn)].
    + exists "", p. auto.
    + exists (String.append q (String c "/")), name.
      split; [now rewrite append_assoc|]. split; [assumption|].
      right. now exists q, c.
  - intros (pre & name & -> & Hn & [->|(q & c & -> & Hc)]).
    + now left.
    + right. exists q, c, name. split; [now rewrite append_assoc|]. now split.
Qed.

(** X18. A hidden name right under the root is not seen: [isUnixHiddenPath]
    is false of a slash followed by any text without a slash, such as
    [/.git]. *)
Theorem isUnixHiddenPath_misses_root_entries (name : string) :
  no_slash name = true -> lib.isUnixHiddenPath (String "/" name) = false.
Proof.
  intros H.
  change (lib.isUnixHiddenPath (String "/" name))
    with (matched (RegExp.exec_from lib.hidden_pattern 0 (String "/" name))).
  rewrite (PathFacts.hidden_exec (String "/" name) 0).
  cbn [Nat.eqb andb dotted Ascii.eqb Bool.eqb orb hidden_from].
  rewrite (PathFacts.hidden_from_no_slash name H), orb_false_r.
  destruct name as [|d t]; [reflexivity|]. cbn [no_slash] in H.
  apply andb_prop in H. destruct H as [H _].
  destruct (Ascii.eqb d "/"); [discriminate|]. now rewrite andb_false_r.
Qed.

Lemma isUnixHiddenPath_misses_root_entries_git :
  no_slash ".git" = true /\ lib.isUnixHiddenPath "/.git" = false /\
  lib.isUnixHiddenPath ".git" = true /\ lib.isUnixHiddenPath "a/.git" = true.
Proof.
  split; [reflexivity|].
  split; [apply (isUnixHiddenPath_misses_root_entries ".git"); reflexivity|].
  split; reflexivity.
Defined.

(** X19. Options with distinct names of letters, each written once as
    [--name=value] with a value that is not empty or as the flag [--name],
    are read back as they were written: [argsArray2Object] returns one
    property per option, in the order given, holding the value as a string,
    or [true] for a flag. It consumes every argument, or stops after the
    first empty one and leaves the arguments that follow it. *)
Theorem argsArray2Object_reads_options_back
    (opts : list (string * option string)) (more : list string) :
  Forall option_ok opts -> NoDup (map fst opts) ->
  lib.argsArray2Object (map option_text opts) = ([], Return (record_of opts)) /\
  lib.argsArray2Object (map option_text opts ++ "" :: more)
  = (more, Return (record_of opts)).
Proof.
  intros F ND. unfold lib.argsArray2Object. split.
  - rewrite <- (app_nil_r (map option_text opts)).
    rewrite OptionFacts.options_first; auto.
  - rewrite OptionFacts.options_first; auto.
Qed.

Lemma argsArray2Object_reads_options_back_cli :
  let opts := [("out", Some "a.js"); ("verbose", None); ("depth", Some "=2")] in
  Forall option_ok opts /\ NoDup (map fst opts) /\
  map option_text opts = ["--out=a.js"; "--verbose"; "--depth==2"] /\
  lib.argsArray2Object (map option_text opts ++ ["" ; "x"])
  = (["x"], Return [("out", lib.AString "a.js"); ("verbose", lib.ABool true);
                    ("depth", lib.AString "=2")]).
Proof.
  assert (F : Forall option_ok
                [("out", Some "a.js"); ("verbose", None); ("depth", Some "=2")]).
  { repeat constructor; discriminate. }
  assert (ND : NoDup (map fst [("out", Some "a.js"); ("verbose", @None string);
                               ("depth", Some "=2")])).
  { repeat constructor; simpl; intuition discriminate. }
  split; [exact F|]. split; [exact ND|]. split; [reflexivity|].
  exact (proj2 (argsArray2Object_reads_options_back _ ["x"] F ND)).
Defined.

(** X20. An option given again after the options that were given once has
    its values collected: the property of its name, where it first was,
    becomes the array of its first value and the later ones in the order
    given, and the other options are kept. *)
Theorem argsArray2Object_collects_repeated_option
    (opts : list (string * option string)) (n : string) (v0 : option string)
    (vs : list (option string)) :
  Forall option_ok opts -> NoDup (map fst opts) -> In (n, v0) opts ->
  vs <> [] -> Forall (fun v => v <> Some "") vs ->
  lib.argsArray2Object
    (map option_text opts ++ map (fun v => option_text (n, v)) vs)
  = ([], Return (update (record_of opts) n
                   (fun _ => lib.AArray (option_value v0
                                         :: map option_value vs)))).
Proof.
  intros F ND Hin Hvs Fv. unfold lib.argsArray2Object.
  rewrite OptionFacts.options_first; auto. cbn [app].
  pose proof (proj1 (Forall_forall _ _) F _ Hin) as (L & N & _).
  cbn [fst] in L, N.
  assert (Hh : own (record_of opts) "hasOwnProperty" = None).
  { apply OptionFacts.own_record_of_none. intros H.
    apply in_map_iff in H. destruct H as (o & E & Ho).
    destruct (proj1 (Forall_forall _ _) F o Ho) as (_ & N' & _). now elim N'. }
  pose proof (OptionFacts.own_record_of opts n v0 ND Hin) as Hn.
  destruct vs as [|v vs]; [now elim Hvs|].
  inversion Fv as [|? ? Hv Fv']; subst. cbn [map].
  rewrite (OptionFacts.option_again n v _ (option_value v0));
    [|now repeat split|assumption|assumption].
  assert (E : (fun _ : lib.any =>
                 match option_value v0 with
                 | lib.AArray l => lib.AArray (l ++ [option_value v])
                 | _ => lib.AArray [option_value v0; option_value v]
                 end)
              = (fun _ => lib.AArray [option_value v0; option_value v]))
    by now destruct v0.
  rewrite E. rewrite <- (app_nil_r (map (fun v => option_text (n, v)) vs)).
  rewrite OptionFacts.options_again;
    [reflexivity|assumption|assumption|assumption|assumption|now rewrite Hn].
Qed.

Lemma argsArray2Object_collects_repeated_option_cli :
  let opts := [("src", Some "a.js"); ("verbose", None)] in
  Forall option_ok opts /\ NoDup (map fst opts) /\ In ("src", Some "a.js") opts /\
  lib.argsArray2Object ["--src=a.js"; "--verbose"; "--src=b.js"; "--src"]
  = ([], Return [("src", lib.AArray [lib.AString "a.js"; lib.AString "b.js";
                                      lib.ABool true]);
                 ("verbose", lib.ABool true)]).
Proof.
  assert (F : Forall option_ok [("src", Some "a.js"); ("verbose", None)]).
  { repeat constructor; discriminate. }
  assert (ND : NoDup (map fst [("src", Some "a.js"); ("verbose", @None string)])).
  { repeat constructor; simpl; intuition discriminate. }
  split; [exact F|]. split; [exact ND|]. split; [now left|].
  refine (argsArray2Object_collects_repeated_option _ "src" (Some "a.js")
            [Some "b.js"; None] F ND (or_introl eq_refl) _ _).
  - discriminate.
  - repeat constructor; discriminate.
Defined.

(** X21. An option named [hasOwnProperty] shadows the method the reader
    calls: the next argument that begins with two dashes makes
    [argsArray2Object] throw a TypeError, the arguments after it being left
    unread. *)
Theorem argsArray2Object_hasOwnProperty_option_throws
    (opts : list (string * option string)) (r a : string)
    (args : list string) :
  Forall option_ok opts -> NoDup (map fst opts) -> stops RegExp.is_letter r ->
  lib.argsArray2Object
    (map option_text opts
     ++ String.append "--hasOwnProperty" r :: String.append "--" a :: args)
  = (args, Throw TypeError).
Proof.
  intros F ND Hr. unfold lib.argsArray2Object.
  rewrite OptionFacts.options_first; auto. cbn [app].
  assert (Hh : own (record_of opts) "hasOwnProperty" = None).
  { apply OptionFacts.own_record_of_none. intros H.
    apply in_map_iff in H. destruct H as (o & E & Ho).
    destruct (proj1 (Forall_forall _ _) F o Ho) as (_ & N' & _). now elim N'. }
  destruct (OptionFacts.option_exec "hasOwnProperty" r eq_refl Hr)
    as (y & Hy & H1 & H2).
  destruct (OptionFacts.letters_split a) as (n & r' & -> & Hn & Hr').
  destruct (OptionFacts.option_exec n r' Hn Hr') as (y' & Hy' & _).
  change (String.append "--hasOwnProperty" r)
    with (String.append "--" (String.append "hasOwnProperty" r)).
  cbn [lib.argsArray2Object_from].
  change (String.eqb (String.append "--" (String.append "hasOwnProperty" r)) "")
    with false.
  change (String.eqb (String.append "--" (String.append n r')) "") with false.
  cbv iota. rewrite Hy, Hy'. cbn [RegExp.final]. unfold lib.replacer at 1.
  rewrite H1, Hh. rewrite OptionFacts.js_set_letters by (reflexivity || assumption).
  unfold lib.replacer. rewrite own_app_fresh, Hh. reflexivity.
Qed.

Lemma argsArray2Object_hasOwnProperty_option_throws_cli :
  Forall option_ok [("a", Some "1")] /\ NoDup (map fst [("a", Some "1")]) /\
  stops RegExp.is_letter "=x" /\
  lib.argsArray2Object ["--a=1"; "--hasOwnProperty=x"; "--b"; "--c"]
  = (["--c"], Throw TypeError).
Proof.
  assert (F : Forall option_ok [("a", Some "1")]).
  { repeat constructor; discriminate. }
  assert (ND : NoDup (map fst [("a", Some "1")])).
  { repeat constructor; simpl; intuition. }
  split; [exact F|]. split; [exact ND|]. split; [reflexivity|].
  exact (argsArray2Object_hasOwnProperty_option_throws _ "=x" "b" ["--c"]
           F ND eq_refl).
Defined.

(** X22. The arguments that are not empty and do not begin with two dashes
    change nothing in what [argsArray2Object] returns: the outcome is that
    of the list without them. *)
Theorem argsArray2Object_passes_over_words (args : list string) :
  snd (lib.argsArray2Object args)
  = snd (lib.argsArray2Object (filter dashed args)).
Proof.
  unfold lib.argsArray2Object. generalize (@nil (string * lib.any)) as out.
  induction args as [|arg args IH]; intros out; [reflexivity|].
  cbn [filter]. destruct (dashed arg) eqn:D.
  - cbn [lib.argsArray2Object_from]. destruct (String.eqb arg ""); [reflexivity|].
    destruct (RegExp.exec_from lib.option_pattern 0 arg) as [res|]; [|apply IH].
    destruct (lib.replacer (RegExp.final res) out); [apply IH|reflexivity..].
  - cbn [lib.argsArray2Object_from].
    destruct (String.eqb_spec arg "") as [->|_]; [discriminate D|].
    rewrite OptionFacts.option_miss; [apply IH|].
    intros t ->. discriminate D.
Qed.

(** X23. On an object that has no property named [hasOwnProperty],
    [parseJSONBooleans] returns; it keeps the keys and their order, leaves
    the properties that are not listed as they are, and replaces the value
    of every listed property the object has by a boolean: whether the string
    of the value contains the letters of [true], in either case. *)
Theorem parseJSONBooleans_tells_true (booleans : list string) :
  forall obj : jsobj lib.any,
  own obj "hasOwnProperty" = None ->
  exists obj',
    lib.parseJSONBooleans obj booleans = (obj', Return tt) /\
    keys obj' = keys obj /\
    forall k,
      own obj' k
      = if existsb (String.eqb k) booleans
        then option_map as_boolean (own obj k)
        else own obj k.
Proof.
  induction booleans as [|prop bs IH]; intros obj Hh.
  - exists obj. now repeat split.
  - cbn [lib.parseJSONBooleans]. rewrite Hh.
    destruct (own obj prop) as [v|] eqn:E.
    + rewrite BooleanFacts.true_test. fold (as_boolean v).
      destruct (IH (update obj prop (fun _ => as_boolean v)))
        as (obj' & P & K & O).
      { rewrite own_update, Hh. now destruct (String.eqb _ prop). }
      exists obj'. split; [exact P|]. split; [now rewrite K, keys_update|].
      intros k. rewrite O, own_update. cbn [existsb].
      destruct (String.eqb_spec k prop) as [->|_]; [|reflexivity].
      rewrite E. cbn [orb option_map].
      destruct (existsb (String.eqb prop) bs); [|reflexivity].
      unfold as_boolean. cbn [lib.to_string].
      now destruct (contains_true (lib.to_string v)).
    + destruct (IH obj Hh) as (obj' & P & K & O).
      exists obj'. split; [exact P|]. split; [exact K|].
      intros k. rewrite O. cbn [existsb].
      destruct (String.eqb_spec k prop) as [->|_]; [|reflexivity].
      rewrite E. cbn [orb option_map]. now destruct (existsb _ bs).
Qed.

Lemma parseJSONBooleans_tells_true_settings :
  let obj := [("strict", lib.AString " TRUE "); ("debug", lib.AString "untrue");
              ("quiet", lib.AString "yes"); ("name", lib.AString "true")] in
  own obj "hasOwnProperty" = None /\
  lib.parseJSONBooleans obj ["strict"; "debug"; "quiet"; "absent"; "strict"]
  = ([("strict", lib.ABool true); ("debug", lib.ABool true);
      ("quiet", lib.ABool false); ("name", lib.AString "true")], Return tt) /\
  exists obj',
    lib.parseJSONBooleans obj ["strict"] = (obj', Return tt) /\
    keys obj' = keys obj /\
    forall k,
      own obj' k
      = if existsb (String.eqb k) ["strict"]
        then option_map as_boolean (own obj k)
        else own obj k.
Proof.
  split; [reflexivity|]. split; [vm_compute; reflexivity|].
  apply (parseJSONBooleans_tells_true ["strict"]). reflexivity.
Defined.

(** X24. After [copy], the properties of the source are in the sink with
    the values of the source, and the other properties of the sink are as
    they were: the source wins. The source is a dictionary without a
    property named [__proto__]. *)
Theorem copy_lets_the_source_win {V} (sink source : jsobj V) (k : string) :
  NoDup (keys source) -> own source "__proto__" = None ->
  own (lib.copy sink source) k
  = match own source k with Some v => Some v | None => own sink k end.
Proof. intros ND P. now apply copy_own. Qed.

Lemma copy_lets_the_source_win_numbers :
  let sink := [("a", 1); ("b", 2)] in
  let source := [("b", 3); ("c", 4)] in
  NoDup (keys source) /\ own source "__proto__" = None /\
  lib.copy sink source = [("a", 1); ("b", 3); ("c", 4)] /\
  own (lib.copy sink source) "b" = Some 3.
Proof.
  assert (ND : NoDup (keys [("b", 3); ("c", 4)])).
  { repeat constructor; simpl; intuition discriminate. }
  split; [exact ND|]. split; [reflexivity|]. split; [reflexivity|].
  exact (copy_lets_the_source_win [("a", 1); ("b", 2)] [("b", 3); ("c", 4)]
           "b" ND eq_refl).
Defined.

(** X25. [fill] returns when neither object has a property named
    [hasOwnProperty]; the properties of the sink are then as they were, and
    the properties of the source that the sink did not have are added with
    the values of the source: the sink wins. The source has no property
    named [__proto__]. *)
Theorem fill_lets_the_sink_win (sink source : jsobj lib.any) :
  own source "__proto__" = None ->
  own source "hasOwnProperty" = None -> own sink "hasOwnProperty" = None ->
  exists sink',
    lib.fill sink source = (sink', Return tt) /\
    forall k, own sink' k
              = match own sink k with Some v => Some v | None => own source k end.
Proof. apply fill_own. Qed.

Lemma fill_lets_the_sink_win_numbers :
  let sink := [("a", lib.ANumber 1); ("b", lib.ANumber 2)] in
  let source := [("b", lib.ANumber 3); ("c", lib.ANumber 4)] in
  lib.fill sink source
  = ([("a", lib.ANumber 1); ("b", lib.ANumber 2); ("c", lib.ANumber 4)],
     Return tt) /\
  exists sink',
    lib.fill sink source = (sink', Return tt) /\
    forall k, own sink' k
              = match own sink k with Some v => Some v | None => own source k end.
Proof.
  split; [reflexivity|].
  apply (fill_lets_the_sink_win
           [("a", lib.ANumber 1); ("b", lib.ANumber 2)]
           [("b", lib.ANumber 3); ("c", lib.ANumber 4)]); reflexivity.
Defined.

(** X26. For every collection with a cycle of requirements, made through
    the interface with no failed [serialize()] before, [serialize()] throws
    the [CyclicDependency] message with the name of a module that lies on a
    cycle; the call returns no buckets. *)
Theorem serialize_cycle_throws (c : ModuleCollection) :
  built c -> (exists k, path (modules c) k k) ->
  exists c' n,
    serialize c = (c', Throw (CyclicDependency n)) /\ path (modules c) n n.
Proof.
  intros B H. destruct (built_wf c B) as (W & C).
  now apply serialize_cycle_wf.
Qed.

Lemma serialize_cycle_throws_ABC :
  built cycle_ABC /\ (exists k, path (modules cycle_ABC) k k) /\
  snd (serialize cycle_ABC) = Throw (CyclicDependency "A") /\
  exists c' n,
    serialize cycle_ABC = (c', Throw (CyclicDependency n)) /\
    path (modules cycle_ABC) n n.
Proof.
  split; [apply built_declare|].
  split; [exists "A"; exact cycle_ABC_path|].
  split; [reflexivity|].
  apply (serialize_cycle_throws cycle_ABC).
  - apply built_declare.
  - exists "A". exact cycle_ABC_path.
Defined.
